(** * FP-Growth (node-fpgrowth): a shallow embedding of the FP-tree and of the miner

    Sources embedded here:
    - [src/fpnode.ts]   : class [FPNode]  (getChild, upsertChild)
    - [src/fptree.ts]   : class [FPTree]  (construction, prefix paths,
                          conditional trees, single path, node links, headers)
    - [fpgrowth.ts]     : class [FPGrowth] (exec, _fpGrowth, _handleSinglePath,
                          _getFrequentItemset, _getDistinctItemsCount), in its
                          two states: with the single-path shortcut left as a
                          TODO (lines 317-461 of [src/fptree.ts], module
                          [General]) and with the shortcut (lines 98-263 of
                          [unnamed/part_001], module [Shortcut])

    Conventions.
    - The classes are generic in the item type [T]; the program only uses
      [JSON.stringify], [==] and [JSON.parse] on items.  Items are taken to be
      non-negative integer numbers (as in the README and the example), below
      [10^21], so [JSON.stringify] is the decimal notation (from [10^21] on
      it writes an exponent) and [==] is numeric equality.
    - JavaScript objects live in a heap.  An [FPNode] reference is the address
      of the node in the heap of its tree; addresses are handed out in
      allocation order, so the root of a tree has address 0.
    - Objects used as dictionaries ([ItemsCount], [IFPNodeMap]) are kept with
      their property creation order, because [Object.keys] observes it.
    - Counts are JavaScript numbers holding integers: [Z].
    - The support given to the miner is any JavaScript number, an IEEE 754
      double: [JS.Number], with the product and [Math.ceil] of doubles; on
      doubles the product is the one of the specification of binary64 in
      the Standard Library ([Binary64.Number_multiply_is_SFmul]).  A tree
      only compares its threshold with counts; it keeps the integer that
      these comparisons see ([JS.integer_bound]).
    - A function of the source that recurses along pointers is given a
      recursion bound; running out of it is the outcome [Stuck], which is shown
      not to happen on trees built by the program. *)

From Stdlib Require Import ZArith QArith Qround Qabs String Ascii DecimalString DecimalN.
From Stdlib Require Floats.SpecFloat.
From Stdlib Require Import Sorting.Sorted Permutation OrdersEx.
From stdpp Require Import base list strings sorting.
Close Scope Q_scope.
Local Open Scope Z_scope.

(** ** JavaScript values used by the program *)

Module JS.

(** [JSON.stringify] on a non-negative integer number. *)
Definition JSON_stringify (n : N) : string :=
  NilEmpty.string_of_uint (N.to_uint n).

(** [JSON.parse] on a key; the keys the program parses were all produced by
    [JSON.stringify], the fallback stands for the [SyntaxError] otherwise. *)
Definition JSON_parse (k : string) : N :=
  match NilEmpty.uint_of_string k with
  | Some d => N.of_uint d
  | None => 0%N
  end.

(** [a.localeCompare(b)] on strings of decimal digits: digit by digit, a
    proper prefix first. *)
Definition localeCompare (a b : string) : Z :=
  match String_as_OT.compare a b with
  | Lt => -1
  | Eq => 0
  | Gt => 1
  end.

(** [Array.prototype.sort(cmp)]: a stable sort; [cmp a b > 0] means that [a]
    goes after [b]. *)
Fixpoint sort_insert {A} (cmp : A -> A -> Z) (x : A) (l : list A) : list A :=
  match l with
  | [] => [x]
  | y :: l' => if 0 <? cmp x y then y :: sort_insert cmp x l' else x :: l
  end.

Definition Array_sort {A} (cmp : A -> A -> Z) (l : list A) : list A :=
  foldr (sort_insert cmp) [] l.

(** An object used as a dictionary: properties in creation order. *)
Definition Obj (V : Type) : Type := list (string * V).

(** [o[k]]; [None] is [undefined]. *)
Fixpoint get {V} (k : string) (o : Obj V) : option V :=
  match o with
  | [] => None
  | (k', v) :: o' => if String.eqb k k' then Some v else get k o'
  end.

(** [o[k] = v]: an existing property keeps its place, a new one is created
    last. *)
Fixpoint set {V} (k : string) (v : V) (o : Obj V) : Obj V :=
  match o with
  | [] => [(k, v)]
  | (k', v') :: o' =>
      if String.eqb k k' then (k, v) :: o' else (k', v') :: set k v o'
  end.

(** A property name that is an array index: the canonical decimal notation
    of an integer below [2^32 - 1]. *)
Definition array_index (k : string) : option N :=
  match NilEmpty.uint_of_string k with
  | Some d =>
      let n := N.of_uint d in
      if String.eqb (JSON_stringify n) k && (n <=? 4294967294)%N
      then Some n else None
  | None => None
  end.

Definition is_array_index (k : string) : bool :=
  match array_index k with Some _ => true | None => false end.

(** [Object.keys(o)]: array indices in ascending numeric order, then the
    other property names in creation order. *)
Definition Object_keys {V} (o : Obj V) : list string :=
  let ks := map fst o in
  Array_sort (fun a b => Z.of_N (JSON_parse a) - Z.of_N (JSON_parse b))
             (List.filter is_array_index ks)
  ++ List.filter (fun k => negb (is_array_index k)) ks.

(** Exceptions. *)
Inductive Exn : Type :=
| Error (msg : string)
| TypeError (msg : string).

(** Outcome of a call: a value, an exception, or the recursion bound of the
    model exceeded. *)
Inductive result (A : Type) : Type :=
| Ok (a : A)
| Throw (e : Exn)
| Stuck.
Arguments Ok {A} a.
Arguments Throw {A} e.
Arguments Stuck {A}.

Definition bind {A B} (r : result A) (f : A -> result B) : result B :=
  match r with
  | Ok a => f a
  | Throw e => Throw e
  | Stuck => Stuck
  end.

(** Numbers.  A JavaScript number is an IEEE 754 double.  Every finite
    double is an integer multiple of [2^-1074], the least positive double:
    [Finite u] is the number [u * 2^-1074].  The sign of a zero is not kept;
    no operation of the program observes it. *)
Inductive Number : Type :=
| Finite (u : Z)
| PosInfinity
| NegInfinity
| NaN.

(** The number that is the integer [z]. *)
Definition Number_of_Z (z : Z) : Number := Finite (z * 2 ^ 1074).

(** The double of significand [m] and exponent [e], [m * 2^e], for
    [-1074 <= e]. *)
Definition double (m e : Z) : Number := Finite (m * 2 ^ (e + 1074)).

(** The rational that a finite number is. *)
Definition Number_value (x : Number) : Q :=
  match x with
  | Finite u => Qmake u (2 ^ 1074)
  | _ => 0%Q
  end.

(** [a / 2^s] to the nearest integer, to the even one of two that are as
    near. *)
Definition round_ties_even (a s : Z) : Z :=
  let q := a / 2 ^ s in
  let r := a mod 2 ^ s in
  let h := 2 ^ (s - 1) in
  if r <? h then q
  else if h <? r then q + 1
  else if Z.even q then q else q + 1.

(** The double nearest to [a * 2^-2148], for [0 <= a], counted in multiples
    of [2^-1074]: the significand keeps the 53 leading bits of [a], or what
    is above [2^-1074] when that is less (a subnormal result). *)
Definition nearest_magnitude (a : Z) : Z :=
  let s := Z.max (Z.log2 a + 1 - 53) 1074 in
  round_ties_even a s * 2 ^ (s - 1074).

(** [x * 2^-2148] rounded to a double (roundTiesToEven); a magnitude that
    rounds to [2^1024] or more is an infinity. *)
Definition round_to_double (x : Z) : Number :=
  let u := nearest_magnitude (Z.abs x) in
  if 2 ^ 2098 <=? u then (if 0 <? x then PosInfinity else NegInfinity)
  else Finite (Z.sgn x * u).

Definition Number_sign (x : Number) : Z :=
  match x with
  | Finite u => Z.sgn u
  | PosInfinity => 1
  | NegInfinity => -1
  | NaN => 0
  end.

(** [x * y]: the exact product rounded to a double; an infinity times zero
    is [NaN]. *)
Definition Number_multiply (x y : Number) : Number :=
  match x, y with
  | NaN, _ | _, NaN => NaN
  | Finite u, Finite v => round_to_double (u * v)
  | _, _ =>
      match Number_sign x * Number_sign y with
      | 0 => NaN
      | Zpos _ => PosInfinity
      | Zneg _ => NegInfinity
      end
  end.

(** [Math.ceil(x)] *)
Definition Math_ceil (x : Number) : Number :=
  match x with
  | Finite u => Finite (- (- u / 2 ^ 1074) * 2 ^ 1074)
  | _ => x
  end.

(** [x <= y] and [x < y]; false when one is [NaN]. *)
Definition Number_le (x y : Number) : Prop :=
  match x, y with
  | NaN, _ | _, NaN => False
  | NegInfinity, _ | _, PosInfinity => True
  | Finite u, Finite v => u <= v
  | _, _ => False
  end.

Definition Number_lt (x y : Number) : Prop :=
  match x, y with
  | NaN, _ | _, NaN => False
  | Finite u, Finite v => u < v
  | NegInfinity, (Finite _ | PosInfinity) => True
  | Finite _, PosInfinity => True
  | _, _ => False
  end.

(** [c >= x] for a count [c], which is an integer and a finite double, so
    that [- 2^1024 < c < 2^1024]: it is [integer_bound x <= c].  For a finite
    [x] this is [x] taken up to the next integer; every count reaches
    [-Infinity], none reaches [Infinity], and [c >= NaN] is false. *)
Definition integer_bound (x : Number) : Z :=
  match x with
  | Finite u => - (- u / 2 ^ 1074)
  | NegInfinity => - 2 ^ 1024
  | PosInfinity | NaN => 2 ^ 1024
  end.

End JS.

Import JS.

Global Instance result_ret : MRet JS.result := fun A a => JS.Ok a.
Global Instance result_bind : MBind JS.result := fun A B f r => JS.bind r f.

(** ** fpnode.ts *)

Abbreviation NodeRef := nat (only parsing).

Record FPNode : Type := mkFPNode {
  item : option N;                    (* [null] for the root *)
  support : Z;
  parent : option NodeRef;            (* [null] for the root *)
  children : list NodeRef;            (* [_children] *)
  nextSameItemNode : option NodeRef   (* [null] if there is none *)
}.

Abbreviation Heap := (list FPNode) (only parsing).

(** [new FPNode(item, parent)] *)
Definition new_FPNode (it : option N) (p : option NodeRef) : FPNode :=
  mkFPNode it 1 p [] None.

Definition set_support (s : Z) (n : FPNode) : FPNode :=
  mkFPNode (item n) s (parent n) (children n) (nextSameItemNode n).

Definition push_child (c : NodeRef) (n : FPNode) : FPNode :=
  mkFPNode (item n) (support n) (parent n) (children n ++ [c]) (nextSameItemNode n).

Definition set_nextSameItemNode (c : option NodeRef) (n : FPNode) : FPNode :=
  mkFPNode (item n) (support n) (parent n) (children n) c.

(** [child.item == item] *)
Definition item_is (h : Heap) (it : N) (c : NodeRef) : bool :=
  match h !! c with
  | Some cn => match item cn with Some i => N.eqb i it | None => false end
  | None => false
  end.

(** [getChild(item)] *)
Definition getChild (h : Heap) (self : NodeRef) (it : N) : option NodeRef :=
  match h !! self with
  | Some n => List.find (item_is h it) (children n)
  | None => None
  end.

(** ** fptree.ts *)

(** [IPrefixPath<T>] *)
Record IPrefixPath : Type := mkPrefixPath {
  path : list N;
  pp_support : Z
}.

(** [ItemsCount] and [IFPNodeMap<T>] *)
Definition ItemsCount : Type := JS.Obj Z.
Definition IFPNodeMap : Type := JS.Obj NodeRef.

(** An [FPTree] object together with the [FPNode] objects it owns: [nodes] is
    the heap of the tree, [root] its first cell. *)
Record FPTree : Type := mkFPTree {
  nodes : Heap;
  _isInit : bool;
  _headers : option (list N);         (* [undefined] until the tree is built *)
  _firstInserted : IFPNodeMap;
  _lastInserted : IFPNodeMap;
  supports : ItemsCount;
  _support : Z
}.

Definition root : NodeRef := 0%nat.

(** [new FPTree(supports, support)] *)
Definition new_FPTree (sup : ItemsCount) (s : Z) : FPTree :=
  mkFPTree [new_FPNode None None] false None [] [] sup s.

Definition set_nodes (h : Heap) (t : FPTree) : FPTree :=
  mkFPTree h (_isInit t) (_headers t) (_firstInserted t) (_lastInserted t)
           (supports t) (_support t).

Definition set_firstInserted (m : IFPNodeMap) (t : FPTree) : FPTree :=
  mkFPTree (nodes t) (_isInit t) (_headers t) m (_lastInserted t)
           (supports t) (_support t).

Definition set_lastInserted (m : IFPNodeMap) (t : FPTree) : FPTree :=
  mkFPTree (nodes t) (_isInit t) (_headers t) (_firstInserted t) m
           (supports t) (_support t).

Definition set_built (hs : list N) (t : FPTree) : FPTree :=
  mkFPTree (nodes t) true (Some hs) (_firstInserted t) (_lastInserted t)
           (supports t) (_support t).

(** [upsertChild(item, onNewChild, support)] of fpnode.ts, called on the node
    [self] of the tree [t]; the callback acts on the tree that owns the node. *)
Definition upsertChild (self : NodeRef) (it : N)
    (onNewChild : option (NodeRef -> FPTree -> FPTree)) (sup : Z)
    (t : FPTree) : FPTree * NodeRef :=
  match getChild (nodes t) self it with
  | None =>
      let child := length (nodes t) in
      let h := nodes t ++ [set_support sup (new_FPNode (Some it) (Some self))] in
      let t' := set_nodes (alter (push_child child) self h) t in
      (match onNewChild with Some f => f child t' | None => t' end, child)
  | Some child =>
      (set_nodes (alter (fun n => set_support (support n + sup) n) child (nodes t)) t,
       child)
  end.

(** [_updateLastInserted(key, child)] *)
Definition _updateLastInserted (key : string) (child : NodeRef) (t : FPTree) : FPTree :=
  let t1 :=
    match JS.get key (_lastInserted t) with
    | Some last => set_nodes (alter (set_nextSameItemNode (Some child)) last (nodes t)) t
    | None => t
    end in
  set_lastInserted (JS.set key child (_lastInserted t1)) t1.

(** [_updateFirstInserted(key, child)] *)
Definition _updateFirstInserted (key : string) (child : NodeRef) (t : FPTree) : FPTree :=
  match JS.get key (_firstInserted t) with
  | Some _ => t
  | None => set_firstInserted (JS.set key child (_firstInserted t)) t
  end.

(** The callback that [_addItems] passes to [upsertChild]. *)
Definition onNewChild_addItems (it : N) (child : NodeRef) (t : FPTree) : FPTree :=
  let itemKey := JS.JSON_stringify it in
  _updateFirstInserted itemKey child (_updateLastInserted itemKey child t).

(** [_addItems(items, prefixSupport = 1)] *)
Definition _addItems_step (prefixSupport : Z) (st : FPTree * NodeRef) (it : N)
    : FPTree * NodeRef :=
  upsertChild (snd st) it (Some (onNewChild_addItems it)) prefixSupport (fst st).

Definition _addItems (items : list N) (prefixSupport : Z) (t : FPTree) : FPTree :=
  fst (fold_left (_addItems_step prefixSupport) items (t, root)).

(** [this.supports[JSON.stringify(item)]] where the program reads it as a
    number; every item it is read for has an entry. *)
Definition support_of (sup : ItemsCount) (it : N) : Z :=
  default 0 (JS.get (JS.JSON_stringify it) sup).

(** The pruning predicate of [fromTransactions] and [fromPrefixPaths]:
    [undefined >= n] is false. *)
Definition is_frequent (sup : ItemsCount) (minSup : Z) (it : N) : bool :=
  match JS.get (JS.JSON_stringify it) sup with
  | Some s => minSup <=? s
  | None => false
  end.

(** The comparator of the sort in [fromTransactions] and [fromPrefixPaths]. *)
Definition by_support_desc (sup : ItemsCount) (a b : N) : Z :=
  let res := support_of sup b - support_of sup a in
  if res =? 0
  then JS.localeCompare (JS.JSON_stringify b) (JS.JSON_stringify a)
  else res.

Definition prune_and_sort (sup : ItemsCount) (minSup : Z) (l : list N) : list N :=
  JS.Array_sort (by_support_desc sup) (List.filter (is_frequent sup minSup) l).

(** [_getHeaderList()] *)
Definition _getHeaderList (t : FPTree) : list N :=
  map JS.JSON_parse
    (JS.Array_sort
       (fun a b => default 0 (JS.get a (supports t)) - default 0 (JS.get b (supports t)))
       (JS.Object_keys (_firstInserted t))).

Definition building_error : JS.Exn := JS.Error "Error building the FPTree".

(** [fromTransactions(transactions)] *)
Definition fromTransactions (transactions : list (list N)) (t : FPTree)
    : JS.result FPTree :=
  if _isInit t then JS.Throw building_error
  else
    let t1 := fold_left
                (fun t transaction =>
                   _addItems (prune_and_sort (supports t) (_support t) transaction) 1 t)
                transactions t in
    JS.Ok (set_built (_getHeaderList t1) t1).

(** [fromPrefixPaths(prefixPaths)] *)
Definition fromPrefixPaths (prefixPaths : list IPrefixPath) (t : FPTree)
    : JS.result FPTree :=
  if _isInit t then JS.Throw building_error
  else
    let t1 := fold_left
                (fun t prefixPath =>
                   _addItems (prune_and_sort (supports t) (_support t) (path prefixPath))
                             (pp_support prefixPath) t)
                prefixPaths t in
    JS.Ok (set_built (_getHeaderList t1) t1).

(** [_getPrefixPath(node, count, onPushingNewItem)]; the callback updates a
    state of type [S] owned by the caller. *)
Fixpoint _getPrefixPath {S : Type} (bound : nat) (h : Heap) (node : NodeRef)
    (count : Z) (onPushingNewItem : option (N -> Z -> S -> S)) (s : S)
    : JS.result (list N * S) :=
  match bound with
  | O => JS.Stuck
  | Datatypes.S bound' =>
      match h !! node with
      | None => JS.Stuck
      | Some n =>
          match parent n with
          | None => JS.Ok ([], s)
          | Some p =>
              match h !! p with
              | None => JS.Stuck
              | Some pn =>
                  match parent pn with
                  | None => JS.Ok ([], s)
                  | Some _ =>
                      match item pn with
                      | None => JS.Stuck
                      | Some pit =>
                          let s1 := match onPushingNewItem with
                                    | Some f => f pit count s
                                    | None => s
                                    end in
                          '(rest, s2) ← _getPrefixPath bound' h p count onPushingNewItem s1;
                          JS.Ok (pit :: rest, s2)
                      end
                  end
              end
          end
      end
  end.

(** [getPrefixPath(node, onPushingNewItem)]; [None] is [undefined]. *)
Definition getPrefixPath {S : Type} (t : FPTree) (node : NodeRef)
    (onPushingNewItem : option (N -> Z -> S -> S)) (s : S)
    : JS.result (option IPrefixPath * S) :=
  if negb (_isInit t) then JS.Throw building_error
  else
    match nodes t !! node with
    | None => JS.Stuck
    | Some n =>
        '(p, s') ← _getPrefixPath (length (nodes t)) (nodes t) node (support n)
                                  onPushingNewItem s;
        JS.Ok (match p with
               | [] => None
               | _ => Some (mkPrefixPath p (support n))
               end, s')
    end.

(** [_getPrefixPaths(node, count, onPushingNewItem, prefixPaths = [])] *)
Fixpoint _getPrefixPaths {S : Type} (bound : nat) (t : FPTree) (node : NodeRef)
    (count : Z) (onPushingNewItem : option (N -> Z -> S -> S))
    (prefixPaths : list IPrefixPath) (s : S)
    : JS.result (list IPrefixPath * S) :=
  match bound with
  | O => JS.Stuck
  | Datatypes.S bound' =>
      '(prefixPath, s1) ← getPrefixPath t node onPushingNewItem s;
      let prefixPaths1 := match prefixPath with
                          | Some pp => prefixPaths ++ [pp]
                          | None => prefixPaths
                          end in
      match nodes t !! node with
      | None => JS.Stuck
      | Some n =>
          match nextSameItemNode n with
          | None => JS.Ok (prefixPaths1, s1)
          | Some next =>
              _getPrefixPaths bound' t next count onPushingNewItem prefixPaths1 s1
          end
      end
  end.

(** [getPrefixPaths(item)] *)
Definition getPrefixPaths (t : FPTree) (it : N) : JS.result (list IPrefixPath) :=
  if negb (_isInit t) then JS.Throw building_error
  else
    match JS.get (JS.JSON_stringify it) (_firstInserted t) with
    | None => JS.Ok []
    | Some start =>
        match nodes t !! start with
        | None => JS.Stuck
        | Some sn =>
            '(pps, _) ← _getPrefixPaths (length (nodes t)) t start (support sn)
                                        (None : option (N -> Z -> unit -> unit)) [] tt;
            JS.Ok pps
        end
    end.

(** The callback of [getConditionalFPTree]:
    [conditionalTreeSupports[k] = (conditionalTreeSupports[k] || 0) + count]. *)
Definition count_item (i : N) (count : Z) (conditionalTreeSupports : ItemsCount)
    : ItemsCount :=
  let k := JS.JSON_stringify i in
  JS.set k (default 0 (JS.get k conditionalTreeSupports) + count)
         conditionalTreeSupports.

(** [getConditionalFPTree(item)]; [None] is [null]. *)
Definition getConditionalFPTree (t : FPTree) (it : N) : JS.result (option FPTree) :=
  match JS.get (JS.JSON_stringify it) (_firstInserted t) with
  | None => JS.Ok None
  | Some start =>
      let s := support_of (supports t) it in
      '(prefixPaths, conditionalTreeSupports) ←
         _getPrefixPaths (length (nodes t)) t start s (Some count_item) [] [];
      ret ← fromPrefixPaths prefixPaths (new_FPTree conditionalTreeSupports (_support t));
      match nodes ret !! root with
      | None => JS.Stuck
      | Some r =>
          match children r with
          | [] => JS.Ok None
          | _ => JS.Ok (Some ret)
          end
      end
  end.

(** [_getSinglePath(node, currentPath = [])]; [None] is [null]. *)
Fixpoint _getSinglePath (bound : nat) (h : Heap) (node : NodeRef)
    (currentPath : list NodeRef) : JS.result (option (list NodeRef)) :=
  match bound with
  | O => JS.Stuck
  | Datatypes.S bound' =>
      match h !! node with
      | None => JS.Stuck
      | Some n =>
          match children n with
          | [] => JS.Ok (Some currentPath)
          | [c] => _getSinglePath bound' h c (currentPath ++ [c])
          | _ => JS.Ok None
          end
      end
  end.

(** [getSinglePath()] *)
Definition getSinglePath (t : FPTree) : JS.result (option (list NodeRef)) :=
  if negb (_isInit t) then JS.Throw building_error
  else _getSinglePath (length (nodes t)) (nodes t) root [].

(** [isSinglePath()]; an array, even empty, is truthy. *)
Definition isSinglePath (t : FPTree) : JS.result bool :=
  if negb (_isInit t) then JS.Throw building_error
  else
    sp ← getSinglePath t;
    match sp with
    | None => JS.Ok false
    | Some _ => JS.Ok true
    end.

(** ** fpgrowth.ts *)

(** [Itemset<T>] *)
Record Itemset : Type := mkItemset {
  items : list N;
  is_support : Z
}.

(** A computation that emits ['data'] events: the events emitted so far are
    threaded through, the newest last. *)
Definition Emit (A : Type) : Type := list Itemset -> JS.result A * list Itemset.

Global Instance emit_ret : MRet Emit := fun A a log => (JS.Ok a, log).
Global Instance emit_bind : MBind Emit := fun A B f m log =>
  match m log with
  | (JS.Ok a, log') => f a log'
  | (JS.Throw e, log') => (JS.Throw e, log')
  | (JS.Stuck, log') => (JS.Stuck, log')
  end.

Definition emit (i : Itemset) : Emit unit := fun log => (JS.Ok tt, log ++ [i]).
Definition lift {A} (r : JS.result A) : Emit A := fun log => (r, log).

(** [reduce] and [map] with a callback that emits. *)
Fixpoint reduceM {A B} (f : B -> A -> Emit B) (l : list A) (acc : B) : Emit B :=
  match l with
  | [] => mret acc
  | x :: l' => acc' ← f acc x; reduceM f l' acc'
  end.

Fixpoint mapM_emit {A B} (f : A -> Emit B) (l : list A) : Emit (list B) :=
  match l with
  | [] => mret []
  | x :: l' => y ← f x; ys ← mapM_emit f l'; mret (y :: ys)
  end.

Module Miner.

(** The fields of an [FPGrowth] object that the program reads. *)
Record FPGrowth : Type := mkFPGrowth {
  _support : JS.Number;
  _transactions : list (list N)
}.

(** [new FPGrowth(support)] *)
Definition new_FPGrowth (s : JS.Number) : FPGrowth := mkFPGrowth s [].

(** [_getFrequentItemset(itemset, support)] *)
Definition _getFrequentItemset (itemset : list N) (s : Z) : Emit Itemset :=
  let ret := mkItemset itemset s in
  _ ← emit ret; mret ret.

(** [_getDistinctItemsCount(transactions)] *)
Definition _getDistinctItemsCount (transactions : list (list N)) : ItemsCount :=
  fold_left
    (fun count arr =>
       fold_left
         (fun count it =>
            let k := JS.JSON_stringify it in
            JS.set k (default 0 (JS.get k count) + 1) count)
         arr count)
    transactions [].

(** [Math.ceil(this._support * transactions.length)] *)
Definition absolute_support (s : JS.Number) (transactions : list (list N))
    : JS.Number :=
  JS.Math_ceil
    (JS.Number_multiply s (JS.Number_of_Z (Z.of_nat (length transactions)))).

(** The threshold of the trees of a run: [this._support] after the
    conversion, as the comparisons [supports[k] >= this._support] of the
    trees see it. *)
Definition threshold (s : JS.Number) (transactions : list (list N)) : Z :=
  JS.integer_bound (absolute_support s transactions).

End Miner.

(** *** fpgrowth.ts with the single-path shortcut left as a TODO
    ([src/fptree.ts], lines 317-461) *)
Module General.
Import Miner.

(** [_fpGrowth(tree, prefixSupport, prefix = [])] *)
Fixpoint _fpGrowth (bound : nat) (tree : FPTree) (prefixSupport : Z)
    (prefix : list N) : Emit (list Itemset) :=
  match bound with
  | O => lift JS.Stuck
  | Datatypes.S bound' =>
      match _headers tree with
      | None => lift (JS.Throw (JS.TypeError "Cannot read property 'reduce' of undefined"))
      | Some hs =>
          reduceM
            (fun itemsets it =>
               let s := Z.min (support_of (supports tree) it) prefixSupport in
               let currentPrefix := prefix ++ [it] in
               i ← _getFrequentItemset currentPrefix s;
               let itemsets1 := itemsets ++ [i] in
               childTree ← lift (getConditionalFPTree tree it);
               match childTree with
               | Some ct =>
                   r ← _fpGrowth bound' ct s currentPrefix;
                   mret (itemsets1 ++ r)
               | None => mret itemsets1
               end)
            hs []
      end
  end.

(** [_handleSinglePath(singlePath, prefix)]: a stub. *)
Definition _handleSinglePath (singlePath : list NodeRef) (prefix : list N)
    : Emit (list Itemset) :=
  mret [].

(** [exec(transactions)]: the object after the call, what the promise settles
    to, and the events emitted. *)
Definition exec (transactions : list (list N)) (self : FPGrowth)
    : FPGrowth * (JS.result (list Itemset) * list Itemset) :=
  let abs := absolute_support (_support self) transactions in
  let self1 := mkFPGrowth abs transactions in
  let sup := _getDistinctItemsCount transactions in
  (self1,
   (tree ← lift (fromTransactions transactions
                   (new_FPTree sup (JS.integer_bound abs)));
    _fpGrowth (length (nodes tree)) tree (Z.of_nat (length transactions)) []) []).

End General.

(** *** fpgrowth.ts with the single-path shortcut
    ([unnamed/part_001], lines 98-263) *)
Module Shortcut.
Import Miner.

(** [_handleSinglePath(singlePath, prefixSupport, prefix)] *)
Definition _handleSinglePath (h : Heap) (singlePath : list NodeRef)
    (prefixSupport : Z) (prefix : list N) : Emit (list Itemset) :=
  reduceM
    (fun itemsets node =>
       match h !! node with
       | Some n =>
           match item n with
           | Some it =>
               combined ← mapM_emit
                 (fun i => _getFrequentItemset (items i ++ [it])
                                               (Z.min (is_support i) (support n)))
                 itemsets;
               single ← _getFrequentItemset (prefix ++ [it])
                                           (Z.min (support n) prefixSupport);
               mret (itemsets ++ combined ++ [single])
           | None => lift JS.Stuck
           end
       | None => lift JS.Stuck
       end)
    singlePath [].

(** [_fpGrowth(tree, prefixSupport, prefix = [])] *)
Fixpoint _fpGrowth (bound : nat) (tree : FPTree) (prefixSupport : Z)
    (prefix : list N) : Emit (list Itemset) :=
  match bound with
  | O => lift JS.Stuck
  | Datatypes.S bound' =>
      singlePath ← lift (getSinglePath tree);
      match singlePath with
      | Some sp => _handleSinglePath (nodes tree) sp prefixSupport prefix
      | None =>
          match _headers tree with
          | None => lift (JS.Throw (JS.TypeError "Cannot read property 'reduce' of undefined"))
          | Some hs =>
              reduceM
                (fun itemsets it =>
                   let s := Z.min (support_of (supports tree) it) prefixSupport in
                   let currentPrefix := prefix ++ [it] in
                   i ← _getFrequentItemset currentPrefix s;
                   let itemsets1 := itemsets ++ [i] in
                   childTree ← lift (getConditionalFPTree tree it);
                   match childTree with
                   | Some ct =>
                       r ← _fpGrowth bound' ct s currentPrefix;
                       mret (itemsets1 ++ r)
                   | None => mret itemsets1
                   end)
                hs []
          end
      end
  end.

(** [exec(transactions)] *)
Definition exec (transactions : list (list N)) (self : FPGrowth)
    : FPGrowth * (JS.result (list Itemset) * list Itemset) :=
  let abs := absolute_support (_support self) transactions in
  let self1 := mkFPGrowth abs transactions in
  let sup := _getDistinctItemsCount transactions in
  (self1,
   (tree ← lift (fromTransactions transactions
                   (new_FPTree sup (JS.integer_bound abs)));
    _fpGrowth (length (nodes tree)) tree (Z.of_nat (length transactions)) []) []).

End Shortcut.


(** * Properties *)

(** ** Facts about the JavaScript layer *)

Section SortFacts.
Context {A : Type} (cmp : A -> A -> Z).

Lemma sort_insert_Permutation x l : JS.sort_insert cmp x l ≡ₚ x :: l.
Proof.
  induction l as [|y l IH]; simpl; [done|].
  destruct (0 <? cmp x y); [|done].
  rewrite IH. apply Permutation_swap.
Qed.

Lemma Array_sort_Permutation l : JS.Array_sort cmp l ≡ₚ l.
Proof.
  induction l as [|x l IH]; simpl; [done|].
  rewrite sort_insert_Permutation. by rewrite IH.
Qed.

Lemma Array_sort_elem x l : x ∈ JS.Array_sort cmp l ↔ x ∈ l.
Proof. by rewrite Array_sort_Permutation. Qed.

Lemma Array_sort_length l : length (JS.Array_sort cmp l) = length l.
Proof. by rewrite Array_sort_Permutation. Qed.

(** Stability: the elements of a class whose members compare equal keep
    their order. *)
Lemma sort_insert_filter (P : A -> bool) x l :
  (P x = true -> ∀ y, y ∈ l -> P y = true -> cmp x y <= 0) ->
  List.filter P (JS.sort_insert cmp x l) = List.filter P (x :: l).
Proof.
  induction l as [|y l IH]; intros Hc; simpl; [done|].
  destruct (0 <? cmp x y) eqn:E; [|done].
  simpl in *. rewrite IH.
  - destruct (P x) eqn:Px, (P y) eqn:Py; try done.
    apply Z.ltb_lt in E.
    assert (cmp x y <= 0) by (apply Hc; [done|left|done]). lia.
  - intros Px z Hz. apply Hc; [done|by right].
Qed.

Lemma Array_sort_filter (P : A -> bool) l :
  (∀ x y, P x = true -> P y = true -> cmp x y <= 0) ->
  List.filter P (JS.Array_sort cmp l) = List.filter P l.
Proof.
  intros Hc. induction l as [|x l IH]; simpl; [done|].
  rewrite sort_insert_filter by eauto. simpl. by rewrite IH.
Qed.

Section Sorted.
Hypothesis cmp_total : ∀ a b, 0 < cmp a b -> cmp b a <= 0.
Hypothesis cmp_trans : ∀ a b c, cmp a b <= 0 -> cmp b c <= 0 -> cmp a c <= 0.

Lemma sort_insert_sorted x l :
  StronglySorted (fun a b => cmp a b <= 0) l ->
  StronglySorted (fun a b => cmp a b <= 0) (JS.sort_insert cmp x l).
Proof.
  induction 1 as [|y l Hs IH Hy]; simpl.
  - repeat constructor.
  - destruct (0 <? cmp x y) eqn:E.
    + apply Z.ltb_lt in E. constructor; [done|].
      apply Forall_forall. intros z Hz.
      rewrite sort_insert_Permutation in Hz.
      apply elem_of_cons in Hz as [->|Hz]; [by apply cmp_total|].
      by eapply Forall_forall in Hy.
    + apply Z.ltb_ge in E. constructor; [by constructor|].
      constructor; [done|].
      eapply Forall_impl; [exact Hy|]. intros z Hz. by eapply cmp_trans.
Qed.

Lemma Array_sort_sorted l :
  StronglySorted (fun a b => cmp a b <= 0) (JS.Array_sort cmp l).
Proof.
  induction l; simpl; [constructor|by apply sort_insert_sorted].
Qed.
End Sorted.
End SortFacts.

Lemma JSON_stringify_inj a b : JS.JSON_stringify a = JS.JSON_stringify b -> a = b.
Proof.
  unfold JS.JSON_stringify. intros H.
  apply (f_equal NilEmpty.uint_of_string) in H.
  rewrite !NilEmpty.usu in H. injection H as H.
  apply (f_equal N.of_uint) in H. by rewrite !Unsigned.of_to in H.
Qed.

Lemma JSON_parse_stringify n : JS.JSON_parse (JS.JSON_stringify n) = n.
Proof.
  unfold JS.JSON_parse, JS.JSON_stringify.
  by rewrite NilEmpty.usu, Unsigned.of_to.
Qed.

Lemma localeCompare_refl a : JS.localeCompare a a = 0.
Proof.
  unfold JS.localeCompare.
  destruct (String_as_OT.compare_spec a a) as [_|H|H]; [done|..];
    by apply (irreflexivity String_as_OT.lt) in H.
Qed.

Lemma localeCompare_eq a b : JS.localeCompare a b = 0 -> a = b.
Proof.
  unfold JS.localeCompare.
  by destruct (String_as_OT.compare_spec a b).
Qed.

Lemma localeCompare_antisym a b : JS.localeCompare a b = - JS.localeCompare b a.
Proof.
  unfold JS.localeCompare.
  destruct (String_as_OT.compare_spec a b) as [E|H|H];
    destruct (String_as_OT.compare_spec b a) as [E'|H'|H'];
    unfold String_as_OT.eq in *; try done; subst;
    try (by apply (irreflexivity String_as_OT.lt) in H);
    try (by apply (irreflexivity String_as_OT.lt) in H');
    by (exfalso; eapply (irreflexivity String_as_OT.lt); etransitivity; eassumption).
Qed.

Lemma localeCompare_lt_trans a b c :
  JS.localeCompare a b < 0 -> JS.localeCompare b c < 0 -> JS.localeCompare a c < 0.
Proof.
  unfold JS.localeCompare.
  destruct (String_as_OT.compare_spec a b) as [E1|H1|H1]; try done.
  destruct (String_as_OT.compare_spec b c) as [E2|H2|H2]; try done.
  intros _ _.
  assert (String_as_OT.lt a c) as H by (etransitivity; eassumption).
  destruct (String_as_OT.compare_spec a c) as [E3|H3|H3]; try done.
  unfold String_as_OT.eq in *; subst.
  - by apply (irreflexivity String_as_OT.lt) in H.
  - exfalso; eapply (irreflexivity String_as_OT.lt); etransitivity; eassumption.
Qed.

Lemma localeCompare_range a b :
  JS.localeCompare a b = -1 \/ JS.localeCompare a b = 0 \/ JS.localeCompare a b = 1.
Proof. unfold JS.localeCompare. destruct String_as_OT.compare; auto. Qed.

Section ObjFacts.
Context {V : Type}.
Implicit Types (o : JS.Obj V) (k : string) (v : V).

Lemma get_set_eq k v o : JS.get k (JS.set k v o) = Some v.
Proof.
  induction o as [|[k' v'] o IH]; simpl.
  - by rewrite String.eqb_refl.
  - destruct (String.eqb k k') eqn:E; simpl; rewrite ?String.eqb_refl, ?E; done.
Qed.

Lemma get_set_ne k k' v o : k ≠ k' -> JS.get k' (JS.set k v o) = JS.get k' o.
Proof.
  intros Hne. induction o as [|[k1 v1] o IH]; simpl.
  - apply String.eqb_neq in Hne. by rewrite String.eqb_sym, Hne.
  - destruct (String.eqb k k1) eqn:E; simpl.
    + apply String.eqb_eq in E as <-.
      assert (String.eqb k' k = false) as -> by (apply String.eqb_neq; congruence).
      done.
    + by rewrite IH.
Qed.

Lemma get_set k k' v o :
  JS.get k' (JS.set k v o) = if decide (k = k') then Some v else JS.get k' o.
Proof.
  case_decide; [subst; apply get_set_eq|by apply get_set_ne].
Qed.

Lemma get_None k o : JS.get k o = None <-> k ∉ map fst o.
Proof.
  induction o as [|[k' v'] o IH]; simpl.
  - split; [intros _; apply not_elem_of_nil|done].
  - rewrite not_elem_of_cons. destruct (String.eqb k k') eqn:E.
    + apply String.eqb_eq in E. split; [done|]. intros [? _]; done.
    + apply String.eqb_neq in E. rewrite IH. tauto.
Qed.

Lemma get_Some_elem k v o : JS.get k o = Some v -> (k, v) ∈ o.
Proof.
  induction o as [|[k' v'] o IH]; simpl; [done|].
  destruct (String.eqb k k') eqn:E.
  - apply String.eqb_eq in E as ->. intros [= ->]. left.
  - intros. right. auto.
Qed.

Lemma keys_set k v o :
  map fst (JS.set k v o) =
  match JS.get k o with Some _ => map fst o | None => map fst o ++ [k] end.
Proof.
  induction o as [|[k' v'] o IH]; simpl; [done|].
  destruct (String.eqb k k') eqn:E; simpl.
  - apply String.eqb_eq in E as ->. done.
  - rewrite IH. by destruct (JS.get k o).
Qed.

Lemma keys_set_NoDup k v o : NoDup (map fst o) -> NoDup (map fst (JS.set k v o)).
Proof.
  intros Hnd. rewrite keys_set. destruct (JS.get k o) eqn:E; [done|].
  apply NoDup_app. split_and!; [done| |apply NoDup_singleton].
  intros x Hx ->%list_elem_of_singleton. by apply get_None in E.
Qed.
End ObjFacts.

(** The order of the sort in [fromTransactions] / [fromPrefixPaths]. *)
Section SupportOrder.
Variable sup : ItemsCount.

Lemma by_support_desc_refl a : by_support_desc sup a a = 0.
Proof.
  unfold by_support_desc. rewrite Z.sub_diag. simpl. apply localeCompare_refl.
Qed.

Lemma by_support_desc_eq a b : by_support_desc sup a b = 0 -> a = b.
Proof.
  unfold by_support_desc.
  destruct (Z.eqb_spec (support_of sup b - support_of sup a) 0); [|done].
  intros H%localeCompare_eq. symmetry. by apply JSON_stringify_inj.
Qed.

Lemma by_support_desc_antisym a b :
  0 < by_support_desc sup a b <-> by_support_desc sup b a < 0.
Proof.
  unfold by_support_desc.
  destruct (Z.eqb_spec (support_of sup b - support_of sup a) 0),
           (Z.eqb_spec (support_of sup a - support_of sup b) 0); try lia.
  rewrite (localeCompare_antisym (JS.JSON_stringify a)). lia.
Qed.

Lemma by_support_desc_lt_trans a b c :
  by_support_desc sup a b < 0 -> by_support_desc sup b c < 0 ->
  by_support_desc sup a c < 0.
Proof.
  unfold by_support_desc.
  destruct (Z.eqb_spec (support_of sup b - support_of sup a) 0),
           (Z.eqb_spec (support_of sup c - support_of sup b) 0),
           (Z.eqb_spec (support_of sup c - support_of sup a) 0); try lia.
  intros H1 H2.
  rewrite localeCompare_antisym in H1, H2 |- *.
  assert (JS.localeCompare (JS.JSON_stringify a) (JS.JSON_stringify c) > 0); [|lia].
  rewrite localeCompare_antisym.
  pose proof (localeCompare_lt_trans (JS.JSON_stringify c) (JS.JSON_stringify b)
                (JS.JSON_stringify a)).
  rewrite (localeCompare_antisym (JS.JSON_stringify c) (JS.JSON_stringify b)) in H.
  rewrite (localeCompare_antisym (JS.JSON_stringify b) (JS.JSON_stringify a)) in H.
  lia.
Qed.

Lemma by_support_desc_total a b :
  0 < by_support_desc sup a b -> by_support_desc sup b a <= 0.
Proof. intros H%by_support_desc_antisym. lia. Qed.

Lemma by_support_desc_le_trans a b c :
  by_support_desc sup a b <= 0 -> by_support_desc sup b c <= 0 ->
  by_support_desc sup a c <= 0.
Proof.
  intros H1 H2.
  destruct (Z.eq_dec (by_support_desc sup a b) 0) as [E|E];
    [apply by_support_desc_eq in E as ->; done|].
  destruct (Z.eq_dec (by_support_desc sup b c) 0) as [E'|E'];
    [apply by_support_desc_eq in E' as ->; done|].
  pose proof (by_support_desc_lt_trans a b c). lia.
Qed.

(** [a] is placed strictly before [b]. *)
Definition before (a b : N) : Prop := by_support_desc sup a b < 0.

Lemma before_irrefl a : ¬ before a a.
Proof. unfold before. rewrite by_support_desc_refl. lia. Qed.

Lemma before_asym a b : before a b -> ¬ before b a.
Proof. unfold before. intros H H'. apply by_support_desc_antisym in H'. lia. Qed.
End SupportOrder.
(** *** Numbers *)

Lemma round_ties_even_bounds a s :
  a / 2 ^ s <= round_ties_even a s <= a / 2 ^ s + 1.
Proof.
  unfold round_ties_even.
  destruct (_ <? _); [lia|]. destruct (_ <? _); [lia|]. destruct (Z.even _); lia.
Qed.

Lemma round_ties_even_exact a s :
  0 < s -> a mod 2 ^ s = 0 -> round_ties_even a s = a / 2 ^ s.
Proof.
  intros Hs H. unfold round_ties_even. rewrite H.
  assert (0 < 2 ^ (s - 1)) by (apply Z.pow_pos_nonneg; lia).
  destruct (Z.ltb_spec 0 (2 ^ (s - 1))); [done|lia].
Qed.

Lemma round_ties_even_mono a b s :
  0 <= s -> a <= b -> round_ties_even a s <= round_ties_even b s.
Proof.
  intros Hs Hab.
  assert (HP : 0 < 2 ^ s) by (apply Z.pow_pos_nonneg; lia).
  pose proof (Z.div_le_mono a b (2 ^ s) HP Hab) as Hq.
  pose proof (round_ties_even_bounds a s) as Ha.
  pose proof (round_ties_even_bounds b s) as Hb.
  destruct (Z.eq_dec (a / 2 ^ s) (b / 2 ^ s)) as [E|NE]; [|lia].
  assert (Hr : a mod 2 ^ s <= b mod 2 ^ s).
  { pose proof (Z.div_mod a (2 ^ s)). pose proof (Z.div_mod b (2 ^ s)).
    rewrite E in *. lia. }
  unfold round_ties_even. rewrite E.
  destruct (Z.ltb_spec (a mod 2 ^ s) (2 ^ (s - 1))),
           (Z.ltb_spec (b mod 2 ^ s) (2 ^ (s - 1))),
           (Z.ltb_spec (2 ^ (s - 1)) (a mod 2 ^ s)),
           (Z.ltb_spec (2 ^ (s - 1)) (b mod 2 ^ s)),
           (Z.even (b / 2 ^ s)); lia.
Qed.

Lemma nearest_magnitude_0 : nearest_magnitude 0 = 0.
Proof. reflexivity. Qed.

Lemma nearest_magnitude_nonneg a : 0 <= a -> 0 <= nearest_magnitude a.
Proof.
  intros Ha. unfold nearest_magnitude.
  set (s := Z.max _ _).
  assert (0 < 2 ^ s) by (apply Z.pow_pos_nonneg; lia).
  assert (0 < 2 ^ (s - 1074)) by (apply Z.pow_pos_nonneg; lia).
  pose proof (round_ties_even_bounds a s).
  pose proof (Z.div_pos a (2 ^ s)). nia.
Qed.

Lemma nearest_magnitude_mono a b :
  0 <= a <= b -> nearest_magnitude a <= nearest_magnitude b.
Proof.
  intros [Ha Hab].
  destruct (Z.eq_dec a 0) as [->|Ha0].
  { rewrite nearest_magnitude_0. apply nearest_magnitude_nonneg. lia. }
  unfold nearest_magnitude.
  set (sa := Z.max (Z.log2 a + 1 - 53) 1074).
  set (sb := Z.max (Z.log2 b + 1 - 53) 1074).
  pose proof (Z.log2_le_mono a b Hab) as Hl.
  assert (Hs : sa <= sb) by lia.
  destruct (Z.eq_dec sa sb) as [E|NE].
  - rewrite <- E. apply Z.mul_le_mono_nonneg_r.
    + apply Z.pow_nonneg; lia.
    + apply round_ties_even_mono; lia.
  - assert (Hsb : sb = Z.log2 b + 1 - 53) by lia.
    pose proof (Z.log2_spec a ltac:(lia)) as [_ Ha2].
    pose proof (Z.log2_spec b ltac:(lia)) as [Hb2 _].
    pose proof (round_ties_even_bounds a sa) as Hra.
    pose proof (round_ties_even_bounds b sb) as Hrb.
    assert (H1 : a / 2 ^ sa < 2 ^ 53).
    { apply Z.div_lt_upper_bound; [apply Z.pow_pos_nonneg; lia|].
      rewrite <- Z.pow_add_r by lia.
      eapply Z.lt_le_trans; [exact Ha2|]. apply Z.pow_le_mono_r; lia. }
    assert (H2 : 2 ^ 52 <= b / 2 ^ sb).
    { apply Z.div_le_lower_bound; [apply Z.pow_pos_nonneg; lia|].
      rewrite <- Z.pow_add_r by lia.
      replace (sb + 52) with (Z.log2 b) by lia. exact Hb2. }
    transitivity (2 ^ 53 * 2 ^ (sa - 1074)).
    { apply Z.mul_le_mono_nonneg_r; [apply Z.pow_nonneg|]; lia. }
    transitivity (2 ^ 52 * 2 ^ (sb - 1074)).
    { rewrite <- !Z.pow_add_r by lia. apply Z.pow_le_mono_r; lia. }
    apply Z.mul_le_mono_nonneg_r; [apply Z.pow_nonneg|]; lia.
Qed.

Lemma nearest_magnitude_integer n :
  0 <= n < 2 ^ 53 -> nearest_magnitude (n * 2 ^ 2148) = n * 2 ^ 1074.
Proof.
  intros [Hn Hn53].
  destruct (Z.eq_dec n 0) as [->|Hn0]; [reflexivity|].
  unfold nearest_magnitude.
  rewrite Z.log2_mul_pow2 by lia.
  assert (Hl : Z.log2 n < 53) by (apply Z.log2_lt_pow2; lia).
  pose proof (Z.log2_nonneg n).
  set (s := Z.max _ _). assert (Hs : s = Z.log2 n + 2096) by lia.
  assert (E : 2 ^ 2148 = 2 ^ (2148 - s) * 2 ^ s).
  { rewrite <- Z.pow_add_r by lia. f_equal. lia. }
  assert (HP : 0 < 2 ^ s) by (apply Z.pow_pos_nonneg; lia).
  rewrite round_ties_even_exact.
  - rewrite E, Z.mul_assoc, Z.div_mul by lia.
    rewrite <- !Z.mul_assoc, <- !Z.pow_add_r by lia. do 2 f_equal. lia.
  - lia.
  - rewrite E, Z.mul_assoc. apply Z.mod_mul. lia.
Qed.

Lemma round_to_double_mono x y :
  x <= y -> Number_le (round_to_double x) (round_to_double y).
Proof.
  intros Hxy. unfold round_to_double.
  pose proof (nearest_magnitude_nonneg (Z.abs x) (Z.abs_nonneg x)) as Hx.
  pose proof (nearest_magnitude_nonneg (Z.abs y) (Z.abs_nonneg y)) as Hy.
  assert (H0 : 0 < 2 ^ 2098) by (by apply Z.pow_pos_nonneg).
  destruct (Z.le_gt_cases 0 x) as [Hx0|Hx0].
  - pose proof (nearest_magnitude_mono (Z.abs x) (Z.abs y) ltac:(lia)) as Hm.
    destruct (Z.leb_spec (2 ^ 2098) (nearest_magnitude (Z.abs x))) as [Ox|Ox],
             (Z.leb_spec (2 ^ 2098) (nearest_magnitude (Z.abs y))) as [Oy|Oy];
      try lia.
    + destruct (Z.ltb_spec 0 y); [|exfalso].
      * by destruct (0 <? x).
      * assert (y = 0) as -> by lia. change (Z.abs 0) with 0 in Oy. rewrite nearest_magnitude_0 in Oy. lia.
    + destruct (Z.ltb_spec 0 y); [done|exfalso].
      assert (y = 0) as -> by lia. change (Z.abs 0) with 0 in Oy. rewrite nearest_magnitude_0 in Oy. lia.
    + simpl. nia.
  - destruct (Z.le_gt_cases 0 y) as [Hy0|Hy0].
    + destruct (Z.leb_spec (2 ^ 2098) (nearest_magnitude (Z.abs x))) as [Ox|Ox],
               (Z.leb_spec (2 ^ 2098) (nearest_magnitude (Z.abs y))) as [Oy|Oy];
        destruct (Z.ltb_spec 0 x); try lia; simpl; try done.
      * destruct (Z.ltb_spec 0 y); [done|exfalso].
        assert (y = 0) as -> by lia. change (Z.abs 0) with 0 in Oy. rewrite nearest_magnitude_0 in Oy. lia.
      * destruct (Z.ltb_spec 0 y); [done|exfalso].
        assert (y = 0) as -> by lia. change (Z.abs 0) with 0 in Oy. rewrite nearest_magnitude_0 in Oy. lia.
      * nia.
    + pose proof (nearest_magnitude_mono (Z.abs y) (Z.abs x) ltac:(lia)) as Hm.
      destruct (Z.leb_spec (2 ^ 2098) (nearest_magnitude (Z.abs x))) as [Ox|Ox],
               (Z.leb_spec (2 ^ 2098) (nearest_magnitude (Z.abs y))) as [Oy|Oy];
        destruct (Z.ltb_spec 0 x), (Z.ltb_spec 0 y); try lia; simpl; try done.
      nia.
Qed.

Lemma round_to_double_finite x u :
  round_to_double x = Finite u -> - 2 ^ 2098 < u < 2 ^ 2098.
Proof.
  unfold round_to_double.
  pose proof (nearest_magnitude_nonneg (Z.abs x) (Z.abs_nonneg x)) as Hx.
  destruct (Z.leb_spec (2 ^ 2098) (nearest_magnitude (Z.abs x))) as [Ox|Ox].
  - by destruct (0 <? x).
  - intros [= <-]. nia.
Qed.

Lemma round_to_double_integer n :
  - 2 ^ 53 < n < 2 ^ 53 -> round_to_double (n * 2 ^ 2148) = Number_of_Z n.
Proof.
  intros Hn. unfold round_to_double, Number_of_Z.
  assert (HP : 0 < 2 ^ 2148) by (by apply Z.pow_pos_nonneg).
  rewrite Z.abs_mul, (Z.abs_eq (2 ^ 2148)) by lia.
  rewrite nearest_magnitude_integer by lia.
  assert (H1 : Z.abs n * 2 ^ 1074 < 2 ^ 2098).
  { change 2098 with (53 + 2045). rewrite Z.pow_add_r by lia.
    assert (2 ^ 1074 < 2 ^ 2045) by (apply Z.pow_lt_mono_r; lia).
    assert (0 < 2 ^ 1074) by (by apply Z.pow_pos_nonneg). nia. }
  destruct (Z.leb_spec (2 ^ 2098) (Z.abs n * 2 ^ 1074)); [lia|].
  f_equal. rewrite Z.sgn_mul, (Z.sgn_pos (2 ^ 2148)) by lia.
  rewrite Z.mul_1_r, Z.mul_assoc. f_equal. lia.
Qed.

Definition Number_bounded (x : Number) : Prop :=
  match x with Finite u => - 2 ^ 2098 < u < 2 ^ 2098 | _ => True end.

Lemma integer_bound_Math_ceil x : integer_bound (Math_ceil x) = integer_bound x.
Proof.
  destruct x as [u| | |]; try done. simpl.
  assert (0 < 2 ^ 1074) by (by apply Z.pow_pos_nonneg).
  rewrite <- Z.mul_opp_l, Z.div_mul by lia. lia.
Qed.

Lemma integer_bound_of_Z z : integer_bound (Number_of_Z z) = z.
Proof.
  unfold integer_bound, Number_of_Z.
  assert (0 < 2 ^ 1074) by (by apply Z.pow_pos_nonneg).
  rewrite <- Z.mul_opp_l, Z.div_mul by lia. lia.
Qed.

Lemma integer_bound_range x :
  Number_bounded x -> - 2 ^ 1024 <= integer_bound x <= 2 ^ 1024.
Proof.
  assert (0 < 2 ^ 1024) by (by apply Z.pow_pos_nonneg).
  destruct x as [u| | |]; simpl; try lia.
  intros Hu.
  assert (HP : 0 < 2 ^ 1074) by (by apply Z.pow_pos_nonneg).
  assert (E : 2 ^ 2098 = 2 ^ 1024 * 2 ^ 1074) by (by rewrite <- Z.pow_add_r).
  rewrite E in Hu. clear E.
  pose proof (Z.div_le_lower_bound (- u) (2 ^ 1074) (- 2 ^ 1024) HP ltac:(lia)).
  pose proof (Z.div_le_upper_bound (- u) (2 ^ 1074) (2 ^ 1024) HP ltac:(lia)).
  lia.
Qed.

Lemma integer_bound_mono x y :
  Number_bounded x -> Number_bounded y ->
  Number_le x y -> integer_bound x <= integer_bound y.
Proof.
  intros Hx Hy Hle.
  pose proof (integer_bound_range x Hx). pose proof (integer_bound_range y Hy).
  destruct x as [u| | |], y as [v| | |]; simpl in Hle; try done; try (simpl in *; lia).
  simpl.
  assert (HP : 0 < 2 ^ 1074) by (by apply Z.pow_pos_nonneg).
  pose proof (Z.div_le_mono (- v) (- u) (2 ^ 1074) HP ltac:(lia)). lia.
Qed.

Lemma round_to_double_bounded x : Number_bounded (round_to_double x).
Proof.
  destruct (round_to_double x) eqn:E; try done. simpl. by eapply round_to_double_finite.
Qed.

(** [c >= x] for an integer [c] and a finite [x]. *)
Lemma integer_bound_spec u c :
  integer_bound (Finite u) <= c <-> u <= c * 2 ^ 1074.
Proof.
  simpl. assert (HP : 0 < 2 ^ 1074) by (by apply Z.pow_pos_nonneg).
  pose proof (Z.div_mod (- u) (2 ^ 1074) ltac:(lia)).
  pose proof (Z.mod_pos_bound (- u) (2 ^ 1074) HP). nia.
Qed.

(** The comparisons with an infinity and with [NaN]. *)
Lemma integer_bound_not_finite c :
  - 2 ^ 1024 < c < 2 ^ 1024 ->
  integer_bound NegInfinity <= c /\
  ¬ integer_bound PosInfinity <= c /\
  ¬ integer_bound NaN <= c.
Proof. simpl. lia. Qed.

Lemma Math_ceil_Finite u :
  Math_ceil (Finite u) = Number_of_Z (integer_bound (Finite u)).
Proof. reflexivity. Qed.

Lemma round_to_double_not_NaN x : round_to_double x ≠ NaN.
Proof.
  unfold round_to_double. destruct (_ <=? _); [|done]. by destruct (0 <? x).
Qed.

(** The exact ceiling of a product, in the units of [Finite]. *)
Lemma Qceiling_Number_value u n :
  Qceiling (Number_value (Finite u) * inject_Z n) = - (- (u * n) / 2 ^ 1074).
Proof.
  unfold Qceiling, Qfloor, Number_value, Qmult, Qopp, inject_Z. simpl Qnum. simpl Qden.
  rewrite Pos.mul_1_r, Pos2Z.inj_pow. done.
Qed.

(** A product that lies between two integers below [2^53] is rounded to a
    double between them: the ceiling of the rounded product is the ceiling
    of the exact product or one less. *)
Lemma Math_ceil_product u n :
  0 <= u <= 2 ^ 1074 -> 0 <= n < 2 ^ 53 ->
  ∃ z, Math_ceil (Number_multiply (Finite u) (Number_of_Z n)) = Number_of_Z z /\
       - (- (u * n) / 2 ^ 1074) - 1 <= z <= - (- (u * n) / 2 ^ 1074) /\
       z <= n.
Proof.
  intros Hu Hn. cbn [Number_multiply Number_of_Z].
  assert (HP : 0 < 2 ^ 1074) by (by apply Z.pow_pos_nonneg).
  assert (HPP : 2 ^ 2148 = 2 ^ 1074 * 2 ^ 1074) by (by rewrite <- Z.pow_add_r).
  set (c := - (- (u * n) / 2 ^ 1074)).
  assert (Hc : (c - 1) * 2 ^ 1074 < u * n <= c * 2 ^ 1074).
  { pose proof (Z.div_mod (- (u * n)) (2 ^ 1074) ltac:(lia)).
    pose proof (Z.mod_pos_bound (- (u * n)) (2 ^ 1074) HP). unfold c. nia. }
  assert (Hcn : 0 <= c <= n) by nia.
  pose proof (round_to_double_mono (u * (n * 2 ^ 1074)) (c * 2 ^ 2148)) as Hup.
  pose proof (round_to_double_mono ((c - 1) * 2 ^ 2148) (u * (n * 2 ^ 1074))) as Hlo.
  rewrite round_to_double_integer in Hup, Hlo by lia.
  rewrite HPP in Hup, Hlo.
  specialize (Hup ltac:(nia)). specialize (Hlo ltac:(nia)).
  destruct (round_to_double (u * (n * 2 ^ 1074))) as [w| | |]; try done.
  unfold Number_of_Z in Hup, Hlo. cbn [Number_le] in Hup, Hlo.
  exists (integer_bound (Finite w)). split; [done|].
  pose proof (proj2 (integer_bound_spec w c) Hup).
  assert (¬ integer_bound (Finite w) <= c - 2).
  { rewrite integer_bound_spec. nia. }
  lia.
Qed.

(** The doubles that the decimals 0.1, 0.28, 0.4, 0.5, 0.6 and 0.9 denote
    (0x1.999999999999ap-4, 0x1.1eb851eb851ecp-2, 0x1.999999999999ap-2, 0x1p-1,
    0x1.3333333333333p-1 and 0x1.ccccccccccccdp-1). *)
Definition Number_0_1 : Number := double 0x1999999999999a (-56).
Definition Number_0_28 : Number := double 0x11eb851eb851ec (-54).
Definition Number_0_4 : Number := double 0x1999999999999a (-54).
Definition Number_0_5 : Number := double 1 (-1).
Definition Number_0_6 : Number := double 0x13333333333333 (-53).
Definition Number_0_9 : Number := double 0x1ccccccccccccd (-53).

(** Each is within half a unit in the last place of its decimal. *)
Lemma decimals_as_doubles :
  (Qabs (Number_value Number_0_1 - (1 # 10)) <= 1 # 2 ^ 57)%Q /\
  (Qabs (Number_value Number_0_28 - (28 # 100)) <= 1 # 2 ^ 55)%Q /\
  (Qabs (Number_value Number_0_4 - (4 # 10)) <= 1 # 2 ^ 55)%Q /\
  (Number_value Number_0_5 == 1 # 2)%Q /\
  (Qabs (Number_value Number_0_6 - (6 # 10)) <= 1 # 2 ^ 54)%Q /\
  (Qabs (Number_value Number_0_9 - (9 # 10)) <= 1 # 2 ^ 54)%Q.
Proof. split_and!; by vm_compute. Qed.

(** Neither 0.1 nor 0.4 nor 0.28 is a double: the doubles are a little
    above them. *)
Lemma decimals_are_below_their_doubles :
  (1 # 10 < Number_value Number_0_1)%Q /\
  (28 # 100 < Number_value Number_0_28)%Q /\
  (4 # 10 < Number_value Number_0_4)%Q.
Proof. split_and!; by vm_compute. Qed.

(** The products of the program on these: [0.1 * 10] is [1], [0.4 * 5] is
    [2], [0.6 * 5] is [3], and [0.28 * 25] is the double after [7]. *)
Lemma Number_multiply_examples :
  Number_multiply Number_0_1 (Number_of_Z 10) = Number_of_Z 1 /\
  Number_multiply Number_0_4 (Number_of_Z 5) = Number_of_Z 2 /\
  Number_multiply Number_0_6 (Number_of_Z 5) = Number_of_Z 3 /\
  Number_multiply Number_0_28 (Number_of_Z 25) = double 0x1c000000000001 (-50) /\
  Math_ceil (Number_multiply Number_0_28 (Number_of_Z 25)) = Number_of_Z 8.
Proof. split_and!; by vm_compute. Qed.

(** *** The product against the specification of binary64 in the Standard
    Library *)

Module Binary64.
Import SpecFloat.

(** The number that a binary64 of the specification of the Standard Library
    is. *)
Definition Number_of_spec_float (x : SpecFloat.spec_float) : Number :=
  match x with
  | SpecFloat.S754_zero _ => Finite 0
  | SpecFloat.S754_infinity s => if s then NegInfinity else PosInfinity
  | SpecFloat.S754_nan => NaN
  | SpecFloat.S754_finite s m e =>
      Finite ((if s then -1 else 1) * Z.pos m * 2 ^ (e + 1074))
  end.

(** The product of the specification ([prec] 53, [emax] 1024) is the product
    of this file. *)
Definition multiply_agrees (x y : SpecFloat.spec_float) : Prop :=
  Number_of_spec_float (SpecFloat.SFmul 53 1024 x y) =
  Number_multiply (Number_of_spec_float x) (Number_of_spec_float y).

Definition spec_double (s : bool) (m : positive) (e : Z) : SpecFloat.spec_float :=
  SpecFloat.S754_finite s m e.

Definition spec_integer (z : Z) : SpecFloat.spec_float :=
  SpecFloat.binary_normalize 53 1024 z 0 false.

(** The shifts of the specification, one bit at a time. *)
Lemma iter_pos_nat {A} (f : A -> A) p x :
  iter_pos f p x = Nat.iter (Pos.to_nat p) f x.
Proof.
  revert x. induction p as [p IH|p IH|]; intros x; cbn [iter_pos].
  - rewrite !IH, Pos2Nat.inj_xI. cbn [Nat.mul Nat.iter].
    rewrite Nat.add_0_r, <- Nat.iter_add, <- Nat.iter_succ_r. done.
  - rewrite !IH, Pos2Nat.inj_xO. cbn [Nat.mul].
    by rewrite Nat.add_0_r, <- Nat.iter_add.
  - done.
Qed.

Lemma shr_1_spec m r s :
  0 <= m -> shr_1 (Build_shr_record m r s) = Build_shr_record (Z.div2 m) (Z.odd m) (r || s).
Proof. intros Hm. by destruct m as [|[p|p|]|p]. Qed.

(** [m] shifted right by [k] bits, with the last bit shifted out and whether
    a bit before it was set. *)
Definition shr_spec (m : Z) (k : Z) : shr_record :=
  Build_shr_record (m / 2 ^ k) (Z.testbit m (k - 1)) (negb (m mod 2 ^ (k - 1) =? 0)).

Lemma shr_iter m k :
  0 <= m ->
  Nat.iter (S k) shr_1 (Build_shr_record m false false) = shr_spec m (Z.of_nat (S k)).
Proof.
  intros Hm. induction k as [|k IH].
  - cbn [Nat.iter]. rewrite shr_1_spec by done. unfold shr_spec.
    change (Z.of_nat 1 - 1) with 0. change (2 ^ 0) with 1. rewrite Z.mod_1_r.
    rewrite Z.bit0_odd, Z.div2_div. done.
  - rewrite Nat.iter_succ, IH. unfold shr_spec at 1.
    assert (Hk : 0 <= Z.of_nat (S k)) by lia.
    assert (HP : 0 < 2 ^ Z.of_nat (S k)) by (by apply Z.pow_pos_nonneg).
    rewrite shr_1_spec by (by apply Z.div_pos).
    unfold shr_spec. replace (Z.of_nat (S (S k)) - 1) with (Z.of_nat (S k)) by lia.
    replace (Z.of_nat (S (S k))) with (Z.of_nat (S k) + 1) by lia.
    set (j := Z.of_nat (S k)) in *. f_equal.
    + rewrite Z.div2_div. rewrite (Z.pow_add_r 2 j 1) by lia. rewrite Z.div_div by lia. done.
    + rewrite <- Z.shiftr_div_pow2, <- Z.bit0_odd, Z.shiftr_spec by lia. done.
    + assert (0 < 2 ^ (j - 1)) by (apply Z.pow_pos_nonneg; lia).
      replace (2 ^ j) with (2 ^ (j - 1) * 2)
        by (rewrite Z.mul_comm, <- Z.pow_succ_r by lia; f_equal; lia).
      rewrite Z.rem_mul_r by lia.
      pose proof (Z.mod_pos_bound m (2 ^ (j - 1)) ltac:(lia)).
      pose proof (Z.mod_pos_bound (m / 2 ^ (j - 1)) 2 ltac:(lia)).
      destruct (Z.testbit m (j - 1)) eqn:Eb.
      * apply Z.testbit_true in Eb; [|lia]. simpl.
        symmetry. apply negb_true_iff, Z.eqb_neq. nia.
      * apply Z.testbit_false in Eb; [|lia]. simpl. rewrite Eb.
        by rewrite Z.mul_0_r, Z.add_0_r.
Qed.

Lemma shr_pos m p :
  0 <= m ->
  iter_pos shr_1 p (Build_shr_record m false false) = shr_spec m (Z.pos p).
Proof.
  intros Hm. rewrite iter_pos_nat.
  destruct (Pos2Nat.is_succ p) as [k Hk]. rewrite Hk, shr_iter by done.
  f_equal. lia.
Qed.

Lemma Zdigits2_log2 p : Zdigits2 (Z.pos p) = Z.log2 (Z.pos p) + 1.
Proof.
  simpl. induction p as [p IH|p IH|]; cbn [digits2_pos]; try done.
  - rewrite Pos2Z.inj_succ, IH. destruct p; simpl; lia.
  - rewrite Pos2Z.inj_succ, IH. destruct p; simpl; lia.
Qed.

Lemma round_ties_even_scale a n k :
  0 < n -> 0 <= k -> round_ties_even (a * 2 ^ k) (n + k) = round_ties_even a n.
Proof.
  intros Hn Hk. unfold round_ties_even.
  assert (Hc : 0 < 2 ^ k) by (by apply Z.pow_pos_nonneg).
  assert (Hb : 0 < 2 ^ n) by (apply Z.pow_pos_nonneg; lia).
  assert (Hh : 0 < 2 ^ (n - 1)) by (apply Z.pow_pos_nonneg; lia).
  rewrite Z.pow_add_r by lia.
  rewrite Z.div_mul_cancel_r, Z.mul_mod_distr_r by lia.
  replace (n + k - 1) with (n - 1 + k) by lia. rewrite Z.pow_add_r by lia.
  destruct (Z.ltb_spec (a mod 2 ^ n * 2 ^ k) (2 ^ (n - 1) * 2 ^ k)),
           (Z.ltb_spec (a mod 2 ^ n) (2 ^ (n - 1))); try nia; try done.
  destruct (Z.ltb_spec (2 ^ (n - 1) * 2 ^ k) (a mod 2 ^ n * 2 ^ k)),
           (Z.ltb_spec (2 ^ (n - 1)) (a mod 2 ^ n)); try nia; done.
Qed.

Lemma round_nearest_even_shr m n :
  0 <= m -> 0 < n ->
  round_nearest_even (shr_m (shr_spec m n)) (loc_of_shr_record (shr_spec m n)) =
  round_ties_even m n.
Proof.
  intros Hm Hn. unfold shr_spec, round_ties_even. cbn [shr_m loc_of_shr_record].
  assert (Hh : 0 < 2 ^ (n - 1)) by (apply Z.pow_pos_nonneg; lia).
  assert (E : m mod 2 ^ n =
              m mod 2 ^ (n - 1) + 2 ^ (n - 1) * ((m / 2 ^ (n - 1)) mod 2)).
  { replace (2 ^ n) with (2 ^ (n - 1) * 2)
      by (rewrite Z.mul_comm, <- Z.pow_succ_r by lia; f_equal; lia).
    apply Z.rem_mul_r; lia. }
  pose proof (Z.mod_pos_bound m (2 ^ (n - 1)) ltac:(lia)) as Hlow.
  rewrite E.
  destruct (Z.testbit m (n - 1)) eqn:Eb.
  - apply Z.testbit_true in Eb; [|lia]. rewrite Eb.
    destruct (Z.eqb_spec (m mod 2 ^ (n - 1)) 0) as [E0|E0]; cbn [negb round_nearest_even].
    + rewrite E0.
      destruct (Z.ltb_spec (0 + 2 ^ (n - 1) * 1) (2 ^ (n - 1))); [lia|].
      destruct (Z.ltb_spec (2 ^ (n - 1)) (0 + 2 ^ (n - 1) * 1)); [lia|]. done.
    + destruct (Z.ltb_spec (m mod 2 ^ (n - 1) + 2 ^ (n - 1) * 1) (2 ^ (n - 1))); [lia|].
      destruct (Z.ltb_spec (2 ^ (n - 1)) (m mod 2 ^ (n - 1) + 2 ^ (n - 1) * 1)); [done|lia].
  - apply Z.testbit_false in Eb; [|lia]. rewrite Eb.
    destruct (Z.ltb_spec (m mod 2 ^ (n - 1) + 2 ^ (n - 1) * 0) (2 ^ (n - 1))); [|lia].
    by destruct (negb _).
Qed.

Lemma round_to_double_signed (sx : bool) a :
  0 < a ->
  round_to_double ((if sx then -1 else 1) * a) =
  if 2 ^ 2098 <=? nearest_magnitude a
  then (if sx then NegInfinity else PosInfinity)
  else Finite ((if sx then -1 else 1) * nearest_magnitude a).
Proof.
  intros Ha. unfold round_to_double. destruct sx.
  - replace (Z.abs (-1 * a)) with a by lia.
    destruct (Z.ltb_spec 0 (-1 * a)); [lia|].
    rewrite Z.sgn_neg by lia. done.
  - replace (Z.abs (1 * a)) with a by lia.
    destruct (Z.ltb_spec 0 (1 * a)); [|lia].
    rewrite Z.sgn_pos by lia. done.
Qed.

Lemma nearest_magnitude_scaled m e :
  0 < m -> -2148 <= e ->
  let f := Z.max (Z.log2 m + 1 + e - 53) (-1074) in
  nearest_magnitude (m * 2 ^ (e + 2148)) =
  (if 0 <? f - e then round_ties_even m (f - e) else m * 2 ^ (e - f)) * 2 ^ (f + 1074).
Proof.
  intros Hm He f. unfold nearest_magnitude.
  assert (Es : Z.max (Z.log2 (m * 2 ^ (e + 2148)) + 1 - 53) 1074 = f + 2148)
    by (rewrite Z.log2_mul_pow2 by lia; lia).
  rewrite Es.
  replace (f + 2148 - 1074) with (f + 1074) by lia. f_equal.
  destruct (Z.ltb_spec 0 (f - e)) as [Hn|Hn].
  - replace (f + 2148) with (f - e + (e + 2148)) by lia.
    apply round_ties_even_scale; lia.
  - assert (HP : 0 < 2 ^ (f + 2148)) by (apply Z.pow_pos_nonneg; lia).
    assert (E : m * 2 ^ (e + 2148) = m * 2 ^ (e - f) * 2 ^ (f + 2148)).
    { rewrite <- Z.mul_assoc, <- Z.pow_add_r by lia. do 2 f_equal. lia. }
    rewrite round_ties_even_exact; [|lia|].
    + rewrite E. apply Z.div_mul. lia.
    + rewrite E. apply Z.mod_mul. lia.
Qed.

Lemma fexp_binary64 x : fexp 53 1024 x = Z.max (x - 53) (-1074).
Proof. reflexivity. Qed.

Lemma shr_fexp_exact m e :
  0 <= m ->
  shr_fexp 53 1024 m e loc_Exact =
  if 0 <? fexp 53 1024 (Zdigits2 m + e) - e
  then (shr_spec m (fexp 53 1024 (Zdigits2 m + e) - e), fexp 53 1024 (Zdigits2 m + e))
  else (Build_shr_record m false false, e).
Proof.
  intros Hm. unfold shr_fexp, shr. cbn [shr_record_of_loc].
  change (Z.sub (fexp 53 1024 (Z.add (Zdigits2 m) e)) e)
    with (fexp 53 1024 (Zdigits2 m + e) - e).
  destruct (fexp 53 1024 (Zdigits2 m + e) - e) as [|p|p] eqn:E; try done.
  destruct (Z.ltb_spec 0 (Z.pos p)); [|lia].
  rewrite shr_pos by done. f_equal.
  change (Z.add e (Z.pos p)) with (e + Z.pos p). lia.
Qed.

Lemma binary_round_aux_spec sx m e :
  -2148 <= e -> (Z.log2 (Z.pos m) + 1 <= 53 -> e <= 971) ->
  Number_of_spec_float (binary_round_aux 53 1024 sx (Z.pos m) e loc_Exact) =
  round_to_double ((if sx then -1 else 1) * (Z.pos m * 2 ^ (e + 2148))).
Proof.
  intros He Hsub.
  assert (H2148 : 0 < 2 ^ (e + 2148)) by (apply Z.pow_pos_nonneg; lia).
  rewrite round_to_double_signed by lia.
  rewrite nearest_magnitude_scaled by lia. cbv zeta.
  unfold binary_round_aux. rewrite shr_fexp_exact by lia.
  rewrite Zdigits2_log2, fexp_binary64.
  replace (Z.log2 (Z.pos m) + 1 + e - 53) with (Z.log2 (Z.pos m) + 1 + e - 53) by done.
  set (d := Z.log2 (Z.pos m) + 1) in *.
  set (f := Z.max (d + e - 53) (-1074)).
  pose proof (Z.log2_spec (Z.pos m) ltac:(lia)) as [Hlo Hhi].
  replace (Z.succ (Z.log2 (Z.pos m))) with d in Hhi by (unfold d; lia).
  replace (Z.log2 (Z.pos m)) with (d - 1) in Hlo by (unfold d; lia).
  assert (Hf : -1074 <= f) by lia.
  assert (Hf1 : 0 < 2 ^ (f + 1074)) by (apply Z.pow_pos_nonneg; lia).
  destruct (Z.ltb_spec 0 (f - e)) as [Hn|Hn].
  - rewrite round_nearest_even_shr by lia.
    pose proof (round_ties_even_bounds (Z.pos m) (f - e)) as Hq.
    assert (Hn2 : 0 < 2 ^ (f - e)) by (apply Z.pow_pos_nonneg; lia).
    assert (Hq53 : Z.pos m / 2 ^ (f - e) < 2 ^ 53).
    { apply Z.div_lt_upper_bound; [done|]. rewrite <- Z.pow_add_r by lia.
      eapply Z.lt_le_trans; [exact Hhi|]. apply Z.pow_le_mono_r; lia. }
    assert (Hq0 : 0 <= Z.pos m / 2 ^ (f - e)) by (apply Z.div_pos; lia).
    assert (Hq52 : -1074 < f -> 2 ^ 52 <= Z.pos m / 2 ^ (f - e)).
    { intros Hnorm. apply Z.div_le_lower_bound; [done|].
      rewrite <- Z.pow_add_r by lia.
      eapply Z.le_trans; [|exact Hlo]. apply Z.pow_le_mono_r; lia. }
    set (q := round_ties_even (Z.pos m) (f - e)) in *.
    rewrite shr_fexp_exact by lia. rewrite fexp_binary64.
    destruct q as [|p|p] eqn:Eq; [| |lia].
    + cbn [Zdigits2]. destruct (Z.ltb_spec 0 (Z.max (0 + f - 53) (-1074) - f)); [lia|].
      cbn [shr_m Number_of_spec_float]. rewrite Z.mul_0_l.
      destruct (Z.leb_spec (2 ^ 2098) 0) as [Hov|_].
      { pose proof (Z.pow_pos_nonneg 2 2098). lia. }
      f_equal. lia.
    + rewrite Zdigits2_log2.
      pose proof (Z.log2_spec (Z.pos p) ltac:(lia)) as [Hplo Hphi].
      set (d1 := Z.log2 (Z.pos p) + 1) in *.
      replace (Z.succ (Z.log2 (Z.pos p))) with d1 in Hphi by (unfold d1; lia).
      replace (Z.log2 (Z.pos p)) with (d1 - 1) in Hplo by (unfold d1; lia).
      assert (Hd1 : d1 <= 54).
      { destruct (Z.le_gt_cases d1 54) as [|Hgt]; [done|exfalso].
        assert (2 ^ 54 <= 2 ^ (d1 - 1)) by (apply Z.pow_le_mono_r; lia).
        assert (2 ^ 54 = 2 * 2 ^ 53) by done. lia. }
      assert (Hd0 : 1 <= d1) by (pose proof (Z.log2_nonneg (Z.pos p)); lia).
      destruct (Z.ltb_spec 0 (Z.max (d1 + f - 53) (-1074) - f)) as [Hc|Hc].
      * assert (d1 = 54) by lia.
        assert (Hp : Z.pos p = 2 ^ 53).
        { assert (2 ^ 53 <= Z.pos p) by (replace 53 with (d1 - 1) by lia; done). lia. }
        replace (Z.max (d1 + f - 53) (-1074) - f) with 1 by lia.
        replace (Z.max (d1 + f - 53) (-1074)) with (f + 1) by lia.
        unfold shr_spec. cbn [shr_m]. rewrite Hp.
        change (2 ^ 53 / 2 ^ 1) with (Z.pos (2 ^ 52)).
        cbn [Number_of_spec_float].
        change (1024 - 53) with 971.
        assert (Hu : 2 ^ 53 * 2 ^ (f + 1074) = Z.pos (2 ^ 52) * 2 ^ (f + 1 + 1074)).
        { replace (f + 1 + 1074) with (1 + (f + 1074)) by lia.
          rewrite (Z.pow_add_r 2 1) by lia.
          change (2 ^ 53) with (Z.pos (2 ^ 52) * 2 ^ 1). lia. }
        destruct (Z.leb_spec (f + 1) 971) as [Hle|Hgt],
                 (Z.leb_spec (2 ^ 2098) (2 ^ 53 * 2 ^ (f + 1074))) as [Hov|Hov].
        -- exfalso. rewrite <- Z.pow_add_r in Hov by lia.
           apply Z.pow_le_mono_r_iff in Hov; lia.
        -- cbn [Number_of_spec_float]. f_equal. rewrite Hu. ring.
        -- by destruct sx.
        -- exfalso. rewrite <- Z.pow_add_r in Hov by lia.
           apply Z.pow_lt_mono_r_iff in Hov; lia.
      * cbn [shr_m Number_of_spec_float]. change (1024 - 53) with 971.
        destruct (Z.leb_spec f 971) as [Hle|Hgt],
                 (Z.leb_spec (2 ^ 2098) (Z.pos p * 2 ^ (f + 1074))) as [Hov|Hov].
        -- exfalso.
           assert (Z.pos p * 2 ^ (f + 1074) < 2 ^ 53 * 2 ^ (f + 1074)).
           { apply Z.mul_lt_mono_pos_r; [done|].
             eapply Z.lt_le_trans; [exact Hphi|]. apply Z.pow_le_mono_r; lia. }
           assert (2 ^ 53 * 2 ^ (f + 1074) <= 2 ^ 2098).
           { rewrite <- Z.pow_add_r by lia. apply Z.pow_le_mono_r; lia. }
           lia.
        -- cbn [Number_of_spec_float]. f_equal. ring.
        -- by destruct sx.
        -- exfalso.
           assert (2 ^ 52 * 2 ^ (f + 1074) <= Z.pos p * 2 ^ (f + 1074)).
           { apply Z.mul_le_mono_nonneg_r; [lia|]. specialize (Hq52 ltac:(lia)). lia. }
           assert (2 ^ 2098 <= 2 ^ 52 * 2 ^ (f + 1074)).
           { rewrite <- Z.pow_add_r by lia. apply Z.pow_le_mono_r; lia. }
           lia.
  - assert (Hd : d <= 53) by lia. specialize (Hsub Hd).
    cbn [shr_m loc_of_shr_record round_nearest_even].
    rewrite shr_fexp_exact by lia. rewrite Zdigits2_log2, fexp_binary64.
    fold d. fold f.
    destruct (Z.ltb_spec 0 (f - e)); [lia|].
    cbn [shr_m Number_of_spec_float]. change (1024 - 53) with 971.
    destruct (Z.leb_spec e 971); [|lia].
    assert (Hu : Z.pos m * 2 ^ (e - f) * 2 ^ (f + 1074) = Z.pos m * 2 ^ (e + 1074)).
    { rewrite <- Z.mul_assoc, <- Z.pow_add_r by lia. do 2 f_equal. lia. }
    rewrite Hu.
    destruct (Z.leb_spec (2 ^ 2098) (Z.pos m * 2 ^ (e + 1074))) as [Hov|Hov].
    + exfalso.
      assert (0 < 2 ^ (e + 1074)) by (apply Z.pow_pos_nonneg; lia).
      assert (Z.pos m * 2 ^ (e + 1074) < 2 ^ 53 * 2 ^ (e + 1074)).
      { apply Z.mul_lt_mono_pos_r; [done|].
        eapply Z.lt_le_trans; [exact Hhi|]. apply Z.pow_le_mono_r; lia. }
      assert (2 ^ 53 * 2 ^ (e + 1074) <= 2 ^ 2098).
      { rewrite <- Z.pow_add_r by lia. apply Z.pow_le_mono_r; lia. }
      lia.
    + cbn [Number_of_spec_float]. f_equal. ring.
Qed.

Lemma valid_binary_finite s m e :
  valid_binary 53 1024 (S754_finite s m e) = true ->
  -1074 <= e <= 971 /\
  (Z.log2 (Z.pos m) + 1 = 53 \/ (e = -1074 /\ Z.log2 (Z.pos m) + 1 <= 53)).
Proof.
  unfold valid_binary, bounded, canonical_mantissa.
  intros [Hc Hb%Z.leb_le]%andb_true_iff. apply Z.eqb_eq in Hc.
  change (Z.pos (digits2_pos m)) with (Zdigits2 (Z.pos m)) in Hc.
  rewrite Zdigits2_log2, fexp_binary64 in Hc.
  change (1024 - 53) with 971 in Hb. lia.
Qed.

Lemma Number_sign_finite (s : bool) m k :
  Number_sign (Finite ((if s then -1 else 1) * Z.pos m * 2 ^ (k + 1074))) =
  if decide (0 <= k + 1074) then (if s then -1 else 1) else 0.
Proof.
  cbn [Number_sign]. case_decide as Hk.
  - assert (0 < 2 ^ (k + 1074)) by (by apply Z.pow_pos_nonneg).
    destruct s; [apply Z.sgn_neg|apply Z.sgn_pos]; nia.
  - rewrite Z.pow_neg_r by lia. by rewrite Z.mul_0_r.
Qed.

(** On the doubles, the product of this file is the product of the
    specification of binary64 in the Standard Library. *)
Theorem Number_multiply_is_SFmul x y :
  valid_binary 53 1024 x = true -> valid_binary 53 1024 y = true ->
  multiply_agrees x y.
Proof.
  intros Hx Hy. unfold multiply_agrees.
  destruct x as [sx|sx| |sx mx ex], y as [sy|sy| |sy my ey];
    try (by destruct sx, sy); try (by destruct sx); try (by destruct sy); try done.
  - apply valid_binary_finite in Hy as [Hey _].
    destruct sx; cbn [SFmul Number_of_spec_float]; unfold Number_multiply;
      rewrite Number_sign_finite, decide_True by lia; by destruct sy.
  - cbn [SFmul Number_of_spec_float Number_multiply]. by rewrite Z.mul_0_r.
  - apply valid_binary_finite in Hx as [Hex _].
    destruct sy; cbn [SFmul Number_of_spec_float]; unfold Number_multiply;
      rewrite Number_sign_finite, decide_True by lia; by destruct sx.
  - apply valid_binary_finite in Hx as [Hex Hdx].
    apply valid_binary_finite in Hy as [Hey Hdy].
    cbn [SFmul Number_of_spec_float Number_multiply].
    change (Z.add ex ey) with (ex + ey).
    rewrite binary_round_aux_spec.
    + f_equal. rewrite Pos2Z.inj_mul.
      replace (ex + ey + 2148) with ((ex + 1074) + (ey + 1074)) by lia.
      rewrite Z.pow_add_r by lia. destruct sx, sy; cbn [xorb]; ring.
    + lia.
    + intros Hd. rewrite Pos2Z.inj_mul in Hd.
      pose proof (Z.log2_mul_below (Z.pos mx) (Z.pos my) ltac:(lia) ltac:(lia)).
      lia.
Qed.

(** The numbers of the examples are doubles of the specification. *)
Lemma example_numbers_are_doubles :
  Forall (fun xn => valid_binary 53 1024 (fst xn) = true /\
                    Number_of_spec_float (fst xn) = snd xn)
    [(spec_double false 0x1999999999999a (-56), Number_0_1);
     (spec_double false 0x11eb851eb851ec (-54), Number_0_28);
     (spec_double false 0x1999999999999a (-54), Number_0_4);
     (spec_double false 0x10000000000000 (-53), Number_0_5);
     (spec_double false 0x13333333333333 (-53), Number_0_6);
     (spec_double false 0x1ccccccccccccd (-53), Number_0_9);
     (spec_integer 2, Number_of_Z 2);
     (spec_integer 3, Number_of_Z 3);
     (spec_integer 5, Number_of_Z 5);
     (spec_integer 10, Number_of_Z 10);
     (spec_integer 25, Number_of_Z 25)].
Proof. repeat constructor; by vm_compute. Qed.

(** Instances, computed: the products of the examples, and products that
    overflow, that are subnormal, that lie half way between two doubles, or
    that have an infinity. *)
Lemma Number_multiply_as_in_SpecFloat :
  multiply_agrees (spec_double false 0x1999999999999a (-56)) (spec_integer 10) /\
  multiply_agrees (spec_double false 0x1999999999999a (-54)) (spec_integer 5) /\
  multiply_agrees (spec_double false 0x11eb851eb851ec (-54)) (spec_integer 25) /\
  multiply_agrees (spec_double false 0x13333333333333 (-53)) (spec_integer 5) /\
  multiply_agrees (spec_double true 0x11eb851eb851ec (-54)) (spec_integer 4294967295) /\
  multiply_agrees (spec_double false 0x1fffffffffffff 971) (spec_integer 2) /\
  multiply_agrees (spec_double true 0x1fffffffffffff 971) (spec_double false 0x10000000000001 (-52)) /\
  multiply_agrees (spec_double false 0x1fffffffffffff 971) (spec_double false 0x1ffffffffffffe (-53)) /\
  multiply_agrees (spec_double false 1 (-1074)) (spec_double false 1 (-1)) /\
  multiply_agrees (spec_double false 3 (-1074)) (spec_double false 1 (-1)) /\
  multiply_agrees (spec_double false 0x1fffffffffffff (-1074)) (spec_double false 0x11eb851eb851ec (-54)) /\
  multiply_agrees (spec_double false 0x10000000000001 (-1060)) (spec_double true 0x10000000000001 (-53)) /\
  multiply_agrees (spec_double false 0x10000000000001 (-52)) (spec_double false 3 (-1)) /\
  multiply_agrees (spec_double false 0x10000000000003 (-52)) (spec_double true 3 (-1)) /\
  multiply_agrees (SpecFloat.S754_infinity false) (spec_integer 0) /\
  multiply_agrees (SpecFloat.S754_infinity true) (spec_integer 3).
Proof. split_and!; by vm_compute. Qed.

End Binary64.

(** ** The shape of the heap of a tree *)

(** No parent has two children carrying equal items. *)
Definition siblings_unique (h : Heap) : Prop :=
  ∀ p pn c1 c2 n1 n2,
    h !! p = Some pn -> c1 ∈ children pn -> c2 ∈ children pn ->
    h !! c1 = Some n1 -> h !! c2 = Some n2 -> item n1 = item n2 -> c1 = c2.

Record heap_shape (h : Heap) : Prop := mk_heap_shape {
  shape_root : ∃ r, h !! root = Some r /\ item r = None /\ parent r = None;
  shape_parent : ∀ i n, h !! i = Some n -> i ≠ root ->
    ∃ p pn it, parent n = Some p /\ item n = Some it /\ (p < i)%nat /\
               h !! p = Some pn /\ i ∈ children pn;
  shape_child : ∀ p pn c, h !! p = Some pn -> c ∈ children pn ->
    ∃ cn, h !! c = Some cn /\ parent cn = Some p;
  shape_children_NoDup : ∀ p pn, h !! p = Some pn -> NoDup (children pn);
  shape_siblings : siblings_unique h
}.

(** The part of a node that support counting and node links leave alone. *)
Definition skeleton (n : FPNode) : option N * option NodeRef * list NodeRef :=
  (item n, parent n, children n).

Lemma skeleton_lookup (h h' : Heap) i n' :
  skeleton <$> h' = skeleton <$> h -> h' !! i = Some n' ->
  ∃ n, h !! i = Some n /\ item n = item n' /\ parent n = parent n' /\
       children n = children n'.
Proof.
  intros E H. apply (f_equal (fun l => l !! i)) in E.
  rewrite !list_lookup_fmap, H in E. simpl in E.
  destruct (h !! i) as [n|]; [|done]. exists n. split; [done|].
  unfold skeleton in E. injection E as ? ? ?. auto.
Qed.

Lemma heap_shape_skeleton (h h' : Heap) :
  skeleton <$> h' = skeleton <$> h -> heap_shape h -> heap_shape h'.
Proof.
  intros E [Hr Hp Hc Hn Hs].
  assert (E' : skeleton <$> h = skeleton <$> h') by done.
  split.
  - destruct Hr as (r & H1 & H2 & H3).
    destruct (skeleton_lookup _ _ _ _ E' H1) as (r' & ? & ? & ? & ?).
    exists r'. split_and!; congruence.
  - intros i n' Hi Hne.
    destruct (skeleton_lookup _ _ _ _ E Hi) as (n & Hn1 & ? & ? & ?).
    destruct (Hp i n Hn1 Hne) as (p & pn & it & ? & ? & ? & Hpn & ?).
    destruct (skeleton_lookup _ _ _ _ E' Hpn) as (pn' & ? & ? & ? & ?).
    exists p, pn', it. split_and!; congruence.
  - intros p pn' c Hpn Hin.
    destruct (skeleton_lookup _ _ _ _ E Hpn) as (pn & Hpn1 & ? & ? & Hch).
    rewrite <- Hch in Hin.
    destruct (Hc p pn c Hpn1 Hin) as (cn & Hcn & ?).
    destruct (skeleton_lookup _ _ _ _ E' Hcn) as (cn' & ? & ? & ? & ?).
    exists cn'. split; congruence.
  - intros p pn' Hpn.
    destruct (skeleton_lookup _ _ _ _ E Hpn) as (pn & Hpn1 & ? & ? & Hch).
    rewrite <- Hch. eauto.
  - intros p pn' c1 c2 n1' n2' Hpn H1 H2 Hn1 Hn2 Hit.
    destruct (skeleton_lookup _ _ _ _ E Hpn) as (pn & Hpn1 & ? & ? & Hch).
    destruct (skeleton_lookup _ _ _ _ E Hn1) as (n1 & ? & ? & ? & ?).
    destruct (skeleton_lookup _ _ _ _ E Hn2) as (n2 & ? & ? & ? & ?).
    rewrite <- Hch in H1, H2.
    eapply (Hs p pn c1 c2 n1 n2); eauto. congruence.
Qed.

Lemma skeleton_alter_support f i (h : Heap) :
  skeleton <$> alter (fun n => set_support (f n) n) i h = skeleton <$> h.
Proof.
  apply list_eq. intros j. rewrite !list_lookup_fmap, list_lookup_alter.
  case_decide; [subst|done]. by destruct (h !! j).
Qed.

Lemma skeleton_alter_next c i (h : Heap) :
  skeleton <$> alter (set_nextSameItemNode c) i h = skeleton <$> h.
Proof.
  apply list_eq. intros j. rewrite !list_lookup_fmap, list_lookup_alter.
  case_decide; [subst|done]. by destruct (h !! j).
Qed.

Lemma heap_shape_new sup s : heap_shape (nodes (new_FPTree sup s)).
Proof.
  split; simpl.
  - eexists. split; [reflexivity|done].
  - intros [|i] n H; [done|]. by destruct i.
  - intros [|[|p]] pn c H; try done. injection H as <-. simpl.
    by intros ?%elem_of_nil.
  - intros [|[|p]] pn H; try done. injection H as <-. constructor.
  - intros [|[|p]] pn c1 c2 n1 n2 H; try done. injection H as <-. simpl.
    by intros ?%elem_of_nil.
Qed.

Lemma getChild_Some h self it c :
  getChild h self it = Some c ->
  ∃ n cn, h !! self = Some n /\ c ∈ children n /\ h !! c = Some cn /\
          item cn = Some it.
Proof.
  unfold getChild. destruct (h !! self) as [n|] eqn:E; [|done].
  intros [Hin Hit]%find_some. exists n.
  unfold item_is in Hit. destruct (h !! c) as [cn|]; [|done].
  destruct (item cn) as [i|] eqn:Ei; [|done].
  apply N.eqb_eq in Hit as ->. exists cn. split_and!; try done.
  by apply list_elem_of_In.
Qed.

Lemma getChild_None h self it n c cn :
  getChild h self it = None -> h !! self = Some n -> c ∈ children n ->
  h !! c = Some cn -> item cn ≠ Some it.
Proof.
  unfold getChild. intros H Hn Hin Hcn Hit. rewrite Hn in H.
  apply list_elem_of_In in Hin.
  pose proof (find_none _ _ H c Hin) as Hf.
  unfold item_is in Hf. rewrite Hcn, Hit, N.eqb_refl in Hf. done.
Qed.

(** The heap after [upsertChild] created a child. *)
Definition heap_with_child (h : Heap) (self : NodeRef) (it : N) (sup : Z) : Heap :=
  alter (push_child (length h)) self
        (h ++ [set_support sup (new_FPNode (Some it) (Some self))]).

Lemma heap_with_child_lookup h self it sup i :
  (self < length h)%nat ->
  heap_with_child h self it sup !! i =
    if decide (i = length h) then Some (set_support sup (new_FPNode (Some it) (Some self)))
    else if decide (i = self) then push_child (length h) <$> h !! i
    else h !! i.
Proof.
  intros Hlt. unfold heap_with_child. rewrite list_lookup_alter.
  case_decide as E1.
  - subst i. case_decide as E2; [lia|]. rewrite decide_True by done.
    by rewrite lookup_app_l.
  - case_decide as E2.
    + subst i. by rewrite list_lookup_middle.
    + rewrite decide_False by done.
      destruct (decide (i < length h)%nat).
      * by rewrite lookup_app_l.
      * rewrite !lookup_ge_None_2; [done|lia|].
        rewrite length_app. simpl. lia.
Qed.

Lemma heap_with_child_old h self it sup c n :
  (self < length h)%nat -> c ≠ length h ->
  heap_with_child h self it sup !! c = Some n ->
  ∃ n0, h !! c = Some n0 /\ item n0 = item n /\ parent n0 = parent n /\
        support n0 = support n /\ nextSameItemNode n0 = nextSameItemNode n /\
        children n = if decide (c = self) then children n0 ++ [length h]
                     else children n0.
Proof.
  intros Hlt Hne. rewrite heap_with_child_lookup by done.
  rewrite decide_False by done.
  destruct (decide (c = self)) as [->|]; [|by exists n].
  destruct (h !! self) as [n0|]; [|done]. intros [= <-]. by exists n0.
Qed.

Lemma heap_with_child_keep h self it sup c n0 :
  (self < length h)%nat -> h !! c = Some n0 ->
  ∃ n, heap_with_child h self it sup !! c = Some n /\
       item n = item n0 /\ parent n = parent n0 /\
       support n = support n0 /\ nextSameItemNode n = nextSameItemNode n0 /\
       children n = if decide (c = self) then children n0 ++ [length h]
                    else children n0.
Proof.
  intros Hlt Hc. rewrite heap_with_child_lookup by done.
  rewrite decide_False by (apply lookup_lt_Some in Hc; lia).
  destruct (decide (c = self)) as [->|]; [|by exists n0].
  rewrite Hc. by eexists.
Qed.

Lemma heap_with_child_new h self it sup :
  (self < length h)%nat ->
  heap_with_child h self it sup !! length h =
    Some (set_support sup (new_FPNode (Some it) (Some self))).
Proof. intros. rewrite heap_with_child_lookup by done. by rewrite decide_True. Qed.

Lemma heap_with_child_length h self it sup :
  length (heap_with_child h self it sup) = S (length h).
Proof. unfold heap_with_child. rewrite length_alter, length_app. simpl. lia. Qed.

Lemma heap_with_child_shape h self it sup :
  heap_shape h -> (self < length h)%nat -> getChild h self it = None ->
  heap_shape (heap_with_child h self it sup).
Proof.
  intros [Hr Hp Hc Hn Hs] Hlt Hnone.
  assert (Hvalid : ∀ p pn c, h !! p = Some pn -> c ∈ children pn -> (c < length h)%nat).
  { intros p pn c H1 H2. destruct (Hc p pn c H1 H2) as (cn & H3 & _).
    by apply lookup_lt_Some in H3. }
  assert (Hcases : ∀ c n, heap_with_child h self it sup !! c = Some n ->
            (c = length h /\ n = set_support sup (new_FPNode (Some it) (Some self))) \/
            (c ≠ length h /\ (c < length h)%nat)).
  { intros c n H. destruct (decide (c = length h)) as [->|]; [left|right].
    - rewrite heap_with_child_new in H by done. by injection H as <-.
    - split; [done|]. apply lookup_lt_Some in H.
      rewrite heap_with_child_length in H. lia. }
  split.
  - destruct Hr as (r & H1 & H2 & H3).
    destruct (heap_with_child_keep h self it sup _ _ Hlt H1) as (r' & ? & ? & ? & _).
    exists r'. split_and!; congruence.
  - intros i n Hi Hne. destruct (Hcases _ _ Hi) as [[-> ->]|[Hne' Hlt']].
    + destruct (lookup_lt_is_Some_2 h self Hlt) as [sn Hsn].
      destruct (heap_with_child_keep h self it sup _ _ Hlt Hsn)
        as (sn' & ? & ? & ? & _ & _ & Hch).
      rewrite decide_True in Hch by done.
      exists self, sn', it. split_and!; try done.
      rewrite Hch. apply elem_of_app. right. left.
    + destruct (heap_with_child_old _ _ _ _ _ _ Hlt Hne' Hi) as (n0 & Hn0 & ? & ? & _).
      destruct (Hp i n0 Hn0 Hne) as (p & pn & it' & ? & ? & ? & Hpn & Hin).
      destruct (heap_with_child_keep h self it sup _ _ Hlt Hpn)
        as (pn' & ? & ? & ? & _ & _ & Hch).
      exists p, pn', it'. split_and!; try congruence; try done.
      rewrite Hch. case_decide; [apply elem_of_app; by left|done].
  - intros p pn c Hpn Hin. destruct (Hcases _ _ Hpn) as [[-> ->]|[Hne' Hlt']].
    + by apply elem_of_nil in Hin.
    + destruct (heap_with_child_old _ _ _ _ _ _ Hlt Hne' Hpn)
        as (pn0 & Hpn0 & ? & ? & _ & _ & Hch).
      rewrite Hch in Hin.
      assert (c ∈ children pn0 \/ (p = self /\ c = length h)) as [Hin'|[-> ->]].
      { case_decide; [|by left].
        apply elem_of_app in Hin as [?|?%list_elem_of_singleton]; auto. }
      * destruct (Hc p pn0 c Hpn0 Hin') as (cn & Hcn & ?).
        destruct (heap_with_child_keep h self it sup _ _ Hlt Hcn) as (cn' & ? & ? & ? & _).
        exists cn'. split; congruence.
      * rewrite heap_with_child_new by done. by eexists.
  - intros p pn Hpn. destruct (Hcases _ _ Hpn) as [[-> ->]|[Hne' Hlt']].
    + constructor.
    + destruct (heap_with_child_old _ _ _ _ _ _ Hlt Hne' Hpn)
        as (pn0 & Hpn0 & ? & ? & _ & _ & Hch).
      rewrite Hch. case_decide; [|by eapply Hn].
      apply NoDup_app. split_and!; [by eapply Hn| |apply NoDup_singleton].
      intros x Hx ->%list_elem_of_singleton.
      pose proof (Hvalid _ _ _ Hpn0 Hx). lia.
  - intros p pn c1 c2 n1 n2 Hpn Hc1 Hc2 Hn1 Hn2 Hit.
    destruct (Hcases _ _ Hpn) as [[-> ->]|[Hne' Hlt']];
      [by apply elem_of_nil in Hc1|].
    destruct (heap_with_child_old _ _ _ _ _ _ Hlt Hne' Hpn)
      as (pn0 & Hpn0 & ? & ? & _ & _ & Hch).
    rewrite Hch in Hc1, Hc2.
    assert (Hsplit : ∀ c, c ∈ (if decide (p = self) then children pn0 ++ [length h]
                               else children pn0) ->
              c ∈ children pn0 \/ (p = self /\ c = length h)).
    { intros c Hin. case_decide; [|by left].
      apply elem_of_app in Hin as [?|?%list_elem_of_singleton]; auto. }
    apply Hsplit in Hc1 as [Hc1|[-> ->]]; apply Hsplit in Hc2 as [Hc2|[Hps ->]].
    + pose proof (Hvalid _ _ _ Hpn0 Hc1). pose proof (Hvalid _ _ _ Hpn0 Hc2).
      destruct (heap_with_child_old _ _ _ _ c1 _ Hlt ltac:(lia) Hn1) as (m1 & ? & ? & _).
      destruct (heap_with_child_old _ _ _ _ c2 _ Hlt ltac:(lia) Hn2) as (m2 & ? & ? & _).
      eapply (Hs p pn0 c1 c2 m1 m2); eauto. congruence.
    + subst p. pose proof (Hvalid _ _ _ Hpn0 Hc1).
      destruct (heap_with_child_old _ _ _ _ c1 _ Hlt ltac:(lia) Hn1) as (m1 & ? & ? & _).
      rewrite heap_with_child_new in Hn2 by done. injection Hn2 as <-.
      simpl in Hit. exfalso. eapply getChild_None; eauto. congruence.
    + pose proof (Hvalid _ _ _ Hpn0 Hc2).
      destruct (heap_with_child_old _ _ _ _ c2 _ Hlt ltac:(lia) Hn2) as (m2 & ? & ? & _).
      rewrite heap_with_child_new in Hn1 by done. injection Hn1 as <-.
      simpl in Hit. exfalso. eapply getChild_None; eauto. congruence.
    + done.
Qed.
(** ** Node links *)

(** The addresses of the nodes that carry [it], in allocation order. *)
Definition occurrences (h : Heap) (it : N) : list NodeRef :=
  List.filter (item_is h it) (seq 0 (length h)).

(** The nodes reached from [start] along [nextSameItemNode], up to [null]. *)
Inductive node_links (h : Heap) : option NodeRef -> list NodeRef -> Prop :=
| node_links_null : node_links h None []
| node_links_next a n l :
    h !! a = Some n -> node_links h (nextSameItemNode n) l ->
    node_links h (Some a) (a :: l).

Record links_ok (t : FPTree) : Prop := mk_links_ok {
  links_first : ∀ it,
    JS.get (JS.JSON_stringify it) (_firstInserted t) = head (occurrences (nodes t) it);
  links_last : ∀ it,
    JS.get (JS.JSON_stringify it) (_lastInserted t) = last (occurrences (nodes t) it);
  links_next : ∀ it k a, occurrences (nodes t) it !! k = Some a ->
    ∃ n, nodes t !! a = Some n /\
         nextSameItemNode n = occurrences (nodes t) it !! S k;
  links_keys : ∀ k, k ∈ map fst (_firstInserted t) -> ∃ it, k = JS.JSON_stringify it;
  links_keys_NoDup : NoDup (map fst (_firstInserted t))
}.

Lemma occurrences_elem h it i :
  i ∈ occurrences h it <-> ∃ n, h !! i = Some n /\ item n = Some it.
Proof.
  unfold occurrences. rewrite list_elem_of_In, filter_In, <- list_elem_of_In.
  rewrite elem_of_seq. unfold item_is. split.
  - intros [_ H]. destruct (h !! i) as [n|]; [|done]. exists n. split; [done|].
    destruct (item n); [|done]. by apply N.eqb_eq in H as ->.
  - intros (n & H1 & H2). split.
    + apply lookup_lt_Some in H1. lia.
    + by rewrite H1, H2, N.eqb_refl.
Qed.

Lemma occurrences_ext h h' it :
  length h = length h' -> (∀ i, item_is h it i = item_is h' it i) ->
  occurrences h it = occurrences h' it.
Proof.
  intros El E. unfold occurrences. rewrite El.
  apply filter_ext. intros i. apply E.
Qed.

Lemma item_is_skeleton (h h' : Heap) it i :
  skeleton <$> h' = skeleton <$> h -> item_is h' it i = item_is h it i.
Proof.
  intros E. unfold item_is.
  apply (f_equal (fun l => l !! i)) in E. rewrite !list_lookup_fmap in E.
  destruct (h' !! i) as [n'|], (h !! i) as [n|]; try done.
  simpl in E. unfold skeleton in E. injection E as -> _ _. done.
Qed.

Lemma occurrences_skeleton (h h' : Heap) it :
  skeleton <$> h' = skeleton <$> h -> occurrences h' it = occurrences h it.
Proof.
  intros E. apply occurrences_ext.
  - apply (f_equal length) in E. by rewrite !length_fmap in E.
  - intros i. by apply item_is_skeleton.
Qed.

Lemma occurrences_with_child h self it sup it' :
  (self < length h)%nat ->
  occurrences (heap_with_child h self it sup) it' =
  occurrences h it' ++ (if decide (it = it') then [length h] else []).
Proof.
  intros Hlt. unfold occurrences. rewrite heap_with_child_length.
  rewrite seq_S, List.filter_app. simpl. f_equal.
  - apply list_eq. intros k. f_equal.
    apply filter_ext_in. intros i Hi%in_seq. unfold item_is.
    destruct (lookup_lt_is_Some_2 h i) as [n Hn]; [lia|].
    destruct (heap_with_child_keep h self it sup i n Hlt Hn) as (n' & -> & -> & _).
    by rewrite Hn.
  - unfold item_is at 1. rewrite heap_with_child_new by done. simpl.
    destruct (N.eqb_spec it it'); [by rewrite decide_True|by rewrite decide_False].
Qed.

Lemma occurrences_lt h it i : i ∈ occurrences h it -> (i < length h)%nat.
Proof. intros (n & H & _)%occurrences_elem. by apply lookup_lt_Some in H. Qed.

Lemma occurrences_NoDup h it : NoDup (occurrences h it).
Proof.
  unfold occurrences. apply NoDup_ListNoDup, List.NoDup_filter, NoDup_ListNoDup, NoDup_seq.
Qed.

(** Allocation order: the addresses increase along [occurrences]. *)
Lemma occurrences_sorted h it : StronglySorted lt (occurrences h it).
Proof.
  unfold occurrences. generalize 0%nat. induction (length h) as [|m IH]; intros a; simpl.
  - constructor.
  - assert (StronglySorted lt (a :: List.filter (item_is h it) (seq (S a) m))).
    { constructor; [apply IH|]. apply Forall_forall. intros x.
      rewrite list_elem_of_In, filter_In, in_seq. lia. }
    destruct (item_is h it a); [done|]. by apply StronglySorted_inv in H as [? _].
Qed.
(** *** One [upsertChild] step of [_addItems] *)

(** The heap after the callback of [_addItems] linked the new node. *)
Definition heap_linked (t : FPTree) (self : NodeRef) (it : N) (w : Z) : list FPNode :=
  let h := heap_with_child (nodes t) self it w in
  match JS.get (JS.JSON_stringify it) (_lastInserted t) with
  | Some l => alter (set_nextSameItemNode (Some (length (nodes t)))) l h
  | None => h
  end.

Lemma _addItems_step_found t cur it w c :
  getChild (nodes t) cur it = Some c ->
  _addItems_step w (t, cur) it =
    (set_nodes (alter (fun n => set_support (support n + w) n) c (nodes t)) t, c).
Proof. intros H. unfold _addItems_step, upsertChild. simpl. by rewrite H. Qed.

Lemma _addItems_step_created t cur it w :
  getChild (nodes t) cur it = None ->
  _addItems_step w (t, cur) it =
    (mkFPTree (heap_linked t cur it w) (_isInit t) (_headers t)
       (match JS.get (JS.JSON_stringify it) (_firstInserted t) with
        | Some _ => _firstInserted t
        | None => JS.set (JS.JSON_stringify it) (length (nodes t)) (_firstInserted t)
        end)
       (JS.set (JS.JSON_stringify it) (length (nodes t)) (_lastInserted t))
       (supports t) (_support t),
     length (nodes t)).
Proof.
  intros H. unfold _addItems_step, upsertChild. simpl. rewrite H.
  unfold onNewChild_addItems, _updateFirstInserted, _updateLastInserted, heap_linked.
  simpl. f_equal.
  destruct (JS.get (JS.JSON_stringify it) (_lastInserted t)); simpl;
    by destruct (JS.get (JS.JSON_stringify it) (_firstInserted t)).
Qed.

Lemma heap_linked_skeleton t self it w :
  skeleton <$> heap_linked t self it w =
  skeleton <$> heap_with_child (nodes t) self it w.
Proof.
  unfold heap_linked. destruct (JS.get _ _); [|done]. apply skeleton_alter_next.
Qed.

Lemma heap_linked_length t self it w :
  length (heap_linked t self it w) = S (length (nodes t)).
Proof.
  rewrite <- (length_fmap skeleton), heap_linked_skeleton, length_fmap.
  apply heap_with_child_length.
Qed.

Lemma heap_linked_lookup t self it w a :
  heap_linked t self it w !! a =
  if decide (JS.get (JS.JSON_stringify it) (_lastInserted t) = Some a)
  then set_nextSameItemNode (Some (length (nodes t)))
         <$> heap_with_child (nodes t) self it w !! a
  else heap_with_child (nodes t) self it w !! a.
Proof.
  unfold heap_linked. destruct (JS.get _ _) as [l|].
  - rewrite list_lookup_alter. destruct (decide (l = a)) as [->|].
    + by rewrite decide_True.
    + rewrite decide_False; [done|congruence].
  - by rewrite decide_False.
Qed.

Lemma last_snoc_list {A} (l : list A) x : last (l ++ [x]) = Some x.
Proof. by rewrite last_snoc. Qed.

Lemma links_ok_found t c f :
  links_ok t ->
  links_ok (set_nodes (alter (fun n => set_support (f n) n) c (nodes t)) t).
Proof.
  intros [H1 H2 H3 H4 H5].
  assert (E := skeleton_alter_support f c (nodes t)).
  split; simpl; try done.
  - intros it. rewrite (occurrences_skeleton _ _ it E). apply H1.
  - intros it. rewrite (occurrences_skeleton _ _ it E). apply H2.
  - intros it k a. rewrite (occurrences_skeleton _ _ it E). intros Hk.
    destruct (H3 it k a Hk) as (n & Hn & Hnx).
    rewrite list_lookup_alter. case_decide.
    + subst. rewrite Hn. eexists. split; [done|]. done.
    + by exists n.
Qed.

Lemma links_ok_created t cur it w :
  links_ok t -> (cur < length (nodes t))%nat ->
  links_ok (fst (_addItems_step w (t, cur) it)).
Proof.
  intros [H1 H2 H3 H4 H5] Hlt.
  destruct (getChild (nodes t) cur it) as [c|] eqn:Hg.
  { rewrite (_addItems_step_found _ _ _ _ _ Hg). simpl. by apply links_ok_found. }
  rewrite (_addItems_step_created _ _ _ _ Hg). simpl.
  set (key := JS.JSON_stringify it).
  assert (Hocc : ∀ it', occurrences (heap_linked t cur it w) it' =
            occurrences (nodes t) it' ++ (if decide (it = it') then [length (nodes t)] else [])).
  { intros it'. rewrite (occurrences_skeleton _ _ it' (heap_linked_skeleton _ _ _ _)).
    by apply occurrences_with_child. }
  split; simpl.
  - intros it'. rewrite Hocc. destruct (decide (it = it')) as [<-|Hne].
    + fold key. specialize (H1 it). fold key in H1.
      destruct (occurrences (nodes t) it) as [|x l] eqn:Eo; simpl in *.
      * rewrite H1. apply get_set_eq.
      * by rewrite H1.
    + rewrite app_nil_r, <- H1.
      destruct (JS.get key (_firstInserted t)); [done|].
      apply get_set_ne. intros E%JSON_stringify_inj. done.
  - intros it'. rewrite Hocc. destruct (decide (it = it')) as [<-|Hne].
    + rewrite last_snoc. apply get_set_eq.
    + rewrite app_nil_r, <- H2. apply get_set_ne.
      intros E%JSON_stringify_inj. done.
  - intros it' k a. rewrite Hocc. intros Hk.
    rewrite heap_linked_lookup. fold key.
    destruct (decide (it = it')) as [<-|Hne].
    + destruct (decide (k < length (occurrences (nodes t) it))%nat) as [Hkl|Hkl].
      * rewrite lookup_app_l in Hk by done.
        destruct (H3 it k a Hk) as (n & Hn & Hnx).
        destruct (heap_with_child_keep _ cur it w _ _ Hlt Hn) as (n' & Hn' & _ & _ & _ & Hnx' & _).
        rewrite Hn'.
        destruct (decide (S k < length (occurrences (nodes t) it))%nat) as [Hsk|Hsk].
        -- rewrite lookup_app_l by done.
           rewrite decide_False.
           { exists n'. split; [done|congruence]. }
           specialize (H2 it). fold key in H2. rewrite H2.
           rewrite last_lookup. intros Hl.
           assert (Hnd := occurrences_NoDup (nodes t) it).
           pose proof (NoDup_lookup _ _ _ _ Hnd Hk Hl). lia.
        -- assert (S k = length (occurrences (nodes t) it)) as Ek by lia.
           rewrite decide_True.
           { eexists. split; [done|]. simpl.
             rewrite lookup_app_r by lia. by replace (S k - _)%nat with 0%nat by lia. }
           specialize (H2 it). fold key in H2. rewrite H2, last_lookup, <- Hk.
           f_equal. lia.
      * rewrite lookup_app_r in Hk by lia.
        destruct (_ - _)%nat eqn:Ed in Hk; [|done]. injection Hk as <-.
        rewrite heap_with_child_new by done.
        rewrite decide_False.
        { eexists. split; [done|]. simpl. symmetry. apply lookup_ge_None_2.
          rewrite length_app. simpl. lia. }
        specialize (H2 it). fold key in H2. rewrite H2. intros Hl.
        apply last_Some_elem_of, occurrences_lt in Hl. lia.
    + rewrite app_nil_r in Hk |- *.
      destruct (H3 it' k a Hk) as (n & Hn & Hnx).
      destruct (heap_with_child_keep _ cur it w _ _ Hlt Hn) as (n' & Hn' & _ & _ & _ & Hnx' & _).
      rewrite Hn', decide_False.
      { exists n'. split; [done|congruence]. }
      specialize (H2 it). fold key in H2. rewrite H2. intros Hl.
      apply last_Some_elem_of, occurrences_elem in Hl as (m & Hm & Hit).
      apply list_elem_of_lookup_2, occurrences_elem in Hk as (m' & Hm' & Hit').
      congruence.
  - intros k. fold key.
    destruct (JS.get key (_firstInserted t)) eqn:Eg; [apply H4|].
    rewrite keys_set, Eg.
    intros [?|Hx%list_elem_of_singleton]%elem_of_app; [by apply H4|subst; by exists it].
  - fold key. destruct (JS.get key (_firstInserted t)); [done|].
    by apply keys_set_NoDup.
Qed.
(** *** [upsertChild] and [_addItems] keep the shape *)

Lemma upsertChild_shape self it cb w t :
  heap_shape (nodes t) -> (self < length (nodes t))%nat ->
  (∀ f c t', cb = Some f -> skeleton <$> nodes (f c t') = skeleton <$> nodes t') ->
  heap_shape (nodes (fst (upsertChild self it cb w t))) /\
  (snd (upsertChild self it cb w t) < length (nodes (fst (upsertChild self it cb w t))))%nat.
Proof.
  intros Hs Hlt Hcb. unfold upsertChild.
  destruct (getChild (nodes t) self it) as [c|] eqn:Hg; simpl.
  - split.
    + eapply heap_shape_skeleton; [apply skeleton_alter_support|done].
    + rewrite length_alter.
      apply getChild_Some in Hg as (n & cn & _ & _ & Hc & _).
      by apply lookup_lt_Some in Hc.
  - fold (heap_with_child (nodes t) self it w).
    assert (heap_shape (heap_with_child (nodes t) self it w))
      by by apply heap_with_child_shape.
    destruct cb as [f|]; simpl.
    + split.
      * eapply heap_shape_skeleton; [by apply Hcb|done].
      * assert (E := f_equal length
                  (Hcb f (length (nodes t))
                       (set_nodes (heap_with_child (nodes t) self it w) t) eq_refl)).
        rewrite !length_fmap in E. simpl in E.
        rewrite E, heap_with_child_length. lia.
    + split; [done|]. rewrite heap_with_child_length. lia.
Qed.

Lemma onNewChild_addItems_skeleton it c t :
  skeleton <$> nodes (onNewChild_addItems it c t) = skeleton <$> nodes t.
Proof.
  unfold onNewChild_addItems, _updateFirstInserted, _updateLastInserted.
  destruct (JS.get (JS.JSON_stringify it) (_lastInserted t)); simpl;
    destruct (JS.get _ _); simpl; try done; apply skeleton_alter_next.
Qed.

(** What a tree keeps through insertions. *)
Definition tree_inv (t : FPTree) : Prop :=
  heap_shape (nodes t) /\ links_ok t.

Lemma _addItems_step_inv w t cur it :
  tree_inv t -> (cur < length (nodes t))%nat ->
  tree_inv (fst (_addItems_step w (t, cur) it)) /\
  (snd (_addItems_step w (t, cur) it) < length (nodes (fst (_addItems_step w (t, cur) it))))%nat.
Proof.
  intros [Hs Hl] Hlt.
  destruct (upsertChild_shape cur it (Some (onNewChild_addItems it)) w t Hs Hlt)
    as [H1 H2].
  { intros f c t' [= <-]. apply onNewChild_addItems_skeleton. }
  split; [split|]; try done. by apply links_ok_created.
Qed.

Lemma _addItems_step_fields w st it :
  _isInit (fst (_addItems_step w st it)) = _isInit (fst st) /\
  _headers (fst (_addItems_step w st it)) = _headers (fst st) /\
  supports (fst (_addItems_step w st it)) = supports (fst st) /\
  _support (fst (_addItems_step w st it)) = _support (fst st).
Proof.
  destruct st as [t cur]. simpl.
  destruct (getChild (nodes t) cur it) as [c|] eqn:Hg.
  - by rewrite (_addItems_step_found _ _ _ _ _ Hg).
  - by rewrite (_addItems_step_created _ _ _ _ Hg).
Qed.

(** Induction along the loop of [_addItems]. *)
Lemma _addItems_loop_ind (P : FPTree -> NodeRef -> Prop) w items t cur :
  (∀ t cur it, P t cur ->
     P (fst (_addItems_step w (t, cur) it)) (snd (_addItems_step w (t, cur) it))) ->
  P t cur ->
  P (fst (fold_left (_addItems_step w) items (t, cur)))
    (snd (fold_left (_addItems_step w) items (t, cur))).
Proof.
  intros Hstep. revert t cur. induction items as [|it items IH]; intros t cur HP.
  - done.
  - simpl. destruct (_addItems_step w (t, cur) it) as [t' cur'] eqn:E.
    apply IH. specialize (Hstep t cur it HP). by rewrite E in Hstep.
Qed.

Lemma root_valid t : heap_shape (nodes t) -> (root < length (nodes t))%nat.
Proof. intros [(r & H & _) _ _ _ _]. by apply lookup_lt_Some in H. Qed.

Lemma _addItems_inv items w t : tree_inv t -> tree_inv (_addItems items w t).
Proof.
  intros Hi. unfold _addItems.
  apply (_addItems_loop_ind
           (fun t cur => tree_inv t /\ (cur < length (nodes t))%nat) w items t root).
  - intros t' cur it [H1 H2]. by apply _addItems_step_inv.
  - split; [done|]. apply root_valid, Hi.
Qed.

Lemma _addItems_fields items w t :
  _isInit (_addItems items w t) = _isInit t /\
  _headers (_addItems items w t) = _headers t /\
  supports (_addItems items w t) = supports t /\
  _support (_addItems items w t) = _support t.
Proof.
  unfold _addItems.
  apply (_addItems_loop_ind
           (fun t' _ => _isInit t' = _isInit t /\ _headers t' = _headers t /\
                        supports t' = supports t /\ _support t' = _support t)
           w items t root); [|done].
  intros t' cur it (? & ? & ? & ?).
  destruct (_addItems_step_fields w (t', cur) it) as (? & ? & ? & ?).
  simpl in *. split_and!; congruence.
Qed.

Lemma links_ok_new sup s : links_ok (new_FPTree sup s).
Proof.
  split; simpl; try done.
  - intros k H. by apply elem_of_nil in H.
  - constructor.
Qed.

Lemma tree_inv_new sup s : tree_inv (new_FPTree sup s).
Proof. split; [apply heap_shape_new|apply links_ok_new]. Qed.

(** The trees of the construction phase: a fresh tree, then insertions. *)
Inductive under_construction : FPTree -> Prop :=
| under_construction_new sup s : under_construction (new_FPTree sup s)
| under_construction_add t items w :
    under_construction t -> under_construction (_addItems items w t).

Lemma under_construction_inv t : under_construction t -> tree_inv t.
Proof. induction 1; [apply tree_inv_new|by apply _addItems_inv]. Qed.
(** *** Built trees *)

(** The loops of [fromTransactions] and of [fromPrefixPaths]. *)
Definition insert_transactions (transactions : list (list N)) (t : FPTree) : FPTree :=
  fold_left
    (fun t transaction =>
       _addItems (prune_and_sort (supports t) (_support t) transaction) 1 t)
    transactions t.

Definition insert_prefixPaths (prefixPaths : list IPrefixPath) (t : FPTree) : FPTree :=
  fold_left
    (fun t prefixPath =>
       _addItems (prune_and_sort (supports t) (_support t) (path prefixPath))
                 (pp_support prefixPath) t)
    prefixPaths t.

Lemma fromTransactions_unfold T t :
  fromTransactions T t =
  if _isInit t then JS.Throw building_error
  else JS.Ok (set_built (_getHeaderList (insert_transactions T t))
                        (insert_transactions T t)).
Proof. done. Qed.

Lemma fromPrefixPaths_unfold P t :
  fromPrefixPaths P t =
  if _isInit t then JS.Throw building_error
  else JS.Ok (set_built (_getHeaderList (insert_prefixPaths P t))
                        (insert_prefixPaths P t)).
Proof. done. Qed.

Lemma insert_transactions_under_construction T t :
  under_construction t -> under_construction (insert_transactions T t).
Proof.
  unfold insert_transactions. revert t.
  induction T as [|x T IH]; intros t Ht; simpl; [done|].
  apply IH. by constructor.
Qed.

Lemma insert_prefixPaths_under_construction P t :
  under_construction t -> under_construction (insert_prefixPaths P t).
Proof.
  unfold insert_prefixPaths. revert t.
  induction P as [|x P IH]; intros t Ht; simpl; [done|].
  apply IH. by constructor.
Qed.

(** The trees of the read-only phase: the outcome of building a fresh tree. *)
Inductive built : FPTree -> Prop :=
| built_fromTransactions sup s T t :
    fromTransactions T (new_FPTree sup s) = JS.Ok t -> built t
| built_fromPrefixPaths sup s P t :
    fromPrefixPaths P (new_FPTree sup s) = JS.Ok t -> built t.

Lemma built_inv t :
  built t ->
  ∃ t0, under_construction t0 /\ t = set_built (_getHeaderList t0) t0.
Proof.
  intros [sup s T t' H|sup s P t' H].
  - rewrite fromTransactions_unfold in H. simpl in H. injection H as <-.
    eexists. split; [|done].
    apply insert_transactions_under_construction. constructor.
  - rewrite fromPrefixPaths_unfold in H. simpl in H. injection H as <-.
    eexists. split; [|done].
    apply insert_prefixPaths_under_construction. constructor.
Qed.

Lemma tree_inv_set_built hs t : tree_inv t -> tree_inv (set_built hs t).
Proof. intros [H1 [? ? ? ? ?]]. split; [done|]. by split. Qed.

Lemma built_tree_inv t : built t -> tree_inv t.
Proof.
  intros (t0 & H & ->)%built_inv.
  by apply tree_inv_set_built, under_construction_inv.
Qed.

Lemma built_isInit t : built t -> _isInit t = true.
Proof. by intros (t0 & H & ->)%built_inv. Qed.

(** *** Node links form one list per item (claim C9) *)

Lemma node_links_from t it k :
  links_ok t ->
  node_links (nodes t) (occurrences (nodes t) it !! k)
             (drop k (occurrences (nodes t) it)).
Proof.
  intros Hl.
  remember (length (occurrences (nodes t) it) - k)%nat as d eqn:Ed.
  revert k Ed. induction d as [|d IH]; intros k Ed.
  - rewrite lookup_ge_None_2, drop_ge by lia. constructor.
  - destruct (occurrences (nodes t) it !! k) as [a|] eqn:Ea.
    + destruct (links_next t Hl it k a Ea) as (n & Hn & Hnx).
      rewrite (drop_S _ a k) by done.
      econstructor; [done|]. rewrite Hnx. apply IH. lia.
    + apply lookup_ge_None in Ea. lia.
Qed.

Lemma node_links_occurrences t it :
  links_ok t ->
  node_links (nodes t) (JS.get (JS.JSON_stringify it) (_firstInserted t))
             (occurrences (nodes t) it).
Proof.
  intros Hl. rewrite (links_first t Hl), head_lookup.
  apply (node_links_from t it 0 Hl).
Qed.

(** C9: in every tree under construction, and so after any sequence of
    insertions, the [nextSameItemNode] pointers starting at
    [_firstInserted[item]] run through exactly the nodes carrying the item, in
    allocation order, and end in [null] at [_lastInserted[item]]; such a list
    has no cycle and stays within one item. *)
Theorem node_links_chain (t : FPTree) (it : N) :
  under_construction t ->
  let first := JS.get (JS.JSON_stringify it) (_firstInserted t) in
  let last_ := JS.get (JS.JSON_stringify it) (_lastInserted t) in
  ∃ chain,
    node_links (nodes t) first chain /\
    (∀ a, a ∈ chain <-> ∃ n, nodes t !! a = Some n /\ item n = Some it) /\
    StronglySorted lt chain /\
    NoDup chain /\
    first = head chain /\
    last_ = last chain.
Proof.
  intros [Hs Hl]%under_construction_inv. simpl.
  exists (occurrences (nodes t) it). split_and!.
  - by apply node_links_occurrences.
  - apply occurrences_elem.
  - apply occurrences_sorted.
  - apply occurrences_NoDup.
  - apply (links_first t Hl).
  - apply (links_last t Hl).
Qed.

(** ** The way from the root to a node *)

(** The items on the way from the root down to a node, the node included. *)
Fixpoint route_aux (bound : nat) (h : Heap) (i : NodeRef) : list N :=
  match bound with
  | O => []
  | S bound' =>
      match h !! i with
      | Some n =>
          match parent n, item n with
          | Some p, Some it => route_aux bound' h p ++ [it]
          | _, _ => []
          end
      | None => []
      end
  end.

Definition route (h : Heap) (i : NodeRef) : list N := route_aux (S i) h i.

Lemma route_aux_enough h : heap_shape h ->
  ∀ i b, (i < b)%nat -> route_aux b h i = route h i.
Proof.
  intros Hs i. induction (lt_wf i) as [i _ IH]. intros b Hb.
  unfold route. destruct b as [|b]; [lia|]. simpl.
  destruct (h !! i) as [n|] eqn:Hn; [|done].
  destruct (decide (i = root)) as [->|Hne].
  - destruct (shape_root h Hs) as (r & Hr & _ & Hp).
    assert (n = r) as -> by congruence. by rewrite Hp.
  - destruct (shape_parent h Hs i n Hn Hne) as (p & pn & it & -> & -> & Hlt & _).
    rewrite (IH p Hlt b), (IH p Hlt i) by lia. done.
Qed.

Lemma route_root h : heap_shape h -> route h root = [].
Proof.
  intros Hs. unfold route. simpl.
  destruct (shape_root h Hs) as (r & -> & _ & ->). done.
Qed.

Lemma route_unfold h i n p it :
  heap_shape h -> h !! i = Some n -> parent n = Some p -> item n = Some it ->
  route h i = route h p ++ [it].
Proof.
  intros Hs Hn Hp Hit.
  assert (i ≠ root) as Hne.
  { intros ->. destruct (shape_root h Hs) as (r & Hr & _ & Hp'). congruence. }
  destruct (shape_parent h Hs i n Hn Hne) as (p' & pn & it' & Hp' & _ & Hlt & _).
  assert (p' = p) as -> by congruence.
  unfold route at 1. simpl. rewrite Hn, Hp, Hit.
  by rewrite (route_aux_enough h Hs p i Hlt).
Qed.

Lemma route_nonroot h i n :
  heap_shape h -> h !! i = Some n -> i ≠ root ->
  ∃ p it, parent n = Some p /\ item n = Some it /\ (p < i)%nat /\
          route h i = route h p ++ [it].
Proof.
  intros Hs Hn Hne.
  destruct (shape_parent h Hs i n Hn Hne) as (p & pn & it & Hp & Hit & Hlt & _).
  exists p, it. split_and!; try done. by eapply route_unfold.
Qed.

(** A node and its parent chain determine the node: two nodes with the same
    way from the root are the same node. *)
Lemma route_inj h i j ni nj :
  heap_shape h -> h !! i = Some ni -> h !! j = Some nj ->
  route h i = route h j -> i = j.
Proof.
  intros Hs. revert j ni nj. induction (lt_wf i) as [i _ IH].
  intros j ni nj Hi Hj E.
  destruct (decide (i = root)) as [->|Hi0], (decide (j = root)) as [->|Hj0]; [done|..].
  - rewrite route_root in E by done.
    destruct (route_nonroot h j nj Hs Hj Hj0) as (p & it & _ & _ & _ & E').
    rewrite E' in E. by destruct (route h p).
  - rewrite (route_root h Hs) in E.
    destruct (route_nonroot h i ni Hs Hi Hi0) as (p & it & _ & _ & _ & E').
    rewrite E' in E. by destruct (route h p).
  - destruct (shape_parent h Hs i ni Hi Hi0) as (p & pn & it & Hp & Hit & Hlt & Hpn & Hin).
    destruct (shape_parent h Hs j nj Hj Hj0) as (q & qn & it' & Hq & Hit' & Hlt' & Hqn & Hin').
    rewrite (route_unfold h i ni p it), (route_unfold h j nj q it') in E by done.
    apply app_inj_tail in E as [E ->].
    assert (p = q) as <- by (eapply IH; eauto).
    assert (pn = qn) as <- by congruence.
    eapply (shape_siblings h Hs p pn i j ni nj); eauto. congruence.
Qed.

(** C10: in every tree under construction or built, the children of a node
    carry pairwise different items, so that the items on the way from the root
    determine a node; and [upsertChild] keeps this (with the rest of the shape
    of the heap) whatever the callback does outside items, parents and
    children. *)
Theorem siblings_unique_invariant :
  (∀ t, under_construction t \/ built t ->
        siblings_unique (nodes t) /\
        ∀ i j ni nj, nodes t !! i = Some ni -> nodes t !! j = Some nj ->
                     route (nodes t) i = route (nodes t) j -> i = j) /\
  (∀ (self : NodeRef) (it : N) (cb : option (NodeRef -> FPTree -> FPTree))
     (w : Z) (t : FPTree),
      heap_shape (nodes t) ->
      (self < length (nodes t))%nat ->
      (∀ f c t', cb = Some f -> skeleton <$> nodes (f c t') = skeleton <$> nodes t') ->
      heap_shape (nodes (fst (upsertChild self it cb w t))) /\
      siblings_unique (nodes (fst (upsertChild self it cb w t)))).
Proof.
  split.
  - intros t Ht.
    assert (heap_shape (nodes t)) as Hs.
    { destruct Ht as [Ht|Ht]; [by apply under_construction_inv|by apply built_tree_inv]. }
    split; [apply Hs|]. intros i j ni nj. by apply route_inj.
  - intros self it cb w t Hs Hlt Hcb.
    destruct (upsertChild_shape self it cb w t Hs Hlt Hcb) as [H _].
    split; [done|]. apply H.
Qed.
(** ** Single paths (claim C8) *)

(** [p] lists the nodes below [a], each the only child of the one before, down
    to a leaf. *)
Inductive single_path_from (h : Heap) : NodeRef -> list NodeRef -> Prop :=
| single_path_leaf a n :
    h !! a = Some n -> children n = [] -> single_path_from h a []
| single_path_step a n c p :
    h !! a = Some n -> children n = [c] -> single_path_from h c p ->
    single_path_from h a (c :: p).

(** Descending from [a] through only children reaches a node with more than
    one child. *)
Inductive branches_below (h : Heap) : NodeRef -> Prop :=
| branches_here a n :
    h !! a = Some n -> (1 < length (children n))%nat -> branches_below h a
| branches_step a n c :
    h !! a = Some n -> children n = [c] -> branches_below h c ->
    branches_below h a.

Lemma child_gt h p pn c :
  heap_shape h -> h !! p = Some pn -> c ∈ children pn ->
  (p < c)%nat /\ (c < length h)%nat.
Proof.
  intros Hs Hp Hin.
  destruct (shape_child h Hs p pn c Hp Hin) as (cn & Hc & Hpar).
  split; [|by apply lookup_lt_Some in Hc].
  assert (c ≠ root).
  { intros ->. destruct (shape_root h Hs) as (r & Hr & _ & Hp'). congruence. }
  destruct (shape_parent h Hs c cn Hc) as (p' & _ & _ & Hp' & _ & Hlt & _); [done|].
  congruence.
Qed.

Lemma _getSinglePath_spec h : heap_shape h ->
  ∀ bound node currentPath,
    (node < length h)%nat -> (length h <= bound + node)%nat ->
    (∃ p, _getSinglePath bound h node currentPath = JS.Ok (Some (currentPath ++ p)) /\
          single_path_from h node p) \/
    (_getSinglePath bound h node currentPath = JS.Ok None /\ branches_below h node).
Proof.
  intros Hs bound. induction bound as [|b IH]; intros node cp Hlt Hb; [lia|].
  simpl. destruct (lookup_lt_is_Some_2 h node Hlt) as [n Hn]. rewrite Hn.
  destruct (children n) as [|c [|c' l]] eqn:Ec.
  - left. exists []. rewrite app_nil_r. split; [done|]. by econstructor.
  - destruct (child_gt h node n c Hs Hn) as [H1 H2]; [rewrite Ec; left|].
    destruct (IH c (cp ++ [c]) H2) as [(p & Hp & Hsp)|[Hp Hbr]]; [lia|..].
    + left. exists (c :: p). rewrite Hp, <- app_assoc. split; [done|].
      by econstructor.
    + right. split; [done|]. by eapply branches_step.
  - right. split; [done|]. eapply branches_here; [done|]. rewrite Ec. simpl. lia.
Qed.

Lemma single_path_from_nodes h a p :
  single_path_from h a p ->
  ∀ i, i ∈ a :: p ->
    ∃ n, h !! i = Some n /\ (length (children n) <= 1)%nat /\
         ∀ c, c ∈ children n -> c ∈ p.
Proof.
  induction 1 as [a n Hn Hc|a n c p Hn Hc Hsp IH]; intros i Hi.
  - apply list_elem_of_singleton in Hi as ->. exists n. rewrite Hc.
    split_and!; [done|simpl; lia|]. by intros c ?%elem_of_nil.
  - apply elem_of_cons in Hi as [->|Hi].
    + exists n. rewrite Hc. split_and!; [done|simpl; lia|].
      intros c' ->%list_elem_of_singleton. left.
    + destruct (IH i Hi) as (m & ? & ? & Hch). exists m. split_and!; try done.
      intros c' Hc'. right. by apply Hch.
Qed.

Lemma single_path_from_all h p :
  heap_shape h -> single_path_from h root p ->
  ∀ i, (i < length h)%nat -> i ∈ root :: p.
Proof.
  intros Hs Hsp i. induction (lt_wf i) as [i _ IH]. intros Hlt.
  destruct (decide (i = root)) as [->|Hne]; [left|].
  destruct (lookup_lt_is_Some_2 h i Hlt) as [n Hn].
  destruct (shape_parent h Hs i n Hn Hne) as (q & qn & it & _ & _ & Hq & Hqn & Hin).
  assert (q ∈ root :: p) as Hqp.
  { apply IH; [done|]. apply lookup_lt_Some in Hqn. lia. }
  destruct (single_path_from_nodes h root p Hsp q Hqp) as (m & Hm & _ & Hch).
  right. apply Hch. congruence.
Qed.

Lemma branches_below_node h a :
  branches_below h a -> ∃ i n, h !! i = Some n /\ (1 < length (children n))%nat.
Proof. induction 1; eauto. Qed.

Lemma getSinglePath_cases t :
  built t ->
  (∃ p, getSinglePath t = JS.Ok (Some p) /\ single_path_from (nodes t) root p) \/
  (getSinglePath t = JS.Ok None /\ branches_below (nodes t) root).
Proof.
  intros Hb.
  assert (Hs : heap_shape (nodes t)) by by apply built_tree_inv.
  assert (Hg : getSinglePath t = _getSinglePath (length (nodes t)) (nodes t) root [])
    by (unfold getSinglePath; by rewrite (built_isInit t Hb)).
  destruct (_getSinglePath_spec (nodes t) Hs (length (nodes t)) root []
              (root_valid t Hs)) as [(p & Hp & Hsp)|[Hp Hbr]]; [lia|..].
  - left. exists p. by rewrite Hg.
  - right. by rewrite Hg.
Qed.

(** C8: on a built tree [isSinglePath] answers [true] exactly when no node has
    more than one child; [getSinglePath] returns the nodes below the root in
    root-to-leaf order, [null] when a node on the way has more than one child,
    and the empty path when the root has no child. *)
Theorem single_path_correct (t : FPTree) :
  built t ->
  (∃ b, isSinglePath t = JS.Ok b /\
        (b = true <->
         ∀ i n, nodes t !! i = Some n -> (length (children n) <= 1)%nat)) /\
  ((∃ p, getSinglePath t = JS.Ok (Some p) /\ single_path_from (nodes t) root p) \/
   (getSinglePath t = JS.Ok None /\ branches_below (nodes t) root)) /\
  (∀ r, nodes t !! root = Some r -> children r = [] ->
        getSinglePath t = JS.Ok (Some [])).
Proof.
  intros Hb.
  assert (Hs : heap_shape (nodes t)) by by apply built_tree_inv.
  assert (Hi : _isInit t = true) by by apply built_isInit.
  assert (Hg : getSinglePath t = _getSinglePath (length (nodes t)) (nodes t) root [])
    by (unfold getSinglePath; by rewrite Hi).
  assert (Hr := root_valid t Hs).
  destruct (_getSinglePath_spec (nodes t) Hs (length (nodes t)) root [] Hr)
    as [(p & Hp & Hsp)|[Hp Hbr]]; [lia|..]; simpl in Hp.
  - split_and!.
    + exists true. unfold isSinglePath. rewrite Hi, Hg, Hp. simpl. split; [done|].
      split; [intros _|done]. intros i n Hn.
      assert (i ∈ root :: p) as Hin.
      { apply (single_path_from_all (nodes t)); [done..|]. by apply lookup_lt_Some in Hn. }
      destruct (single_path_from_nodes _ _ _ Hsp i Hin) as (m & ? & ? & _).
      congruence.
    + left. exists p. by rewrite Hg.
    + intros r Hr' Hc. rewrite Hg. destruct (nodes t) as [|r0 h]; [done|].
      simpl in *. injection Hr' as ->. by rewrite Hc.
  - split_and!.
    + exists false. unfold isSinglePath. rewrite Hi, Hg, Hp. simpl. split; [done|].
      split; [done|]. intros Hall.
      destruct (branches_below_node _ _ Hbr) as (i & n & Hn & Hlen).
      specialize (Hall i n Hn). lia.
    + right. by rewrite Hg.
    + intros r Hr' Hc. exfalso.
      inversion Hbr as [a n Hn Hlen|a n c Hn Hch _]; subst.
      * assert (n = r) as -> by congruence. rewrite Hc in Hlen. simpl in Hlen. lia.
      * assert (n = r) as -> by congruence. congruence.
Qed.
(** ** Life cycle errors (claim C4) *)

(** C4, as the code has it: before the tree is built, [getPrefixPaths],
    [getPrefixPath], [isSinglePath] and [getSinglePath] throw the error of the
    class, whereas [getConditionalFPTree] has no such guard and answers [null]
    on a fresh tree; building a built tree again throws the same error. *)
Theorem lifecycle_errors :
  (∀ t, _isInit t = false ->
        (∀ it, getPrefixPaths t it = JS.Throw building_error) /\
        (∀ (S : Type) node (cb : option (N -> Z -> S -> S)) (s : S),
            getPrefixPath t node cb s = JS.Throw building_error) /\
        isSinglePath t = JS.Throw building_error /\
        getSinglePath t = JS.Throw building_error) /\
  (∀ sup s it, getConditionalFPTree (new_FPTree sup s) it = JS.Ok None) /\
  (∀ t, built t ->
        ∀ T P, fromTransactions T t = JS.Throw building_error /\
               fromPrefixPaths P t = JS.Throw building_error).
Proof.
  split_and!.
  - intros t Hi.
    unfold getPrefixPaths, getPrefixPath, isSinglePath, getSinglePath.
    rewrite Hi. simpl. done.
  - done.
  - intros t Hb T P. apply built_isInit in Hb.
    unfold fromTransactions, fromPrefixPaths. by rewrite Hb.
Qed.

(** [getConditionalFPTree] on a tree that was never built does not throw. *)
Lemma getConditionalFPTree_unbuilt_no_error :
  _isInit (new_FPTree [] 1) = false /\
  getConditionalFPTree (new_FPTree [] 1) 1%N = JS.Ok None.
Proof. done. Qed.

(** ** The first scan: [_getDistinctItemsCount] *)

(** The number of times [it] is written in [l]. *)
Definition times_in (it : N) (l : list N) : nat := count_occ N.eq_dec l it.

Definition total_times (it : N) (T : list (list N)) : nat :=
  foldr (fun l acc => (times_in it l + acc)%nat) 0%nat T.

Definition count_step (count : ItemsCount) (it : N) : ItemsCount :=
  let k := JS.JSON_stringify it in
  JS.set k (default 0 (JS.get k count) + 1) count.

Lemma count_step_get count x it :
  JS.get (JS.JSON_stringify it) (count_step count x) =
  if decide (x = it) then Some (default 0 (JS.get (JS.JSON_stringify it) count) + 1)
  else JS.get (JS.JSON_stringify it) count.
Proof.
  unfold count_step. rewrite get_set.
  destruct (decide (x = it)) as [->|Hne].
  - by rewrite decide_True.
  - rewrite decide_False; [done|]. by intros ?%JSON_stringify_inj.
Qed.

Lemma count_row_get arr : ∀ count it,
  JS.get (JS.JSON_stringify it) (fold_left count_step arr count) =
  if decide (times_in it arr = 0%nat) then JS.get (JS.JSON_stringify it) count
  else Some (default 0 (JS.get (JS.JSON_stringify it) count) + Z.of_nat (times_in it arr)).
Proof.
  unfold times_in.
  induction arr as [|x arr IH]; intros count it; simpl; [done|].
  rewrite IH, count_step_get.
  destruct (N.eq_dec x it) as [->|Hne].
  - rewrite (decide_True (P := it = it)) by done.
    rewrite (decide_False (P := S _ = _)) by lia.
    simpl. case_decide as E; [rewrite E|]; f_equal; lia.
  - rewrite (decide_False (P := x = it)) by done. done.
Qed.

Lemma _getDistinctItemsCount_fold T : ∀ count it,
  JS.get (JS.JSON_stringify it)
    (fold_left (fun count arr => fold_left count_step arr count) T count) =
  if decide (total_times it T = 0%nat) then JS.get (JS.JSON_stringify it) count
  else Some (default 0 (JS.get (JS.JSON_stringify it) count) + Z.of_nat (total_times it T)).
Proof.
  induction T as [|arr T IH]; intros count it; simpl; [done|].
  rewrite IH, count_row_get.
  destruct (decide (times_in it arr = 0%nat)) as [E1|E1],
           (decide (total_times it T = 0%nat)) as [E2|E2]; simpl.
  - rewrite decide_True by lia. done.
  - rewrite decide_False by lia. rewrite E1. done.
  - rewrite decide_False by lia. rewrite E2. f_equal. lia.
  - rewrite decide_False by lia. f_equal. lia.
Qed.

Lemma _getDistinctItemsCount_get T it :
  JS.get (JS.JSON_stringify it) (Miner._getDistinctItemsCount T) =
  if decide (total_times it T = 0%nat) then None
  else Some (Z.of_nat (total_times it T)).
Proof.
  unfold Miner._getDistinctItemsCount.
  change (fun count arr => fold_left _ arr count)
    with (fun count arr => fold_left count_step arr count).
  rewrite _getDistinctItemsCount_fold. simpl. done.
Qed.
(** ** Support carried by the nodes of an item *)

Definition support_at (h : Heap) (i : NodeRef) : Z :=
  match h !! i with Some n => support n | None => 0 end.

Definition Zsum (l : list Z) : Z := foldr Z.add 0 l.

(** The support of the nodes that carry [x] and whose way from the root
    satisfies [Q]. *)
Definition mass (h : Heap) (x : N) (Q : list N -> bool) : Z :=
  Zsum ((fun i => if Q (route h i) then support_at h i else 0) <$> occurrences h x).

Lemma Zsum_cons x l : Zsum (x :: l) = x + Zsum l.
Proof. done. Qed.

Lemma Zsum_app l1 l2 : Zsum (l1 ++ l2) = Zsum l1 + Zsum l2.
Proof. induction l1; simpl; lia. Qed.

Lemma Zsum_ext {A} (f g : A -> Z) l :
  (∀ x, x ∈ l -> f x = g x) -> Zsum (f <$> l) = Zsum (g <$> l).
Proof.
  induction l as [|x l IH]; intros H; [done|].
  rewrite !fmap_cons, !Zsum_cons.
  rewrite H by left. rewrite IH; [done|]. intros y Hy. apply H. by right.
Qed.

Lemma Zsum_indicator (f : nat -> Z) (c : nat) (v : Z) l :
  NoDup l ->
  Zsum ((fun i => f i + (if decide (i = c) then v else 0)) <$> l) =
  Zsum (f <$> l) + (if decide (c ∈ l) then v else 0).
Proof.
  induction 1 as [|x l Hx Hnd IH].
  - rewrite decide_False by apply not_elem_of_nil. simpl. lia.
  - rewrite !fmap_cons, !Zsum_cons.
    rewrite IH. destruct (decide (x = c)) as [->|Hne].
    + rewrite (decide_False (P := c ∈ l)) by done.
      rewrite decide_True by left. lia.
    + destruct (decide (c ∈ l)).
      * rewrite decide_True by by right. lia.
      * rewrite decide_False; [lia|]. rewrite not_elem_of_cons. split; congruence.
Qed.

Lemma Zsum_nonneg l : Forall (fun z => 0 <= z) l -> 0 <= Zsum l.
Proof. induction 1; simpl; lia. Qed.

Lemma route_aux_skeleton (h h' : Heap) b i :
  skeleton <$> h' = skeleton <$> h -> route_aux b h' i = route_aux b h i.
Proof.
  intros E. revert i. induction b as [|b IH]; intros i; simpl; [done|].
  pose proof (f_equal (fun l => l !! i) E) as Ei.
  rewrite !list_lookup_fmap in Ei.
  destruct (h' !! i) as [n'|], (h !! i) as [n|]; try done.
  simpl in Ei. unfold skeleton in Ei. injection Ei as -> -> _.
  destruct (parent n), (item n); try done. by rewrite IH.
Qed.

Lemma route_skeleton (h h' : Heap) i :
  skeleton <$> h' = skeleton <$> h -> route h' i = route h i.
Proof. apply route_aux_skeleton. Qed.

Lemma route_agree h h' :
  heap_shape h -> heap_shape h' ->
  (∀ j n, h !! j = Some n ->
     ∃ n', h' !! j = Some n' /\ item n' = item n /\ parent n' = parent n) ->
  ∀ i n, h !! i = Some n -> route h' i = route h i.
Proof.
  intros Hs Hs' Hag i. induction (lt_wf i) as [i _ IH]. intros n Hn.
  destruct (decide (i = root)) as [->|Hne]; [by rewrite !route_root|].
  destruct (shape_parent h Hs i n Hn Hne) as (p & pn & it & Hp & Hit & Hlt & Hpn & _).
  destruct (Hag i n Hn) as (n' & Hn' & Hit' & Hp').
  rewrite (route_unfold h i n p it), (route_unfold h' i n' p it) by congruence.
  by rewrite (IH p Hlt pn).
Qed.

(** The effect of one [upsertChild] step of [_addItems] on the way from the
    root and on the support of every item. *)
Lemma _addItems_step_mass w t cur it :
  tree_inv t -> (cur < length (nodes t))%nat ->
  route (nodes (fst (_addItems_step w (t, cur) it))) (snd (_addItems_step w (t, cur) it))
    = route (nodes t) cur ++ [it] /\
  ∀ x Q, mass (nodes (fst (_addItems_step w (t, cur) it))) x Q =
         mass (nodes t) x Q +
         (if decide (it = x) then if Q (route (nodes t) cur ++ [it]) then w else 0
          else 0).
Proof.
  intros [Hs Hl] Hlt.
  destruct (getChild (nodes t) cur it) as [c|] eqn:Hg.
  - rewrite (_addItems_step_found _ _ _ _ _ Hg). simpl.
    set (h' := alter _ c (nodes t)).
    assert (E : skeleton <$> h' = skeleton <$> nodes t) by apply skeleton_alter_support.
    destruct (getChild_Some _ _ _ _ Hg) as (n & cn & Hn & Hin & Hc & Hit).
    destruct (shape_child _ Hs cur n c Hn Hin) as (cn' & Hc' & Hpar).
    assert (cn' = cn) as -> by congruence.
    assert (Hrc : route (nodes t) c = route (nodes t) cur ++ [it])
      by by eapply route_unfold.
    split; [by rewrite (route_skeleton _ _ c E)|].
    intros x Q. unfold mass. rewrite (occurrences_skeleton _ _ x E).
    rewrite (Zsum_ext _ (fun i => (if Q (route (nodes t) i) then support_at (nodes t) i else 0)
                + (if decide (i = c) then if Q (route (nodes t) c) then w else 0 else 0))).
    + rewrite Zsum_indicator by apply occurrences_NoDup. f_equal.
      rewrite Hrc. destruct (decide (it = x)) as [->|Hne].
      * rewrite decide_True; [done|]. apply occurrences_elem. eauto.
      * rewrite decide_False; [done|].
        intros (m & Hm & Hit')%occurrences_elem. congruence.
    + intros i _. rewrite (route_skeleton _ _ i E).
      unfold support_at, h'. rewrite list_lookup_alter.
      destruct (decide (c = i)) as [->|Hne].
      * rewrite decide_True by done. rewrite Hc. simpl.
        destruct (Q (route (nodes t) i)); lia.
      * rewrite decide_False by done.
        destruct (Q (route (nodes t) i)); lia.
  - rewrite (_addItems_step_created _ _ _ _ Hg). simpl.
    set (h' := heap_linked t cur it w).
    assert (Hs1 : heap_shape (heap_with_child (nodes t) cur it w))
      by by apply heap_with_child_shape.
    assert (Hs' : heap_shape h')
      by (eapply heap_shape_skeleton; [apply heap_linked_skeleton|done]).
    assert (Hold : ∀ j n, nodes t !! j = Some n ->
              ∃ n', h' !! j = Some n' /\ item n' = item n /\ parent n' = parent n /\
                    support n' = support n).
    { intros j n Hn. unfold h'. rewrite heap_linked_lookup.
      destruct (heap_with_child_keep _ cur it w _ _ Hlt Hn) as (n' & Hn' & ? & ? & ? & _).
      rewrite Hn'. case_decide; eexists; (split; [done|]); done. }
    assert (Hnew : ∃ n', h' !! length (nodes t) = Some n' /\ item n' = Some it /\
                         parent n' = Some cur /\ support n' = w).
    { unfold h'. rewrite heap_linked_lookup, heap_with_child_new by done.
      case_decide; eexists; (split; [done|]); done. }
    assert (Hroute : ∀ i n, nodes t !! i = Some n -> route h' i = route (nodes t) i).
    { apply route_agree; [done..|]. intros j n Hn.
      destruct (Hold j n Hn) as (n' & ? & ? & ? & _). eauto. }
    destruct Hnew as (nc & Hnc & Hitc & Hpc & Hwc).
    destruct (lookup_lt_is_Some_2 _ _ Hlt) as [curn Hcurn].
    assert (Hrc : route h' (length (nodes t)) = route (nodes t) cur ++ [it]).
    { rewrite (route_unfold h' _ nc cur it) by done. by rewrite (Hroute cur curn). }
    split; [done|].
    intros x Q. unfold mass.
    rewrite (occurrences_skeleton _ h' x (heap_linked_skeleton _ _ _ _)).
    rewrite occurrences_with_child by done.
    rewrite fmap_app, Zsum_app. f_equal.
    + apply Zsum_ext. intros i (n & Hn & _)%occurrences_elem.
      rewrite (Hroute i n Hn). unfold support_at.
      destruct (Hold i n Hn) as (n' & -> & _ & _ & ->). by rewrite Hn.
    + destruct (decide (it = x)); simpl; [|done].
      rewrite Hrc. unfold support_at. rewrite Hnc, Hwc.
      destruct (Q _); lia.
Qed.
(** What inserting the items [l] below a node with way [r] adds to the support
    of [x] on the ways that satisfy [Q]: [w] for every node passed. *)
Fixpoint gain (w : Z) (x : N) (Q : list N -> bool) (r l : list N) : Z :=
  match l with
  | [] => 0
  | it :: l' =>
      (if decide (it = x) then if Q (r ++ [it]) then w else 0 else 0)
      + gain w x Q (r ++ [it]) l'
  end.

Lemma _addItems_loop_mass w items : ∀ t cur,
  tree_inv t -> (cur < length (nodes t))%nat ->
  ∀ x Q, mass (nodes (fst (fold_left (_addItems_step w) items (t, cur)))) x Q =
         mass (nodes t) x Q + gain w x Q (route (nodes t) cur) items.
Proof.
  induction items as [|it items IH]; intros t cur Hi Hlt x Q; simpl; [lia|].
  destruct (_addItems_step_inv w t cur it Hi Hlt) as [Hi' Hlt'].
  destruct (_addItems_step_mass w t cur it Hi Hlt) as [Hr Hm].
  destruct (_addItems_step w (t, cur) it) as [t' cur'] eqn:E. simpl in *.
  rewrite IH by done. rewrite Hm, Hr. lia.
Qed.

Lemma _addItems_mass items w t x Q :
  tree_inv t ->
  mass (nodes (_addItems items w t)) x Q = mass (nodes t) x Q + gain w x Q [] items.
Proof.
  intros Hi. unfold _addItems.
  rewrite _addItems_loop_mass; [|done|apply root_valid, Hi].
  by rewrite route_root by apply Hi.
Qed.

Lemma gain_all w x r l :
  gain w x (fun _ => true) r l = w * Z.of_nat (times_in x l).
Proof.
  unfold times_in. revert r. induction l as [|it l IH]; intros r; simpl; [lia|].
  rewrite IH. destruct (N.eq_dec it x); [rewrite decide_True by done|rewrite decide_False by done]; lia.
Qed.

Lemma times_in_filter f x l :
  times_in x (List.filter f l) = if f x then times_in x l else 0%nat.
Proof.
  unfold times_in. induction l as [|y l IH]; simpl; [by destruct (f x)|].
  destruct (f y) eqn:Ey; simpl; destruct (N.eq_dec y x) as [->|]; rewrite IH;
    destruct (f x); congruence.
Qed.

Lemma times_in_Permutation x l l' : l ≡ₚ l' -> times_in x l = times_in x l'.
Proof. intros H. unfold times_in. by apply Permutation_count_occ. Qed.

Lemma times_in_prune_and_sort sup m x l :
  times_in x (prune_and_sort sup m l) =
  if is_frequent sup m x then times_in x l else 0%nat.
Proof.
  unfold prune_and_sort.
  rewrite (times_in_Permutation _ _ _ (Array_sort_Permutation _ _)).
  apply times_in_filter.
Qed.

(** ** Duplicates within a transaction (claim C5) *)

(** C5, as the code has it: nothing removes duplicates.  The first scan counts
    every written occurrence of an item; pruning and sorting keep all the
    occurrences of a frequent item; and inserting a transaction adds its weight
    to the support of the nodes of an item once per occurrence. *)
Theorem duplicates_are_counted (T : list (list N)) (it : N)
    (sup : ItemsCount) (m : Z) (l : list N) (t : FPTree) :
  tree_inv t ->
  JS.get (JS.JSON_stringify it) (Miner._getDistinctItemsCount T) =
    (if decide (total_times it T = 0%nat) then None
     else Some (Z.of_nat (total_times it T))) /\
  times_in it (prune_and_sort sup m l) =
    (if is_frequent sup m it then times_in it l else 0%nat) /\
  mass (nodes (_addItems (prune_and_sort sup m l) 1 t)) it (fun _ => true) =
    mass (nodes t) it (fun _ => true)
    + Z.of_nat (times_in it (prune_and_sort sup m l)).
Proof.
  intros Hi. split_and!.
  - apply _getDistinctItemsCount_get.
  - apply times_in_prune_and_sort.
  - rewrite _addItems_mass by done. rewrite gain_all. lia.
Qed.

(** A transaction that repeats an item: the item is counted twice and gets two
    nodes. *)
Lemma duplicate_item_counted_twice :
  let T := [[1; 1]]%N in
  let sup := Miner._getDistinctItemsCount T in
  JS.get (JS.JSON_stringify 1) sup = Some 2 /\
  occurrences (nodes (insert_transactions T (new_FPTree sup 1))) 1 = [1; 2]%nat.
Proof. vm_compute. done. Qed.

Lemma duplicates_are_counted_witness :
  let T := [[1; 1]]%N in
  let sup := Miner._getDistinctItemsCount T in
  let t := new_FPTree sup 1 in
  JS.get (JS.JSON_stringify 1) sup = Some 2 /\
  times_in 1 (prune_and_sort sup 1 [1; 1]%N) = 2%nat /\
  mass (nodes (_addItems (prune_and_sort sup 1 [1; 1]%N) 1 t)) 1 (fun _ => true) =
    mass (nodes t) 1 (fun _ => true) + 2.
Proof.
  exact (duplicates_are_counted [[1; 1]]%N 1%N
           (Miner._getDistinctItemsCount [[1; 1]]%N) 1 [1; 1]%N
           (new_FPTree (Miner._getDistinctItemsCount [[1; 1]]%N) 1)
           (tree_inv_new _ _)).
Defined.

(** *** Instances on a small tree *)

Definition example_tree : FPTree :=
  _addItems [3; 1]%N 1 (_addItems [3; 2]%N 1 (new_FPTree [] 1)).

Lemma example_tree_under_construction : under_construction example_tree.
Proof. repeat constructor. Qed.

Lemma siblings_unique_invariant_witness :
  siblings_unique (nodes example_tree) /\
  siblings_unique
    (nodes (fst (upsertChild root 3%N None 1 (new_FPTree [] 1)))).
Proof.
  split.
  - exact (proj1 (proj1 siblings_unique_invariant example_tree
                    (or_introl example_tree_under_construction))).
  - refine (proj2 (proj2 siblings_unique_invariant root 3%N None 1
                     (new_FPTree [] 1) (heap_shape_new _ _) _ _)).
    + unfold root. simpl. lia.
    + intros f c t' H. discriminate H.
Defined.

Definition example_transactions : list (list N) :=
  [[1; 3; 4]; [2; 3; 5]; [1; 2; 3; 5]; [2; 5]; [1; 2; 3; 5]]%N.

Definition example_built : FPTree :=
  match fromTransactions example_transactions
          (new_FPTree (Miner._getDistinctItemsCount example_transactions) 2) with
  | JS.Ok t => t
  | _ => new_FPTree [] 2
  end.

Lemma example_built_built : built example_built.
Proof.
  apply (built_fromTransactions
           (Miner._getDistinctItemsCount example_transactions) 2
           example_transactions).
  reflexivity.
Qed.

(** The tree of the README transactions before the header list is made:
    item 3 has the two nodes 1 and 4, and the link of node 1 goes to node 4. *)
Definition example_linked_tree : FPTree :=
  insert_transactions example_transactions
    (new_FPTree (Miner._getDistinctItemsCount example_transactions) 2).

Lemma node_links_chain_witness :
  (JS.get (JS.JSON_stringify 3) (_firstInserted example_linked_tree) = Some 1%nat /\
   nextSameItemNode <$> nodes example_linked_tree !! 1%nat = Some (Some 4%nat) /\
   nextSameItemNode <$> nodes example_linked_tree !! 4%nat = Some None /\
   JS.get (JS.JSON_stringify 3) (_lastInserted example_linked_tree) = Some 4%nat) /\
  ∃ chain,
    node_links (nodes example_linked_tree)
               (JS.get (JS.JSON_stringify 3) (_firstInserted example_linked_tree))
               chain /\
    (∀ a, a ∈ chain <->
          ∃ n, nodes example_linked_tree !! a = Some n /\ item n = Some 3%N) /\
    StronglySorted lt chain /\
    NoDup chain /\
    JS.get (JS.JSON_stringify 3) (_firstInserted example_linked_tree) = head chain /\
    JS.get (JS.JSON_stringify 3) (_lastInserted example_linked_tree) = last chain.
Proof.
  split.
  - repeat split; reflexivity.
  - exact (node_links_chain example_linked_tree 3%N
             (insert_transactions_under_construction example_transactions _
                (under_construction_new _ _))).
Defined.

Lemma single_path_correct_witness :
  (∃ b, isSinglePath example_built = JS.Ok b /\
        (b = true <->
         ∀ i n, nodes example_built !! i = Some n -> (length (children n) <= 1)%nat)) /\
  ((∃ p, getSinglePath example_built = JS.Ok (Some p) /\
         single_path_from (nodes example_built) root p) \/
   (getSinglePath example_built = JS.Ok None /\
    branches_below (nodes example_built) root)) /\
  (∀ r, nodes example_built !! root = Some r -> children r = [] ->
        getSinglePath example_built = JS.Ok (Some [])).
Proof. exact (single_path_correct example_built example_built_built). Defined.

Lemma lifecycle_errors_witness :
  isSinglePath (new_FPTree [] 1) = JS.Throw building_error /\
  fromTransactions [] example_built = JS.Throw building_error.
Proof.
  split.
  - exact (proj1 (proj2 (proj2 (proj1 lifecycle_errors (new_FPTree [] 1) eq_refl)))).
  - exact (proj1 (proj2 (proj2 lifecycle_errors) example_built example_built_built [] [])).
Defined.
(** ** The header table (claim C6) *)

Lemma filter_partition_Permutation {A} (p : A -> bool) l :
  List.filter p l ++ List.filter (fun x => negb (p x)) l ≡ₚ l.
Proof.
  induction l as [|x l IH]; simpl; [done|].
  destruct (p x); simpl.
  - by rewrite IH.
  - rewrite <- Permutation_middle. by rewrite IH.
Qed.

Lemma Object_keys_Permutation {V} (o : JS.Obj V) : JS.Object_keys o ≡ₚ map fst o.
Proof.
  unfold JS.Object_keys. rewrite Array_sort_Permutation.
  apply filter_partition_Permutation.
Qed.

(** The keys behind the header list. *)
Definition header_keys (t : FPTree) : list string :=
  JS.Array_sort
    (fun a b => default 0 (JS.get a (supports t)) - default 0 (JS.get b (supports t)))
    (JS.Object_keys (_firstInserted t)).

Lemma header_keys_Permutation t : header_keys t ≡ₚ map fst (_firstInserted t).
Proof.
  unfold header_keys. rewrite Array_sort_Permutation. apply Object_keys_Permutation.
Qed.

Lemma header_keys_stringify t :
  links_ok t -> header_keys t = JS.JSON_stringify <$> _getHeaderList t.
Proof.
  intros Hl. unfold _getHeaderList. fold (header_keys t).
  change (map JS.JSON_parse (header_keys t)) with (JS.JSON_parse <$> header_keys t).
  rewrite <- list_fmap_compose.
  rewrite <- (list_fmap_id (header_keys t)) at 1.
  apply list_fmap_ext. intros i k Hk%list_elem_of_lookup_2.
  rewrite header_keys_Permutation in Hk.
  destruct (links_keys t Hl k Hk) as (it & ->). simpl.
  by rewrite JSON_parse_stringify.
Qed.

Lemma headers_elem t it :
  links_ok t ->
  it ∈ _getHeaderList t <-> ∃ i n, nodes t !! i = Some n /\ item n = Some it.
Proof.
  intros Hl.
  assert (it ∈ _getHeaderList t <->
          JS.JSON_stringify it ∈ map fst (_firstInserted t)) as ->.
  { rewrite <- header_keys_Permutation, header_keys_stringify by done.
    split; [apply list_elem_of_fmap_2|].
    intros (it' & E & Hin)%list_elem_of_fmap. by apply JSON_stringify_inj in E as ->. }
  assert (JS.JSON_stringify it ∈ map fst (_firstInserted t) <->
          JS.get (JS.JSON_stringify it) (_firstInserted t) ≠ None) as ->.
  { rewrite get_None. split; [tauto|]. apply dec_stable. }
  rewrite (links_first t Hl).
  destruct (occurrences (nodes t) it) as [|a l] eqn:E; simpl.
  - split; [done|]. intros (i & n & Hn).
    assert (i ∈ occurrences (nodes t) it) as Hin by (apply occurrences_elem; eauto).
    rewrite E in Hin. by apply elem_of_nil in Hin.
  - split; [intros _|done]. exists a. apply occurrences_elem. rewrite E. left.
Qed.

Lemma headers_NoDup t : links_ok t -> NoDup (_getHeaderList t).
Proof.
  intros Hl. apply (NoDup_fmap_1 JS.JSON_stringify).
  rewrite <- header_keys_stringify by done.
  rewrite header_keys_Permutation. apply (links_keys_NoDup t Hl).
Qed.

Lemma headers_sorted t :
  links_ok t ->
  StronglySorted (fun a b => support_of (supports t) a <= support_of (supports t) b)
                 (_getHeaderList t).
Proof.
  intros Hl.
  assert (Hk := header_keys_stringify t Hl).
  assert (StronglySorted
            (fun a b => default 0 (JS.get a (supports t))
                        - default 0 (JS.get b (supports t)) <= 0)
            (header_keys t)) as Hs.
  { apply Array_sort_sorted; intros; lia. }
  rewrite Hk in Hs. clear Hk.
  induction (_getHeaderList t) as [|a l IH]; [constructor|].
  rewrite fmap_cons in Hs. apply StronglySorted_inv in Hs as [Hs Ha].
  constructor; [by apply IH|].
  rewrite Forall_fmap in Ha. eapply Forall_impl; [exact Ha|].
  intros b Hb. simpl in Hb. unfold support_of. lia.
Qed.

(** Items of equal support stay in the order of [Object.keys(_firstInserted)]. *)
Lemma headers_ties t v :
  links_ok t ->
  List.filter (fun it => support_of (supports t) it =? v) (_getHeaderList t) =
  List.filter (fun it => support_of (supports t) it =? v)
              (JS.JSON_parse <$> JS.Object_keys (_firstInserted t)).
Proof.
  intros Hl. unfold _getHeaderList.
  change (map JS.JSON_parse ?l) with (JS.JSON_parse <$> l).
  assert (Hf : ∀ l : list string,
    List.filter (fun it => support_of (supports t) it =? v) (JS.JSON_parse <$> l) =
    JS.JSON_parse <$> List.filter
      (fun k => support_of (supports t) (JS.JSON_parse k) =? v) l).
  { induction l as [|k l IH]; [done|].
    rewrite fmap_cons. cbn [List.filter].
    destruct (_ =? _); [rewrite fmap_cons|]; by rewrite IH. }
  rewrite !Hf. f_equal.
  set (ks := JS.Object_keys (_firstInserted t)).
  assert (Hvalid : ∀ k, k ∈ ks -> ∃ it, k = JS.JSON_stringify it).
  { intros k Hk. apply (links_keys t Hl). unfold ks in Hk.
    by rewrite Object_keys_Permutation in Hk. }
  assert (Hext : ∀ l : list string, (∀ k, k ∈ l -> k ∈ ks) ->
    List.filter (fun k => support_of (supports t) (JS.JSON_parse k) =? v) l =
    List.filter (fun k => default 0 (JS.get k (supports t)) =? v) l).
  { intros l Hl'. apply filter_ext_in. intros k Hk%list_elem_of_In.
    destruct (Hvalid k (Hl' k Hk)) as (it & ->).
    unfold support_of. by rewrite JSON_parse_stringify. }
  rewrite !Hext.
  - apply Array_sort_filter. intros x y Hx%Z.eqb_eq Hy%Z.eqb_eq. lia.
  - done.
  - intros k. by rewrite Array_sort_elem.
Qed.

(** C6, as the code has it: the headers of a built tree are exactly the
    distinct items that have a node, in ascending order of global support;
    the comparator looks at supports only, so items of equal support stay in
    the order in which [Object.keys] lists [_firstInserted]. *)
Theorem headers_sorted_by_support (t : FPTree) :
  built t ->
  ∃ hs, _headers t = Some hs /\
    NoDup hs /\
    (∀ it, it ∈ hs <-> ∃ i n, nodes t !! i = Some n /\ item n = Some it) /\
    StronglySorted
      (fun a b => support_of (supports t) a <= support_of (supports t) b) hs /\
    (∀ v, List.filter (fun it => support_of (supports t) it =? v) hs =
          List.filter (fun it => support_of (supports t) it =? v)
                      (JS.JSON_parse <$> JS.Object_keys (_firstInserted t))).
Proof.
  intros (t0 & Ht0 & ->)%built_inv.
  apply under_construction_inv in Ht0 as [Hs Hl].
  exists (_getHeaderList t0). simpl. split_and!.
  - done.
  - by apply headers_NoDup.
  - intros it. by apply headers_elem.
  - by apply headers_sorted.
  - intros v. by apply headers_ties.
Qed.

(** Three items of support 1: the headers are in ascending numeric order,
    which is neither the ascending nor the descending order of their strings. *)
Lemma headers_ties_not_in_string_order :
  let T := [[10]; [9]; [11]]%N in
  let sup := Miner._getDistinctItemsCount T in
  (fromTransactions T (new_FPTree sup 1) ≫= fun t => JS.Ok (_headers t))
    = JS.Ok (Some [9; 10; 11]%N) /\
  support_of sup 9 = 1 /\ support_of sup 10 = 1 /\ support_of sup 11 = 1 /\
  JS.localeCompare (JS.JSON_stringify 9) (JS.JSON_stringify 10) = 1 /\
  JS.localeCompare (JS.JSON_stringify 10) (JS.JSON_stringify 11) = -1.
Proof. vm_compute. done. Qed.

Lemma headers_sorted_by_support_witness :
  ∃ hs, _headers example_built = Some hs /\
    NoDup hs /\
    (∀ it, it ∈ hs <-> ∃ i n, nodes example_built !! i = Some n /\ item n = Some it) /\
    StronglySorted
      (fun a b => support_of (supports example_built) a
                  <= support_of (supports example_built) b) hs /\
    (∀ v, List.filter (fun it => support_of (supports example_built) it =? v) hs =
          List.filter (fun it => support_of (supports example_built) it =? v)
                      (JS.JSON_parse <$> JS.Object_keys (_firstInserted example_built))).
Proof. exact (headers_sorted_by_support example_built example_built_built). Defined.
(** ** Computations that emit *)

(** [m] returns [a] and emits [evs], whatever was emitted before. *)
Definition emits {A} (m : Emit A) (a : A) (evs : list Itemset) : Prop :=
  ∀ log, m log = (JS.Ok a, log ++ evs).

Lemma emits_ret {A} (a : A) : emits (mret a) a [].
Proof. intros log. by rewrite app_nil_r. Qed.

Lemma emits_bind {A B} (m : Emit A) (f : A -> Emit B) a b e1 e2 :
  emits m a e1 -> emits (f a) b e2 -> emits (m ≫= f) b (e1 ++ e2).
Proof.
  intros H1 H2 log. unfold mbind, emit_bind. rewrite H1, H2. by rewrite app_assoc.
Qed.

Lemma emits_lift {A} (a : A) : emits (lift (JS.Ok a)) a [].
Proof. intros log. unfold lift. by rewrite app_nil_r. Qed.

Lemma emits_getFrequentItemset l s :
  emits (Miner._getFrequentItemset l s) (mkItemset l s) [mkItemset l s].
Proof. intros log. done. Qed.

Lemma emits_eq {A} (m : Emit A) a a' e e' :
  emits m a e -> a = a' -> e = e' -> emits m a' e'.
Proof. by intros H <- <-. Qed.

Lemma emits_mapM {A} (f : A -> Emit Itemset) (g : A -> Itemset) l :
  (∀ x, emits (f x) (g x) [g x]) -> emits (mapM_emit f l) (g <$> l) (g <$> l).
Proof.
  intros Hf. induction l as [|x l IH]; [apply emits_ret|].
  cbn [mapM_emit].
  eapply emits_eq.
  - eapply emits_bind; [apply Hf|].
    eapply emits_bind; [apply IH|]. apply emits_ret.
  - done.
  - simpl. by rewrite app_nil_r.
Qed.

(** A [reduce] whose callback appends to the accumulator and emits what it
    appends. *)
Lemma emits_reduceM_grow {A} (f : list Itemset -> A -> Emit (list Itemset))
    (g : list Itemset -> A -> list Itemset) l :
  (∀ acc x, x ∈ l -> ∃ new, g acc x = acc ++ new /\ emits (f acc x) (g acc x) new) ->
  ∀ acc, ∃ new, fold_left g l acc = acc ++ new /\
                emits (reduceM f l acc) (fold_left g l acc) new.
Proof.
  induction l as [|x l IH]; intros Hf acc.
  - exists []. rewrite app_nil_r. split; [done|]. apply emits_ret.
  - destruct (Hf acc x) as (new1 & Hg & He); [left|].
    destruct (IH (fun acc y H => Hf acc y (list_elem_of_further _ _ _ H)) (g acc x))
      as (new2 & Hg2 & He2).
    exists (new1 ++ new2). simpl. split.
    + rewrite Hg2, Hg. by rewrite app_assoc.
    + by eapply emits_bind.
Qed.

(** ** The single-path shortcut (claim C2) *)

(** The combinations after one more node [c] of the path: the old ones, the
    old ones with [c] added, and [c] alone. *)
Definition add_node {A} (acc : list (list A)) (c : A) : list (list A) :=
  acc ++ ((fun s => s ++ [c]) <$> acc) ++ [[c]].

Definition combinations {A} (p : list A) : list (list A) :=
  fold_left add_node p [].

Definition items_at (h : Heap) (s : list NodeRef) : list N :=
  omap (fun i => h !! i ≫= item) s.

(** The itemset of a set of nodes of the path: the prefix followed by their
    items, with the least of their supports, capped by the prefix support. *)
Definition subset_itemset (h : Heap) (prefix : list N) (prefixSupport : Z)
    (s : list NodeRef) : Itemset :=
  mkItemset (prefix ++ items_at h s) (fold_left Z.min (support_at h <$> s) prefixSupport).

Lemma items_at_snoc h s c n it :
  h !! c = Some n -> item n = Some it -> items_at h (s ++ [c]) = items_at h s ++ [it].
Proof.
  intros Hn Hit. unfold items_at. rewrite omap_app. simpl. by rewrite Hn; simpl; rewrite Hit.
Qed.

(** What the callback of [_handleSinglePath] returns. *)
Definition extend_with (n : FPNode) (it : N) (i : Itemset) : Itemset :=
  mkItemset (items i ++ [it]) (Z.min (is_support i) (support n)).

Definition shortcut_step (h : Heap) (ps : Z) (prefix : list N)
    (itemsets : list Itemset) (node : NodeRef) : list Itemset :=
  match h !! node with
  | Some n =>
      match item n with
      | Some it =>
          itemsets ++ (extend_with n it <$> itemsets)
                   ++ [mkItemset (prefix ++ [it]) (Z.min (support n) ps)]
      | None => itemsets
      end
  | None => itemsets
  end.

Lemma shortcut_step_combinations h ps prefix c acc :
  (∃ n it, h !! c = Some n /\ item n = Some it) ->
  shortcut_step h ps prefix (subset_itemset h prefix ps <$> acc) c =
  subset_itemset h prefix ps <$> add_node acc c.
Proof.
  intros (n & it & Hn & Hit). unfold shortcut_step, add_node.
  rewrite Hn, Hit, !fmap_app. f_equal. f_equal.
  - rewrite <- !list_fmap_compose. apply list_fmap_ext. intros ? s _. simpl.
    unfold extend_with, subset_itemset. simpl.
    assert (support_at h c = support n) as Hs
      by (unfold support_at; by rewrite Hn).
    rewrite (items_at_snoc h s c n it) by done.
    rewrite fmap_app, fold_left_app. cbn [fmap list_fmap fold_left].
    by rewrite Hs, app_assoc.
  - unfold subset_itemset, items_at, support_at. simpl. rewrite Hn. simpl.
    rewrite Hit. by rewrite Z.min_comm.
Qed.

Lemma shortcut_fold_combinations h ps prefix p :
  (∀ c, c ∈ p -> ∃ n it, h !! c = Some n /\ item n = Some it) ->
  ∀ acc, fold_left (shortcut_step h ps prefix) p (subset_itemset h prefix ps <$> acc)
         = subset_itemset h prefix ps <$> fold_left add_node p acc.
Proof.
  induction p as [|c p IH]; intros Hv acc; [done|]. simpl.
  rewrite shortcut_step_combinations by (apply Hv; left).
  apply IH. intros c' H. apply Hv. by right.
Qed.

Lemma _handleSinglePath_emits h ps prefix p :
  (∀ c, c ∈ p -> ∃ n it, h !! c = Some n /\ item n = Some it) ->
  emits (Shortcut._handleSinglePath h p ps prefix)
        (subset_itemset h prefix ps <$> combinations p)
        (subset_itemset h prefix ps <$> combinations p).
Proof.
  intros Hv. unfold Shortcut._handleSinglePath.
  match goal with |- emits (reduceM ?f _ _) _ _ =>
    destruct (emits_reduceM_grow f (shortcut_step h ps prefix) p) with (acc := @nil Itemset)
      as (new & Hg & He)
  end.
  - intros acc c Hc. destruct (Hv c Hc) as (n & it & Hn & Hit).
    unfold shortcut_step. rewrite Hn, Hit.
    eexists. split; [done|].
    eapply emits_eq.
    + eapply emits_bind.
      { apply (emits_mapM _ (extend_with n it)). intros i.
        apply emits_getFrequentItemset. }
      eapply emits_bind; [apply emits_getFrequentItemset|]. apply emits_ret.
    + done.
    + by rewrite app_nil_r.
  - simpl in Hg. rewrite <- Hg in He.
    change (@nil Itemset) with (subset_itemset h prefix ps <$> []) in He.
    by rewrite shortcut_fold_combinations in He.
Qed.
Lemma combinations_snoc {A} (p : list A) c :
  combinations (p ++ [c]) = add_node (combinations p) c.
Proof. unfold combinations. by rewrite fold_left_app. Qed.

Lemma add_node_elem {A} (acc : list (list A)) c s :
  s ∈ add_node acc c <->
  s ∈ acc \/ (∃ s', s = s' ++ [c] /\ s' ∈ acc) \/ s = [c].
Proof.
  unfold add_node. rewrite !elem_of_app, list_elem_of_fmap, list_elem_of_singleton.
  done.
Qed.

Lemma combinations_elem {A} (p : list A) s :
  s ∈ combinations p <-> s ≠ [] /\ s `sublist_of` p.
Proof.
  revert s. induction p as [|c p IH] using rev_ind; intros s.
  - unfold combinations. simpl. rewrite sublist_nil_r, elem_of_nil. tauto.
  - rewrite combinations_snoc, add_node_elem. split.
    + intros [H|[(s' & E & H)|E]].
      * apply IH in H as [? ?]. split; [done|]. by apply sublist_inserts_r.
      * subst s. apply IH in H as [? ?]. split; [by destruct s'|]. by apply sublist_app.
      * subst s. split; [done|]. by apply sublist_inserts_l.
    + intros [Hne (k1 & k2 & -> & H1 & H2)%sublist_app_r].
      apply sublist_cons_r in H2 as [H2|(k & E & H2)];
        apply sublist_nil_r in H2; subst.
      * left. rewrite app_nil_r in *. by apply IH.
      * destruct k1 as [|x k1]; [by right; right|].
        right; left. exists (x :: k1). split; [done|]. by apply IH.
Qed.

Lemma combinations_NoDup {A} (p : list A) : NoDup p -> NoDup (combinations p).
Proof.
  induction p as [|c p IH] using rev_ind; intros Hnd; [constructor|].
  apply NoDup_app in Hnd as (Hp & Hc & _).
  assert (c ∉ p) as Hcp.
  { intros H. apply (Hc c H). left. }
  rewrite combinations_snoc. unfold add_node.
  assert (Hin : ∀ s, s ∈ combinations p -> c ∉ s).
  { intros s [_ Hs]%combinations_elem Hcs. apply Hcp.
    by eapply elem_of_sublist. }
  apply NoDup_app. split_and!.
  - by apply IH.
  - intros s Hs [(s' & E & H)%list_elem_of_fmap|H%list_elem_of_singleton]%elem_of_app.
    + subst. apply (Hin _ Hs). apply elem_of_app. right. left.
    + subst. apply (Hin _ Hs). left.
  - apply NoDup_app. split_and!.
    + apply NoDup_fmap_2; [|by apply IH]. intros s1 s2 E. by apply app_inj_tail in E as [? _].
    + intros s (s' & E' & H)%list_elem_of_fmap E%list_elem_of_singleton. subst.
      apply combinations_elem in H as [Hne _]. by destruct s' as [|? [|]].
    + apply NoDup_singleton.
Qed.

Lemma combinations_length {A} (p : list A) :
  length (combinations p) = (2 ^ length p - 1)%nat.
Proof.
  induction p as [|c p IH] using rev_ind; [done|].
  rewrite combinations_snoc. unfold add_node.
  rewrite !length_app, length_fmap, IH. cbn [length].
  replace (length p + 1)%nat with (S (length p)) by lia.
  rewrite Nat.pow_succ_r'.
  assert (2 ^ length p ≠ 0)%nat by (apply Nat.pow_nonzero; lia).
  lia.
Qed.

Lemma single_path_from_valid h a p :
  heap_shape h -> single_path_from h a p ->
  Forall (fun c => (a < c)%nat) p /\ NoDup p /\
  ∀ c, c ∈ p -> ∃ n it, h !! c = Some n /\ item n = Some it.
Proof.
  intros Hs. induction 1 as [a n Hn Hc|a n c p Hn Hc Hsp (IH1 & IH2 & IH3)].
  - split_and!; [constructor|constructor|by intros c ?%elem_of_nil].
  - destruct (child_gt h a n c Hs Hn) as [Hac Hcl]; [rewrite Hc; left|].
    split_and!.
    + constructor; [done|]. eapply Forall_impl; [exact IH1|]. simpl. lia.
    + constructor; [|done]. intros Hin.
      eapply Forall_forall in IH1; [|exact Hin]. lia.
    + intros c' [->|Hin]%elem_of_cons; [|by apply IH3].
      destruct (lookup_lt_is_Some_2 h c Hcl) as [cn Hcn].
      destruct (shape_parent h Hs c cn Hcn) as (? & ? & it & _ & Hit & _);
        [unfold root; lia|]. eauto.
Qed.

Lemma getSinglePath_Some t p :
  built t -> getSinglePath t = JS.Ok (Some p) -> single_path_from (nodes t) root p.
Proof.
  intros Hb Hg.
  destruct (getSinglePath_cases t Hb) as [(p' & Hp & Hsp)|[Hp _]]; congruence.
Qed.

(** C2: in the version of fpgrowth.ts that has the shortcut, a call of
    [_fpGrowth] on a built single-path tree returns (and emits, in the same
    order) one itemset per non-empty sub-sequence of the path: the prefix
    followed by the items of the chosen nodes, with the minimum of their
    supports capped by [prefixSupport]. *)
Theorem single_path_shortcut (t : FPTree) (bound : nat) (prefixSupport : Z)
    (prefix : list N) (p : list NodeRef) :
  built t ->
  getSinglePath t = JS.Ok (Some p) ->
  emits (Shortcut._fpGrowth (S bound) t prefixSupport prefix)
        (subset_itemset (nodes t) prefix prefixSupport <$> combinations p)
        (subset_itemset (nodes t) prefix prefixSupport <$> combinations p) /\
  NoDup (combinations p) /\
  (∀ s, s ∈ combinations p <-> s ≠ [] /\ s `sublist_of` p) /\
  length (combinations p) = (2 ^ length p - 1)%nat.
Proof.
  intros Hb Hg.
  assert (Hsp := getSinglePath_Some t p Hb Hg).
  destruct (single_path_from_valid (nodes t) root p) as (_ & Hnd & Hv);
    [by apply built_tree_inv|done|].
  split_and!.
  - intros log. cbn [Shortcut._fpGrowth]. unfold mbind, emit_bind, lift.
    rewrite Hg. by apply _handleSinglePath_emits.
  - by apply combinations_NoDup.
  - apply combinations_elem.
  - apply combinations_length.
Qed.

Definition example_path_tree : FPTree :=
  match fromTransactions [[1; 2]; [1; 2; 3]; [1]]%N
          (new_FPTree (Miner._getDistinctItemsCount [[1; 2]; [1; 2; 3]; [1]]%N) 1) with
  | JS.Ok t => t
  | _ => new_FPTree [] 1
  end.

Lemma example_path_tree_built : built example_path_tree.
Proof.
  apply (built_fromTransactions
           (Miner._getDistinctItemsCount [[1; 2]; [1; 2; 3]; [1]]%N) 1
           [[1; 2]; [1; 2; 3]; [1]]%N).
  reflexivity.
Qed.

Lemma single_path_shortcut_witness :
  emits (Shortcut._fpGrowth 1 example_path_tree 3 [])
        [mkItemset [1] 3; mkItemset [1; 2] 2; mkItemset [2] 2; mkItemset [1; 3] 1;
         mkItemset [1; 2; 3] 1; mkItemset [2; 3] 1; mkItemset [3] 1]%N
        [mkItemset [1] 3; mkItemset [1; 2] 2; mkItemset [2] 2; mkItemset [1; 3] 1;
         mkItemset [1; 2; 3] 1; mkItemset [2; 3] 1; mkItemset [3] 1]%N.
Proof.
  exact (proj1 (single_path_shortcut example_path_tree 0 3 [] [1; 2; 3]%nat
                  example_path_tree_built eq_refl)).
Defined.
(** ** Prefix paths and conditional trees *)

(** The items above a node, from the root down to its parent. *)
Definition ancestors (h : Heap) (i : NodeRef) : list N :=
  match h !! i with
  | Some n => match parent n with Some p => route h p | None => [] end
  | None => []
  end.

Definition call {S : Type} (cb : option (N -> Z -> S -> S)) (it : N) (count : Z)
    (s : S) : S :=
  match cb with Some f => f it count s | None => s end.

Lemma _getPrefixPath_spec {S : Type} h (cb : option (N -> Z -> S -> S)) count :
  heap_shape h ->
  ∀ i bound n s, h !! i = Some n -> (i < bound)%nat ->
    _getPrefixPath bound h i count cb s =
    JS.Ok (rev (ancestors h i),
           fold_left (fun s it => call cb it count s) (rev (ancestors h i)) s).
Proof.
  intros Hs i. induction (lt_wf i) as [i _ IH]. intros bound n s Hn Hb.
  destruct bound as [|b]; [lia|]. simpl. unfold ancestors. rewrite Hn.
  destruct (decide (i = root)) as [->|Hne].
  { destruct (shape_root h Hs) as (r & Hr & _ & Hp).
    assert (n = r) as -> by congruence. by rewrite Hp. }
  destruct (shape_parent h Hs i n Hn Hne) as (p & pn & it & -> & _ & Hlt & Hpn & _).
  rewrite Hpn.
  destruct (decide (p = root)) as [->|Hpne].
  { destruct (shape_root h Hs) as (r & Hr & _ & Hp).
    assert (pn = r) as -> by congruence. rewrite Hp. by rewrite route_root. }
  destruct (shape_parent h Hs p pn Hpn Hpne) as (q & qn & pit & Hq & Hpit & Hlt' & _).
  rewrite Hq, Hpit.
  rewrite (IH p Hlt b pn) by (done || lia). simpl.
  rewrite (route_unfold h p pn q pit) by done.
  unfold ancestors. rewrite Hpn, Hq. rewrite rev_unit. simpl. done.
Qed.

(** The prefix path of a node, [None] when the node is a child of the root. *)
Definition prefix_path_of (h : Heap) (i : NodeRef) : option IPrefixPath :=
  match rev (ancestors h i) with
  | [] => None
  | p => Some (mkPrefixPath p (support_at h i))
  end.

Lemma getPrefixPath_spec {S : Type} t (cb : option (N -> Z -> S -> S)) i n s :
  heap_shape (nodes t) -> _isInit t = true -> nodes t !! i = Some n ->
  getPrefixPath t i cb s =
  JS.Ok (prefix_path_of (nodes t) i,
         fold_left (fun s it => call cb it (support_at (nodes t) i) s)
                   (rev (ancestors (nodes t) i)) s).
Proof.
  intros Hs Hi Hn. unfold getPrefixPath. rewrite Hi, Hn. simpl.
  rewrite (_getPrefixPath_spec _ cb (support n) Hs i _ n s Hn)
    by (eapply lookup_lt_Some; eauto).
  simpl. unfold prefix_path_of, support_at. rewrite Hn.
  by destruct (rev (ancestors (nodes t) i)).
Qed.

Lemma node_links_valid h start chain :
  node_links h start chain -> ∀ a, a ∈ chain -> is_Some (h !! a).
Proof.
  induction 1 as [|a n l Hn _ IH]; intros b Hb; [by apply elem_of_nil in Hb|].
  apply elem_of_cons in Hb as [->|Hb]; eauto.
Qed.

Lemma _getPrefixPaths_spec {S : Type} t (cb : option (N -> Z -> S -> S)) count :
  heap_shape (nodes t) -> _isInit t = true ->
  ∀ chain start, node_links (nodes t) (Some start) chain ->
  ∀ bound prefixPaths s, (length chain <= bound)%nat ->
    _getPrefixPaths bound t start count cb prefixPaths s =
    JS.Ok (prefixPaths ++ omap (prefix_path_of (nodes t)) chain,
           fold_left
             (fun s i => fold_left (fun s it => call cb it (support_at (nodes t) i) s)
                                   (rev (ancestors (nodes t) i)) s)
             chain s).
Proof.
  intros Hs Hi chain. induction chain as [|a chain IH]; intros start Hl bound pps s Hb.
  { inversion Hl. }
  inversion Hl as [|a' n l Hn Hnext]; subst.
  destruct bound as [|b]; [simpl in Hb; lia|].
  simpl. rewrite (getPrefixPath_spec t cb _ n s Hs Hi Hn). simpl. rewrite Hn.
  destruct (nextSameItemNode n) as [nx|].
  - rewrite (IH nx Hnext) by (simpl in Hb; lia).
    f_equal. f_equal. destruct (prefix_path_of (nodes t) a); simpl; [|done].
    by rewrite <- app_assoc.
  - inversion Hnext; subst. simpl.
    destruct (prefix_path_of (nodes t) a); simpl; by rewrite ?app_nil_r.
Qed.

(** The prefix paths of the nodes of [x], and the supports counted along
    them. *)
Definition cond_paths (t : FPTree) (x : N) : list IPrefixPath :=
  omap (prefix_path_of (nodes t)) (occurrences (nodes t) x).

Definition cond_supports (t : FPTree) (x : N) : ItemsCount :=
  fold_left
    (fun s i => fold_left (fun s it => count_item it (support_at (nodes t) i) s)
                          (rev (ancestors (nodes t) i)) s)
    (occurrences (nodes t) x) [].

Definition cond_tree (t : FPTree) (x : N) : FPTree :=
  let t1 := insert_prefixPaths (cond_paths t x)
                               (new_FPTree (cond_supports t x) (_support t)) in
  set_built (_getHeaderList t1) t1.

Definition root_is_leaf (t : FPTree) : bool :=
  match nodes t !! root with
  | Some r => match children r with [] => true | _ => false end
  | None => true
  end.

Lemma cond_tree_built t x : built (cond_tree t x).
Proof.
  apply (built_fromPrefixPaths (cond_supports t x) (_support t) (cond_paths t x)).
  by rewrite fromPrefixPaths_unfold.
Qed.

Lemma occurrences_length h x : (length (occurrences h x) <= length h)%nat.
Proof.
  unfold occurrences. etrans; [apply List.filter_length_le|]. by rewrite length_seq.
Qed.

Lemma bind_Ok {A B} (a : A) (f : A -> JS.result B) : (JS.Ok a ≫= f) = f a.
Proof. done. Qed.

Lemma getConditionalFPTree_unfold t x :
  built t ->
  getConditionalFPTree t x =
  match occurrences (nodes t) x with
  | [] => JS.Ok None
  | _ =>
      ret ← fromPrefixPaths (cond_paths t x)
                            (new_FPTree (cond_supports t x) (_support t));
      match nodes ret !! root with
      | None => JS.Stuck
      | Some r => match children r with
                  | [] => JS.Ok None
                  | _ => JS.Ok (Some ret)
                  end
      end
  end.
Proof.
  intros Hb. assert (Hi := built_isInit t Hb).
  destruct (built_tree_inv t Hb) as [Hs Hl].
  unfold getConditionalFPTree. rewrite (links_first t Hl).
  pose proof (node_links_occurrences t x Hl) as Hch.
  rewrite (links_first t Hl) in Hch.
  unfold cond_paths, cond_supports.
  pose proof (occurrences_length (nodes t) x) as Hlen.
  destruct (occurrences (nodes t) x) as [|start chain]; [done|].
  cbn [head]. cbn [head] in Hch.
  rewrite (_getPrefixPaths_spec t (Some count_item) _ Hs Hi _ _ Hch) by done.
  rewrite bind_Ok. reflexivity.
Qed.

Lemma getConditionalFPTree_spec t x :
  built t ->
  getConditionalFPTree t x =
  JS.Ok (if root_is_leaf (cond_tree t x) then None else Some (cond_tree t x)).
Proof.
  intros Hb. rewrite getConditionalFPTree_unfold by done.
  assert (Hroot : ∃ r, nodes (cond_tree t x) !! root = Some r).
  { destruct (built_tree_inv _ (cond_tree_built t x)) as [[(r & Hr & _) _ _ _ _] _]. eauto. }
  destruct Hroot as (r & Hr).
  rewrite fromPrefixPaths_unfold. cbn [_isInit new_FPTree]. rewrite bind_Ok.
  fold (cond_tree t x). unfold root_is_leaf. rewrite Hr.
  destruct (occurrences (nodes t) x) as [|start chain] eqn:Eo.
  - unfold cond_tree, cond_paths in Hr. rewrite Eo in Hr. simpl in Hr.
    injection Hr as <-. done.
  - by destruct (children r).
Qed.
(** ** Properties of all the ways from the root *)

Definition routes_all (P : list N -> Prop) (h : Heap) : Prop :=
  ∀ i n, h !! i = Some n -> P (route h i).

Lemma _addItems_step_routes w t cur it :
  tree_inv t -> (cur < length (nodes t))%nat ->
  ∀ i n', nodes (fst (_addItems_step w (t, cur) it)) !! i = Some n' ->
    (is_Some (nodes t !! i) /\
     route (nodes (fst (_addItems_step w (t, cur) it))) i = route (nodes t) i) \/
    route (nodes (fst (_addItems_step w (t, cur) it))) i = route (nodes t) cur ++ [it].
Proof.
  intros Hi Hlt i n' Hn'.
  destruct (_addItems_step_mass w t cur it Hi Hlt) as [Hr _].
  destruct Hi as [Hs Hl].
  destruct (getChild (nodes t) cur it) as [c|] eqn:Hg.
  - rewrite (_addItems_step_found _ _ _ _ _ Hg) in *. simpl in *.
    assert (E := skeleton_alter_support (fun n => support n + w) c (nodes t)).
    left. destruct (skeleton_lookup _ _ _ _ E Hn') as (n & Hn & _).
    split; [eauto|]. by apply route_skeleton.
  - rewrite (_addItems_step_created _ _ _ _ Hg) in *. simpl in *.
    destruct (decide (i = length (nodes t))) as [->|Hne]; [by right|left].
    assert (i < length (nodes t))%nat as Hlt'.
    { apply lookup_lt_Some in Hn'. rewrite heap_linked_length in Hn'. lia. }
    destruct (lookup_lt_is_Some_2 _ _ Hlt') as [n Hn]. split; [eauto|].
    assert (Hs1 : heap_shape (heap_with_child (nodes t) cur it w))
      by by apply heap_with_child_shape.
    eapply route_agree; [done| |..|exact Hn].
    + eapply heap_shape_skeleton; [apply heap_linked_skeleton|done].
    + intros j m Hm. rewrite heap_linked_lookup.
      destruct (heap_with_child_keep _ cur it w _ _ Hlt Hm) as (m' & Hm' & ? & ? & _).
      rewrite Hm'. case_decide; eexists; (split; [done|]); done.
Qed.

Lemma _addItems_loop_routes (P : list N -> Prop) w items : ∀ t cur,
  tree_inv t -> (cur < length (nodes t))%nat ->
  routes_all P (nodes t) ->
  (∀ k, (0 < k <= length items)%nat -> P (route (nodes t) cur ++ take k items)) ->
  routes_all P (nodes (fst (fold_left (_addItems_step w) items (t, cur)))).
Proof.
  induction items as [|it items IH]; intros t cur Hi Hlt Hall HP; [done|].
  simpl.
  destruct (_addItems_step_inv w t cur it Hi Hlt) as [Hi' Hlt'].
  destruct (_addItems_step_mass w t cur it Hi Hlt) as [Hr _].
  pose proof (_addItems_step_routes w t cur it Hi Hlt) as Hrt.
  destruct (_addItems_step w (t, cur) it) as [t' cur'] eqn:E. simpl in *.
  apply IH; try done.
  - intros i n' Hn'. destruct (Hrt i n' Hn') as [[[n Hn] ->]| ->].
    + by eapply Hall.
    + apply (HP 1%nat). lia.
  - intros k Hk. rewrite Hr, <- app_assoc. apply (HP (S k)). lia.
Qed.

Lemma _addItems_routes (P : list N -> Prop) items w t :
  tree_inv t -> routes_all P (nodes t) ->
  (∀ k, (0 < k <= length items)%nat -> P (take k items)) ->
  routes_all P (nodes (_addItems items w t)).
Proof.
  intros Hi Hall HP. unfold _addItems.
  apply _addItems_loop_routes; [done|apply root_valid, Hi|done|].
  intros k Hk. rewrite route_root by apply Hi. by apply HP.
Qed.

Lemma insert_transactions_as_prefixPaths T t :
  insert_transactions T t = insert_prefixPaths ((fun l => mkPrefixPath l 1) <$> T) t.
Proof.
  unfold insert_transactions, insert_prefixPaths. revert t.
  induction T as [|l T IH]; intros t; simpl; [done|]. apply IH.
Qed.

Lemma insert_prefixPaths_fields P t :
  _isInit (insert_prefixPaths P t) = _isInit t /\
  _headers (insert_prefixPaths P t) = _headers t /\
  supports (insert_prefixPaths P t) = supports t /\
  _support (insert_prefixPaths P t) = _support t.
Proof.
  unfold insert_prefixPaths. revert t.
  induction P as [|pp P IH]; intros t; simpl; [done|].
  destruct (IH (_addItems (prune_and_sort (supports t) (_support t) (path pp))
                          (pp_support pp) t)) as (-> & -> & -> & ->).
  apply _addItems_fields.
Qed.

Lemma insert_prefixPaths_inv P t : tree_inv t -> tree_inv (insert_prefixPaths P t).
Proof.
  unfold insert_prefixPaths. revert t.
  induction P as [|pp P IH]; intros t Hi; simpl; [done|].
  apply IH. by apply _addItems_inv.
Qed.

Lemma insert_prefixPaths_routes (Q : list N -> Prop) P t :
  tree_inv t -> routes_all Q (nodes t) ->
  (∀ pp k, pp ∈ P -> (0 < k)%nat ->
     Q (take k (prune_and_sort (supports t) (_support t) (path pp)))) ->
  routes_all Q (nodes (insert_prefixPaths P t)).
Proof.
  unfold insert_prefixPaths. revert t.
  induction P as [|pp P IH]; intros t Hi Hall HQ; simpl; [done|].
  destruct (_addItems_fields (prune_and_sort (supports t) (_support t) (path pp))
                             (pp_support pp) t) as (_ & _ & Es & Em).
  apply IH.
  - by apply _addItems_inv.
  - apply _addItems_routes; [done..|]. intros k Hk. apply HQ; [left|lia].
  - intros pp' k Hpp Hk. rewrite Es, Em. apply HQ; [by right|done].
Qed.

Lemma insert_prefixPaths_mass P x Q : ∀ t,
  tree_inv t ->
  mass (nodes (insert_prefixPaths P t)) x Q =
  mass (nodes t) x Q +
  Zsum ((fun pp => gain (pp_support pp) x Q []
                        (prune_and_sort (supports t) (_support t) (path pp))) <$> P).
Proof.
  unfold insert_prefixPaths.
  induction P as [|pp P IH]; intros t Hi; [simpl; lia|].
  cbn [fold_left]. rewrite fmap_cons, Zsum_cons.
  destruct (_addItems_fields (prune_and_sort (supports t) (_support t) (path pp))
                             (pp_support pp) t) as (_ & _ & Es & Em).
  rewrite IH by by apply _addItems_inv.
  rewrite _addItems_mass by done. rewrite Es, Em. lia.
Qed.

Lemma routes_all_new P sup s : P [] -> routes_all P (nodes (new_FPTree sup s)).
Proof.
  intros HP [|i] n Hn; [|by destruct i].
  by rewrite route_root by apply heap_shape_new.
Qed.

Lemma mass_new sup s x Q : mass (nodes (new_FPTree sup s)) x Q = 0.
Proof. done. Qed.

(** *** Depth *)

Definition depth_le (h : Heap) (d : nat) : Prop :=
  routes_all (fun r => (length r <= d)%nat) h.

Lemma route_ancestors h i n it :
  heap_shape h -> h !! i = Some n -> item n = Some it ->
  route h i = ancestors h i ++ [it].
Proof.
  intros Hs Hn Hit. unfold ancestors. rewrite Hn.
  assert (i ≠ root) as Hne.
  { intros ->. destruct (shape_root h Hs) as (r & Hr & Hit' & _). congruence. }
  destruct (shape_parent h Hs i n Hn Hne) as (p & pn & it' & Hp & _).
  rewrite Hp. by eapply route_unfold.
Qed.

Lemma prune_and_sort_length sup m l : (length (prune_and_sort sup m l) <= length l)%nat.
Proof.
  unfold prune_and_sort. rewrite Array_sort_length. apply List.filter_length_le.
Qed.

Lemma cond_paths_elem t x pp :
  pp ∈ cond_paths t x ->
  ∃ i n, nodes t !! i = Some n /\ item n = Some x /\
         path pp = rev (ancestors (nodes t) i) /\
         pp_support pp = support n /\ ancestors (nodes t) i ≠ [].
Proof.
  unfold cond_paths. intros (i & Hi & Hpp)%list_elem_of_omap.
  apply occurrences_elem in Hi as (n & Hn & Hit).
  exists i, n. unfold prefix_path_of, support_at in Hpp. rewrite Hn in Hpp.
  destruct (rev (ancestors (nodes t) i)) as [|a l] eqn:E; [done|].
  injection Hpp as <-. simpl. split_and!; try done.
  intros E'. by rewrite E' in E.
Qed.

Lemma cond_tree_depth t x d :
  built t -> depth_le (nodes t) d -> depth_le (nodes (cond_tree t x)) (d - 1).
Proof.
  intros Hb Hd. destruct (built_tree_inv t Hb) as [Hs Hl].
  unfold cond_tree. simpl.
  apply insert_prefixPaths_routes.
  - apply tree_inv_new.
  - apply routes_all_new. simpl. lia.
  - intros pp k (i & n & Hn & Hit & Hp & _ & _)%cond_paths_elem Hk. simpl.
    rewrite length_take.
    pose proof (prune_and_sort_length (cond_supports t x) (_support t) (path pp)).
    assert (length (path pp) = length (ancestors (nodes t) i)) as E
      by (rewrite Hp; apply length_rev).
    specialize (Hd i n Hn). simpl in Hd.
    rewrite (route_ancestors _ i n x) in Hd by done.
    rewrite length_app in Hd. simpl in Hd. lia.
Qed.

Lemma depth_zero_leaf t : built t -> depth_le (nodes t) 0 -> root_is_leaf t = true.
Proof.
  intros Hb Hd. destruct (built_tree_inv t Hb) as [Hs Hl].
  unfold root_is_leaf. destruct (shape_root _ Hs) as (r & Hr & _).
  rewrite Hr. destruct (children r) as [|c l] eqn:Ec; [done|].
  destruct (shape_child _ Hs root r c Hr) as (cn & Hcn & Hp); [rewrite Ec; left|].
  assert (c ≠ root) as Hne.
  { intros ->. destruct (shape_root _ Hs) as (r' & Hr' & _ & Hp'). congruence. }
  destruct (route_nonroot _ c cn Hs Hcn Hne) as (p & it & _ & _ & _ & E).
  specialize (Hd c cn Hcn). simpl in Hd. rewrite E, length_app in Hd. simpl in Hd. lia.
Qed.

Lemma depth_le_nodes t : heap_shape (nodes t) -> depth_le (nodes t) (length (nodes t) - 1).
Proof.
  intros Hs.
  assert (∀ i n, nodes t !! i = Some n -> (length (route (nodes t) i) <= i)%nat) as H.
  { intros i. induction (lt_wf i) as [i _ IH]. intros n Hn.
    destruct (decide (i = root)) as [->|Hne]; [by rewrite route_root|].
    destruct (shape_parent _ Hs i n Hn Hne) as (p & pn & it & Hp & Hit & Hlt & Hpn & _).
    rewrite (route_unfold _ i n p it) by done.
    rewrite length_app. simpl. specialize (IH p Hlt pn Hpn). lia. }
  intros i n Hn. specialize (H i n Hn). apply lookup_lt_Some in Hn. simpl. lia.
Qed.
(** ** What [_fpGrowth] returns *)

(** The itemsets of the general recursion, as a function: for every header the
    prefix extended by it, then the itemsets of its conditional tree. *)
Fixpoint mine (bound : nat) (t : FPTree) (ps : Z) (prefix : list N) : list Itemset :=
  match bound with
  | O => []
  | S bound' =>
      flat_map
        (fun x =>
           let s := Z.min (support_of (supports t) x) ps in
           mkItemset (prefix ++ [x]) s ::
           (if root_is_leaf (cond_tree t x) then []
            else mine bound' (cond_tree t x) s (prefix ++ [x])))
        (default [] (_headers t))
  end.

Lemma fold_left_app_flat_map {A B} (f : A -> list B) l acc :
  fold_left (fun acc x => acc ++ f x) l acc = acc ++ flat_map f l.
Proof.
  revert acc. induction l as [|x l IH]; intros acc; simpl.
  - by rewrite app_nil_r.
  - by rewrite IH, app_assoc.
Qed.

Lemma built_headers t : built t -> ∃ hs, _headers t = Some hs.
Proof. intros (t0 & _ & ->)%built_inv. by eexists. Qed.

Lemma General_fpGrowth_emits bound : ∀ d t ps prefix,
  built t -> depth_le (nodes t) d -> (d < bound)%nat ->
  emits (General._fpGrowth bound t ps prefix)
        (mine bound t ps prefix) (mine bound t ps prefix).
Proof.
  induction bound as [|b IH]; intros d t ps prefix Hb Hd Hlt; [lia|].
  destruct (built_headers t Hb) as (hs & Hhs).
  cbn [General._fpGrowth mine]. rewrite Hhs. cbn [default].
  match goal with |- emits (reduceM ?f _ _) _ _ =>
    destruct (emits_reduceM_grow f
      (fun acc x => acc ++
         (mkItemset (prefix ++ [x]) (Z.min (support_of (supports t) x) ps) ::
          (if root_is_leaf (cond_tree t x) then []
           else mine b (cond_tree t x) (Z.min (support_of (supports t) x) ps)
                     (prefix ++ [x])))) hs) with (acc := @nil Itemset)
      as (new & Hg & He)
  end.
  - intros acc x _. eexists. split; [done|].
    destruct (root_is_leaf (cond_tree t x)) eqn:El.
    + eapply emits_eq.
      * eapply emits_bind; [apply emits_getFrequentItemset|].
        rewrite getConditionalFPTree_spec, El by done.
        eapply emits_bind; [apply emits_lift|]. apply emits_ret.
      * done.
      * done.
    + eapply emits_eq.
      * eapply emits_bind; [apply emits_getFrequentItemset|].
        rewrite getConditionalFPTree_spec, El by done.
        eapply emits_bind; [apply emits_lift|].
        eapply emits_bind; [|apply emits_ret].
        apply (IH (d - 1)%nat); [apply cond_tree_built|by apply cond_tree_depth|].
        destruct d; [|lia].
        pose proof (depth_zero_leaf (cond_tree t x) (cond_tree_built t x)
                      (cond_tree_depth t x 0 Hb Hd)). congruence.
      * by rewrite <- app_assoc.
      * simpl. by rewrite app_nil_r.
  - simpl in Hg. rewrite <- Hg in He.
    by rewrite fold_left_app_flat_map in He.
Qed.

(** Induction on the recursion of [_fpGrowth]: a property of the emitted
    itemsets follows from an invariant of the calls. *)
Lemma mine_ind (Inv : FPTree -> Z -> list N -> Prop) (Φ : Itemset -> Prop) :
  (∀ t ps prefix hs x,
      built t -> Inv t ps prefix -> _headers t = Some hs -> x ∈ hs ->
      Φ (mkItemset (prefix ++ [x]) (Z.min (support_of (supports t) x) ps)) /\
      (root_is_leaf (cond_tree t x) = false ->
       Inv (cond_tree t x) (Z.min (support_of (supports t) x) ps) (prefix ++ [x]))) ->
  ∀ bound t ps prefix, built t -> Inv t ps prefix ->
    Forall Φ (mine bound t ps prefix).
Proof.
  intros Hstep bound. induction bound as [|b IH]; intros t ps prefix Hb Hinv; [constructor|].
  cbn [mine]. destruct (built_headers t Hb) as (hs & Hhs). rewrite Hhs. cbn [default].
  assert (Hall : ∀ l, (∀ x, x ∈ l -> x ∈ hs) ->
    Forall Φ (flat_map
      (fun x =>
         mkItemset (prefix ++ [x]) (Z.min (support_of (supports t) x) ps) ::
         (if root_is_leaf (cond_tree t x) then []
          else mine b (cond_tree t x) (Z.min (support_of (supports t) x) ps)
                    (prefix ++ [x]))) l)); [|by apply Hall].
  intros l Hl.
  induction l as [|x l IHl]; simpl; [constructor|].
  destruct (Hstep t ps prefix hs x Hb Hinv Hhs) as [HΦ Hc]; [apply Hl; left|].
  constructor; [done|]. apply Forall_app. split.
  - destruct (root_is_leaf (cond_tree t x)); [constructor|].
    apply IH; [apply cond_tree_built|by apply Hc].
  - apply IHl. intros y Hy. apply Hl. by right.
Qed.

Lemma fromTransactions_new_built T sup s :
  ∃ t, fromTransactions T (new_FPTree sup s) = JS.Ok t /\ built t /\
       supports t = sup /\ _support t = s /\
       nodes t = nodes (insert_prefixPaths ((fun l => mkPrefixPath l 1) <$> T)
                                           (new_FPTree sup s)).
Proof.
  eexists. split; [by rewrite fromTransactions_unfold|].
  split; [by eapply built_fromTransactions; rewrite fromTransactions_unfold|].
  simpl. rewrite insert_transactions_as_prefixPaths.
  destruct (insert_prefixPaths_fields ((fun l => mkPrefixPath l 1) <$> T)
              (new_FPTree sup s)) as (_ & _ & -> & ->). done.
Qed.

Lemma General_exec_mine T self :
  ∃ t, fromTransactions T (new_FPTree (Miner._getDistinctItemsCount T)
                             (Miner.threshold (Miner._support self) T))
       = JS.Ok t /\
  General.exec T self =
    (Miner.mkFPGrowth (Miner.absolute_support (Miner._support self) T) T,
     (JS.Ok (mine (length (nodes t)) t (Z.of_nat (length T)) []),
      mine (length (nodes t)) t (Z.of_nat (length T)) [])).
Proof.
  destruct (fromTransactions_new_built T (Miner._getDistinctItemsCount T)
              (Miner.threshold (Miner._support self) T))
    as (t & Ht & Hb & _).
  exists t. split; [done|]. unfold General.exec. cbv zeta.
  fold (Miner.threshold (Miner._support self) T). f_equal.
  unfold mbind, emit_bind, lift. rewrite Ht.
  assert (Hs := proj1 (built_tree_inv t Hb)).
  rewrite (General_fpGrowth_emits (length (nodes t)) (length (nodes t) - 1) t);
    [done|done|by apply depth_le_nodes|].
  pose proof (root_valid t Hs). lia.
Qed.
Lemma built_headers_elem t hs x :
  built t -> _headers t = Some hs ->
  x ∈ hs <-> ∃ i n, nodes t !! i = Some n /\ item n = Some x.
Proof.
  intros (t0 & Ht0 & ->)%built_inv [= <-]. simpl.
  apply headers_elem. by apply under_construction_inv.
Qed.

(** ** The support threshold (claim C3) *)

Definition all_frequent (t : FPTree) : Prop :=
  routes_all (Forall (fun x => is_frequent (supports t) (_support t) x = true)) (nodes t).

Lemma prune_and_sort_frequent sup m l x :
  x ∈ prune_and_sort sup m l -> is_frequent sup m x = true /\ x ∈ l.
Proof.
  unfold prune_and_sort. rewrite Array_sort_elem, list_elem_of_In, filter_In.
  rewrite <- list_elem_of_In. tauto.
Qed.

Lemma insert_prefixPaths_all_frequent P sup m :
  all_frequent (insert_prefixPaths P (new_FPTree sup m)).
Proof.
  unfold all_frequent.
  destruct (insert_prefixPaths_fields P (new_FPTree sup m)) as (_ & _ & -> & ->).
  apply insert_prefixPaths_routes; [apply tree_inv_new|by apply routes_all_new|].
  intros pp k _ _. simpl. apply Forall_forall. intros x Hx.
  apply elem_of_take in Hx as (j & Hx & _). apply list_elem_of_lookup_2 in Hx.
  by apply prune_and_sort_frequent in Hx as [? _].
Qed.

Lemma cond_tree_fields t x :
  supports (cond_tree t x) = cond_supports t x /\
  _support (cond_tree t x) = _support t /\
  nodes (cond_tree t x) =
    nodes (insert_prefixPaths (cond_paths t x)
                              (new_FPTree (cond_supports t x) (_support t))).
Proof.
  unfold cond_tree. simpl.
  destruct (insert_prefixPaths_fields (cond_paths t x)
              (new_FPTree (cond_supports t x) (_support t))) as (_ & _ & -> & ->).
  done.
Qed.

Lemma cond_tree_all_frequent t x : all_frequent (cond_tree t x).
Proof. apply (insert_prefixPaths_all_frequent (cond_paths t x)). Qed.

Lemma node_item_frequent t i n x :
  heap_shape (nodes t) -> all_frequent t -> nodes t !! i = Some n -> item n = Some x ->
  is_frequent (supports t) (_support t) x = true.
Proof.
  intros Hs Hf Hn Hit. specialize (Hf i n Hn). simpl in Hf.
  rewrite (route_ancestors _ i n x) in Hf by done.
  apply Forall_app in Hf as [_ Hf]. by inversion Hf.
Qed.

Lemma is_frequent_support_of sup m x :
  is_frequent sup m x = true -> m <= support_of sup x.
Proof.
  unfold is_frequent, support_of. destruct (JS.get _ sup); [|done]. simpl.
  by intros ?%Z.leb_le.
Qed.

Lemma mine_above_threshold bound t ps prefix :
  built t -> all_frequent t -> _support t <= ps ->
  Forall (fun i => _support t <= is_support i) (mine bound t ps prefix).
Proof.
  intros Hb Hf Hps.
  pose (m := _support t).
  apply (mine_ind (fun t' ps' _ => all_frequent t' /\ _support t' = m /\ m <= ps')
                  (fun i => m <= is_support i)); [|done|done].
  clear Hb Hf Hps ps prefix.
  intros t' ps prefix hs x Hb (Hf & Hm & Hps) Hhs Hx.
  apply (built_headers_elem t' hs x Hb Hhs) in Hx as (i & n & Hn & Hit).
  assert (m <= support_of (supports t') x).
  { rewrite <- Hm. apply is_frequent_support_of.
    eapply node_item_frequent; eauto. apply (built_tree_inv t' Hb). }
  split; [simpl; lia|]. intros _. split_and!.
  - apply cond_tree_all_frequent.
  - destruct (cond_tree_fields t' x) as (_ & -> & _). done.
  - lia.
Qed.

(** The threshold of the trees is what the comparisons keep of the product:
    [Math.ceil] does not change it. *)
Lemma threshold_product s T :
  Miner.threshold s T =
  integer_bound (Number_multiply s (Number_of_Z (Z.of_nat (length T)))).
Proof. apply integer_bound_Math_ceil. Qed.

(** For a relative support from 0 to 1 and fewer than [2^53] transactions,
    the converted support is an integer, which is the ceiling of the exact
    product or one less, and is at most the number of transactions. *)
Lemma absolute_support_fraction r T :
  Number_le (Number_of_Z 0) r -> Number_le r (Number_of_Z 1) ->
  Z.of_nat (length T) < 2 ^ 53 ->
  ∃ z, Miner.absolute_support r T = Number_of_Z z /\
       Miner.threshold r T = z /\
       Qceiling (Number_value r * inject_Z (Z.of_nat (length T))) - 1 <= z
         <= Qceiling (Number_value r * inject_Z (Z.of_nat (length T))) /\
       z <= Z.of_nat (length T).
Proof.
  intros H0 H1 Hn. destruct r as [u| | |]; try done.
  unfold Number_of_Z in H0, H1. cbn [Number_le] in H0, H1.
  destruct (Math_ceil_product u (Z.of_nat (length T))) as (z & E & Hz & Hzn); [lia..|].
  exists z. rewrite Qceiling_Number_value. split_and!; [done| |lia|lia|done].
  unfold Miner.threshold, Miner.absolute_support. rewrite E.
  apply integer_bound_of_Z.
Qed.

(** C3: [exec] of the general recursion converts the relative support [r],
    0 < r < 1, once: the object then keeps the value of
    [Math.ceil(r * transactions.length)], an integer [z], and no itemset,
    returned or emitted, has a support below [z].  The product is rounded to
    a double before it is taken up: [z] is the ceiling of the exact product
    or one less, and is at most the number of transactions, which is below
    [2^53] (the length of an array is below [2^32]). *)
Theorem no_itemset_below_threshold (r : Number) (T : list (list N)) :
  Number_lt (Number_of_Z 0) r -> Number_lt r (Number_of_Z 1) ->
  Z.of_nat (length T) < 2 ^ 53 ->
  ∃ l z,
    General.exec T (Miner.new_FPGrowth r) =
      (Miner.mkFPGrowth (Number_of_Z z) T, (JS.Ok l, l)) /\
    Math_ceil (Number_multiply r (Number_of_Z (Z.of_nat (length T)))) =
      Number_of_Z z /\
    Qceiling (Number_value r * inject_Z (Z.of_nat (length T))) - 1 <= z
      <= Qceiling (Number_value r * inject_Z (Z.of_nat (length T))) /\
    z <= Z.of_nat (length T) /\
    Forall (fun i => z <= is_support i) l.
Proof.
  intros H0 H1 Hn.
  destruct (absolute_support_fraction r T) as (z & Ez & Hz & Hc & Hzn); [..|done|].
  { destruct r; try done. simpl in *. lia. }
  { destruct r; try done. simpl in *. lia. }
  destruct (General_exec_mine T (Miner.new_FPGrowth r)) as (t & Ht & ->).
  cbn [Miner._support Miner.new_FPGrowth] in *. rewrite Hz in Ht.
  exists (mine (length (nodes t)) t (Z.of_nat (length T)) []), z.
  split_and!; [by rewrite Ez|exact Ez|lia|lia|lia|].
  destruct (fromTransactions_new_built T (Miner._getDistinctItemsCount T) z)
    as (t' & Ht' & Hb & Hsup & Hm & Hnodes).
  assert (t' = t) as -> by congruence.
  eapply Forall_impl; [apply mine_above_threshold|intros i; by rewrite Hm]; [done| |].
  - unfold all_frequent. rewrite Hnodes, Hsup, Hm.
    pose proof (insert_prefixPaths_all_frequent
                  ((fun l => mkPrefixPath l 1) <$> T)
                  (Miner._getDistinctItemsCount T) z) as H.
    unfold all_frequent in H.
    by destruct (insert_prefixPaths_fields ((fun l => mkPrefixPath l 1) <$> T)
              (new_FPTree (Miner._getDistinctItemsCount T) z))
      as (_ & _ & E1 & E2); rewrite E1, E2 in H.
  - by rewrite Hm.
Qed.

Lemma no_itemset_below_threshold_witness :
  ∃ l z,
    General.exec example_transactions (Miner.new_FPGrowth Number_0_4) =
      (Miner.mkFPGrowth (Number_of_Z z) example_transactions, (JS.Ok l, l)) /\
    Math_ceil (Number_multiply Number_0_4
                 (Number_of_Z (Z.of_nat (length example_transactions)))) =
      Number_of_Z z /\
    Qceiling (Number_value Number_0_4 *
              inject_Z (Z.of_nat (length example_transactions))) - 1 <= z
      <= Qceiling (Number_value Number_0_4 *
                   inject_Z (Z.of_nat (length example_transactions))) /\
    z <= Z.of_nat (length example_transactions) /\
    Forall (fun i => z <= is_support i) l.
Proof.
  apply (no_itemset_below_threshold Number_0_4 example_transactions).
  - by vm_compute.
  - by vm_compute.
  - by vm_compute.
Defined.

(** C3 with the ceiling of the exact product fails at the relative support
    0.1 with ten transactions.  The number that 0.1 denotes is the double
    0x1.999999999999ap-4, a little above one tenth (0.10000000000000001
    denotes the same double): ten times it is above 1 and the ceiling is 2,
    while the product in doubles is 1, which [Math.ceil] keeps; the itemset
    of item 1, in one transaction, is emitted and returned with support 1. *)
Lemma itemset_below_exact_ceiling :
  let T := [[1]; [2]; [2]; [2]; [2]; [2]; [2]; [2]; [2]; [2]]%N in
  Number_lt (Number_of_Z 0) Number_0_1 /\ Number_lt Number_0_1 (Number_of_Z 1) /\
  Qceiling (Number_value Number_0_1 * inject_Z (Z.of_nat (length T))) = 2 /\
  General.exec T (Miner.new_FPGrowth Number_0_1) =
    (Miner.mkFPGrowth (Number_of_Z 1) T,
     (JS.Ok [mkItemset [1]%N 1; mkItemset [2]%N 9],
      [mkItemset [1]%N 1; mkItemset [2]%N 9])).
Proof. split_and!; by vm_compute. Qed.

(** The thresholds of three runs, next to the ceilings of the exact products
    of the double and of the decimal: 0.4 with the 5 transactions of the
    README, 0.1 with 10 transactions, 0.28 with 25. *)
Lemma threshold_examples :
  (Miner.threshold Number_0_4 example_transactions = 2 /\
   Qceiling (Number_value Number_0_4 * inject_Z 5) = 3 /\
   Qceiling ((4 # 10) * inject_Z 5) = 2) /\
  (Miner.threshold Number_0_1 (replicate 10 []) = 1 /\
   Qceiling (Number_value Number_0_1 * inject_Z 10) = 2 /\
   Qceiling ((1 # 10) * inject_Z 10) = 1) /\
  (Miner.threshold Number_0_28 (replicate 25 []) = 8 /\
   Qceiling (Number_value Number_0_28 * inject_Z 25) = 8 /\
   Qceiling ((28 # 100) * inject_Z 25) = 7).
Proof. split_and!; by vm_compute. Qed.

(** At 0.28 with 25 transactions, an item of 7 transactions is not frequent:
    the threshold is 8. *)
Lemma exec_at_0_28 :
  let T := replicate 7 [1%N] ++ replicate 18 [2%N] in
  General.exec T (Miner.new_FPGrowth Number_0_28) =
    (Miner.mkFPGrowth (Number_of_Z 8) T,
     (JS.Ok [mkItemset [2]%N 18], [mkItemset [2]%N 18])) /\
  Shortcut.exec T (Miner.new_FPGrowth Number_0_28) =
    (Miner.mkFPGrowth (Number_of_Z 8) T,
     (JS.Ok [mkItemset [2]%N 18], [mkItemset [2]%N 18])).
Proof. split; by vm_compute. Qed.

(** ** Transactions as weighted item lists *)

(** [l] has all the items of [J]. *)
Definition contains (J l : list N) : bool :=
  forallb (fun j => bool_decide (j ∈ l)) J.

(** The weight of the lists of [D] that have all the items of [J]. *)
Definition weight_of (D : list IPrefixPath) (J : list N) : Z :=
  Zsum ((fun pp => if contains J (path pp) then pp_support pp else 0) <$> D).

Lemma contains_spec J l : contains J l = true <-> ∀ j, j ∈ J -> j ∈ l.
Proof.
  unfold contains. rewrite forallb_forall. split.
  - intros H j Hj. apply list_elem_of_In in Hj. apply H in Hj.
    by apply bool_decide_eq_true in Hj.
  - intros H j Hj. apply bool_decide_eq_true, H. by apply list_elem_of_In.
Qed.

Lemma contains_ext J l l' :
  (∀ j, j ∈ J -> (j ∈ l <-> j ∈ l')) -> contains J l = contains J l'.
Proof.
  intros H. apply eq_true_iff_eq. rewrite !contains_spec.
  split; intros H' j Hj; apply (H j Hj), H', Hj.
Qed.

(** The part of [l] up to its first [x], [x] included. *)
Fixpoint upto (x : N) (l : list N) : list N :=
  match l with
  | [] => []
  | y :: l' => if decide (y = x) then [y] else y :: upto x l'
  end.

Lemma gain_NoDup w x Q l : ∀ r,
  NoDup l ->
  gain w x Q r l =
  if decide (x ∈ l) then if Q (r ++ upto x l) then w else 0 else 0.
Proof.
  induction l as [|y l IH]; intros r Hnd; cbn [gain upto].
  - by rewrite decide_False by apply not_elem_of_nil.
  - apply NoDup_cons in Hnd as [Hy Hnd]. rewrite IH by done.
    destruct (decide (y = x)) as [->|Hne].
    + rewrite (decide_True (P := x ∈ x :: l)) by left.
      rewrite (decide_False (P := x ∈ l)) by done. lia.
    + destruct (decide (x ∈ l)) as [Hx|Hx].
      * rewrite (decide_True (P := x ∈ y :: l)) by by right.
        rewrite <- app_assoc. simpl. lia.
      * rewrite (decide_False (P := x ∈ y :: l)); [lia|].
        rewrite not_elem_of_cons. split; congruence.
Qed.

Lemma upto_elem x l : x ∈ l -> ∃ l1, upto x l = l1 ++ [x] /\ (x ∉ l1) /\ (l1 `prefix_of` l).
Proof.
  induction l as [|y l IH]; intros Hx; [by apply elem_of_nil in Hx|]. simpl.
  destruct (decide (y = x)) as [->|Hne].
  - exists []. split_and!; [done|apply not_elem_of_nil|apply prefix_nil].
  - apply elem_of_cons in Hx as [->|Hx]; [done|].
    destruct (IH Hx) as (l1 & -> & Hn & Hp).
    exists (y :: l1). split_and!; [done| |by apply prefix_cons].
    rewrite not_elem_of_cons. split; congruence.
Qed.

(** In a list sorted by a strict order, what sorts before [x] stands before
    [x]. *)
Lemma sorted_before_upto (R : N -> N -> Prop) x j l :
  (∀ a b, R a b -> ¬ R b a) ->
  StronglySorted R l -> x ∈ l -> j ∈ l -> R j x ->
  j ∈ removelast (upto x l).
Proof.
  intros Hasym. induction 1 as [|y l Hs IH Hy]; intros Hx Hj HR;
    [by apply elem_of_nil in Hx|].
  simpl. destruct (decide (y = x)) as [->|Hne].
  - exfalso. apply elem_of_cons in Hj as [->|Hj].
    + by apply (Hasym x x).
    + eapply Forall_forall in Hy; [|exact Hj]. by apply (Hasym j x).
  - apply elem_of_cons in Hx as [->|Hx]; [done|].
    destruct (upto_elem x l Hx) as (l1 & E & _).
    assert (removelast (y :: upto x l) = y :: removelast (upto x l)) as ->.
    { rewrite E. by destruct l1. }
    apply elem_of_cons in Hj as [->|Hj]; [left|right; by apply IH].
Qed.

Lemma removelast_upto_subset x l j : j ∈ removelast (upto x l) -> j ∈ l.
Proof.
  induction l as [|y l IH]; simpl; [done|].
  destruct (decide (y = x)); [by intros ?%elem_of_nil|].
  destruct (upto x l) as [|z u] eqn:E; simpl.
  - by intros ?%elem_of_nil.
  - intros [->|H]%elem_of_cons; [left|right]. apply IH. exact H.
Qed.

(** *** The inserted lists are strictly sorted *)

Lemma prune_and_sort_NoDup sup m l : NoDup l -> NoDup (prune_and_sort sup m l).
Proof.
  intros H. unfold prune_and_sort. rewrite Array_sort_Permutation.
  apply NoDup_ListNoDup, List.NoDup_filter, NoDup_ListNoDup, H.
Qed.

Lemma StronglySorted_strict (sup : ItemsCount) l :
  NoDup l -> StronglySorted (fun a b => by_support_desc sup a b <= 0) l ->
  StronglySorted (before sup) l.
Proof.
  intros Hnd Hs. induction Hs as [|x l Hs IH Hx]; [constructor|].
  apply NoDup_cons in Hnd as [Hxl Hnd].
  constructor; [by apply IH|].
  apply Forall_forall. intros y Hy.
  eapply Forall_forall in Hx; [|exact Hy]. unfold before.
  destruct (Z.eq_dec (by_support_desc sup x y) 0) as [E|E]; [|lia].
  apply by_support_desc_eq in E as ->. done.
Qed.

Lemma prune_and_sort_sorted sup m l :
  NoDup l -> StronglySorted (before sup) (prune_and_sort sup m l).
Proof.
  intros Hnd. apply StronglySorted_strict; [by apply prune_and_sort_NoDup|].
  unfold prune_and_sort. apply Array_sort_sorted.
  - apply by_support_desc_total.
  - apply by_support_desc_le_trans.
Qed.

Lemma StronglySorted_take {A} (R : A -> A -> Prop) k l :
  StronglySorted R l -> StronglySorted R (take k l).
Proof.
  intros Hs. revert k. induction Hs as [|x l Hs IH Hx]; intros [|k]; simpl;
    try constructor; [apply IH|].
  apply Forall_forall. intros y Hy%elem_of_take. destruct Hy as (i & Hy & _).
  eapply Forall_forall; [exact Hx|]. by eapply list_elem_of_lookup_2.
Qed.

Lemma StronglySorted_before_NoDup sup l : StronglySorted (before sup) l -> NoDup l.
Proof.
  induction 1 as [|x l Hs IH Hx]; constructor; [|done].
  intros Hin. eapply Forall_forall in Hx; [|exact Hin]. by apply before_irrefl in Hx.
Qed.

(** The lists of a weighted database repeat no item and weigh at least 0. *)
Definition database_ok (D : list IPrefixPath) : Prop :=
  ∀ pp, pp ∈ D -> NoDup (path pp) /\ 0 <= pp_support pp.

Lemma insert_prefixPaths_sorted D sup m :
  database_ok D ->
  routes_all (StronglySorted (before sup))
             (nodes (insert_prefixPaths D (new_FPTree sup m))).
Proof.
  intros HD. apply insert_prefixPaths_routes;
    [apply tree_inv_new|apply routes_all_new; constructor|].
  intros pp k Hpp _. simpl. apply StronglySorted_take, prune_and_sort_sorted.
  by apply HD.
Qed.

(** Every item on a way from the root comes from a list of the database. *)
Lemma insert_prefixPaths_from_database D sup m :
  routes_all (Forall (fun j => ∃ pp, pp ∈ D /\ j ∈ path pp))
             (nodes (insert_prefixPaths D (new_FPTree sup m))).
Proof.
  apply insert_prefixPaths_routes;
    [apply tree_inv_new|by apply routes_all_new|].
  intros pp k Hpp _. simpl. apply Forall_forall. intros j Hj.
  apply elem_of_take in Hj as (i & Hj & _). apply list_elem_of_lookup_2 in Hj.
  apply prune_and_sort_frequent in Hj as [_ Hj]. eauto.
Qed.
(** *** The conditional database of an item *)

Lemma Zsum_omap {A} (f : A -> option IPrefixPath) (g : IPrefixPath -> Z) l :
  Zsum (g <$> omap f l) =
  Zsum ((fun a => match f a with Some pp => g pp | None => 0 end) <$> l).
Proof.
  induction l as [|a l IH]; [done|].
  rewrite fmap_cons, Zsum_cons. cbn [omap list_omap].
  destruct (f a); [rewrite fmap_cons, Zsum_cons|]; rewrite IH; lia.
Qed.

Lemma contains_nil_r J : J ≠ [] -> contains J [] = false.
Proof.
  destruct J as [|j J]; [done|]. intros _. unfold contains. cbn [forallb].
  rewrite bool_decide_eq_false_2; [done|]. apply not_elem_of_nil.
Qed.

Lemma elem_of_rev {A} (x : A) l : x ∈ rev l <-> x ∈ l.
Proof. rewrite !list_elem_of_In. symmetry. apply in_rev. Qed.

Lemma NoDup_rev {A} (l : list A) : NoDup l -> NoDup (rev l).
Proof. rewrite !NoDup_ListNoDup. apply List.NoDup_rev. Qed.

Lemma removelast_snoc {A} (l : list A) x : removelast (l ++ [x]) = l.
Proof. apply removelast_last. Qed.

Lemma cond_paths_weight t x J :
  heap_shape (nodes t) -> J ≠ [] ->
  weight_of (cond_paths t x) J =
  mass (nodes t) x (fun r => contains J (removelast r)).
Proof.
  intros Hs HJ. unfold weight_of, cond_paths, mass. rewrite Zsum_omap.
  apply Zsum_ext. intros i (n & Hn & Hit)%occurrences_elem.
  rewrite (route_ancestors _ i n x) by done. rewrite removelast_snoc.
  unfold prefix_path_of.
  assert (contains J (rev (ancestors (nodes t) i)) = contains J (ancestors (nodes t) i)) as E.
  { apply contains_ext. intros j _. apply elem_of_rev. }
  destruct (rev (ancestors (nodes t) i)) as [|a l] eqn:Er.
  - rewrite <- E. by rewrite contains_nil_r.
  - simpl. by rewrite <- E.
Qed.

Lemma support_of_count_item it w s j :
  support_of (count_item it w s) j =
  support_of s j + (if decide (it = j) then w else 0).
Proof.
  unfold support_of, count_item. rewrite get_set.
  destruct (decide (it = j)) as [->|Hne].
  - rewrite decide_True by done. simpl. lia.
  - rewrite decide_False by (by intros ?%JSON_stringify_inj). lia.
Qed.

Lemma count_item_fold w l j : ∀ s,
  support_of (fold_left (fun s it => count_item it w s) l s) j =
  support_of s j + w * Z.of_nat (times_in j l).
Proof.
  unfold times_in.
  induction l as [|y l IH]; intros s; cbn [fold_left count_occ]; [lia|].
  rewrite IH, support_of_count_item.
  destruct (N.eq_dec y j) as [->|Hne].
  - rewrite decide_True by done. lia.
  - rewrite decide_False by done. lia.
Qed.

Lemma times_in_NoDup j l :
  NoDup l -> Z.of_nat (times_in j l) = if decide (j ∈ l) then 1 else 0.
Proof.
  unfold times_in. induction 1 as [|y l Hy Hnd IH]; cbn [count_occ].
  - by rewrite decide_False by apply not_elem_of_nil.
  - destruct (N.eq_dec y j) as [->|Hne].
    + rewrite decide_True by left.
      rewrite decide_False in IH by done. lia.
    + rewrite IH. destruct (decide (j ∈ l)).
      * by rewrite decide_True by by right.
      * rewrite decide_False; [done|]. rewrite not_elem_of_cons. split; congruence.
Qed.

Lemma contains_singleton j l : contains [j] l = bool_decide (j ∈ l).
Proof. unfold contains. simpl. by rewrite andb_true_r. Qed.

Lemma cond_supports_weight t x j :
  heap_shape (nodes t) ->
  routes_all (StronglySorted (before (supports t))) (nodes t) ->
  support_of (cond_supports t x) j = weight_of (cond_paths t x) [j].
Proof.
  intros Hs Hsort. rewrite cond_paths_weight by done.
  unfold cond_supports, mass.
  assert (Hgen : ∀ l s, (∀ i, i ∈ l -> i ∈ occurrences (nodes t) x) ->
    support_of
      (fold_left
         (fun s i => fold_left (fun s it => count_item it (support_at (nodes t) i) s)
                               (rev (ancestors (nodes t) i)) s) l s) j =
    support_of s j +
    Zsum ((fun i => if contains [j] (removelast (route (nodes t) i))
                    then support_at (nodes t) i else 0) <$> l)).
  { induction l as [|i l IH]; intros s Hl; [simpl; lia|].
    cbn [fold_left]. rewrite fmap_cons, Zsum_cons.
    rewrite IH by (intros i' Hi'; apply Hl; by right).
    rewrite count_item_fold.
    assert (i ∈ occurrences (nodes t) x) as (n & Hn & Hit)%occurrences_elem
      by (apply Hl; left).
    specialize (Hsort i n Hn). simpl in Hsort.
    rewrite (route_ancestors _ i n x) in Hsort |- * by done.
    rewrite removelast_snoc.
    apply StronglySorted_before_NoDup, NoDup_app in Hsort as (Hnd & _).
    rewrite times_in_NoDup by by apply NoDup_rev.
    rewrite contains_singleton.
    destruct (decide (j ∈ rev (ancestors (nodes t) i))) as [Hj|Hj].
    - rewrite bool_decide_eq_true_2 by by apply elem_of_rev. lia.
    - rewrite bool_decide_eq_false_2; [lia|]. by rewrite <- elem_of_rev. }
  rewrite Hgen by done. done.
Qed.

(** *** The tree of a weighted database *)

Definition represents (t : FPTree) (D : list IPrefixPath) : Prop :=
  database_ok D /\
  nodes t = nodes (insert_prefixPaths D (new_FPTree (supports t) (_support t))) /\
  ∀ j, support_of (supports t) j = weight_of D [j].

Lemma represents_shape t D : represents t D -> heap_shape (nodes t).
Proof.
  intros (_ & -> & _). apply insert_prefixPaths_inv, tree_inv_new.
Qed.

Lemma represents_sorted t D :
  represents t D -> routes_all (StronglySorted (before (supports t))) (nodes t).
Proof. intros (HD & -> & _). by apply insert_prefixPaths_sorted. Qed.

Lemma represents_frequent t D : represents t D -> all_frequent t.
Proof.
  intros (HD & E & _). unfold all_frequent. rewrite E.
  pose proof (insert_prefixPaths_all_frequent D (supports t) (_support t)) as H.
  unfold all_frequent in H.
  by destruct (insert_prefixPaths_fields D (new_FPTree (supports t) (_support t)))
    as (_ & _ & E1 & E2); rewrite E1, E2 in H.
Qed.

Lemma represents_from_database t D :
  represents t D ->
  routes_all (Forall (fun j => ∃ pp, pp ∈ D /\ j ∈ path pp)) (nodes t).
Proof. intros (HD & -> & _). apply insert_prefixPaths_from_database. Qed.

Lemma represents_mass t D x Q :
  represents t D ->
  mass (nodes t) x Q =
  Zsum ((fun pp =>
           let l := prune_and_sort (supports t) (_support t) (path pp) in
           if decide (x ∈ l) then if Q (upto x l) then pp_support pp else 0 else 0)
          <$> D).
Proof.
  intros (HD & -> & _).
  rewrite insert_prefixPaths_mass by apply tree_inv_new.
  rewrite mass_new. simpl. apply Zsum_ext. intros pp Hpp.
  rewrite gain_NoDup; [done|]. apply prune_and_sort_NoDup. by apply HD.
Qed.

Lemma Zsum_map_nonneg {A} (f : A -> Z) l :
  (∀ a, a ∈ l -> 0 <= f a) -> 0 <= Zsum (f <$> l).
Proof.
  intros H. apply Zsum_nonneg, Forall_fmap, Forall_forall. intros a Ha. by apply H.
Qed.

Lemma Zsum_map_le {A} (f g : A -> Z) l :
  (∀ a, a ∈ l -> f a <= g a) -> Zsum (f <$> l) <= Zsum (g <$> l).
Proof.
  induction l as [|a l IH]; intros H; [done|].
  rewrite !fmap_cons, !Zsum_cons.
  pose proof (H a ltac:(left)).
  assert (Zsum (f <$> l) <= Zsum (g <$> l)); [|lia].
  apply IH. intros b Hb. apply H. by right.
Qed.

Lemma represents_support_nonneg t D i n :
  represents t D -> nodes t !! i = Some n -> i ≠ root -> 0 <= support n.
Proof.
  intros Hr Hn Hne. assert (Hs := represents_shape t D Hr).
  destruct (shape_parent _ Hs i n Hn Hne) as (p & pn & x & _ & Hit & _).
  assert (mass (nodes t) x (fun r => bool_decide (r = route (nodes t) i)) = support n) as <-.
  { unfold mass.
    rewrite (Zsum_ext _ (fun j => 0 + if decide (j = i) then support n else 0)).
    - rewrite Zsum_indicator by apply occurrences_NoDup.
      rewrite decide_True by (apply occurrences_elem; eauto).
      assert (Zsum ((fun _ : nat => 0) <$> occurrences (nodes t) x) = 0) as ->; [|lia].
      induction (occurrences (nodes t) x); [done|].
      rewrite fmap_cons, Zsum_cons. lia.
    - intros j (m & Hm & _)%occurrences_elem.
      destruct (decide (j = i)) as [->|Hji].
      + rewrite bool_decide_eq_true_2 by done. unfold support_at. rewrite Hn. lia.
      + rewrite bool_decide_eq_false_2; [lia|].
        intros E. apply Hji. eapply route_inj; eauto. }
  rewrite (represents_mass t D) by done.
  apply Zsum_map_nonneg. intros pp Hpp. simpl.
  destruct Hr as (HD & _). destruct (HD pp Hpp) as [_ Hw].
  destruct (decide (x ∈ _)); [|lia]. destruct (bool_decide _); lia.
Qed.
Lemma prune_and_sort_elem sup m l x :
  x ∈ prune_and_sort sup m l <-> is_frequent sup m x = true /\ x ∈ l.
Proof.
  unfold prune_and_sort. rewrite Array_sort_elem, list_elem_of_In, filter_In.
  rewrite <- list_elem_of_In. tauto.
Qed.

Lemma StronglySorted_snoc_before {A} (R : A -> A -> Prop) l x j :
  StronglySorted R (l ++ [x]) -> j ∈ l -> R j x.
Proof.
  induction l as [|y l IH]; simpl; intros Hs Hj; [by apply elem_of_nil in Hj|].
  apply StronglySorted_inv in Hs as [Hs Hy].
  apply elem_of_cons in Hj as [->|Hj]; [|by apply IH].
  eapply Forall_forall; [exact Hy|]. apply elem_of_app. right. left.
Qed.

(** An item above a node of [x] is frequent and sorts before [x]. *)
Lemma ancestor_before t D x i n j :
  represents t D -> nodes t !! i = Some n -> item n = Some x ->
  j ∈ ancestors (nodes t) i ->
  is_frequent (supports t) (_support t) j = true /\ before (supports t) j x.
Proof.
  intros Hr Hn Hit Hj. assert (Hs := represents_shape t D Hr).
  pose proof (represents_frequent t D Hr i n Hn) as Hf.
  pose proof (represents_sorted t D Hr i n Hn) as Hso.
  simpl in Hf, Hso. rewrite (route_ancestors _ i n x) in Hf, Hso by done.
  split.
  - apply Forall_app in Hf as [Hf _]. by eapply Forall_forall in Hf.
  - by eapply StronglySorted_snoc_before.
Qed.

(** The weight of [J] in the conditional database of [x] is the weight of
    [x :: J] in the database of the tree. *)
Lemma cond_paths_weight_eq t D x J :
  represents t D -> J ≠ [] ->
  (∃ i n, nodes t !! i = Some n /\ item n = Some x) ->
  (∀ j, j ∈ J -> ∃ i n, nodes t !! i = Some n /\ item n = Some x /\
                         j ∈ ancestors (nodes t) i) ->
  weight_of (cond_paths t x) J = weight_of D (x :: J).
Proof.
  intros Hr HJ (i0 & n0 & Hn0 & Hit0) HJx.
  assert (Hs := represents_shape t D Hr).
  rewrite cond_paths_weight by done.
  rewrite (represents_mass t D) by done.
  unfold weight_of. apply Zsum_ext. intros pp Hpp. cbv zeta.
  set (l := prune_and_sort (supports t) (_support t) (path pp)).
  assert (Hxf : is_frequent (supports t) (_support t) x = true).
  { eapply node_item_frequent; eauto. by eapply represents_frequent. }
  assert (Hl : StronglySorted (before (supports t)) l).
  { apply prune_and_sort_sorted. destruct Hr as (HD & _). by apply HD. }
  destruct (contains (x :: J) (path pp)) eqn:Ec.
  - rewrite contains_spec in Ec.
    assert (x ∈ l) as Hx by (apply prune_and_sort_elem; split; [done|apply Ec; left]).
    rewrite decide_True by done.
    assert (contains J (removelast (upto x l)) = true) as ->; [|done].
    apply contains_spec. intros j Hj.
    destruct (HJx j Hj) as (i & n & Hn & Hit & Hja).
    destruct (ancestor_before t D x i n j Hr Hn Hit Hja) as [Hjf Hjx].
    apply (sorted_before_upto (before (supports t))); try done.
    + apply before_asym.
    + apply prune_and_sort_elem. split; [done|]. apply Ec. by right.
  - destruct (decide (x ∈ l)) as [Hx|Hx]; [|done].
    destruct (contains J (removelast (upto x l))) eqn:Ec'; [|done].
    exfalso. rewrite contains_spec in Ec'.
    assert (contains (x :: J) (path pp) = true); [|congruence].
    apply contains_spec. intros j [->|Hj]%elem_of_cons.
    + by apply prune_and_sort_elem in Hx as [_ ?].
    + apply Ec', removelast_upto_subset in Hj.
      by apply prune_and_sort_elem in Hj as [_ ?].
Qed.

Lemma weight_of_cons_le D x J :
  database_ok D -> weight_of D (x :: J) <= weight_of D [x].
Proof.
  intros HD. unfold weight_of. apply Zsum_map_le. intros pp Hpp.
  destruct (HD pp Hpp) as [_ Hw].
  destruct (contains (x :: J) (path pp)) eqn:E.
  - assert (contains [x] (path pp) = true) as ->; [|lia].
    rewrite contains_spec in E |- *. intros j ->%list_elem_of_singleton. apply E. left.
  - destruct (contains [x] (path pp)); lia.
Qed.

(** ** Supports are exact on transactions without repeated items (claim C1) *)

(** An item that stands on some way from the root. *)
Definition present (t : FPTree) (j : N) : Prop :=
  ∃ i n, nodes t !! i = Some n /\ j ∈ route (nodes t) i.

(** The invariant of the calls of [_fpGrowth]: the tree is the tree of a
    database whose weights are those of the transactions that have the
    prefix. *)
Definition exact_inv (D0 : list IPrefixPath) (t : FPTree) (ps : Z)
    (prefix : list N) : Prop :=
  ∃ D, represents t D /\
       (∀ j, present t j -> weight_of D [j] <= ps) /\
       (∀ J, J ≠ [] -> (∀ j, j ∈ J -> present t j) ->
             weight_of D J = weight_of D0 (prefix ++ J)).

Lemma cond_paths_database_ok t D x : represents t D -> database_ok (cond_paths t x).
Proof.
  intros Hr pp (i & n & Hn & Hit & Hp & Hw & Hne)%cond_paths_elem.
  assert (Hs := represents_shape t D Hr). split.
  - rewrite Hp. apply NoDup_rev.
    pose proof (represents_sorted t D Hr i n Hn) as Hso. simpl in Hso.
    rewrite (route_ancestors _ i n x) in Hso by done.
    by apply StronglySorted_before_NoDup, NoDup_app in Hso as (? & _).
  - rewrite Hw. eapply represents_support_nonneg; eauto.
    intros ->. destruct (shape_root _ Hs) as (r & Hr' & Hit' & _). congruence.
Qed.

Lemma cond_tree_represents t D x :
  represents t D -> represents (cond_tree t x) (cond_paths t x).
Proof.
  intros Hr. destruct (cond_tree_fields t x) as (E1 & E2 & E3).
  split_and!.
  - by eapply cond_paths_database_ok.
  - by rewrite E1, E2.
  - intros j. rewrite E1. apply cond_supports_weight.
    + by eapply represents_shape.
    + by eapply represents_sorted.
Qed.

Lemma present_cond_tree t D x j :
  represents t D -> present (cond_tree t x) j ->
  ∃ i n, nodes t !! i = Some n /\ item n = Some x /\ j ∈ ancestors (nodes t) i.
Proof.
  intros Hr (i & n & Hn & Hj).
  pose proof (represents_from_database _ _ (cond_tree_represents t D x Hr) i n Hn) as H.
  simpl in H. eapply Forall_forall in H as (pp & Hpp & Hjp); [|exact Hj].
  apply cond_paths_elem in Hpp as (i' & n' & Hn' & Hit' & Hp & _).
  exists i', n'. split_and!; try done. by rewrite Hp, elem_of_rev in Hjp.
Qed.

Lemma ancestors_present t i n j :
  heap_shape (nodes t) -> nodes t !! i = Some n -> j ∈ ancestors (nodes t) i ->
  present t j.
Proof.
  intros Hs Hn Hj. exists i, n. split; [done|].
  unfold ancestors in Hj. rewrite Hn in Hj.
  destruct (parent n) as [p|] eqn:Hp; [|by apply elem_of_nil in Hj].
  assert (i ≠ root) as Hne.
  { intros ->. destruct (shape_root _ Hs) as (r & Hr & _ & Hp'). congruence. }
  destruct (route_nonroot _ i n Hs Hn Hne) as (p' & it & Hp' & _ & _ & ->).
  assert (p' = p) as -> by congruence. apply elem_of_app. by left.
Qed.

Lemma item_present t i n x :
  heap_shape (nodes t) -> nodes t !! i = Some n -> item n = Some x -> present t x.
Proof.
  intros Hs Hn Hit. exists i, n. split; [done|].
  rewrite (route_ancestors _ i n x) by done. apply elem_of_app. right. left.
Qed.

Lemma exact_inv_step D0 t ps prefix hs x :
  built t -> exact_inv D0 t ps prefix -> _headers t = Some hs -> x ∈ hs ->
  is_support (mkItemset (prefix ++ [x]) (Z.min (support_of (supports t) x) ps))
    = weight_of D0 (items (mkItemset (prefix ++ [x])
                             (Z.min (support_of (supports t) x) ps))) /\
  (root_is_leaf (cond_tree t x) = false ->
   exact_inv D0 (cond_tree t x) (Z.min (support_of (supports t) x) ps) (prefix ++ [x])).
Proof.
  intros Hb (D & Hr & Hps & Hw) Hhs Hx.
  assert (Hs := represents_shape t D Hr).
  apply (built_headers_elem t hs x Hb Hhs) in Hx as (i0 & n0 & Hn0 & Hit0).
  assert (Hxp : present t x) by by eapply item_present.
  assert (Hmin : Z.min (support_of (supports t) x) ps = weight_of D [x]).
  { destruct Hr as (_ & _ & Htab). rewrite Htab. specialize (Hps x Hxp). lia. }
  rewrite Hmin. simpl. split.
  - apply Hw; [done|]. by intros j ->%list_elem_of_singleton.
  - intros _. exists (cond_paths t x). split_and!.
    + by eapply cond_tree_represents.
    + intros j Hj%(present_cond_tree t D x j Hr).
      rewrite (cond_paths_weight_eq t D x [j]); [|done|done|eauto|].
      * apply weight_of_cons_le, Hr.
      * by intros j' ->%list_elem_of_singleton.
    + intros J HJ HJp.
      rewrite (cond_paths_weight_eq t D x J); [|done|done|eauto|].
      * rewrite <- app_assoc. simpl. apply Hw; [done|].
        intros j [->|Hj]%elem_of_cons; [done|].
        destruct (present_cond_tree t D x j Hr (HJp j Hj)) as (i & n & Hn & _ & Hja).
        by eapply ancestors_present.
      * intros j Hj. by apply (present_cond_tree t D x j Hr), HJp.
Qed.

Lemma mine_exact D0 bound t ps prefix :
  built t -> exact_inv D0 t ps prefix ->
  Forall (fun i => is_support i = weight_of D0 (items i)) (mine bound t ps prefix).
Proof.
  intros Hb Hinv.
  apply (mine_ind (exact_inv D0) (fun i => is_support i = weight_of D0 (items i)));
    [|done|done].
  intros. by eapply exact_inv_step.
Qed.
(** The reference count: the number of transactions that have all the items
    of [J]. *)
Definition exact_support (T : list (list N)) (J : list N) : Z :=
  Z.of_nat (length (List.filter (contains J) T)).

(** Transactions as a database: each weighs 1. *)
Definition as_database (T : list (list N)) : list IPrefixPath :=
  (fun l => mkPrefixPath l 1) <$> T.

Lemma weight_of_transactions T J : weight_of (as_database T) J = exact_support T J.
Proof.
  unfold weight_of, as_database, exact_support.
  induction T as [|l T IH]; [done|].
  rewrite !fmap_cons, Zsum_cons, IH. cbn [path pp_support List.filter].
  destruct (contains J l); cbn [length]; lia.
Qed.

Lemma exact_support_le T J : exact_support T J <= Z.of_nat (length T).
Proof.
  unfold exact_support. pose proof (List.filter_length_le (contains J) T). lia.
Qed.

Lemma total_times_exact T j :
  Forall NoDup T -> Z.of_nat (total_times j T) = exact_support T [j].
Proof.
  unfold exact_support. induction 1 as [|l T Hl HT IH]; [done|].
  cbn [total_times foldr List.filter]. rewrite Nat2Z.inj_add.
  fold (total_times j T). rewrite IH, times_in_NoDup by done.
  rewrite contains_singleton. destruct (decide (j ∈ l)).
  - rewrite bool_decide_eq_true_2 by done. cbn [length]. lia.
  - rewrite bool_decide_eq_false_2 by done. lia.
Qed.

Lemma transactions_represents T m t :
  Forall NoDup T ->
  fromTransactions T (new_FPTree (Miner._getDistinctItemsCount T) m) = JS.Ok t ->
  built t /\ exact_inv (as_database T) t (Z.of_nat (length T)) [].
Proof.
  intros HT Ht.
  destruct (fromTransactions_new_built T (Miner._getDistinctItemsCount T) m)
    as (t' & Ht' & Hb & Hsup & Hm & Hnodes).
  assert (t' = t) as -> by congruence. split; [done|].
  exists (as_database T). split_and!.
  - split_and!.
    + intros pp (l & -> & Hl)%list_elem_of_fmap. simpl. split; [|lia].
      by eapply Forall_forall in HT.
    + by rewrite Hsup, Hm.
    + intros j. rewrite weight_of_transactions, <- total_times_exact by done.
      unfold support_of. rewrite Hsup, _getDistinctItemsCount_get.
      case_decide as E; [by rewrite E|done].
  - intros j _. rewrite weight_of_transactions. apply exact_support_le.
  - done.
Qed.

(** C1, as the code has it: when no transaction repeats an item, every itemset
    that [exec] returns or emits (general recursion) carries as support the
    exact number of transactions that have all its items. *)
Theorem supports_are_exact (r : Number) (T : list (list N)) :
  Forall NoDup T ->
  ∃ l, General.exec T (Miner.new_FPGrowth r) =
         (Miner.mkFPGrowth (Miner.absolute_support r T) T,
          (JS.Ok l, l)) /\
       Forall (fun i => is_support i = exact_support T (items i)) l.
Proof.
  intros HT.
  destruct (General_exec_mine T (Miner.new_FPGrowth r)) as (t & Ht & ->).
  simpl in *. eexists. split; [done|].
  destruct (transactions_represents T _ t HT Ht) as [Hb Hinv].
  eapply Forall_impl; [by apply (mine_exact (as_database T))|].
  intros i ->. apply weight_of_transactions.
Qed.

(** With a transaction that repeats an item, the support of [{1}] is 2 though
    one transaction has the item. *)
Lemma support_not_exact_with_duplicates :
  let T := [[1; 1]; [2]]%N in
  snd (General.exec T (Miner.new_FPGrowth Number_0_5)) =
    (JS.Ok [mkItemset [2] 1; mkItemset [1] 2; mkItemset [1; 1] 1]%N,
     [mkItemset [2] 1; mkItemset [1] 2; mkItemset [1; 1] 1]%N) /\
  exact_support T [1]%N = 1.
Proof. vm_compute. done. Qed.

Lemma example_transactions_NoDup : Forall NoDup example_transactions.
Proof. apply (bool_decide_unpack _). by vm_compute. Qed.

Lemma supports_are_exact_witness :
  ∃ l, General.exec example_transactions (Miner.new_FPGrowth Number_0_4) =
         (Miner.mkFPGrowth
            (Miner.absolute_support Number_0_4 example_transactions)
            example_transactions,
          (JS.Ok l, l)) /\
       Forall (fun i => is_support i = exact_support example_transactions (items i)) l.
Proof.
  exact (supports_are_exact Number_0_4 example_transactions example_transactions_NoDup).
Defined.
(** ** Itemsets as sets *)

(** The items of an itemset in ascending order: itemsets with the same items
    get the same list. *)
Definition canonical (l : list N) : list N := merge_sort N.le l.

Definition as_set (i : Itemset) : Itemset :=
  mkItemset (canonical (items i)) (is_support i).

Lemma canonical_Permutation l l' : l ≡ₚ l' -> canonical l = canonical l'.
Proof.
  intros H. unfold canonical.
  apply (StronglySorted_unique N.le); try apply StronglySorted_merge_sort; try apply _.
  by rewrite !merge_sort_Permutation.
Qed.

Lemma canonical_eq_Permutation l l' : canonical l = canonical l' -> l ≡ₚ l'.
Proof.
  unfold canonical. intros H.
  rewrite <- (merge_sort_Permutation N.le l), H. apply merge_sort_Permutation.
Qed.

(** *** Combinations up to order *)

Lemma add_node_Permutation {A} (acc acc' : list (list A)) c :
  acc ≡ₚ acc' -> add_node acc c ≡ₚ add_node acc' c.
Proof. intros H. unfold add_node. by rewrite H. Qed.

Lemma combinations_cons {A} (x : A) l :
  combinations (x :: l) ≡ₚ [x] :: ((x ::.) <$> combinations l) ++ combinations l.
Proof.
  induction l as [|c l IH] using rev_ind; [done|].
  rewrite app_comm_cons, !combinations_snoc.
  rewrite (add_node_Permutation _ _ c IH). unfold add_node.
  repeat (rewrite fmap_app || rewrite fmap_cons || rewrite fmap_nil).
  rewrite <- !list_fmap_compose.
  set (C := combinations l).
  change (((x ::.) ∘ (fun s => s ++ [c])) <$> C) with ((fun s => x :: s ++ [c]) <$> C).
  change (((fun s => s ++ [c]) ∘ (x ::.)) <$> C) with ((fun s => x :: s ++ [c]) <$> C).
  generalize ((fun s => x :: s ++ [c]) <$> C) as M1.
  generalize ((x ::.) <$> C) as M2.
  generalize ((fun s => s ++ [c]) <$> C) as M3.
  intros M3 M2 M1. simpl. solve_Permutation.
Qed.

Lemma combinations_fmap {A B} (f : A -> B) (l : list A) :
  combinations (f <$> l) = (fun s : list A => f <$> s) <$> combinations l.
Proof.
  induction l as [|c l IH] using rev_ind; [done|].
  rewrite fmap_app. simpl. rewrite !combinations_snoc, IH. unfold add_node.
  rewrite !fmap_app, <- !list_fmap_compose. simpl. f_equal. f_equal.
  apply list_fmap_ext. intros _ s _. simpl. by rewrite fmap_app.
Qed.

(** A function of the set of items gives the same values, up to order, on the
    combinations of two lists with the same items. *)
Lemma combinations_Permutation {A B} (l l' : list A) :
  l ≡ₚ l' ->
  ∀ G : list A -> B, (∀ s s', s ≡ₚ s' -> G s = G s') ->
  G <$> combinations l ≡ₚ G <$> combinations l'.
Proof.
  induction 1 as [|x l l' Hp IH|x y l|l1 l2 l3 H1 IH1 H2 IH2]; intros G HG.
  - done.
  - rewrite !combinations_cons, !fmap_cons, !fmap_app, <- !list_fmap_compose.
    rewrite (IH G HG).
    rewrite (IH (G ∘ (x ::.))); [done|].
    intros s s' Hs. simpl. apply HG. by rewrite Hs.
  - rewrite (combinations_cons y), (combinations_cons x (y :: l)).
    rewrite (fmap_Permutation (y ::.) _ _ (combinations_cons x l)).
    rewrite (fmap_Permutation (x ::.) _ _ (combinations_cons y l)).
    rewrite (combinations_cons x l), (combinations_cons y l).
    repeat (rewrite fmap_app || rewrite fmap_cons || rewrite fmap_nil).
    rewrite <- !list_fmap_compose.
    rewrite (HG [y; x] [x; y]) by apply Permutation_swap.
    rewrite (list_fmap_ext (G ∘ (y ::.) ∘ (x ::.)) (G ∘ (x ::.) ∘ (y ::.))).
    2:{ intros _ s _. simpl. apply HG, Permutation_swap. }
    generalize (G ∘ (x ::.) ∘ (y ::.) <$> combinations l).
    generalize (G ∘ (x ::.) <$> combinations l).
    generalize (G ∘ (y ::.) <$> combinations l).
    generalize (G <$> combinations l).
    intros M1 M2 M3 M4. solve_Permutation.
  - rewrite (IH1 G HG). by apply IH2.
Qed.
(** ** The shortcut against the general recursion (claim C7) *)

(** The single path of a tree, if it is one. *)
Definition single_path (t : FPTree) : option (list NodeRef) :=
  match _getSinglePath (length (nodes t)) (nodes t) root [] with
  | JS.Ok o => o
  | _ => None
  end.

(** What [_fpGrowth] with the shortcut returns. *)
Fixpoint mine_shortcut (bound : nat) (t : FPTree) (ps : Z) (prefix : list N)
    : list Itemset :=
  match bound with
  | O => []
  | S bound' =>
      match single_path t with
      | Some p => subset_itemset (nodes t) prefix ps <$> combinations p
      | None =>
          flat_map
            (fun x =>
               let s := Z.min (support_of (supports t) x) ps in
               mkItemset (prefix ++ [x]) s ::
               (if root_is_leaf (cond_tree t x) then []
                else mine_shortcut bound' (cond_tree t x) s (prefix ++ [x])))
            (default [] (_headers t))
      end
  end.

Lemma getSinglePath_single_path t :
  built t -> getSinglePath t = JS.Ok (single_path t).
Proof.
  intros Hb. unfold single_path.
  destruct (getSinglePath_cases t Hb) as [(p & Hp & _)|[Hp _]];
    rewrite Hp; unfold getSinglePath in Hp; rewrite (built_isInit t Hb) in Hp;
    simpl in Hp; by rewrite Hp.
Qed.

Lemma Shortcut_fpGrowth_emits bound : ∀ d t ps prefix,
  built t -> depth_le (nodes t) d -> (d < bound)%nat ->
  emits (Shortcut._fpGrowth bound t ps prefix)
        (mine_shortcut bound t ps prefix) (mine_shortcut bound t ps prefix).
Proof.
  induction bound as [|b IH]; intros d t ps prefix Hb Hd Hlt; [lia|].
  destruct (built_headers t Hb) as (hs & Hhs).
  cbn [Shortcut._fpGrowth mine_shortcut].
  destruct (single_path t) as [p|] eqn:Esp.
  { pose proof (getSinglePath_single_path t Hb) as Hg. rewrite Esp in Hg.
    intros log. unfold mbind, emit_bind, lift. rewrite Hg.
    apply _handleSinglePath_emits.
    apply (single_path_from_valid (nodes t) root p);
      [by apply built_tree_inv|by apply getSinglePath_Some]. }
  intros log. unfold mbind at 1, emit_bind at 1, lift at 1.
  rewrite (getSinglePath_single_path t Hb), Esp. revert log.
  rewrite Hhs. cbn [default].
  match goal with |- ∀ log, reduceM ?f _ _ _ = _ =>
    destruct (emits_reduceM_grow f
      (fun acc x => acc ++
         (mkItemset (prefix ++ [x]) (Z.min (support_of (supports t) x) ps) ::
          (if root_is_leaf (cond_tree t x) then []
           else mine_shortcut b (cond_tree t x) (Z.min (support_of (supports t) x) ps)
                     (prefix ++ [x])))) hs) with (acc := @nil Itemset)
      as (new & Hg & He)
  end.
  - intros acc x _. eexists. split; [done|].
    destruct (root_is_leaf (cond_tree t x)) eqn:El.
    + eapply emits_eq.
      * eapply emits_bind; [apply emits_getFrequentItemset|].
        rewrite getConditionalFPTree_spec, El by done.
        eapply emits_bind; [apply emits_lift|]. apply emits_ret.
      * done.
      * done.
    + eapply emits_eq.
      * eapply emits_bind; [apply emits_getFrequentItemset|].
        rewrite getConditionalFPTree_spec, El by done.
        eapply emits_bind; [apply emits_lift|].
        eapply emits_bind; [|apply emits_ret].
        apply (IH (d - 1)%nat); [apply cond_tree_built|by apply cond_tree_depth|].
        destruct d; [|lia].
        pose proof (depth_zero_leaf (cond_tree t x) (cond_tree_built t x)
                      (cond_tree_depth t x 0 Hb Hd)). congruence.
      * by rewrite <- app_assoc.
      * simpl. by rewrite app_nil_r.
  - simpl in Hg. rewrite <- Hg in He.
    by rewrite fold_left_app_flat_map in He.
Qed.

Lemma Shortcut_exec_mine T self :
  ∃ t, fromTransactions T (new_FPTree (Miner._getDistinctItemsCount T)
                             (Miner.threshold (Miner._support self) T))
       = JS.Ok t /\
  Shortcut.exec T self =
    (Miner.mkFPGrowth (Miner.absolute_support (Miner._support self) T) T,
     (JS.Ok (mine_shortcut (length (nodes t)) t (Z.of_nat (length T)) []),
      mine_shortcut (length (nodes t)) t (Z.of_nat (length T)) [])).
Proof.
  destruct (fromTransactions_new_built T (Miner._getDistinctItemsCount T)
              (Miner.threshold (Miner._support self) T))
    as (t & Ht & Hb & _).
  exists t. split; [done|]. unfold Shortcut.exec. cbv zeta.
  fold (Miner.threshold (Miner._support self) T). f_equal.
  unfold mbind, emit_bind, lift. rewrite Ht.
  assert (Hs := proj1 (built_tree_inv t Hb)).
  rewrite (Shortcut_fpGrowth_emits (length (nodes t)) (length (nodes t) - 1) t);
    [done|done|by apply depth_le_nodes|].
  pose proof (root_valid t Hs). lia.
Qed.
(** *** A tree with a single inserted list is a chain *)

Definition item_of (h : Heap) (i : NodeRef) : N := default 0%N (h !! i ≫= item).

(** The heap after the items [l] were inserted with weight [w] into a new
    tree: node [S i] has item [l !! i], support [w], and the next node as only
    child. *)
Definition chain (w : Z) (l : list N) (h : Heap) : Prop :=
  length h = S (length l) /\
  ∀ i n, h !! i = Some n ->
    children n = (if decide (i = length l) then [] else [S i]) /\
    (i ≠ root -> item n = l !! (i - 1)%nat /\ support n = w).

Lemma chain_new w sup m : chain w [] (nodes (new_FPTree sup m)).
Proof.
  split; [done|]. intros [|i] n Hn; [|done].
  simpl in Hn. injection Hn as <-. by split.
Qed.

Lemma chain_step w l t it :
  chain w l (nodes t) ->
  chain w (l ++ [it]) (nodes (fst (_addItems_step w (t, length l) it))) /\
  snd (_addItems_step w (t, length l) it) = length (l ++ [it]).
Proof.
  intros [Hlen Hc].
  assert (Hcur : (length l < length (nodes t))%nat) by lia.
  assert (Hg : getChild (nodes t) (length l) it = None).
  { unfold getChild. destruct (nodes t !! length l) as [n|] eqn:Hn; [|done].
    destruct (Hc _ _ Hn) as [Hch _]. rewrite decide_True in Hch by done.
    by rewrite Hch. }
  rewrite (_addItems_step_created _ _ _ _ Hg). cbn [fst snd nodes].
  unfold chain. rewrite length_app. cbn [length]. split; [|lia].
  split; [rewrite heap_linked_length; lia|].
  intros i n Hn. rewrite heap_linked_lookup in Hn.
  assert (∃ n', heap_with_child (nodes t) (length l) it w !! i = Some n' /\
                children n' = children n /\ item n' = item n /\
                support n' = support n) as (n' & Hn' & <- & <- & <-).
  { destruct (decide _); [|by eauto].
    destruct (heap_with_child (nodes t) (length l) it w !! i) as [n'|]; [|done].
    injection Hn as <-. by exists n'. }
  clear Hn. rewrite heap_with_child_lookup in Hn' by done.
  destruct (decide (i = length (nodes t))) as [->|Hi].
  - injection Hn' as <-. cbn [children item support set_support new_FPNode].
    rewrite decide_True by lia. split; [done|]. intros _. split; [|done].
    rewrite Hlen. cbn [Nat.sub]. rewrite Nat.sub_0_r.
    by rewrite lookup_app_r, Nat.sub_diag.
  - destruct (decide (i = length l)) as [->|Hi'].
    + destruct (nodes t !! length l) as [n0|] eqn:Hn0; [|done].
      injection Hn' as <-. destruct (Hc _ _ Hn0) as [Hch Hit].
      rewrite decide_True in Hch by done. cbn [children item support push_child].
      rewrite Hch, decide_False by lia. rewrite Hlen. split; [done|].
      intros Hr. destruct (Hit Hr) as [-> ->]. split; [|done].
      rewrite lookup_app_l; [done|]. unfold root in Hr. lia.
    + destruct (Hc _ _ Hn') as [Hch Hit]. rewrite decide_False in Hch by done.
      assert (i < length (nodes t))%nat by by eapply lookup_lt_Some.
      rewrite decide_False by lia. split; [done|].
      intros Hr. destruct (Hit Hr) as [-> ->]. split; [|done].
      rewrite lookup_app_l; [done|]. unfold root in Hr. lia.
Qed.

Lemma chain_loop w items : ∀ l t,
  chain w l (nodes t) ->
  chain w (l ++ items) (nodes (fst (fold_left (_addItems_step w) items (t, length l)))).
Proof.
  induction items as [|it items IH]; intros l t Hc; simpl.
  - by rewrite app_nil_r.
  - destruct (chain_step w l t it Hc) as [Hc' Hcur].
    destruct (_addItems_step w (t, length l) it) as [t' cur'] eqn:E.
    simpl in Hc', Hcur. subst cur'.
    specialize (IH (l ++ [it]) t' Hc'). by rewrite <- app_assoc in IH.
Qed.

Lemma _addItems_chain l w sup m : chain w l (nodes (_addItems l w (new_FPTree sup m))).
Proof. apply (chain_loop w l [] (new_FPTree sup m)), chain_new. Qed.

Lemma chain_single_path w l h :
  chain w l h ->
  ∀ j, (j <= length l)%nat ->
    single_path_from h (length l - j) (seq (S (length l - j)) j).
Proof.
  intros [Hlen Hc]. induction j as [|j IH]; intros Hj.
  - rewrite Nat.sub_0_r. simpl.
    destruct (lookup_lt_is_Some_2 h (length l)) as [n Hn]; [lia|].
    destruct (Hc _ _ Hn) as [Hch _]. rewrite decide_True in Hch by done.
    by eapply single_path_leaf.
  - destruct (lookup_lt_is_Some_2 h (length l - S j)) as [n Hn]; [lia|].
    destruct (Hc _ _ Hn) as [Hch _]. rewrite decide_False in Hch by lia.
    cbn [seq]. eapply single_path_step; [done..|].
    replace (S (length l - S j)) with (length l - j)%nat by lia. apply IH. lia.
Qed.

Lemma chain_items w l h :
  chain w l h ->
  item_of h <$> seq 1 (length l) = l /\
  ∀ i, i ∈ seq 1 (length l) -> support_at h i = w.
Proof.
  intros [Hlen Hc]. split.
  - apply list_eq. intros k. rewrite list_lookup_fmap.
    destruct (decide (k < length l)%nat) as [Hk|Hk].
    + rewrite lookup_seq_lt by done. simpl.
      destruct (lookup_lt_is_Some_2 h (S k)) as [n Hn]; [lia|].
      destruct (Hc _ _ Hn) as [_ Hit]. destruct Hit as [Hit _]; [done|].
      unfold item_of. rewrite Hn. simpl. rewrite Hit. simpl. rewrite Nat.sub_0_r.
      by destruct (lookup_lt_is_Some_2 l k Hk) as [x ->].
    + rewrite lookup_seq_ge by lia. simpl. symmetry. apply lookup_ge_None. lia.
  - intros i [Hi1 Hi2]%elem_of_seq.
    destruct (lookup_lt_is_Some_2 h i) as [n Hn]; [lia|].
    destruct (Hc _ _ Hn) as [_ Hit]. destruct Hit as [_ Hw]; [unfold root; lia|].
    unfold support_at. by rewrite Hn.
Qed.

Lemma single_path_from_unique h a p :
  single_path_from h a p -> ∀ p', single_path_from h a p' -> p = p'.
Proof.
  induction 1 as [a n Hn Hch|a n c p Hn Hch Hp IH]; intros p' Hp'.
  - inversion Hp'; [done|congruence].
  - inversion Hp' as [|a' n' c' p'' Hn' Hch' Hp'']; [congruence|]. subst.
    assert (c' = c) as -> by congruence. f_equal. by apply IH.
Qed.
(** *** Trees that are a single path *)

Lemma single_path_route h a p :
  heap_shape h -> single_path_from h a p ->
  ∀ q c rest, p = q ++ c :: rest ->
    route h c = route h a ++ (item_of h <$> (q ++ [c])).
Proof.
  intros Hs. induction 1 as [a n Hn Hch|a n c0 p Hn Hch Hp IH]; intros q c rest E.
  - by destruct q.
  - assert (c0 ∈ children n) as Hc0 by (rewrite Hch; left).
    destruct (shape_child h Hs a n c0 Hn Hc0) as (cn & Hcn & Hpar).
    assert (c0 ≠ root) as Hr.
    { destruct (child_gt h a n c0 Hs Hn Hc0). unfold root. lia. }
    destruct (shape_parent h Hs c0 cn Hcn Hr) as (p' & pn & it & Hp' & Hit & _).
    assert (E0 : route h c0 = route h a ++ [item_of h c0]).
    { rewrite (route_unfold h c0 cn a it) by done.
      unfold item_of. rewrite Hcn. simpl. by rewrite Hit. }
    destruct q as [|c1 q]; simpl in E; injection E as -> E.
    + done.
    + rewrite (IH q c rest E), E0, <- app_assoc. done.
Qed.

Lemma single_path_ancestors h p q c rest :
  heap_shape h -> single_path_from h root p -> p = q ++ c :: rest ->
  route h c = item_of h <$> (q ++ [c]) /\ ancestors h c = item_of h <$> q.
Proof.
  intros Hs Hp E.
  assert (Hr : route h c = item_of h <$> (q ++ [c])).
  { rewrite (single_path_route h root p Hs Hp q c rest E). by rewrite route_root. }
  split; [done|].
  destruct (single_path_from_valid h root p Hs Hp) as (_ & _ & Hv).
  destruct (Hv c) as (n & it & Hn & Hit); [subst; apply elem_of_app; right; left|].
  rewrite (route_ancestors h c n it Hs Hn Hit), fmap_app in Hr.
  by apply app_inj_tail in Hr as [? _].
Qed.

Lemma single_path_items_NoDup t D p :
  represents t D -> single_path_from (nodes t) root p ->
  NoDup (item_of (nodes t) <$> p).
Proof.
  intros Hr Hp. assert (Hs := represents_shape t D Hr).
  destruct (decide (p = [])) as [->|Hne]; [constructor|].
  destruct (exists_last Hne) as (q & c & ->).
  destruct (single_path_ancestors (nodes t) (q ++ [c]) q c [] Hs Hp eq_refl) as [E _].
  rewrite <- E.
  destruct (single_path_from_valid (nodes t) root _ Hs Hp) as (_ & _ & Hv).
  destruct (Hv c) as (n & it & Hn & Hit); [apply elem_of_app; right; left|].
  eapply StronglySorted_before_NoDup. by eapply (represents_sorted t D Hr).
Qed.

Lemma item_of_Some h i n x : h !! i = Some n -> item n = Some x -> item_of h i = x.
Proof. intros Hn Hit. unfold item_of. rewrite Hn. simpl. by rewrite Hit. Qed.

Lemma NoDup_fmap_eq {A B} (f : A -> B) l a b :
  NoDup (f <$> l) -> a ∈ l -> b ∈ l -> f a = f b -> a = b.
Proof.
  induction l as [|x l IH]; intros Hnd Ha Hb E; [by apply elem_of_nil in Ha|].
  rewrite fmap_cons in Hnd. apply NoDup_cons in Hnd as [Hx Hnd].
  apply elem_of_cons in Ha as [->|Ha]; apply elem_of_cons in Hb as [->|Hb].
  - done.
  - exfalso. apply Hx. rewrite E. by apply list_elem_of_fmap_2.
  - exfalso. apply Hx. rewrite <- E. by apply list_elem_of_fmap_2.
  - by apply IH.
Qed.

Lemma NoDup_singleton_eq {A} (l : list A) c :
  NoDup l -> (∀ i, i ∈ l <-> i = c) -> l = [c].
Proof.
  intros Hnd H. destruct l as [|a l].
  - exfalso. by apply (elem_of_nil c), H.
  - assert (a = c) as -> by (apply H; left).
    destruct l as [|b l]; [done|].
    assert (b = c) as -> by (apply H; right; left).
    apply NoDup_cons in Hnd as [Hc _]. exfalso. apply Hc. left.
Qed.

(** In a tree that is a single path every item has one node. *)
Lemma single_path_occurrences t D p c n x :
  represents t D -> single_path_from (nodes t) root p ->
  c ∈ p -> nodes t !! c = Some n -> item n = Some x ->
  occurrences (nodes t) x = [c].
Proof.
  intros Hr Hp Hc Hn Hit. assert (Hs := represents_shape t D Hr).
  apply NoDup_singleton_eq; [apply occurrences_NoDup|].
  intros i. rewrite occurrences_elem. split.
  - intros (ni & Hni & Hiti).
    assert (i ∈ root :: p) as Hi.
    { apply (single_path_from_all (nodes t)); [done..|]. by eapply lookup_lt_Some. }
    apply elem_of_cons in Hi as [->|Hi].
    + destruct (shape_root (nodes t) Hs) as (r & Hroot & Hnone & _). congruence.
    + apply (NoDup_fmap_eq (item_of (nodes t)) p); [by eapply single_path_items_NoDup|done..|].
      by rewrite (item_of_Some _ _ _ _ Hni Hiti), (item_of_Some _ _ _ _ Hn Hit).
  - intros ->. eauto.
Qed.

Lemma built_headers_NoDup t hs : built t -> _headers t = Some hs -> NoDup hs.
Proof.
  intros Hb Hh. destruct (built_inv t Hb) as (t0 & Huc & ->).
  simpl in Hh. injection Hh as <-.
  apply headers_NoDup. by apply under_construction_inv.
Qed.

(** The headers of a tree that is a single path are the items of the path. *)
Lemma single_path_headers t D p hs :
  built t -> represents t D -> single_path_from (nodes t) root p ->
  _headers t = Some hs -> hs ≡ₚ item_of (nodes t) <$> p.
Proof.
  intros Hb Hr Hp Hh. assert (Hs := represents_shape t D Hr).
  destruct (single_path_from_valid (nodes t) root _ Hs Hp) as (_ & _ & Hv).
  apply NoDup_Permutation.
  - by eapply built_headers_NoDup.
  - by eapply single_path_items_NoDup.
  - intros x. rewrite (built_headers_elem t hs x Hb Hh), list_elem_of_fmap. split.
    + intros (i & n & Hn & Hit).
      assert (i ∈ root :: p) as Hi.
      { apply (single_path_from_all (nodes t)); [done..|]. by eapply lookup_lt_Some. }
      apply elem_of_cons in Hi as [->|Hi].
      * destruct (shape_root (nodes t) Hs) as (r & Hroot & Hnone & _). congruence.
      * exists i. split; [|done]. symmetry. by eapply item_of_Some.
    + intros (i & -> & Hi). destruct (Hv i Hi) as (n & it & Hn & Hit).
      exists i, n. split; [done|]. by rewrite (item_of_Some _ _ _ _ Hn Hit).
Qed.
(** The weight of an item of the tree is the support of its nodes. *)
Lemma represents_item_weight t D x :
  represents t D -> (∃ i n, nodes t !! i = Some n /\ item n = Some x) ->
  weight_of D [x] = mass (nodes t) x (fun _ => true).
Proof.
  intros Hr (i & n & Hn & Hit).
  assert (Hs := represents_shape t D Hr).
  rewrite (represents_mass t D) by done.
  unfold weight_of. apply Zsum_ext. intros pp Hpp. cbv zeta.
  assert (Hxf : is_frequent (supports t) (_support t) x = true).
  { eapply node_item_frequent; eauto. by eapply represents_frequent. }
  rewrite contains_singleton.
  destruct (decide (x ∈ prune_and_sort _ _ _)) as [Hx|Hx].
  - apply prune_and_sort_elem in Hx as [_ Hx]. by rewrite bool_decide_true.
  - rewrite bool_decide_false; [done|]. intros Hx'. apply Hx.
    by apply prune_and_sort_elem.
Qed.

Lemma single_path_support t D p c n x :
  represents t D -> single_path_from (nodes t) root p ->
  c ∈ p -> nodes t !! c = Some n -> item n = Some x ->
  support_of (supports t) x = support n.
Proof.
  intros Hr Hp Hc Hn Hit.
  destruct Hr as (HD & Hnodes & Htab). rewrite Htab.
  rewrite (represents_item_weight t D x); [|done|by eauto].
  unfold mass.
  rewrite (single_path_occurrences t D p c n x); [|done..].
  rewrite fmap_cons, fmap_nil, Zsum_cons. unfold support_at. rewrite Hn.
  unfold Zsum. simpl. lia.
Qed.

Lemma single_path_frequent t D p c n x :
  represents t D -> single_path_from (nodes t) root p ->
  c ∈ p -> nodes t !! c = Some n -> item n = Some x ->
  _support t <= support n.
Proof.
  intros Hr Hp Hc Hn Hit.
  rewrite <- (single_path_support t D p c n x) by done.
  apply is_frequent_support_of.
  eapply node_item_frequent; eauto using represents_shape, represents_frequent.
Qed.

(** The conditional database of a node of the path: the items above it, with
    the support of the node. *)
Lemma single_path_cond_paths t D p q c rest n x :
  represents t D -> single_path_from (nodes t) root p -> p = q ++ c :: rest ->
  nodes t !! c = Some n -> item n = Some x ->
  cond_paths t x =
    (if decide (q = []) then []
     else [mkPrefixPath (rev (item_of (nodes t) <$> q)) (support n)]) /\
  cond_supports t x =
    fold_left (fun s it => count_item it (support n) s)
              (rev (item_of (nodes t) <$> q)) [].
Proof.
  intros Hr Hp E Hn Hit. assert (Hs := represents_shape t D Hr).
  assert (Hc : c ∈ p) by (subst; apply elem_of_app; right; left).
  unfold cond_paths, cond_supports.
  rewrite (single_path_occurrences t D p c n x) by done.
  destruct (single_path_ancestors (nodes t) p q c rest Hs Hp E) as [_ Ha].
  cbn [omap fold_left list_omap]. unfold prefix_path_of. rewrite Ha.
  unfold support_at. rewrite Hn. split; [|done].
  destruct q as [|c0 q]; [done|].
  rewrite decide_False by done.
  destruct (rev (item_of (nodes t) <$> c0 :: q)) eqn:Er; [|done].
  apply (f_equal length) in Er. rewrite length_rev, length_fmap in Er. done.
Qed.

(** Supports do not grow along the path. *)
Lemma single_path_support_le t D p q c rest c' :
  represents t D -> single_path_from (nodes t) root p -> p = q ++ c :: rest ->
  c' ∈ q -> support_at (nodes t) c <= support_at (nodes t) c'.
Proof.
  intros Hr Hp E Hc'. assert (Hs := represents_shape t D Hr).
  destruct (single_path_from_valid (nodes t) root _ Hs Hp) as (_ & _ & Hv).
  assert (Hc : c ∈ p) by (subst; apply elem_of_app; right; left).
  assert (Hc'p : c' ∈ p) by (subst; apply elem_of_app; by left).
  destruct (Hv c Hc) as (n & x & Hn & Hit).
  destruct (Hv c' Hc'p) as (n' & x' & Hn' & Hit').
  destruct (single_path_ancestors (nodes t) p q c rest Hs Hp E) as [_ Ha].
  destruct (single_path_cond_paths t D p q c rest n x Hr Hp E Hn Hit) as [Hcp _].
  assert (Hx' : x' ∈ item_of (nodes t) <$> q).
  { apply list_elem_of_fmap. exists c'. split; [|done]. symmetry. by eapply item_of_Some. }
  assert (E1 : weight_of (cond_paths t x) [x'] = support n).
  { rewrite Hcp. rewrite decide_False by (intros ->; by apply elem_of_nil in Hc').
    unfold weight_of. rewrite fmap_cons, fmap_nil, Zsum_cons. cbn [path pp_support].
    rewrite contains_singleton, bool_decide_true by by apply elem_of_rev.
    unfold Zsum. simpl. lia. }
  assert (E2 : weight_of (cond_paths t x) [x'] = weight_of D (x :: [x'])).
  { apply cond_paths_weight_eq; [done|done|by eauto|].
    intros j ->%list_elem_of_singleton. exists c, n. by rewrite Ha. }
  assert (E3 : weight_of D (x :: [x']) = weight_of D (x' :: [x])).
  { unfold weight_of. apply Zsum_ext. intros pp _.
    assert (contains [x; x'] (path pp) = contains [x'; x] (path pp)) as ->; [|done].
    unfold contains. simpl. rewrite !andb_true_r. apply andb_comm. }
  assert (E4 : weight_of D [x'] = support n').
  { rewrite <- (proj2 (proj2 Hr)). by apply (single_path_support t D p c' n' x'). }
  assert (E5 := weight_of_cons_le D x' [x] (proj1 Hr)).
  unfold support_at. rewrite Hn, Hn'. lia.
Qed.
Lemma count_item_fold_is_Some w l j : ∀ s,
  j ∈ l \/ is_Some (JS.get (JS.JSON_stringify j) s) ->
  is_Some (JS.get (JS.JSON_stringify j) (fold_left (fun s it => count_item it w s) l s)).
Proof.
  induction l as [|it l IH]; intros s H; simpl.
  - destruct H as [H|H]; [by apply elem_of_nil in H|done].
  - apply IH. unfold count_item. rewrite get_set.
    destruct (decide (JS.JSON_stringify it = JS.JSON_stringify j)) as [E|Hne]; [by right|].
    destruct H as [[->|H]%elem_of_cons|H]; [done|by left|by right].
Qed.

(** The conditional tree of a node of the path is a chain of the items above
    the node, each with the support of the node. *)
Lemma single_path_cond_tree t D p q c rest n x :
  represents t D -> single_path_from (nodes t) root p -> p = q ++ c :: rest ->
  nodes t !! c = Some n -> item n = Some x ->
  ∃ l, l ≡ₚ item_of (nodes t) <$> q /\ chain (support n) l (nodes (cond_tree t x)).
Proof.
  intros Hr Hp E Hn Hit. assert (Hs := represents_shape t D Hr).
  assert (Hc : c ∈ p) by (subst; apply elem_of_app; right; left).
  destruct (cond_tree_fields t x) as (_ & _ & ->).
  destruct (single_path_cond_paths t D p q c rest n x Hr Hp E Hn Hit) as [-> ->].
  set (anc := rev (item_of (nodes t) <$> q)).
  set (cs := fold_left (fun s it => count_item it (support n) s) anc []).
  destruct (decide (q = [])) as [->|Hq].
  - exists []. split; [done|]. apply chain_new.
  - exists (prune_and_sort cs (_support t) anc). split.
    + assert (Hnd : NoDup anc).
      { apply NoDup_rev. eapply (NoDup_fmap_2_strong (item_of (nodes t))).
        - intros a b Ha Hb. apply (NoDup_fmap_eq (item_of (nodes t)) p).
          + by eapply single_path_items_NoDup.
          + subst. apply elem_of_app. by left.
          + subst. apply elem_of_app. by left.
        - destruct (single_path_from_valid (nodes t) root _ Hs Hp) as (_ & Hndp & _).
          subst p. by apply NoDup_app in Hndp as [? _]. }
      etrans; [|symmetry; apply Permutation_rev]. fold anc.
      apply NoDup_Permutation; [by apply prune_and_sort_NoDup|done|].
      intros j. rewrite prune_and_sort_elem. split; [by intros [_ ?]|].
      intros Hj. split; [|done].
      assert (Hget : is_Some (JS.get (JS.JSON_stringify j) cs)).
      { apply count_item_fold_is_Some. by left. }
      destruct Hget as [v Hv].
      assert (Hsup := count_item_fold (support n) anc j []).
      fold cs in Hsup. unfold support_of in Hsup. rewrite Hv in Hsup. simpl in Hsup.
      rewrite (times_in_NoDup j anc Hnd), decide_True in Hsup by done.
      unfold is_frequent. rewrite Hv. apply Z.leb_le.
      assert (_support t <= support n) by by eapply single_path_frequent.
      lia.
    + cbn [insert_prefixPaths fold_left path pp_support supports _support new_FPTree].
      apply _addItems_chain.
Qed.

Lemma chain_root_is_leaf w l t :
  chain w l (nodes t) -> root_is_leaf t = bool_decide (l = []).
Proof.
  intros [Hlen Hc]. unfold root_is_leaf.
  destruct (nodes t !! root) as [r|] eqn:Hr.
  - destruct (Hc _ _ Hr) as [-> _]. unfold root. destruct l; [done|].
    by rewrite decide_False.
  - apply lookup_ge_None in Hr. unfold root in Hr. lia.
Qed.
Lemma items_at_item_of h S :
  (∀ c, c ∈ S -> ∃ n it, h !! c = Some n /\ item n = Some it) ->
  items_at h S = item_of h <$> S.
Proof.
  induction S as [|c S IH]; intros HS; [done|].
  destruct (HS c) as (n & it & Hn & Hit); [left|].
  unfold items_at in *. rewrite fmap_cons. cbn [omap list_omap].
  rewrite (item_of_Some h c n it Hn Hit), Hn. simpl. rewrite Hit.
  f_equal. apply IH. intros c' Hc'. apply HS. by right.
Qed.

Lemma fold_min_ge l : ∀ a w,
  (∀ z, z ∈ l -> w <= z) -> Z.min (fold_left Z.min l a) w = Z.min a w.
Proof.
  induction l as [|y l IH]; intros a w H; simpl; [done|].
  rewrite IH by (intros z Hz; apply H; by right).
  assert (w <= y) by (apply H; left). lia.
Qed.

Lemma fold_min_le l : ∀ a, (∀ z, z ∈ l -> a <= z) -> fold_left Z.min l a = a.
Proof.
  induction l as [|y l IH]; intros a H; simpl; [done|].
  assert (a <= y) by (apply H; left).
  rewrite Z.min_l by done. apply IH. intros z Hz. apply H. by right.
Qed.

Lemma as_set_swap prefix x J s :
  as_set (mkItemset ((prefix ++ [x]) ++ J) s) = as_set (mkItemset (prefix ++ J ++ [x]) s).
Proof.
  unfold as_set. cbn [items is_support]. f_equal.
  apply canonical_Permutation. rewrite <- app_assoc.
  apply Permutation_app_head, Permutation_app_comm.
Qed.

(** What the general recursion finds for one node of a path: the itemsets of
    the node with any nodes above it. *)
Lemma mine_single_path_node b t D ps prefix p q c rest n x :
  (∀ t D ps prefix p,
      built t -> represents t D -> single_path_from (nodes t) root p ->
      (length p <= b)%nat ->
      as_set <$> mine b t ps prefix ≡ₚ
      as_set <$> (subset_itemset (nodes t) prefix ps <$> combinations p)) ->
  built t -> represents t D -> single_path_from (nodes t) root p ->
  (length p <= S b)%nat -> p = q ++ c :: rest ->
  nodes t !! c = Some n -> item n = Some x ->
  as_set <$>
    (mkItemset (prefix ++ [x]) (Z.min (support_of (supports t) x) ps) ::
     (if root_is_leaf (cond_tree t x) then []
      else mine b (cond_tree t x) (Z.min (support_of (supports t) x) ps) (prefix ++ [x])))
  ≡ₚ as_set <$> (subset_itemset (nodes t) prefix ps <$>
                   (((fun s => s ++ [c]) <$> combinations q) ++ [[c]])).
Proof.
  intros IH Hb Hr Hp Hlen E Hn Hit.
  assert (Hs := represents_shape t D Hr).
  assert (Hc : c ∈ p) by (subst; apply elem_of_app; right; left).
  destruct (single_path_from_valid (nodes t) root _ Hs Hp) as (_ & _ & Hv).
  rewrite (single_path_support t D p c n x) by done.
  set (w := support n). set (s' := Z.min w ps).
  assert (Hw : support_at (nodes t) c = w) by (unfold support_at; by rewrite Hn).
  destruct (single_path_cond_tree t D p q c rest n x Hr Hp E Hn Hit) as (l & Hl & Hch).
  fold w in Hch.
  set (G := fun J => as_set (mkItemset (prefix ++ J ++ [x]) s')).
  (* the side of the shortcut *)
  assert (R : as_set <$> (subset_itemset (nodes t) prefix ps <$>
                 (((fun s => s ++ [c]) <$> combinations q) ++ [[c]])) =
              (G <$> combinations (item_of (nodes t) <$> q)) ++ [G []]).
  { rewrite !fmap_app. f_equal.
    - rewrite combinations_fmap, <- !list_fmap_compose.
      apply Forall_fmap_ext_1, Forall_forall. intros S HS. cbn [compose].
      apply combinations_elem in HS as [_ HS]. unfold G, subset_itemset. do 2 f_equal.
      + rewrite (items_at_snoc _ _ _ n x) by done. f_equal.
        rewrite items_at_item_of; [done|].
        intros c' Hc'. apply Hv. subst p. apply elem_of_app. left.
        by eapply elem_of_sublist.
      + rewrite fmap_app, fold_left_app, fmap_cons, fmap_nil. cbn [fold_left].
        rewrite Hw, fold_min_ge; [unfold s'; lia|].
        intros z (c' & -> & Hc')%list_elem_of_fmap. rewrite <- Hw.
        apply (single_path_support_le t D p q c rest c' Hr Hp E).
        by eapply elem_of_sublist.
    - cbn [fmap list_fmap]. unfold G, subset_itemset. do 3 f_equal.
      + rewrite (items_at_snoc _ [] c n x) by done. done.
      + rewrite fmap_cons, fmap_nil. cbn [fold_left]. rewrite Hw. unfold s'. lia. }
  rewrite R. clear R.
  (* the side of the recursion *)
  assert (L : as_set <$>
                (if root_is_leaf (cond_tree t x) then []
                 else mine b (cond_tree t x) s' (prefix ++ [x]))
              ≡ₚ G <$> combinations l).
  { rewrite (chain_root_is_leaf w l _ Hch).
    destruct l as [|j l]; [done|]. rewrite bool_decide_false by done.
    set (l' := j :: l) in *.
    assert (Hp' := chain_single_path w l' _ Hch (length l') (le_n _)).
    rewrite Nat.sub_diag in Hp'.
    destruct (chain_items w l' _ Hch) as [Hitems Hsup].
    assert (Hs' := represents_shape _ _ (cond_tree_represents t D x Hr)).
    destruct (single_path_from_valid _ root _ Hs' Hp') as (_ & _ & Hv').
    rewrite (IH (cond_tree t x) (cond_paths t x) s' (prefix ++ [x]) (seq 1 (length l'))).
    - rewrite <- Hitems at 2. rewrite combinations_fmap, <- !list_fmap_compose.
      apply Permutation_refl', Forall_fmap_ext_1, Forall_forall. intros S HS.
      cbn [compose]. apply combinations_elem in HS as [_ HS].
      unfold G. rewrite <- as_set_swap. unfold subset_itemset. do 2 f_equal.
      + f_equal. apply items_at_item_of. intros c' Hc'. apply Hv'.
        by eapply elem_of_sublist.
      + apply fold_min_le. intros z (c' & -> & Hc')%list_elem_of_fmap.
        rewrite Hsup by by eapply elem_of_sublist. unfold s'. lia.
    - apply cond_tree_built.
    - by eapply cond_tree_represents.
    - done.
    - rewrite length_seq. apply Permutation_length in Hl.
      rewrite Hl, length_fmap. subst p. rewrite length_app in Hlen. simpl in Hlen. lia. }
  rewrite fmap_cons, L.
  rewrite (combinations_Permutation l (item_of (nodes t) <$> q) Hl G).
  - replace (as_set (mkItemset (prefix ++ [x]) s')) with (G []) by done.
    by rewrite Permutation_cons_append.
  - intros S S' HS. unfold G, as_set. cbn [items is_support]. f_equal.
    apply canonical_Permutation. by rewrite HS.
Qed.
(** On a tree that is a single path the general recursion finds the itemsets
    of the shortcut. *)
Lemma mine_single_path b : ∀ t D ps prefix p,
  built t -> represents t D -> single_path_from (nodes t) root p ->
  (length p <= b)%nat ->
  as_set <$> mine b t ps prefix ≡ₚ
  as_set <$> (subset_itemset (nodes t) prefix ps <$> combinations p).
Proof.
  induction b as [|b IH]; intros t D ps prefix p Hb Hr Hp Hlen.
  - destruct p; [done|simpl in Hlen; lia].
  - assert (Hs := represents_shape t D Hr).
    destruct (built_headers t Hb) as [hs Hh].
    destruct (single_path_from_valid (nodes t) root _ Hs Hp) as (_ & _ & Hv).
    cbn [mine]. rewrite Hh. cbn [default].
    set (F := fun x => _ :: _).
    etrans; [apply fmap_Permutation, (Permutation_flat_map F),
               (single_path_headers t D p hs Hb Hr Hp Hh)|].
    assert (Hq : ∀ q rest, p = q ++ rest ->
              as_set <$> flat_map F (item_of (nodes t) <$> q) ≡ₚ
              as_set <$> (subset_itemset (nodes t) prefix ps <$> combinations q)).
    { induction q as [|c q IHq] using rev_ind; intros rest E; [done|].
      rewrite <- app_assoc in E. cbn [app] in E.
      assert (Hc : c ∈ p) by (subst; apply elem_of_app; right; left).
      destruct (Hv c Hc) as (n & x & Hn & Hit).
      rewrite fmap_app, flat_map_app, fmap_app, combinations_snoc.
      unfold add_node. rewrite (fmap_app _ (combinations q)), (fmap_app as_set).
      apply Permutation_app; [by apply (IHq (c :: rest))|].
      rewrite fmap_cons, fmap_nil. cbn [flat_map]. rewrite app_nil_r.
      rewrite (item_of_Some _ _ _ _ Hn Hit). unfold F.
      by apply (mine_single_path_node b t D ps prefix p q c rest n x). }
    apply (Hq p []). by rewrite app_nil_r.
Qed.

Lemma single_path_length h p d :
  heap_shape h -> single_path_from h root p -> depth_le h d -> (length p <= d)%nat.
Proof.
  intros Hs Hp Hd.
  destruct (decide (p = [])) as [->|Hne]; [simpl; lia|].
  destruct (exists_last Hne) as (q & c & ->).
  destruct (single_path_ancestors h (q ++ [c]) q c [] Hs Hp eq_refl) as [E _].
  destruct (single_path_from_valid h root _ Hs Hp) as (_ & _ & Hv).
  destruct (Hv c) as (n & it & Hn & Hit); [apply elem_of_app; right; left|].
  specialize (Hd c n Hn). simpl in Hd. by rewrite E, length_fmap in Hd.
Qed.

Lemma flat_map_as_set {A} (F G : A -> list Itemset) l :
  (∀ x, x ∈ l -> as_set <$> F x ≡ₚ as_set <$> G x) ->
  as_set <$> flat_map F l ≡ₚ as_set <$> flat_map G l.
Proof.
  induction l as [|x l IH]; intros H; [done|].
  cbn [flat_map]. rewrite !fmap_app. apply Permutation_app.
  - apply H. left.
  - apply IH. intros y Hy. apply H. by right.
Qed.

(** The recursion with the shortcut and the general recursion find the same
    itemsets with the same supports. *)
Lemma mine_shortcut_agrees b : ∀ d t D ps prefix,
  built t -> represents t D -> depth_le (nodes t) d -> (d < b)%nat ->
  as_set <$> mine_shortcut b t ps prefix ≡ₚ as_set <$> mine b t ps prefix.
Proof.
  induction b as [|b IH]; intros d t D ps prefix Hb Hr Hd Hlt; [lia|].
  assert (Hs := represents_shape t D Hr).
  cbn [mine_shortcut]. destruct (single_path t) as [p|] eqn:Esp.
  - assert (Hp : single_path_from (nodes t) root p).
    { apply (getSinglePath_Some t p Hb). by rewrite getSinglePath_single_path, Esp. }
    symmetry. apply (mine_single_path (S b) t D ps prefix p Hb Hr Hp).
    pose proof (single_path_length _ p d Hs Hp Hd). lia.
  - cbn [mine]. apply flat_map_as_set. intros x _.
    rewrite !fmap_cons. apply Permutation_skip.
    destruct (root_is_leaf (cond_tree t x)) eqn:El; [done|].
    apply (IH (d - 1)%nat _ (cond_paths t x)).
    + apply cond_tree_built.
    + by eapply cond_tree_represents.
    + by apply cond_tree_depth.
    + destruct (decide (d - 1 = 0)%nat) as [E0|]; [|lia].
      assert (Hleaf : root_is_leaf (cond_tree t x) = true).
      { apply depth_zero_leaf; [apply cond_tree_built|].
        rewrite <- E0. by apply cond_tree_depth. }
      congruence.
Qed.
(** The two recursions list the items of an itemset in different orders:
    the general one in the order of its calls, the shortcut along the path. *)
Lemma shortcut_lists_items_along_the_path :
  let T := [[1; 2]; [1; 2]]%N in
  fst (snd (General.exec T (Miner.new_FPGrowth Number_0_5))) =
    JS.Ok [mkItemset [1] 2; mkItemset [1; 2] 2; mkItemset [2] 2]%N /\
  fst (snd (Shortcut.exec T (Miner.new_FPGrowth Number_0_5))) =
    JS.Ok [mkItemset [2] 2; mkItemset [2; 1] 2; mkItemset [1] 2]%N.
Proof. vm_compute. done. Qed.

(** [exec] leaves the absolute threshold in [_support]; a second [exec] on
    the same object reads it as a relative one. *)
Lemma exec_again_on_the_same_object :
  let T := [[1]; [1]; [2]]%N in
  let first := General.exec T (Miner.new_FPGrowth Number_0_5) in
  fst (snd first) = JS.Ok [mkItemset [1]%N 2] /\
  Miner._support (fst first) = Number_of_Z 2 /\
  fst (snd (General.exec T (fst first))) = JS.Ok [].
Proof. vm_compute. done. Qed.

(** C7, as the code has it: [exec] reads of the object it runs on only the
    threshold, and when no transaction repeats an item, the [exec] with the
    single-path shortcut and the [exec] with the general recursion alone,
    run on new objects with the same threshold, return and emit the same
    itemsets with the same supports, each as many times, itemsets taken as
    sets of items. *)
Theorem shortcut_agrees_with_general (r : Number) (T : list (list N)) :
  Forall NoDup T ->
  (∀ T0, General.exec T (Miner.mkFPGrowth r T0) = General.exec T (Miner.new_FPGrowth r)) /\
  (∀ T0, Shortcut.exec T (Miner.mkFPGrowth r T0) = Shortcut.exec T (Miner.new_FPGrowth r)) /\
  ∃ l1 l2,
    General.exec T (Miner.new_FPGrowth r) =
      (Miner.mkFPGrowth (Miner.absolute_support r T) T, (JS.Ok l1, l1)) /\
    Shortcut.exec T (Miner.new_FPGrowth r) =
      (Miner.mkFPGrowth (Miner.absolute_support r T) T, (JS.Ok l2, l2)) /\
    as_set <$> l2 ≡ₚ as_set <$> l1.
Proof.
  intros HT. split_and!; [done|done|].
  destruct (General_exec_mine T (Miner.new_FPGrowth r)) as (t & Ht & ->).
  destruct (Shortcut_exec_mine T (Miner.new_FPGrowth r)) as (t' & Ht' & ->).
  simpl in *. rewrite Ht in Ht'. injection Ht' as <-.
  do 2 eexists. split_and!; [done|done|].
  destruct (transactions_represents T _ t HT Ht) as [Hb (D & Hr & _)].
  assert (Hs := represents_shape t D Hr).
  apply (mine_shortcut_agrees _ (length (nodes t) - 1) t D); [done|done| |].
  - by apply depth_le_nodes.
  - pose proof (root_valid t Hs). lia.
Qed.

(** With a transaction that repeats an item the two disagree: the shortcut
    returns [{1}] twice, the general recursion once. *)
Lemma shortcut_disagrees_with_duplicates :
  let T := [[1; 1]]%N in
  let general := [mkItemset [1] 1; mkItemset [1; 1] 1]%N in
  let shortcut := [mkItemset [1] 1; mkItemset [1; 1] 1; mkItemset [1] 1]%N in
  snd (General.exec T (Miner.new_FPGrowth Number_0_5)) = (JS.Ok general, general) /\
  snd (Shortcut.exec T (Miner.new_FPGrowth Number_0_5)) = (JS.Ok shortcut, shortcut) /\
  ¬ (as_set <$> shortcut ≡ₚ as_set <$> general).
Proof.
  split_and!; [by vm_compute..|].
  intros H%Permutation_length. done.
Qed.

Lemma shortcut_agrees_with_general_witness :
  ∃ l1 l2,
    General.exec example_transactions (Miner.new_FPGrowth Number_0_4) =
      (Miner.mkFPGrowth
         (Miner.absolute_support Number_0_4 example_transactions)
         example_transactions, (JS.Ok l1, l1)) /\
    Shortcut.exec example_transactions (Miner.new_FPGrowth Number_0_4) =
      (Miner.mkFPGrowth
         (Miner.absolute_support Number_0_4 example_transactions)
         example_transactions, (JS.Ok l2, l2)) /\
    as_set <$> l2 ≡ₚ as_set <$> l1.
Proof.
  exact (proj2 (proj2 (shortcut_agrees_with_general Number_0_4 example_transactions
                         example_transactions_NoDup))).
Defined.
(** * Further properties of the program *)

(** ** fpnode.ts: [upsertChild] and [getChild] *)

Lemma find_ext_in {A} (f g : A -> bool) l :
  (∀ a, a ∈ l -> f a = g a) -> List.find f l = List.find g l.
Proof.
  induction l as [|a l IH]; intros H; simpl; [done|].
  rewrite <- (H a) by left. destruct (f a); [done|].
  apply IH. intros b Hb. apply H. by right.
Qed.

Lemma find_snoc {A} (f : A -> bool) l x :
  List.find f (l ++ [x]) =
  match List.find f l with
  | Some y => Some y
  | None => if f x then Some x else None
  end.
Proof.
  induction l as [|a l IH]; simpl; [done|]. by destruct (f a).
Qed.

Lemma getChild_skeleton (h h' : Heap) self it :
  skeleton <$> h' = skeleton <$> h -> getChild h' self it = getChild h self it.
Proof.
  intros E. unfold getChild.
  assert (El := f_equal (fun l => l !! self) E). simpl in El.
  rewrite !list_lookup_fmap in El.
  destruct (h' !! self) as [n'|], (h !! self) as [n|]; try done.
  simpl in El. unfold skeleton in El. injection El as _ _ ->.
  apply find_ext_in. intros c _. by apply item_is_skeleton.
Qed.

Lemma item_is_with_child h self it sup it' c :
  (self < length h)%nat -> (c < length h)%nat ->
  item_is (heap_with_child h self it sup) it' c = item_is h it' c.
Proof.
  intros Hself Hc. unfold item_is.
  destruct (lookup_lt_is_Some_2 h c Hc) as [n0 Hn0].
  destruct (heap_with_child_keep h self it sup c n0 Hself Hn0) as (n & Hn & Hit & _).
  by rewrite Hn, Hn0, Hit.
Qed.

Lemma getChild_with_child h self it sup it' :
  heap_shape h -> (self < length h)%nat ->
  getChild (heap_with_child h self it sup) self it' =
  match getChild h self it' with
  | Some c => Some c
  | None => if decide (it = it') then Some (length h) else None
  end.
Proof.
  intros Hs Hself. unfold getChild.
  destruct (lookup_lt_is_Some_2 h self Hself) as [n0 Hn0].
  destruct (heap_with_child_keep h self it sup self n0 Hself Hn0)
    as (n & Hn & _ & _ & _ & _ & Hch).
  rewrite decide_True in Hch by done. rewrite Hn, Hn0, Hch, find_snoc.
  rewrite (find_ext_in (item_is (heap_with_child h self it sup) it') (item_is h it')).
  - destruct (List.find _ _); [done|].
    unfold item_is at 1. rewrite heap_with_child_new by done. simpl.
    destruct (decide (it = it')) as [->|Hne].
    + by rewrite N.eqb_refl.
    + by apply N.eqb_neq in Hne as ->.
  - intros c Hc. apply item_is_with_child; [done|].
    by destruct (child_gt h self n0 c Hs Hn0 Hc).
Qed.

(** X1: after [upsertChild(item)] on a node, [getChild(item)] on that node is the
    node that [upsertChild] returned, and it carries the item under the node;
    the children for other items are as before.  When the child was there
    its support grew by the given support and no node was made; otherwise one
    node was made. *)
Theorem upsertChild_then_getChild (self : NodeRef) (it : N)
    (cb : option (NodeRef -> FPTree -> FPTree)) (w : Z) (t : FPTree) :
  heap_shape (nodes t) ->
  (self < length (nodes t))%nat ->
  (∀ f c t', cb = Some f -> skeleton <$> nodes (f c t') = skeleton <$> nodes t') ->
  let t' := fst (upsertChild self it cb w t) in
  let child := snd (upsertChild self it cb w t) in
  getChild (nodes t') self it = Some child /\
  (∃ cn, nodes t' !! child = Some cn /\ item cn = Some it /\ parent cn = Some self) /\
  (∀ it', it' ≠ it -> getChild (nodes t') self it' = getChild (nodes t) self it') /\
  match getChild (nodes t) self it with
  | Some c =>
      child = c /\ length (nodes t') = length (nodes t) /\
      support_at (nodes t') c = support_at (nodes t) c + w
  | None => child = length (nodes t) /\ length (nodes t') = S (length (nodes t))
  end.
Proof.
  intros Hs Hself Hcb. cbv zeta. unfold upsertChild.
  destruct (getChild (nodes t) self it) as [c|] eqn:Hg; cbn [fst snd].
  - assert (Hsk := skeleton_alter_support (fun n => support n + w) c (nodes t)).
    destruct (getChild_Some _ _ _ _ Hg) as (n & cn & Hn & Hc & Hcn & Hit).
    cbn [nodes set_nodes]. split_and!.
    + by rewrite (getChild_skeleton _ _ _ _ Hsk).
    + exists (set_support (support cn + w) cn).
      rewrite list_lookup_alter_eq, Hcn. split_and!; [done|by simpl|]. simpl.
      destruct (shape_child _ Hs self n c Hn Hc) as (cn' & Hcn' & Hp). congruence.
    + intros it' _. by rewrite (getChild_skeleton _ _ _ _ Hsk).
    + done.
    + by rewrite length_alter.
    + unfold support_at. by rewrite list_lookup_alter_eq, Hcn.
  - fold (heap_with_child (nodes t) self it w).
    set (t1 := set_nodes (heap_with_child (nodes t) self it w) t).
    assert (Hsk : skeleton <$> nodes (match cb with
                                      | Some f => f (length (nodes t)) t1
                                      | None => t1
                                      end) = skeleton <$> nodes t1).
    { destruct cb as [f|]; [by apply Hcb|done]. }
    split_and!.
    + rewrite (getChild_skeleton _ _ _ _ Hsk). cbn [nodes t1 set_nodes].
      rewrite getChild_with_child, Hg by done. by rewrite decide_True.
    + assert (Hnew := heap_with_child_new (nodes t) self it w Hself).
      assert (El := f_equal (fun l => l !! length (nodes t)) Hsk). simpl in El.
      rewrite !list_lookup_fmap, Hnew in El.
      destruct (nodes _ !! length (nodes t)) as [cn|]; [|done].
      exists cn. split; [done|]. simpl in El. unfold skeleton in El.
      by injection El as -> -> _.
    + intros it' Hne. rewrite (getChild_skeleton _ _ _ _ Hsk). cbn [nodes t1 set_nodes].
      rewrite getChild_with_child by done.
      destruct (getChild (nodes t) self it'); [done|]. by rewrite decide_False.
    + done.
    + assert (El := f_equal length Hsk). rewrite !length_fmap in El.
      rewrite El. apply heap_with_child_length.
Qed.

Lemma upsertChild_then_getChild_witness :
  let r := upsertChild root 3 (Some (onNewChild_addItems 3)) 1 example_tree in
  getChild (nodes (fst r)) root 3 = Some (snd r) /\
  (∃ cn, nodes (fst r) !! snd r = Some cn /\ item cn = Some 3%N /\ parent cn = Some root) /\
  (∀ it', it' ≠ 3%N -> getChild (nodes (fst r)) root it' = getChild (nodes example_tree) root it') /\
  match getChild (nodes example_tree) root 3 with
  | Some c =>
      snd r = c /\ length (nodes (fst r)) = length (nodes example_tree) /\
      support_at (nodes (fst r)) c = support_at (nodes example_tree) c + 1
  | None => snd r = length (nodes example_tree) /\
            length (nodes (fst r)) = S (length (nodes example_tree))
  end.
Proof.
  apply (upsertChild_then_getChild root 3 (Some (onNewChild_addItems 3)) 1 example_tree).
  - apply under_construction_inv, example_tree_under_construction.
  - unfold root. simpl. lia.
  - intros f c t' [= <-]. apply onNewChild_addItems_skeleton.
Defined.
(** ** fptree.ts: what [fromTransactions] and [fromPrefixPaths] build *)

Lemma by_support_desc_supports sup a b :
  by_support_desc sup a b <= 0 -> support_of sup b <= support_of sup a.
Proof.
  unfold by_support_desc.
  destruct (Z.eqb_spec (support_of sup b - support_of sup a) 0); lia.
Qed.

(** What holds of a way from the root in a tree made from the lists [ls]:
    its items passed the pruning, come from one of the lists, and stand in
    the order of the sort, so in descending order of support. *)
Definition path_ok (sup : ItemsCount) (m : Z) (ls : list (list N)) (r : list N) : Prop :=
  Forall (fun x => is_frequent sup m x = true /\ ∃ l, l ∈ ls /\ x ∈ l) r /\
  StronglySorted (fun a b => by_support_desc sup a b <= 0 /\
                             support_of sup b <= support_of sup a) r.

Lemma insert_prefixPaths_path_ok P sup m :
  routes_all (path_ok sup m (path <$> P))
             (nodes (insert_prefixPaths P (new_FPTree sup m))).
Proof.
  apply insert_prefixPaths_routes; [apply tree_inv_new| |].
  - apply routes_all_new. split; constructor.
  - intros pp k Hpp _. cbn [supports _support new_FPTree]. split.
    + apply Forall_forall. intros x Hx.
      apply elem_of_take in Hx as (j & Hx & _). apply list_elem_of_lookup_2 in Hx.
      apply prune_and_sort_frequent in Hx as [Hf Hx]. split; [done|].
      exists (path pp). split; [by apply list_elem_of_fmap_2|done].
    + apply StronglySorted_take.
      assert (Hs : StronglySorted (fun a b => by_support_desc sup a b <= 0)
                     (prune_and_sort sup m (path pp))).
      { apply Array_sort_sorted;
          [apply by_support_desc_total|apply by_support_desc_le_trans]. }
      induction Hs as [|a l Hs IH Ha]; constructor; [done|].
      eapply Forall_impl; [exact Ha|]. intros b Hb. split; [done|].
      by apply by_support_desc_supports.
Qed.

Lemma path_as_prefixPaths (T : list (list N)) w :
  path <$> ((fun l => mkPrefixPath l w) <$> T) = T.
Proof. induction T as [|l T IH]; [done|]. rewrite !fmap_cons. by f_equal. Qed.

(** X2: [fromPrefixPaths] and [fromTransactions] on a new tree do not throw; the
    tree they return is built, and on every way from its root the items
    passed the pruning, come from the input, and stand in descending order of
    support, ties in the order of the comparator. *)
Theorem construction_prunes_and_sorts :
  (∀ P sup m, ∃ t,
      fromPrefixPaths P (new_FPTree sup m) = JS.Ok t /\
      _isInit t = true /\ supports t = sup /\ _support t = m /\
      ∀ i n, nodes t !! i = Some n ->
             path_ok sup m (path <$> P) (route (nodes t) i)) /\
  (∀ T sup m, ∃ t,
      fromTransactions T (new_FPTree sup m) = JS.Ok t /\
      _isInit t = true /\ supports t = sup /\ _support t = m /\
      ∀ i n, nodes t !! i = Some n -> path_ok sup m T (route (nodes t) i)).
Proof.
  split.
  - intros P sup m. eexists. split; [by rewrite fromPrefixPaths_unfold|].
    cbn [_isInit supports _support nodes set_built].
    destruct (insert_prefixPaths_fields P (new_FPTree sup m)) as (_ & _ & -> & ->).
    split_and!; [done..|]. apply insert_prefixPaths_path_ok.
  - intros T sup m. eexists. split; [by rewrite fromTransactions_unfold|].
    cbn [_isInit supports _support nodes set_built].
    rewrite insert_transactions_as_prefixPaths.
    destruct (insert_prefixPaths_fields ((fun l => mkPrefixPath l 1) <$> T)
                (new_FPTree sup m)) as (_ & _ & -> & ->).
    split_and!; [done..|]. intros i n Hn.
    assert (H := insert_prefixPaths_path_ok ((fun l => mkPrefixPath l 1) <$> T) sup m i n Hn).
    by rewrite path_as_prefixPaths in H.
Qed.
Lemma mass_all h x :
  mass h x (fun _ => true) = Zsum (support_at h <$> occurrences h x).
Proof. done. Qed.

Lemma insert_prefixPaths_supports_add_up P sup m x :
  Zsum (support_at (nodes (insert_prefixPaths P (new_FPTree sup m)))
          <$> occurrences (nodes (insert_prefixPaths P (new_FPTree sup m))) x) =
  if is_frequent sup m x
  then Zsum ((fun pp => pp_support pp * Z.of_nat (times_in x (path pp))) <$> P)
  else 0.
Proof.
  rewrite <- mass_all, insert_prefixPaths_mass, mass_new by apply tree_inv_new.
  cbn [supports _support new_FPTree].
  rewrite (Zsum_ext _ (fun pp => if is_frequent sup m x
                                 then pp_support pp * Z.of_nat (times_in x (path pp))
                                 else 0)).
  - destruct (is_frequent sup m x); [lia|].
    induction P as [|pp P IH]; [done|]. rewrite fmap_cons, Zsum_cons. lia.
  - intros pp _. rewrite gain_all, times_in_prune_and_sort.
    destruct (is_frequent sup m x); lia.
Qed.

Lemma Zsum_times_in x T :
  Zsum ((fun pp => pp_support pp * Z.of_nat (times_in x (path pp)))
          <$> ((fun l => mkPrefixPath l 1) <$> T)) = Z.of_nat (total_times x T).
Proof.
  induction T as [|l T IH]; [done|].
  rewrite !fmap_cons, Zsum_cons, IH. cbn [path pp_support total_times foldr].
  fold (total_times x T). lia.
Qed.

(** X3: the supports of the nodes of an item add up to what the input holds of
    it: for [fromPrefixPaths] the weight of each prefix path times the
    number of times it has the item, for [fromTransactions] the number of
    times the item is written in the transactions, which is its entry in the
    table of [_getDistinctItemsCount]; an item that did not pass the pruning
    has no node. *)
Theorem node_supports_add_up :
  (∀ P sup m, ∃ t,
      fromPrefixPaths P (new_FPTree sup m) = JS.Ok t /\
      ∀ x, Zsum (support_at (nodes t) <$> occurrences (nodes t) x) =
           if is_frequent sup m x
           then Zsum ((fun pp => pp_support pp * Z.of_nat (times_in x (path pp))) <$> P)
           else 0) /\
  (∀ T m, ∃ t,
      fromTransactions T (new_FPTree (Miner._getDistinctItemsCount T) m) = JS.Ok t /\
      ∀ x, Zsum (support_at (nodes t) <$> occurrences (nodes t) x) =
             (if is_frequent (Miner._getDistinctItemsCount T) m x
              then Z.of_nat (total_times x T) else 0) /\
           support_of (Miner._getDistinctItemsCount T) x = Z.of_nat (total_times x T) /\
           (is_frequent (Miner._getDistinctItemsCount T) m x = false ->
            occurrences (nodes t) x = [])).
Proof.
  split.
  - intros P sup m. eexists. split; [by rewrite fromPrefixPaths_unfold|].
    intros x. cbn [nodes set_built]. apply insert_prefixPaths_supports_add_up.
  - intros T m.
    destruct (fromTransactions_new_built T (Miner._getDistinctItemsCount T) m)
      as (t & Ht & Hb & Hsup & Hm & Hnodes).
    exists t. split; [done|]. intros x. split_and!.
    + rewrite Hnodes, insert_prefixPaths_supports_add_up.
      by rewrite Zsum_times_in.
    + unfold support_of. rewrite _getDistinctItemsCount_get.
      case_decide as E; [by rewrite E|done].
    + intros Hf. destruct (occurrences (nodes t) x) as [|i l] eqn:Eo; [done|].
      assert (i ∈ occurrences (nodes t) x) as (n & Hn & Hit)%occurrences_elem
        by (rewrite Eo; left).
      assert (Hs : heap_shape (nodes t)) by by apply built_tree_inv.
      assert (Hp := insert_prefixPaths_path_ok ((fun l => mkPrefixPath l 1) <$> T)
                      (Miner._getDistinctItemsCount T) m i n).
      rewrite <- Hnodes in Hp. destruct (Hp Hn) as [Hall _].
      rewrite (route_ancestors _ i n x Hs Hn Hit) in Hall.
      apply Forall_app in Hall as [_ Hx]. apply Forall_singleton in Hx as [Hx _].
      congruence.
Qed.
(** ** fptree.ts: the support of a node *)

Lemma upto_prefix x l : upto x l `prefix_of` l.
Proof.
  induction l as [|y l IH]; simpl; [done|].
  destruct (decide (y = x)); [by apply prefix_cons, prefix_nil|by apply prefix_cons].
Qed.

Lemma upto_app x r0 k : x ∉ r0 -> upto x (r0 ++ x :: k) = r0 ++ [x].
Proof.
  induction r0 as [|y r0 IH]; intros Hx; simpl.
  - by rewrite decide_True.
  - apply not_elem_of_cons in Hx as [Hne Hx].
    rewrite decide_False by done. by rewrite IH.
Qed.

Lemma prefix_upto l r0 x :
  NoDup l -> (x ∈ l /\ upto x l = r0 ++ [x]) <-> (r0 ++ [x]) `prefix_of` l.
Proof.
  intros Hnd. split.
  - intros [_ <-]. apply upto_prefix.
  - intros [k ->]. rewrite <- app_assoc in Hnd |- *. cbn [app] in *. split.
    + apply elem_of_app. right. left.
    + apply upto_app. apply NoDup_app in Hnd as (_ & Hd & _).
      intros Hx. apply (Hd x Hx). left.
Qed.

(** The mass of the one node that has a given way from the root. *)
Lemma mass_of_route h i n x :
  heap_shape h -> h !! i = Some n -> item n = Some x ->
  mass h x (fun r => bool_decide (r = route h i)) = support n.
Proof.
  intros Hs Hn Hit. unfold mass.
  rewrite (Zsum_ext _ (fun j => 0 + if decide (j = i) then support n else 0)).
  - rewrite Zsum_indicator by apply occurrences_NoDup.
    rewrite decide_True by (apply occurrences_elem; eauto).
    assert (Zsum ((fun _ : nat => 0) <$> occurrences h x) = 0) as ->; [|lia].
    induction (occurrences h x); [done|].
    rewrite fmap_cons, Zsum_cons. lia.
  - intros j (m & Hm & _)%occurrences_elem.
    destruct (decide (j = i)) as [->|Hji].
    + rewrite bool_decide_eq_true_2 by done. unfold support_at. rewrite Hn. lia.
    + rewrite bool_decide_eq_false_2; [lia|].
      intros E. apply Hji. eapply route_inj; eauto.
Qed.

(** The support of a node is the weight of the inserted lists that, pruned
    and sorted, begin with the way from the root to the node. *)
Lemma node_support_prefix D sup m i n :
  database_ok D ->
  nodes (insert_prefixPaths D (new_FPTree sup m)) !! i = Some n -> i ≠ root ->
  support n =
  Zsum ((fun pp =>
           if bool_decide (route (nodes (insert_prefixPaths D (new_FPTree sup m))) i
                             `prefix_of` prune_and_sort sup m (path pp))
           then pp_support pp else 0) <$> D).
Proof.
  intros HD Hn Hne.
  set (h := nodes (insert_prefixPaths D (new_FPTree sup m))) in *.
  assert (Hs : heap_shape h).
  { apply (insert_prefixPaths_inv D (new_FPTree sup m)), tree_inv_new. }
  destruct (shape_parent _ Hs i n Hn Hne) as (p & pn & x & _ & Hit & _).
  rewrite <- (mass_of_route h i n x Hs Hn Hit). unfold h.
  rewrite insert_prefixPaths_mass, mass_new by apply tree_inv_new.
  cbn [supports _support new_FPTree]. fold h.
  rewrite Z.add_0_l. apply Zsum_ext. intros pp Hpp.
  destruct (HD pp Hpp) as [Hnd _].
  assert (Hnd' := prune_and_sort_NoDup sup m _ Hnd).
  rewrite gain_NoDup by done. cbn [app].
  rewrite (route_ancestors h i n x Hs Hn Hit).
  destruct (decide (x ∈ prune_and_sort sup m (path pp))) as [Hx|Hx].
  - destruct (decide (upto x (prune_and_sort sup m (path pp)) = ancestors h i ++ [x]))
      as [E|E].
    + rewrite bool_decide_eq_true_2 by done.
      rewrite bool_decide_eq_true_2; [done|]. by apply prefix_upto.
    + rewrite bool_decide_eq_false_2 by done.
      rewrite bool_decide_eq_false_2; [done|].
      intros Hp%prefix_upto; [|done]. by destruct Hp.
  - rewrite bool_decide_eq_false_2; [done|].
    intros Hp%prefix_upto; [|done]. by destruct Hp.
Qed.
Lemma Zsum_count {A} (f : A -> bool) (l : list A) :
  Zsum ((fun a => if f a then 1 else 0) <$> l) = Z.of_nat (length (List.filter f l)).
Proof.
  induction l as [|a l IH]; [done|].
  rewrite fmap_cons, Zsum_cons, IH. cbn [List.filter].
  destruct (f a); cbn [length]; lia.
Qed.

(** X4: in the tree of transactions that repeat no item, the support of a node
    is the number of transactions that, pruned and sorted, begin with the way
    from the root to the node. *)
Theorem node_support_counts_transactions (T : list (list N)) (sup : ItemsCount) (m : Z) :
  Forall NoDup T ->
  ∃ t, fromTransactions T (new_FPTree sup m) = JS.Ok t /\
       ∀ i n, nodes t !! i = Some n -> i ≠ root ->
         support n =
         Z.of_nat (length (List.filter
                             (fun l => bool_decide (route (nodes t) i `prefix_of`
                                                      prune_and_sort sup m l))
                             T)).
Proof.
  intros HT.
  destruct (fromTransactions_new_built T sup m) as (t & Ht & Hb & Hsup & Hm & Hnodes).
  exists t. split; [done|]. intros i n Hn Hne.
  rewrite Hnodes in Hn |- *.
  rewrite (node_support_prefix ((fun l => mkPrefixPath l 1) <$> T) sup m i n);
    [| |done|done].
  - rewrite <- Zsum_count, <- list_fmap_compose. done.
  - intros pp (l & -> & Hl)%list_elem_of_fmap. simpl. split; [|lia].
    by eapply Forall_forall in HT.
Qed.

Lemma node_support_counts_transactions_witness :
  ∃ t, fromTransactions example_transactions
         (new_FPTree (Miner._getDistinctItemsCount example_transactions) 2) = JS.Ok t /\
       ∀ i n, nodes t !! i = Some n -> i ≠ root ->
         support n =
         Z.of_nat (length (List.filter
                             (fun l => bool_decide
                                         (route (nodes t) i `prefix_of`
                                            prune_and_sort
                                              (Miner._getDistinctItemsCount example_transactions)
                                              2 l))
                             example_transactions)).
Proof.
  exact (node_support_counts_transactions example_transactions
           (Miner._getDistinctItemsCount example_transactions) 2
           example_transactions_NoDup).
Defined.

(** X5: in a tree made from prefix paths that repeat no item and weigh at least 0,
    no support is negative and the support of a node is at most the support
    of its parent. *)
Theorem child_support_le_parent (P : list IPrefixPath) (sup : ItemsCount) (m : Z) :
  database_ok P ->
  ∃ t, fromPrefixPaths P (new_FPTree sup m) = JS.Ok t /\
       ∀ c cn p pn, nodes t !! c = Some cn -> parent cn = Some p ->
                    nodes t !! p = Some pn ->
                    0 <= support cn /\ (p ≠ root -> support cn <= support pn).
Proof.
  intros HD. eexists. split; [by rewrite fromPrefixPaths_unfold|].
  cbn [nodes set_built]. intros c cn p pn Hc Hpar Hp.
  set (h := nodes (insert_prefixPaths P (new_FPTree sup m))) in *.
  assert (Hs : heap_shape h).
  { apply (insert_prefixPaths_inv P (new_FPTree sup m)), tree_inv_new. }
  assert (Hne : c ≠ root).
  { intros ->. destruct (shape_root _ Hs) as (r & Hr & _ & Hnone). congruence. }
  destruct (shape_parent _ Hs c cn Hc Hne) as (p' & pn' & x & Hpar' & Hit & _).
  rewrite (node_support_prefix P sup m c cn HD Hc Hne). fold h. split.
  - apply Zsum_map_nonneg. intros pp Hpp. destruct (HD pp Hpp) as [_ Hw].
    cbv beta. case_bool_decide; lia.
  - intros Hpr. rewrite (node_support_prefix P sup m p pn HD Hp Hpr). fold h.
    apply Zsum_map_le. intros pp Hpp. destruct (HD pp Hpp) as [_ Hw]. cbv beta.
    rewrite (route_unfold h c cn p x Hs Hc Hpar Hit).
    destruct (bool_decide (route h p ++ [x] `prefix_of` _)) eqn:E1.
    + apply bool_decide_eq_true in E1.
      rewrite bool_decide_eq_true_2; [lia|].
      etrans; [|exact E1]. by apply prefix_app_r.
    + clear E1. case_bool_decide; lia.
Qed.

Lemma child_support_le_parent_witness :
  ∃ t, fromPrefixPaths [mkPrefixPath [1; 2]%N 2; mkPrefixPath [1; 3]%N 1]
         (new_FPTree [("1", 3); ("2", 2); ("3", 1)]%string 1) = JS.Ok t /\
       ∀ c cn p pn, nodes t !! c = Some cn -> parent cn = Some p ->
                    nodes t !! p = Some pn ->
                    0 <= support cn /\ (p ≠ root -> support cn <= support pn).
Proof.
  apply (child_support_le_parent
           [mkPrefixPath [1; 2]%N 2; mkPrefixPath [1; 3]%N 1]
           [("1", 3); ("2", 2); ("3", 1)]%string 1).
  intros pp Hpp.
  assert (Forall (fun pp => NoDup (path pp) /\ 0 <= pp_support pp)
            [mkPrefixPath [1; 2]%N 2; mkPrefixPath [1; 3]%N 1]) as Hall.
  { repeat constructor; simpl; try lia; by apply (bool_decide_unpack _). }
  by eapply Forall_forall in Hall.
Defined.
(** ** fptree.ts: prefix paths and conditional trees *)

Lemma getPrefixPaths_built t x :
  built t -> getPrefixPaths t x = JS.Ok (cond_paths t x).
Proof.
  intros Hb. assert (Hi := built_isInit t Hb).
  destruct (built_tree_inv t Hb) as [Hs Hl].
  unfold getPrefixPaths. rewrite Hi. cbn [negb]. rewrite (links_first t Hl).
  pose proof (node_links_occurrences t x Hl) as Hch.
  rewrite (links_first t Hl) in Hch.
  unfold cond_paths.
  pose proof (occurrences_length (nodes t) x) as Hlen.
  destruct (occurrences (nodes t) x) as [|start chain] eqn:Eo; [done|].
  cbn [head] in *.
  assert (start ∈ occurrences (nodes t) x) as (sn & Hsn & _)%occurrences_elem
    by (rewrite Eo; left).
  rewrite Hsn.
  rewrite (_getPrefixPaths_spec t None _ Hs Hi _ _ Hch) by done.
  by rewrite bind_Ok.
Qed.

(** X6: on a built tree [getPrefixPaths(item)] returns, for the nodes of the item
    in the order of their creation, the items above the node, from its parent
    up to the child of the root, with the support of the node; a node right
    under the root gives no path, so every path returned has an item.
    [getPrefixPath(node, callback)] gives that path for one node and calls the
    callback on each of its items, in the order of the path, with the support
    of the node. *)
Theorem prefix_paths_of_item (t : FPTree) :
  built t ->
  (∀ x, getPrefixPaths t x =
        JS.Ok (omap (prefix_path_of (nodes t)) (occurrences (nodes t) x))) /\
  (∀ x pp, pp ∈ omap (prefix_path_of (nodes t)) (occurrences (nodes t) x) ->
        path pp ≠ [] /\
        ∃ i n, nodes t !! i = Some n /\ item n = Some x /\
               route (nodes t) i = rev (path pp) ++ [x] /\
               pp_support pp = support n) /\
  (∀ (S : Type) (cb : option (N -> Z -> S -> S)) (s : S) i n,
        nodes t !! i = Some n ->
        getPrefixPath t i cb s =
        JS.Ok (prefix_path_of (nodes t) i,
               fold_left (fun s it => call cb it (support n) s)
                         (rev (ancestors (nodes t) i)) s)).
Proof.
  intros Hb. assert (Hi := built_isInit t Hb).
  destruct (built_tree_inv t Hb) as [Hs Hl]. split_and!.
  - intros x. by apply getPrefixPaths_built.
  - intros x pp Hpp.
    destruct (cond_paths_elem t x pp Hpp) as (i & n & Hn & Hit & Hp & Hw & Hne).
    split.
    + rewrite Hp. intros E. apply Hne.
      apply (f_equal (@rev N)) in E. by rewrite rev_involutive in E.
    + exists i, n. split_and!; [done..| |done].
      rewrite Hp, rev_involutive. by apply (route_ancestors _ i n).
  - intros S cb s i n Hn.
    rewrite (getPrefixPath_spec t cb i n s Hs Hi Hn).
    unfold support_at. by rewrite Hn.
Qed.

Lemma prefix_paths_of_item_witness :
  getPrefixPaths example_built 3 =
    JS.Ok (omap (prefix_path_of (nodes example_built))
                (occurrences (nodes example_built) 3)).
Proof.
  exact (proj1 (prefix_paths_of_item example_built example_built_built) 3%N).
Defined.
(** The supports that [getConditionalFPTree] counts along the prefix paths. *)
Lemma cond_supports_counts t x j :
  support_of (cond_supports t x) j =
  Zsum ((fun pp => pp_support pp * Z.of_nat (times_in j (path pp))) <$> cond_paths t x).
Proof.
  unfold cond_supports, cond_paths. rewrite Zsum_omap.
  assert (Hgen : ∀ l s,
    support_of
      (fold_left
         (fun s i => fold_left (fun s it => count_item it (support_at (nodes t) i) s)
                               (rev (ancestors (nodes t) i)) s) l s) j =
    support_of s j +
    Zsum ((fun i => support_at (nodes t) i *
                    Z.of_nat (times_in j (rev (ancestors (nodes t) i)))) <$> l)).
  { induction l as [|i l IH]; intros s; [simpl; lia|].
    cbn [fold_left]. rewrite fmap_cons, Zsum_cons, IH, count_item_fold. lia. }
  rewrite Hgen. cbn [support_of JS.get default]. unfold support_of. cbn [JS.get default].
  rewrite Z.add_0_l. apply Zsum_ext. intros i _. unfold prefix_path_of.
  destruct (rev (ancestors (nodes t) i)) as [|a l]; [simpl; lia|done].
Qed.

(** X7: on a built tree [getConditionalFPTree(item)] does not throw.  It is the
    tree that [fromPrefixPaths] builds, with the threshold of the tree, from
    the prefix paths of the item, each item counted with the weight of every
    path once per time the path has it; [null] stands for that tree when its
    root has no child, as it is when the item has no node.  The tree returned
    is less deep than the tree it comes from. *)
Theorem conditional_tree_of_item (t : FPTree) (x : N) :
  built t ->
  ∃ pps ct,
    getPrefixPaths t x = JS.Ok pps /\
    fromPrefixPaths pps (new_FPTree (supports ct) (_support t)) = JS.Ok ct /\
    (∀ j, support_of (supports ct) j =
          Zsum ((fun pp => pp_support pp * Z.of_nat (times_in j (path pp))) <$> pps)) /\
    getConditionalFPTree t x = JS.Ok (if root_is_leaf ct then None else Some ct) /\
    (occurrences (nodes t) x = [] -> root_is_leaf ct = true) /\
    (∀ d, depth_le (nodes t) d -> depth_le (nodes ct) (d - 1)) /\
    (root_is_leaf ct = false -> ∀ d, depth_le (nodes t) d -> (1 < d)%nat).
Proof.
  intros Hb. exists (cond_paths t x), (cond_tree t x).
  destruct (cond_tree_fields t x) as (Hsup & Hm & Hnodes).
  split_and!.
  - by apply getPrefixPaths_built.
  - rewrite Hsup. by rewrite fromPrefixPaths_unfold.
  - intros j. rewrite Hsup. apply cond_supports_counts.
  - by apply getConditionalFPTree_spec.
  - intros Eo. unfold root_is_leaf. rewrite Hnodes. unfold cond_paths. by rewrite Eo.
  - intros d Hd. by apply cond_tree_depth.
  - intros Hleaf d Hd.
    destruct (decide (d - 1 = 0)%nat) as [E0|]; [|lia].
    assert (root_is_leaf (cond_tree t x) = true); [|congruence].
    apply depth_zero_leaf; [apply cond_tree_built|].
    rewrite <- E0. by apply cond_tree_depth.
Qed.

Lemma conditional_tree_of_item_witness :
  ∃ pps ct,
    getPrefixPaths example_built 3 = JS.Ok pps /\
    fromPrefixPaths pps (new_FPTree (supports ct) (_support example_built)) = JS.Ok ct /\
    (∀ j, support_of (supports ct) j =
          Zsum ((fun pp => pp_support pp * Z.of_nat (times_in j (path pp))) <$> pps)) /\
    getConditionalFPTree example_built 3 = JS.Ok (if root_is_leaf ct then None else Some ct) /\
    (occurrences (nodes example_built) 3 = [] -> root_is_leaf ct = true) /\
    (∀ d, depth_le (nodes example_built) d -> depth_le (nodes ct) (d - 1)) /\
    (root_is_leaf ct = false -> ∀ d, depth_le (nodes example_built) d -> (1 < d)%nat).
Proof.
  exact (conditional_tree_of_item example_built 3 example_built_built).
Defined.
(** ** fpgrowth.ts: [exec] settles *)

Lemma fold_min_init l : ∀ a, fold_left Z.min l a <= a.
Proof.
  induction l as [|y l IH]; intros a; simpl; [lia|].
  etrans; [apply IH|]. lia.
Qed.

Lemma mine_nonempty_capped n bound t ps prefix :
  built t -> ps <= n ->
  Forall (fun i => items i ≠ [] /\ is_support i <= n) (mine bound t ps prefix).
Proof.
  intros Hb Hps.
  apply (mine_ind (fun _ ps' _ => ps' <= n)
                  (fun i => items i ≠ [] /\ is_support i <= n)); [|done|done].
  intros t' ps' prefix' hs x _ Hps' _ _. cbn [items is_support]. split_and!.
  - by destruct prefix'.
  - lia.
  - intros _. lia.
Qed.

Lemma mine_shortcut_nonempty_capped n bound : ∀ t ps prefix,
  built t -> ps <= n ->
  Forall (fun i => items i ≠ [] /\ is_support i <= n) (mine_shortcut bound t ps prefix).
Proof.
  induction bound as [|b IH]; intros t ps prefix Hb Hps; [constructor|].
  assert (Hs : heap_shape (nodes t)) by by apply built_tree_inv.
  cbn [mine_shortcut]. destruct (single_path t) as [p|] eqn:Esp.
  - assert (Hp : single_path_from (nodes t) root p).
    { apply (getSinglePath_Some t p Hb). by rewrite getSinglePath_single_path, Esp. }
    destruct (single_path_from_valid (nodes t) root _ Hs Hp) as (_ & _ & Hv).
    apply Forall_fmap, Forall_forall. intros s [Hne Hsub]%combinations_elem.
    cbn [compose subset_itemset items is_support]. split.
    + destruct s as [|c s]; [done|].
      destruct (Hv c) as (cn & it & Hcn & Hit); [by eapply elem_of_sublist; [left|]|].
      unfold items_at. cbn [omap list_omap]. rewrite Hcn. cbn [mbind option_bind].
      rewrite Hit. by destruct prefix.
    + pose proof (fold_min_init (support_at (nodes t) <$> s) ps). lia.
  - apply Forall_flat_map, Forall_forall. intros x _. constructor.
    + cbn [items is_support]. split; [by destruct prefix|lia].
    + destruct (root_is_leaf (cond_tree t x)); [constructor|].
      apply IH; [apply cond_tree_built|lia].
Qed.

(** X8: [exec] settles for every list of transactions and every threshold,
    with or without the single-path shortcut: no call throws, the promise
    is resolved with the list of the itemsets that were emitted as ['data']
    events, in the order of the events; [_support] then holds the value of
    [Math.ceil(this._support * transactions.length)], computed in doubles.
    Every itemset has an item, and no support is above the number of
    transactions. *)
Theorem exec_settles (T : list (list N)) (self : Miner.FPGrowth) :
  let converted :=
    Math_ceil (Number_multiply (Miner._support self)
                               (Number_of_Z (Z.of_nat (length T)))) in
  ∃ l1 l2,
    General.exec T self = (Miner.mkFPGrowth converted T, (JS.Ok l1, l1)) /\
    Shortcut.exec T self = (Miner.mkFPGrowth converted T, (JS.Ok l2, l2)) /\
    Forall (fun i => items i ≠ [] /\ is_support i <= Z.of_nat (length T)) l1 /\
    Forall (fun i => items i ≠ [] /\ is_support i <= Z.of_nat (length T)) l2.
Proof.
  destruct (General_exec_mine T self) as (t & Ht & ->).
  destruct (Shortcut_exec_mine T self) as (t' & Ht' & ->).
  rewrite Ht in Ht'. injection Ht' as <-.
  assert (Hb : built t) by (by eapply built_fromTransactions).
  do 2 eexists. split_and!; [done|done| |].
  - by apply mine_nonempty_capped.
  - by apply mine_shortcut_nonempty_capped.
Qed.
(** ** fpgrowth.ts: each frequent itemset is found once *)

(** What the recursion returns at a tree extends the prefix by items of the
    tree that differ from each other. *)
Definition grown (t : FPTree) (prefix : list N) (i : Itemset) : Prop :=
  ∃ K, items i = prefix ++ K /\ K ≠ [] /\ NoDup K /\ ∀ j, j ∈ K -> present t j.

Lemma flat_map_elem {A B} (f : A -> list B) l b :
  b ∈ flat_map f l <-> ∃ a, a ∈ l /\ b ∈ f a.
Proof.
  rewrite list_elem_of_In, in_flat_map. split.
  - intros (a & Ha & Hb). exists a. by rewrite !list_elem_of_In.
  - intros (a & Ha & Hb). exists a. by rewrite <- !list_elem_of_In.
Qed.

(** An itemset found under the header [x]: the prefix, [x], and items that
    sort before [x], all different. *)
Lemma mine_block_grown b t D ps prefix x i :
  (∀ t D ps prefix, built t -> represents t D ->
      Forall (grown t prefix) (mine b t ps prefix)) ->
  built t -> represents t D ->
  (∃ k n, nodes t !! k = Some n /\ item n = Some x) ->
  i ∈ mkItemset (prefix ++ [x]) (Z.min (support_of (supports t) x) ps) ::
      (if root_is_leaf (cond_tree t x) then []
       else mine b (cond_tree t x) (Z.min (support_of (supports t) x) ps) (prefix ++ [x])) ->
  ∃ K, items i = prefix ++ x :: K /\ NoDup (x :: K) /\
       (∀ j, j ∈ K -> present t j /\ before (supports t) j x).
Proof.
  intros IH Hb Hr (k & n & Hn & Hit) Hi.
  assert (Hs := represents_shape t D Hr).
  apply elem_of_cons in Hi as [->|Hi].
  - exists []. split_and!; [done|apply NoDup_singleton|].
    intros j Hj. by apply elem_of_nil in Hj.
  - destruct (root_is_leaf (cond_tree t x)); [by apply elem_of_nil in Hi|].
    assert (Hg := IH (cond_tree t x) (cond_paths t x)
                    (Z.min (support_of (supports t) x) ps) (prefix ++ [x])
                    (cond_tree_built t x) (cond_tree_represents t D x Hr)).
    eapply Forall_forall in Hg as (K & HK & _ & Hnd & Hpres); [|exact Hi].
    exists K. rewrite HK, <- app_assoc. split; [done|].
    assert (Hbef : ∀ j, j ∈ K -> present t j /\ before (supports t) j x).
    { intros j Hj.
      destruct (present_cond_tree t D x j Hr (Hpres j Hj)) as (i' & n' & Hn' & Hit' & Hja).
      split; [by eapply ancestors_present|].
      by apply (ancestor_before t D x i' n' j Hr Hn' Hit' Hja). }
    split; [|done]. apply NoDup_cons. split; [|done].
    intros Hx. destruct (Hbef x Hx) as [_ Hxx]. by apply before_irrefl in Hxx.
Qed.

Lemma mine_grown b : ∀ t D ps prefix,
  built t -> represents t D -> Forall (grown t prefix) (mine b t ps prefix).
Proof.
  induction b as [|b IH]; intros t D ps prefix Hb Hr; [constructor|].
  assert (Hs := represents_shape t D Hr).
  destruct (built_headers t Hb) as [hs Hh].
  cbn [mine]. rewrite Hh. cbn [default].
  apply Forall_forall. intros i (x & Hx & Hi)%flat_map_elem.
  apply (built_headers_elem t hs x Hb Hh) in Hx as (k & n & Hn & Hit).
  destruct (mine_block_grown b t D ps prefix x i IH Hb Hr) as (K & HK & Hnd & Hbef);
    [by eauto|done|].
  exists (x :: K). split_and!; [done|done|done|].
  intros j [->|Hj]%elem_of_cons; [by eapply item_present|by apply Hbef].
Qed.

Lemma NoDup_flat_map_blocks {A B C} (F : A -> list B) (g : B -> C) l :
  NoDup l ->
  (∀ x, x ∈ l -> NoDup (g <$> F x)) ->
  (∀ x y i i', x ∈ l -> y ∈ l -> x ≠ y -> i ∈ F x -> i' ∈ F y -> g i ≠ g i') ->
  NoDup (g <$> flat_map F l).
Proof.
  induction l as [|x l IH]; intros Hnd Hb Hd; [constructor|].
  apply NoDup_cons in Hnd as [Hx Hnd].
  cbn [flat_map]. rewrite fmap_app. apply NoDup_app. split_and!.
  - apply Hb. left.
  - intros c (i & -> & Hi)%list_elem_of_fmap (i' & E & Hi')%list_elem_of_fmap.
    apply flat_map_elem in Hi' as (y & Hy & Hi').
    apply (Hd x y i i'); [left|by right|by intros ->|done..].
  - apply IH; [done| |].
    + intros y Hy. apply Hb. by right.
    + intros y z i i' Hy Hz. apply Hd; by right.
Qed.

(** No two itemsets found have the same items. *)
Lemma mine_NoDup b : ∀ t D ps prefix,
  built t -> represents t D ->
  NoDup ((fun i => canonical (items i)) <$> mine b t ps prefix).
Proof.
  induction b as [|b IH]; intros t D ps prefix Hb Hr; [constructor|].
  assert (Hs := represents_shape t D Hr).
  destruct (built_headers t Hb) as [hs Hh].
  assert (Hnd := built_headers_NoDup t hs Hb Hh).
  assert (Hel := fun x => proj1 (built_headers_elem t hs x Hb Hh)).
  cbn [mine]. rewrite Hh. cbn [default].
  set (F := fun x => _ :: _).
  assert (HF : ∀ x i, x ∈ hs -> i ∈ F x ->
            ∃ K, items i = prefix ++ x :: K /\ NoDup (x :: K) /\
                 (∀ j, j ∈ K -> present t j /\ before (supports t) j x)).
  { intros x i Hx Hi.
    apply (mine_block_grown b t D ps prefix x i); [apply mine_grown|done..|by apply Hel|done]. }
  apply NoDup_flat_map_blocks; [done| |].
  - intros x Hx. unfold F. rewrite fmap_cons. apply NoDup_cons. split.
    + destruct (root_is_leaf (cond_tree t x)); [apply not_elem_of_nil|].
      intros (i & E & Hi)%list_elem_of_fmap.
      assert (Hg := mine_grown b (cond_tree t x) (cond_paths t x)
                      (Z.min (support_of (supports t) x) ps) (prefix ++ [x])
                      (cond_tree_built t x) (cond_tree_represents t D x Hr)).
      eapply Forall_forall in Hg as (K & HK & HKne & _); [|exact Hi].
      apply canonical_eq_Permutation, Permutation_length in E.
      cbn [items] in E. rewrite HK, !length_app in E.
      destruct K; [done|]. simpl in E. lia.
    + destruct (root_is_leaf (cond_tree t x)); [constructor|].
      apply (IH _ (cond_paths t x)); [apply cond_tree_built|by eapply cond_tree_represents].
  - intros x y i i' Hx Hy Hne Hi Hi' E.
    destruct (HF x i Hx Hi) as (K & HK & _ & HKb).
    destruct (HF y i' Hy Hi') as (K' & HK' & _ & HKb').
    apply canonical_eq_Permutation in E. rewrite HK, HK' in E.
    apply Permutation_app_inv_l in E.
    assert (y ∈ x :: K) as [?|Hyx]%elem_of_cons by (rewrite E; left); [done|].
    assert (x ∈ y :: K') as [?|Hxy]%elem_of_cons by (rewrite <- E; left); [done|].
    destruct (HKb y Hyx) as [_ H1]. destruct (HKb' x Hxy) as [_ H2].
    by apply before_asym in H1.
Qed.
Lemma before_total sup a b : a ≠ b -> before sup a b \/ before sup b a.
Proof.
  intros Hne. unfold before.
  destruct (Z.lt_trichotomy (by_support_desc sup a b) 0) as [H|[H|H]].
  - by left.
  - by apply by_support_desc_eq in H.
  - right. by apply by_support_desc_antisym.
Qed.

(** The item of a list that the sort places last. *)
Lemma exists_last_before sup J :
  J ≠ [] -> ∃ x, x ∈ J /\ ∀ j, j ∈ J -> j ≠ x -> before sup j x.
Proof.
  induction J as [|a J IH]; intros Hne; [done|].
  destruct J as [|a' J'].
  - exists a. split; [left|]. by intros j ->%list_elem_of_singleton.
  - destruct IH as (x & Hx & Hlast); [done|].
    destruct (decide (a = x)) as [->|Hax].
    + exists x. split; [left|].
      intros j [->|Hj]%elem_of_cons Hjx; [done|by apply Hlast].
    + destruct (before_total sup a x Hax) as [H|H].
      * exists x. split; [by right|].
        intros j [->|Hj]%elem_of_cons Hjx; [done|by apply Hlast].
      * exists a. split; [left|].
        intros j [->|Hj]%elem_of_cons Hja; [done|].
        destruct (decide (j = x)) as [->|Hjx]; [done|].
        unfold before in *. eapply by_support_desc_lt_trans; [by apply Hlast|done].
Qed.

Lemma weight_of_ext D J J' :
  (∀ j, j ∈ J <-> j ∈ J') -> weight_of D J = weight_of D J'.
Proof.
  intros H. unfold weight_of. apply Zsum_ext. intros pp _.
  assert (contains J (path pp) = contains J' (path pp)) as ->; [|done].
  destruct (contains J (path pp)) eqn:E, (contains J' (path pp)) eqn:E'; try done.
  - rewrite contains_spec in E. assert (contains J' (path pp) = true); [|congruence].
    apply contains_spec. intros j Hj. apply E. by apply H.
  - rewrite contains_spec in E'. assert (contains J (path pp) = true); [|congruence].
    apply contains_spec. intros j Hj. apply E'. by apply H.
Qed.

Lemma weight_of_elem_le D J j :
  database_ok D -> j ∈ J -> weight_of D J <= weight_of D [j].
Proof.
  intros HD Hj. unfold weight_of. apply Zsum_map_le. intros pp Hpp.
  destruct (HD pp Hpp) as [_ Hw]. cbv beta.
  destruct (contains J (path pp)) eqn:E.
  - assert (contains [j] (path pp) = true) as ->; [|lia].
    rewrite contains_spec in E |- *. intros j' ->%list_elem_of_singleton. by apply E.
  - destruct (contains [j] (path pp)); lia.
Qed.

Lemma Zsum_pos_exists {A} (f : A -> Z) l :
  0 < Zsum (f <$> l) -> ∃ a, a ∈ l /\ 0 < f a.
Proof.
  induction l as [|a l IH]; [unfold Zsum; simpl; lia|].
  rewrite fmap_cons, Zsum_cons. intros H.
  destruct (decide (0 < f a)) as [Ha|Ha]; [exists a; split; [left|done]|].
  destruct IH as (a' & Ha' & Hf); [lia|]. exists a'. split; [by right|done].
Qed.

Lemma is_frequent_of_support sup m x :
  0 < support_of sup x -> m <= support_of sup x -> is_frequent sup m x = true.
Proof.
  unfold support_of, is_frequent.
  destruct (JS.get (JS.JSON_stringify x) sup) as [v|]; simpl; [|lia].
  intros _ H. by apply Z.leb_le.
Qed.

(** A tree whose root has no child has no other node. *)
Lemma root_leaf_only t i n :
  heap_shape (nodes t) -> root_is_leaf t = true -> nodes t !! i = Some n -> i = root.
Proof.
  intros Hs Hleaf. revert n. induction i as [i IH] using lt_wf_ind. intros n Hn.
  destruct (decide (i = root)) as [|Hne]; [done|]. exfalso.
  destruct (shape_parent _ Hs i n Hn Hne) as (p & pn & it & Hp & Hit & Hlt & Hpn & Hch).
  assert (p = root) as -> by by eapply IH.
  unfold root_is_leaf in Hleaf. rewrite Hpn in Hleaf.
  destruct (children pn); [by apply elem_of_nil in Hch|done].
Qed.

Lemma mine_leaf b t ps prefix :
  built t -> root_is_leaf t = true -> mine b t ps prefix = [].
Proof.
  intros Hb Hleaf. destruct b as [|b]; [done|].
  assert (Hs : heap_shape (nodes t)) by by apply built_tree_inv.
  destruct (built_headers t Hb) as [hs Hh].
  cbn [mine]. rewrite Hh. cbn [default].
  destruct hs as [|x hs]; [done|]. exfalso.
  destruct (proj1 (built_headers_elem t (x :: hs) x Hb Hh)) as (i & n & Hn & Hit); [left|].
  assert (i = root) as -> by by eapply root_leaf_only.
  destruct (shape_root _ Hs) as (r & Hr & Hnone & _). congruence.
Qed.
Lemma Zsum_ge_term {A} (f : A -> Z) l a :
  (∀ b, b ∈ l -> 0 <= f b) -> a ∈ l -> f a <= Zsum (f <$> l).
Proof.
  induction l as [|b l IH]; intros Hf Ha; [by apply elem_of_nil in Ha|].
  rewrite fmap_cons, Zsum_cons.
  assert (0 <= Zsum (f <$> l)).
  { apply Zsum_map_nonneg. intros c Hc. apply Hf. by right. }
  apply elem_of_cons in Ha as [->|Ha]; [lia|].
  assert (0 <= f b) by (apply Hf; left).
  assert (f a <= Zsum (f <$> l)); [|lia].
  apply IH; [|done]. intros c Hc. apply Hf. by right.
Qed.

Lemma mass_pos_node h x Q :
  0 < mass h x Q -> ∃ i n, h !! i = Some n /\ item n = Some x /\ Q (route h i) = true.
Proof.
  unfold mass. intros (i & Hi & Hpos)%Zsum_pos_exists.
  apply occurrences_elem in Hi as (n & Hn & Hit).
  exists i, n. split_and!; [done..|]. destruct (Q (route h i)); [done|lia].
Qed.

(** An inserted list that weighs more than 0 is in the tree: each of its
    items that passed the pruning has a node whose way from the root is the
    sorted list up to the item. *)
Lemma node_of_list t D pp x :
  represents t D -> pp ∈ D -> 0 < pp_support pp ->
  x ∈ prune_and_sort (supports t) (_support t) (path pp) ->
  ∃ i n, nodes t !! i = Some n /\ item n = Some x /\
         route (nodes t) i = upto x (prune_and_sort (supports t) (_support t) (path pp)).
Proof.
  intros Hr Hpp Hw Hx.
  set (l0 := prune_and_sort (supports t) (_support t) (path pp)) in *.
  destruct (mass_pos_node (nodes t) x (fun r => bool_decide (r = upto x l0)))
    as (i & n & Hn & Hit & HQ).
  - rewrite (represents_mass t D) by done.
    eapply Z.lt_le_trans; [exact Hw|].
    etrans; [|apply (Zsum_ge_term _ D pp); [|done]].
    + cbv beta zeta. fold l0. rewrite decide_True by done.
      by rewrite bool_decide_eq_true_2.
    + intros pp' Hpp'. destruct Hr as (HD & _). destruct (HD pp' Hpp') as [_ Hw'].
      cbv beta zeta. destruct (decide _); [|lia]. case_bool_decide; lia.
  - exists i, n. split_and!; [done..|]. by apply bool_decide_eq_true in HQ.
Qed.

(** The weight of a frequent item is the support of its nodes. *)
Lemma frequent_item_weight t D x :
  represents t D -> is_frequent (supports t) (_support t) x = true ->
  weight_of D [x] = mass (nodes t) x (fun _ => true).
Proof.
  intros Hr Hxf. rewrite (represents_mass t D) by done.
  unfold weight_of. apply Zsum_ext. intros pp Hpp. cbv zeta.
  rewrite contains_singleton.
  destruct (decide (x ∈ prune_and_sort _ _ _)) as [Hx|Hx].
  - apply prune_and_sort_elem in Hx as [_ Hx]. by rewrite bool_decide_true.
  - rewrite bool_decide_false; [done|]. intros Hx'. apply Hx.
    by apply prune_and_sort_elem.
Qed.
(** Every set of items that weighs more than 0 and at least the threshold
    in the database of the tree is found. *)
Lemma mine_complete b : ∀ d t D ps prefix J,
  built t -> represents t D -> depth_le (nodes t) d -> (d < b)%nat ->
  J ≠ [] -> NoDup J -> 0 < weight_of D J -> _support t <= weight_of D J ->
  ∃ i, i ∈ mine b t ps prefix /\ items i ≡ₚ prefix ++ J.
Proof.
  induction b as [|b IH]; intros d t D ps prefix J Hb Hr Hd Hlt HJ Hnd Hpos Hm; [lia|].
  assert (Hs := represents_shape t D Hr).
  assert (HD : database_ok D) by apply Hr.
  destruct (exists_last_before (supports t) J HJ) as (x & Hx & Hlast).
  apply elem_of_Permutation in Hx as [J' HJ'].
  rewrite HJ' in Hnd. apply NoDup_cons in Hnd as [HxJ' Hnd'].
  assert (Hbef : ∀ j, j ∈ J' -> before (supports t) j x).
  { intros j Hj. apply Hlast; [rewrite HJ'; by right|by intros ->]. }
  assert (HwJ : weight_of D J = weight_of D (x :: J')).
  { apply weight_of_ext. intros j. by rewrite HJ'. }
  rewrite HwJ in Hpos, Hm.
  assert (Hfreq : ∀ j, j ∈ x :: J' -> is_frequent (supports t) (_support t) j = true).
  { intros j Hj. pose proof (weight_of_elem_le D (x :: J') j HD Hj).
    destruct Hr as (_ & _ & Htab).
    apply is_frequent_of_support; rewrite Htab; lia. }
  (* a list of the database that has all of [x :: J'] *)
  destruct (Zsum_pos_exists _ D Hpos) as (pp & Hpp & Hppw).
  destruct (contains (x :: J') (path pp)) eqn:Hc; [|lia].
  rewrite contains_spec in Hc.
  set (l := prune_and_sort (supports t) (_support t) (path pp)).
  assert (Hl : ∀ j, j ∈ x :: J' -> j ∈ l).
  { intros j Hj. apply prune_and_sort_elem. split; [by apply Hfreq|by apply Hc]. }
  destruct (node_of_list t D pp x Hr Hpp Hppw) as (k & n & Hn & Hit & Hroute);
    [apply Hl; left|]. fold l in Hroute.
  (* [x] is a header *)
  destruct (built_headers t Hb) as [hs Hh].
  assert (Hxhs : x ∈ hs) by (apply (built_headers_elem t hs x Hb Hh); eauto).
  cbn [mine]. rewrite Hh. cbn [default].
  destruct J' as [|j0 J'].
  - eexists. split.
    + apply flat_map_elem. exists x. split; [done|left].
    + cbn [items]. by rewrite HJ'.
  - set (J1 := j0 :: J') in *.
    assert (Hanc : ∀ j, j ∈ J1 -> ∃ i n, nodes t !! i = Some n /\ item n = Some x /\
                                         j ∈ ancestors (nodes t) i).
    { intros j Hj. exists k, n. split_and!; [done..|].
      assert (Hjr : j ∈ removelast (upto x l)).
      { apply (sorted_before_upto (before (supports t))).
        - apply before_asym.
        - apply prune_and_sort_sorted. by apply HD.
        - apply Hl. left.
        - apply Hl. by right.
        - by apply Hbef. }
      rewrite <- Hroute, (route_ancestors _ k n x Hs Hn Hit), removelast_snoc in Hjr.
      done. }
    assert (Hwc : weight_of (cond_paths t x) J1 = weight_of D (x :: J1)).
    { apply cond_paths_weight_eq; [done|done|by eauto|done]. }
    assert (Hd0 : d ≠ 0%nat).
    { intros ->. assert (k = root) as ->.
      { eapply root_leaf_only; [done|by apply depth_zero_leaf|done]. }
      destruct (shape_root _ Hs) as (r & Hroot & Hnone & _). congruence. }
    destruct (IH (d - 1)%nat (cond_tree t x) (cond_paths t x)
                 (Z.min (support_of (supports t) x) ps) (prefix ++ [x]) J1)
      as (i & Hi & Hitems).
    + apply cond_tree_built.
    + by eapply cond_tree_represents.
    + by apply cond_tree_depth.
    + lia.
    + done.
    + done.
    + by rewrite Hwc.
    + destruct (cond_tree_fields t x) as (_ & -> & _). by rewrite Hwc.
    + exists i. split.
      * apply flat_map_elem. exists x. split; [done|]. right.
        destruct (root_is_leaf (cond_tree t x)) eqn:El; [|done].
        rewrite mine_leaf in Hi by (done || apply cond_tree_built).
        by apply elem_of_nil in Hi.
      * rewrite Hitems, HJ', <- app_assoc. done.
Qed.
Lemma transactions_tree_represents T m t :
  Forall NoDup T ->
  fromTransactions T (new_FPTree (Miner._getDistinctItemsCount T) m) = JS.Ok t ->
  built t /\ represents t (as_database T) /\ _support t = m.
Proof.
  intros HT Ht.
  destruct (fromTransactions_new_built T (Miner._getDistinctItemsCount T) m)
    as (t' & Ht' & Hb & Hsup & Hm & Hnodes).
  assert (t' = t) as -> by congruence. split_and!; [done| |done].
  split_and!.
  - intros pp (l & -> & Hl)%list_elem_of_fmap. simpl. split; [|lia].
    by eapply Forall_forall in HT.
  - by rewrite Hsup, Hm.
  - intros j. rewrite weight_of_transactions, <- total_times_exact by done.
    unfold support_of. rewrite Hsup, _getDistinctItemsCount_get.
    case_decide as E; [by rewrite E|done].
Qed.

Lemma exact_support_Permutation T J J' :
  J ≡ₚ J' -> exact_support T J = exact_support T J'.
Proof.
  intros H. rewrite <- !weight_of_transactions. apply weight_of_ext.
  intros j. by rewrite H.
Qed.

Lemma NoDup_fmap_lookup {A B} (g : A -> B) (l : list A) k1 k2 a1 a2 :
  NoDup (g <$> l) -> l !! k1 = Some a1 -> l !! k2 = Some a2 -> g a1 = g a2 -> k1 = k2.
Proof.
  intros Hnd H1 H2 E.
  apply (proj1 (NoDup_alt (g <$> l)) Hnd k1 k2 (g a1)).
  - by rewrite list_lookup_fmap, H1.
  - by rewrite list_lookup_fmap, H2, E.
Qed.

(** X9: when no transaction repeats an item, [exec] (general recursion) returns
    every frequent itemset: every non-empty set of items that at least one
    transaction has, and as many transactions as the threshold of the run,
    is returned, with that number as support.  The threshold is the value of
    [Math.ceil(r * transactions.length)] in doubles that the trees compare
    the counts with (8 for 0.28 and 25 transactions). *)
Theorem general_exec_complete (r : Number) (T : list (list N)) :
  Forall NoDup T ->
  ∃ l, General.exec T (Miner.new_FPGrowth r) =
         (Miner.mkFPGrowth (Miner.absolute_support r T) T, (JS.Ok l, l)) /\
       ∀ J, J ≠ [] -> NoDup J ->
            0 < exact_support T J ->
            integer_bound
              (Math_ceil (Number_multiply r (Number_of_Z (Z.of_nat (length T)))))
              <= exact_support T J ->
            ∃ i, i ∈ l /\ items i ≡ₚ J /\ is_support i = exact_support T J.
Proof.
  intros HT.
  destruct (General_exec_mine T (Miner.new_FPGrowth r)) as (t & Ht & ->).
  cbn [Miner._support Miner.new_FPGrowth] in *.
  eexists. split; [done|]. intros J HJ Hnd Hpos Hm.
  destruct (transactions_tree_represents T _ t HT Ht) as (Hb & Hr & Hsup).
  assert (Hs := represents_shape _ _ Hr).
  destruct (mine_complete (length (nodes t)) (length (nodes t) - 1) t (as_database T)
              (Z.of_nat (length T)) [] J) as (i & Hi & Hitems); try done.
  - by apply depth_le_nodes.
  - pose proof (root_valid t Hs). lia.
  - by rewrite weight_of_transactions.
  - by rewrite weight_of_transactions, Hsup.
  - exists i. split_and!; [done|done|].
    destruct (transactions_represents T _ t HT Ht) as [_ Hinv].
    pose proof (mine_exact (as_database T) (length (nodes t)) t
                  (Z.of_nat (length T)) [] Hb Hinv) as Hex.
    eapply Forall_forall in Hex; [|exact Hi].
    rewrite Hex, weight_of_transactions. by apply exact_support_Permutation.
Qed.

Lemma general_exec_complete_witness :
  ∃ l, General.exec example_transactions (Miner.new_FPGrowth Number_0_4) =
         (Miner.mkFPGrowth
            (Miner.absolute_support Number_0_4 example_transactions)
            example_transactions, (JS.Ok l, l)) /\
       ∀ J, J ≠ [] -> NoDup J ->
            0 < exact_support example_transactions J ->
            2 <= exact_support example_transactions J ->
            ∃ i, i ∈ l /\ items i ≡ₚ J /\
                 is_support i = exact_support example_transactions J.
Proof.
  exact (general_exec_complete Number_0_4 example_transactions example_transactions_NoDup).
Defined.

(** X10: when no transaction repeats an item, [exec] (general recursion) returns
    no itemset twice, in whatever order of its items, and no itemset has an
    item twice. *)
Theorem general_exec_no_repeats (r : Number) (T : list (list N)) :
  Forall NoDup T ->
  ∃ l, General.exec T (Miner.new_FPGrowth r) =
         (Miner.mkFPGrowth (Miner.absolute_support r T) T, (JS.Ok l, l)) /\
       (∀ k1 k2 i1 i2, l !! k1 = Some i1 -> l !! k2 = Some i2 ->
                       items i1 ≡ₚ items i2 -> k1 = k2) /\
       Forall (fun i => NoDup (items i)) l.
Proof.
  intros HT.
  destruct (General_exec_mine T (Miner.new_FPGrowth r)) as (t & Ht & ->).
  cbn [Miner._support Miner.new_FPGrowth] in *.
  eexists. split; [done|].
  destruct (transactions_tree_represents T _ t HT Ht) as (Hb & Hr & _).
  split.
  - intros k1 k2 i1 i2 H1 H2 E.
    apply (NoDup_fmap_lookup (fun i => canonical (items i)) _ k1 k2 i1 i2
             (mine_NoDup _ t (as_database T) _ [] Hb Hr) H1 H2).
    by apply canonical_Permutation.
  - eapply Forall_impl; [by apply (mine_grown _ t (as_database T))|].
    intros i (K & HK & _ & Hnd & _). by rewrite HK.
Qed.

Lemma general_exec_no_repeats_witness :
  ∃ l, General.exec example_transactions (Miner.new_FPGrowth Number_0_4) =
         (Miner.mkFPGrowth
            (Miner.absolute_support Number_0_4 example_transactions)
            example_transactions, (JS.Ok l, l)) /\
       (∀ k1 k2 i1 i2, l !! k1 = Some i1 -> l !! k2 = Some i2 ->
                       items i1 ≡ₚ items i2 -> k1 = k2) /\
       Forall (fun i => NoDup (items i)) l.
Proof.
  exact (general_exec_no_repeats Number_0_4 example_transactions example_transactions_NoDup).
Defined.
(** ** fpgrowth.ts with the shortcut: the same frequent itemsets *)

Lemma as_set_transfer l1 l2 i2 :
  as_set <$> l2 ≡ₚ as_set <$> l1 -> i2 ∈ l2 ->
  ∃ i1, i1 ∈ l1 /\ items i2 ≡ₚ items i1 /\ is_support i2 = is_support i1.
Proof.
  intros Hp Hi.
  assert (as_set i2 ∈ as_set <$> l1) as (i1 & E & Hi1)%list_elem_of_fmap.
  { rewrite <- Hp. by apply list_elem_of_fmap_2. }
  exists i1. unfold as_set in E. injection E as Ec Es.
  split_and!; [done| |done]. by apply canonical_eq_Permutation.
Qed.

Lemma as_set_canonical (l : list Itemset) :
  (fun i => canonical (items i)) <$> l = items <$> (as_set <$> l).
Proof. by rewrite <- list_fmap_compose. Qed.

(** What the two [exec] return on transactions that repeat no item. *)
Lemma exec_both T r :
  Forall NoDup T ->
  ∃ t, built t /\ represents t (as_database T) /\
       _support t = Miner.threshold r T /\
       exact_inv (as_database T) t (Z.of_nat (length T)) [] /\
       General.exec T (Miner.new_FPGrowth r) =
         (Miner.mkFPGrowth (Miner.absolute_support r T) T,
          (JS.Ok (mine (length (nodes t)) t (Z.of_nat (length T)) []),
           mine (length (nodes t)) t (Z.of_nat (length T)) [])) /\
       Shortcut.exec T (Miner.new_FPGrowth r) =
         (Miner.mkFPGrowth (Miner.absolute_support r T) T,
          (JS.Ok (mine_shortcut (length (nodes t)) t (Z.of_nat (length T)) []),
           mine_shortcut (length (nodes t)) t (Z.of_nat (length T)) [])) /\
       as_set <$> mine_shortcut (length (nodes t)) t (Z.of_nat (length T)) [] ≡ₚ
       as_set <$> mine (length (nodes t)) t (Z.of_nat (length T)) [].
Proof.
  intros HT.
  destruct (General_exec_mine T (Miner.new_FPGrowth r)) as (t & Ht & Hg).
  destruct (Shortcut_exec_mine T (Miner.new_FPGrowth r)) as (t' & Ht' & Hsc).
  cbn [Miner._support Miner.new_FPGrowth] in *.
  rewrite Ht in Ht'. injection Ht' as <-.
  destruct (transactions_tree_represents T _ t HT Ht) as (Hb & Hr & Hsup).
  destruct (transactions_represents T _ t HT Ht) as [_ Hinv].
  assert (Hs := represents_shape _ _ Hr).
  exists t. split_and!; try done.
  apply (mine_shortcut_agrees _ (length (nodes t) - 1) t (as_database T)); [done|done| |].
  - by apply depth_le_nodes.
  - pose proof (root_valid t Hs). lia.
Qed.

(** On transactions that repeat no item, no support is below the threshold
    of the tree, whatever the threshold: one above the number of
    transactions prunes every item. *)
Lemma mine_above_any_threshold T t :
  built t -> represents t (as_database T) ->
  Forall (fun i => _support t <= is_support i)
         (mine (length (nodes t)) t (Z.of_nat (length T)) []).
Proof.
  intros Hb Hr.
  destruct (Z.le_gt_cases (_support t) (Z.of_nat (length T))) as [Hle|Hgt].
  - by apply mine_above_threshold; [|apply (represents_frequent _ _ Hr)|].
  - apply Forall_forall. intros i Hi. exfalso.
    pose proof (mine_grown (length (nodes t)) t (as_database T)
                  (Z.of_nat (length T)) [] Hb Hr) as Hg.
    eapply Forall_forall in Hg as (K & _ & HKne & _ & Hpres); [|exact Hi].
    destruct K as [|j K]; [done|].
    destruct (Hpres j) as (a & n & Hn & Hj); [left|].
    pose proof (represents_frequent _ _ Hr a n Hn) as Hf. simpl in Hf.
    eapply Forall_forall in Hf; [|exact Hj].
    apply is_frequent_support_of in Hf.
    destruct Hr as (_ & _ & Hw). rewrite Hw, weight_of_transactions in Hf.
    pose proof (exact_support_le T [j]). lia.
Qed.

(** The shortcut on transactions that repeat an item: at the relative
    support 0.9 with two transactions the threshold is 2, and two of the
    itemsets have the support 1. *)
Lemma shortcut_below_threshold_with_duplicates :
  Shortcut.exec [[1; 1]; [1]]%N (Miner.new_FPGrowth Number_0_9) =
    (Miner.mkFPGrowth (Number_of_Z 2) [[1; 1]; [1]]%N,
     (JS.Ok [mkItemset [1]%N 2; mkItemset [1; 1]%N 1; mkItemset [1]%N 1],
      [mkItemset [1]%N 2; mkItemset [1; 1]%N 1; mkItemset [1]%N 1])).
Proof. by vm_compute. Qed.

(** X11: when no transaction repeats an item, every itemset that [exec] with the
    shortcut returns or emits has as support the exact number of transactions
    that have all its items, and has no item twice; no support is below the
    threshold of the run, the value of [Math.ceil(r * transactions.length)]
    in doubles that the trees compare the counts with. *)
Theorem shortcut_exec_sound (r : Number) (T : list (list N)) :
  Forall NoDup T ->
  ∃ l, Shortcut.exec T (Miner.new_FPGrowth r) =
         (Miner.mkFPGrowth (Miner.absolute_support r T) T, (JS.Ok l, l)) /\
       Forall (fun i => is_support i = exact_support T (items i) /\ NoDup (items i)) l /\
       Forall (fun i =>
                 integer_bound
                   (Math_ceil
                      (Number_multiply r (Number_of_Z (Z.of_nat (length T)))))
                 <= is_support i) l.
Proof.
  intros HT.
  destruct (exec_both T r HT) as (t & Hb & Hr & Hsup & Hinv & _ & -> & Hag).
  eexists. split; [done|]. split.
  - apply Forall_forall. intros i2 Hi2.
    destruct (as_set_transfer _ _ i2 Hag Hi2) as (i1 & Hi1 & Hitems & Hs).
    pose proof (mine_exact (as_database T) (length (nodes t)) t
                  (Z.of_nat (length T)) [] Hb Hinv) as Hex.
    eapply Forall_forall in Hex; [|exact Hi1].
    pose proof (mine_grown (length (nodes t)) t (as_database T)
                  (Z.of_nat (length T)) [] Hb Hr) as Hg.
    eapply Forall_forall in Hg as (K & HK & _ & Hnd & _); [|exact Hi1].
    split.
    + rewrite Hs, Hex, weight_of_transactions. symmetry.
      by apply exact_support_Permutation.
    + rewrite Hitems, HK. done.
  - apply Forall_forall. intros i2 Hi2.
    destruct (as_set_transfer _ _ i2 Hag Hi2) as (i1 & Hi1 & _ & ->).
    pose proof (mine_above_any_threshold T t Hb Hr) as Hth.
    rewrite Hsup in Hth.
    by eapply Forall_forall in Hth; [|exact Hi1].
Qed.

Lemma shortcut_exec_sound_witness :
  ∃ l, Shortcut.exec example_transactions (Miner.new_FPGrowth Number_0_4) =
         (Miner.mkFPGrowth
            (Miner.absolute_support Number_0_4 example_transactions)
            example_transactions, (JS.Ok l, l)) /\
       Forall (fun i => is_support i = exact_support example_transactions (items i) /\
                        NoDup (items i)) l /\
       Forall (fun i => 2 <= is_support i) l.
Proof.
  exact (shortcut_exec_sound Number_0_4 example_transactions example_transactions_NoDup).
Defined.

(** X12: when no transaction repeats an item, [exec] with the shortcut returns
    every frequent itemset, with its number of transactions as support, and
    returns no itemset twice, in whatever order of its items.  An itemset is
    frequent when at least one transaction has it, and as many as the
    threshold of the run, the value of [Math.ceil(r * transactions.length)]
    in doubles that the trees compare the counts with. *)
Theorem shortcut_exec_complete (r : Number) (T : list (list N)) :
  Forall NoDup T ->
  ∃ l, Shortcut.exec T (Miner.new_FPGrowth r) =
         (Miner.mkFPGrowth (Miner.absolute_support r T) T, (JS.Ok l, l)) /\
       (∀ J, J ≠ [] -> NoDup J ->
             0 < exact_support T J ->
             integer_bound
               (Math_ceil (Number_multiply r (Number_of_Z (Z.of_nat (length T)))))
               <= exact_support T J ->
             ∃ i, i ∈ l /\ items i ≡ₚ J /\ is_support i = exact_support T J) /\
       (∀ k1 k2 i1 i2, l !! k1 = Some i1 -> l !! k2 = Some i2 ->
                       items i1 ≡ₚ items i2 -> k1 = k2).
Proof.
  intros HT.
  destruct (exec_both T r HT) as (t & Hb & Hr & Hsup & Hinv & _ & -> & Hag).
  assert (Hs := represents_shape _ _ Hr).
  eexists. split; [done|]. split.
  - intros J HJ Hnd Hpos Hm.
    destruct (mine_complete (length (nodes t)) (length (nodes t) - 1) t (as_database T)
                (Z.of_nat (length T)) [] J) as (i1 & Hi1 & Hitems); try done.
    + by apply depth_le_nodes.
    + pose proof (root_valid t Hs). lia.
    + by rewrite weight_of_transactions.
    + by rewrite weight_of_transactions, Hsup.
    + symmetry in Hag.
      destruct (as_set_transfer _ _ i1 Hag Hi1) as (i2 & Hi2 & Hit2 & Hs2).
      exists i2. split_and!; [done|by rewrite <- Hit2|].
      pose proof (mine_exact (as_database T) (length (nodes t)) t
                  (Z.of_nat (length T)) [] Hb Hinv) as Hex.
      eapply Forall_forall in Hex; [|exact Hi1].
      rewrite <- Hs2, Hex, weight_of_transactions. by apply exact_support_Permutation.
  - intros k1 k2 i1 i2 H1 H2 E.
    assert (Hnd : NoDup ((fun i => canonical (items i)) <$>
                           mine_shortcut (length (nodes t)) t (Z.of_nat (length T)) [])).
    { rewrite as_set_canonical, Hag, <- as_set_canonical.
      by apply (mine_NoDup _ t (as_database T)). }
    apply (NoDup_fmap_lookup (fun i => canonical (items i)) _ k1 k2 i1 i2 Hnd H1 H2).
    by apply canonical_Permutation.
Qed.

Lemma shortcut_exec_complete_witness :
  ∃ l, Shortcut.exec example_transactions (Miner.new_FPGrowth Number_0_4) =
         (Miner.mkFPGrowth
            (Miner.absolute_support Number_0_4 example_transactions)
            example_transactions, (JS.Ok l, l)) /\
       (∀ J, J ≠ [] -> NoDup J ->
             0 < exact_support example_transactions J ->
             2 <= exact_support example_transactions J ->
             ∃ i, i ∈ l /\ items i ≡ₚ J /\
                  is_support i = exact_support example_transactions J) /\
       (∀ k1 k2 i1 i2, l !! k1 = Some i1 -> l !! k2 = Some i2 ->
                       items i1 ≡ₚ items i2 -> k1 = k2).
Proof.
  exact (shortcut_exec_complete Number_0_4 example_transactions example_transactions_NoDup).
Defined.
(** ** No support is below 1 *)

Definition pos_nodes (h : Heap) : Prop :=
  ∀ i n, h !! i = Some n -> i ≠ root -> 1 <= support n.

Lemma _addItems_step_pos w t cur it :
  1 <= w -> (cur < length (nodes t))%nat -> pos_nodes (nodes t) ->
  pos_nodes (nodes (fst (_addItems_step w (t, cur) it))).
Proof.
  intros Hw Hcur Hpos.
  destruct (getChild (nodes t) cur it) as [c|] eqn:Hg.
  - rewrite (_addItems_step_found _ _ _ _ _ Hg). cbn [fst nodes set_nodes].
    intros i n Hn Hne. rewrite list_lookup_alter in Hn.
    destruct (decide (c = i)) as [->|].
    + destruct (nodes t !! i) as [n0|] eqn:Hn0; [|done].
      injection Hn as <-. cbn [support set_support].
      pose proof (Hpos i n0 Hn0 Hne). lia.
    + by eapply Hpos.
  - rewrite (_addItems_step_created _ _ _ _ Hg). cbn [fst nodes].
    intros i n Hn Hne. rewrite heap_linked_lookup in Hn.
    assert (∃ n', heap_with_child (nodes t) cur it w !! i = Some n' /\
                  support n' = support n) as (n' & Hn' & <-).
    { destruct (decide _); [|by eauto].
      destruct (heap_with_child (nodes t) cur it w !! i) as [n'|]; [|done].
      injection Hn as <-. by exists n'. }
    rewrite heap_with_child_lookup in Hn' by done.
    destruct (decide (i = length (nodes t))); [by injection Hn' as <-|].
    destruct (decide (i = cur)).
    + destruct (nodes t !! i) as [m0|] eqn:Hm0; [|done].
      injection Hn' as <-. cbn [support push_child]. by eapply Hpos.
    + by eapply Hpos.
Qed.

Lemma _addItems_pos items w t :
  1 <= w -> tree_inv t -> pos_nodes (nodes t) -> pos_nodes (nodes (_addItems items w t)).
Proof.
  intros Hw Hinv Hpos. unfold _addItems.
  apply (_addItems_loop_ind
           (fun t cur => tree_inv t /\ (cur < length (nodes t))%nat /\ pos_nodes (nodes t))
           w items t root).
  - intros t' cur it (Hinv' & Hcur & Hpos').
    destruct (_addItems_step_inv w t' cur it Hinv' Hcur) as [? ?].
    split_and!; [done..|]. by apply _addItems_step_pos.
  - split_and!; [done| |done]. apply root_valid, Hinv.
Qed.

Lemma insert_prefixPaths_pos P : ∀ t,
  (∀ pp, pp ∈ P -> 1 <= pp_support pp) -> tree_inv t -> pos_nodes (nodes t) ->
  pos_nodes (nodes (insert_prefixPaths P t)).
Proof.
  induction P as [|pp P IH]; intros t HP Hinv Hpos; [done|].
  unfold insert_prefixPaths. cbn [fold_left]. apply IH.
  - intros pp' Hpp'. apply HP. by right.
  - by apply _addItems_inv.
  - apply _addItems_pos; [apply HP; left|done..].
Qed.

Lemma pos_nodes_new sup m : pos_nodes (nodes (new_FPTree sup m)).
Proof. intros [|i] n Hn Hne; [done|]. by destruct i. Qed.

(** The supports of the nodes and of the items of the tree are at least 1. *)
Definition pos_tree (t : FPTree) : Prop :=
  pos_nodes (nodes t) /\
  ∀ i n x, nodes t !! i = Some n -> item n = Some x -> 1 <= support_of (supports t) x.

Lemma times_in_elem x l : x ∈ l -> (1 <= times_in x l)%nat.
Proof.
  intros H%list_elem_of_In. unfold times_in.
  apply (count_occ_In N.eq_dec) in H. lia.
Qed.

Lemma cond_tree_pos t x : built t -> pos_tree t -> pos_tree (cond_tree t x).
Proof.
  intros Hb [Hpos _]. assert (Hs : heap_shape (nodes t)) by by apply built_tree_inv.
  destruct (cond_tree_fields t x) as (Hsup & Hm & Hnodes).
  assert (Hw : ∀ pp, pp ∈ cond_paths t x -> 1 <= pp_support pp).
  { intros pp (i & n & Hn & Hit & _ & -> & _)%cond_paths_elem.
    apply (Hpos i n Hn). intros ->.
    destruct (shape_root _ Hs) as (r & Hr & Hnone & _). congruence. }
  split.
  - rewrite Hnodes. apply insert_prefixPaths_pos;
      [done|apply tree_inv_new|apply pos_nodes_new].
  - intros i n j Hn Hit. rewrite Hsup, cond_supports_counts.
    assert (Hs' : heap_shape (nodes (cond_tree t x)))
      by apply (built_tree_inv _ (cond_tree_built t x)).
    assert (Hfrom := insert_prefixPaths_from_database (cond_paths t x)
                       (cond_supports t x) (_support t)).
    rewrite <- Hnodes in Hfrom. specialize (Hfrom i n Hn). cbv beta in Hfrom.
    rewrite (route_ancestors _ i n j Hs' Hn Hit) in Hfrom.
    apply Forall_app in Hfrom as [_ Hj]. apply Forall_singleton in Hj as (pp & Hpp & Hj).
    etrans; [|apply (Zsum_ge_term _ (cond_paths t x) pp); [|done]].
    + cbv beta. pose proof (Hw pp Hpp). pose proof (times_in_elem j _ Hj). nia.
    + intros pp' Hpp'. pose proof (Hw pp' Hpp'). cbv beta. nia.
Qed.
Lemma fold_min_lower l : ∀ a b,
  b <= a -> (∀ z, z ∈ l -> b <= z) -> b <= fold_left Z.min l a.
Proof.
  induction l as [|y l IH]; intros a b Ha H; simpl; [done|].
  apply IH; [|intros z Hz; apply H; by right].
  assert (b <= y) by (apply H; left). lia.
Qed.

Lemma header_not_leaf t i n x :
  heap_shape (nodes t) -> nodes t !! i = Some n -> item n = Some x ->
  root_is_leaf t = false.
Proof.
  intros Hs Hn Hit. destruct (root_is_leaf t) eqn:El; [|done].
  assert (i = root) as -> by by eapply root_leaf_only.
  destruct (shape_root _ Hs) as (r & Hr & Hnone & _). congruence.
Qed.

Lemma mine_positive bound t ps prefix :
  built t -> pos_tree t -> (1 <= ps \/ root_is_leaf t = true) ->
  Forall (fun i => 1 <= is_support i) (mine bound t ps prefix).
Proof.
  intros Hb Hpos Hps.
  apply (mine_ind (fun t' ps' _ => pos_tree t' /\ (1 <= ps' \/ root_is_leaf t' = true))
                  (fun i => 1 <= is_support i)); [|done|done].
  clear. intros t ps prefix hs x Hb [Hpos Hps] Hh Hx.
  assert (Hs : heap_shape (nodes t)) by by apply built_tree_inv.
  apply (built_headers_elem t hs x Hb Hh) in Hx as (i & n & Hn & Hit).
  assert (1 <= ps).
  { destruct Hps as [|Hl]; [done|].
    rewrite (header_not_leaf t i n x Hs Hn Hit) in Hl. done. }
  assert (1 <= support_of (supports t) x) by by eapply (proj2 Hpos).
  cbn [is_support]. split; [lia|]. intros _. split; [by apply cond_tree_pos|]. left. lia.
Qed.

Lemma mine_shortcut_positive bound : ∀ t ps prefix,
  built t -> pos_tree t -> (1 <= ps \/ root_is_leaf t = true) ->
  Forall (fun i => 1 <= is_support i) (mine_shortcut bound t ps prefix).
Proof.
  induction bound as [|b IH]; intros t ps prefix Hb Hpos Hps; [constructor|].
  assert (Hs : heap_shape (nodes t)) by by apply built_tree_inv.
  assert (Hps' : ∀ i n x, nodes t !! i = Some n -> item n = Some x -> 1 <= ps).
  { intros i n x Hn Hit. destruct Hps as [|Hl]; [done|].
    rewrite (header_not_leaf t i n x Hs Hn Hit) in Hl. done. }
  cbn [mine_shortcut]. destruct (single_path t) as [p|] eqn:Esp.
  - assert (Hp : single_path_from (nodes t) root p).
    { apply (getSinglePath_Some t p Hb). by rewrite getSinglePath_single_path, Esp. }
    destruct (single_path_from_valid (nodes t) root _ Hs Hp) as (Hgt & _ & Hv).
    apply Forall_fmap, Forall_forall. intros s [Hne Hsub]%combinations_elem.
    cbn [compose subset_itemset is_support].
    assert (Hin : ∀ c, c ∈ s -> c ∈ p) by (intros c Hc; by eapply elem_of_sublist).
    apply fold_min_lower.
    + destruct s as [|c s]; [done|].
      destruct (Hv c) as (cn & it & Hcn & Hit); [apply Hin; left|]. by eapply Hps'.
    + intros z (c & -> & Hc)%list_elem_of_fmap.
      destruct (Hv c (Hin c Hc)) as (cn & it & Hcn & Hit).
      unfold support_at. rewrite Hcn. apply (proj1 Hpos c cn Hcn).
      eapply Forall_forall in Hgt; [|exact (Hin c Hc)]. unfold root in *. lia.
  - destruct (built_headers t Hb) as [hs Hh]. rewrite Hh. cbn [default].
    apply Forall_flat_map, Forall_forall. intros x Hx.
    apply (built_headers_elem t hs x Hb Hh) in Hx as (i & n & Hn & Hit).
    assert (1 <= ps) by by eapply Hps'.
    assert (1 <= support_of (supports t) x) by by eapply (proj2 Hpos).
    constructor; [cbn [is_support]; lia|].
    destruct (root_is_leaf (cond_tree t x)); [constructor|].
    apply IH; [apply cond_tree_built|by apply cond_tree_pos|left; lia].
Qed.

Lemma total_times_elem x l T : l ∈ T -> x ∈ l -> (1 <= total_times x T)%nat.
Proof.
  intros Hl Hx. induction T as [|l' T IH]; [by apply elem_of_nil in Hl|].
  cbn [total_times foldr]. fold (total_times x T).
  apply elem_of_cons in Hl as [->|Hl].
  - pose proof (times_in_elem x l' Hx). lia.
  - specialize (IH Hl). lia.
Qed.

Lemma transactions_tree_pos T m t :
  fromTransactions T (new_FPTree (Miner._getDistinctItemsCount T) m) = JS.Ok t ->
  built t /\ pos_tree t /\ (1 <= Z.of_nat (length T) \/ root_is_leaf t = true).
Proof.
  intros Ht.
  destruct (fromTransactions_new_built T (Miner._getDistinctItemsCount T) m)
    as (t' & Ht' & Hb & Hsup & Hm & Hnodes).
  assert (t' = t) as -> by congruence.
  assert (Hs : heap_shape (nodes t)) by by apply built_tree_inv.
  split_and!; [done| |].
  - split.
    + rewrite Hnodes. apply insert_prefixPaths_pos;
        [|apply tree_inv_new|apply pos_nodes_new].
      by intros pp (l & -> & _)%list_elem_of_fmap.
    + intros i n x Hn Hit.
      assert (Hfrom := insert_prefixPaths_from_database
                         ((fun l => mkPrefixPath l 1) <$> T)
                         (Miner._getDistinctItemsCount T) m).
      rewrite <- Hnodes in Hfrom. specialize (Hfrom i n Hn). cbv beta in Hfrom.
      rewrite (route_ancestors _ i n x Hs Hn Hit) in Hfrom.
      apply Forall_app in Hfrom as [_ Hj].
      apply Forall_singleton in Hj as (pp & (l & -> & Hl)%list_elem_of_fmap & Hx).
      cbn [path] in Hx. pose proof (total_times_elem x l T Hl Hx).
      unfold support_of. rewrite Hsup, _getDistinctItemsCount_get.
      rewrite decide_False by lia. simpl. lia.
  - destruct T as [|l T]; [right|left; cbn [length]; lia].
    unfold root_is_leaf. rewrite Hnodes. done.
Qed.

(** X13: for every list of transactions and every threshold, no itemset that
    [exec] returns or emits, with or without the single-path shortcut, has a
    support below 1. *)
Theorem exec_supports_positive (T : list (list N)) (self : Miner.FPGrowth) :
  ∃ l1 l2,
    General.exec T self =
      (Miner.mkFPGrowth (Miner.absolute_support (Miner._support self) T) T,
       (JS.Ok l1, l1)) /\
    Shortcut.exec T self =
      (Miner.mkFPGrowth (Miner.absolute_support (Miner._support self) T) T,
       (JS.Ok l2, l2)) /\
    Forall (fun i => 1 <= is_support i) l1 /\
    Forall (fun i => 1 <= is_support i) l2.
Proof.
  destruct (General_exec_mine T self) as (t & Ht & ->).
  destruct (Shortcut_exec_mine T self) as (t' & Ht' & ->).
  rewrite Ht in Ht'. injection Ht' as <-.
  destruct (transactions_tree_pos T _ t Ht) as (Hb & Hpos & Hps).
  do 2 eexists. split_and!; [done|done| |].
  - by apply mine_positive.
  - by apply mine_shortcut_positive.
Qed.
(** ** The result as a set of frequent itemsets *)

(** [a] is a frequent itemset of [T] for the relative threshold [r], its
    items in ascending order: a non-empty set of items that at least one
    transaction has, and as many as the threshold that [exec] computes from
    [r], with the number of these transactions. *)
Definition frequent_set (T : list (list N)) (r : Number) (a : Itemset) : Prop :=
  ∃ J, J ≠ [] /\ NoDup J /\
       1 <= exact_support T J /\
       Miner.threshold r T <= exact_support T J /\
       a = mkItemset (canonical J) (exact_support T J).

Lemma mine_characterised T r t :
  Forall NoDup T ->
  built t -> represents t (as_database T) ->
  _support t = Miner.threshold r T ->
  exact_inv (as_database T) t (Z.of_nat (length T)) [] ->
  fromTransactions T (new_FPTree (Miner._getDistinctItemsCount T)
                        (Miner.threshold r T)) = JS.Ok t ->
  ∀ a, a ∈ as_set <$> mine (length (nodes t)) t (Z.of_nat (length T)) [] <->
       frequent_set T r a.
Proof.
  intros HT Hb Hr Hsup Hinv Ht a.
  assert (Hs := represents_shape _ _ Hr).
  set (l := mine (length (nodes t)) t (Z.of_nat (length T)) []).
  split.
  - intros (i & -> & Hi)%list_elem_of_fmap.
    pose proof (mine_exact (as_database T) (length (nodes t)) t
                  (Z.of_nat (length T)) [] Hb Hinv) as Hex.
    eapply Forall_forall in Hex; [|exact Hi]. rewrite weight_of_transactions in Hex.
    pose proof (mine_grown (length (nodes t)) t (as_database T)
                  (Z.of_nat (length T)) [] Hb Hr) as Hg.
    eapply Forall_forall in Hg as (K & HK & HKne & Hnd & _); [|exact Hi].
    pose proof (mine_above_any_threshold T t Hb Hr) as Hth.
    rewrite Hsup in Hth.
    eapply Forall_forall in Hth; [|exact Hi].
    destruct (transactions_tree_pos T _ t Ht) as (_ & Hpos & Hps).
    pose proof (mine_positive (length (nodes t)) t (Z.of_nat (length T)) [] Hb Hpos Hps)
      as Hp.
    eapply Forall_forall in Hp; [|exact Hi].
    exists (items i). unfold as_set. rewrite <- Hex. split_and!; try done.
    + rewrite HK. by destruct K.
    + by rewrite HK.
  - intros (J & HJ & Hnd & Hpos & Hm & ->).
    destruct (mine_complete (length (nodes t)) (length (nodes t) - 1) t (as_database T)
                (Z.of_nat (length T)) [] J) as (i & Hi & Hitems); try done.
    + by apply depth_le_nodes.
    + pose proof (root_valid t Hs). lia.
    + rewrite weight_of_transactions. lia.
    + by rewrite weight_of_transactions, Hsup.
    + apply list_elem_of_fmap. exists i. split; [|done].
      pose proof (mine_exact (as_database T) (length (nodes t)) t
                    (Z.of_nat (length T)) [] Hb Hinv) as Hex.
      eapply Forall_forall in Hex; [|exact Hi]. rewrite weight_of_transactions in Hex.
      unfold as_set. rewrite Hex. f_equal.
      * symmetry. by apply canonical_Permutation.
      * symmetry. by apply exact_support_Permutation.
Qed.

Lemma mine_as_set_NoDup T t ps :
  built t -> represents t (as_database T) ->
  NoDup (as_set <$> mine (length (nodes t)) t ps []).
Proof.
  intros Hb Hr. apply (NoDup_fmap_1 items). rewrite <- as_set_canonical.
  by apply (mine_NoDup _ t (as_database T)).
Qed.

(** What the two [exec] return on transactions that repeat no item: each
    frequent itemset once. *)
Lemma exec_characterised T r :
  Forall NoDup T ->
  ∃ l1 l2,
    General.exec T (Miner.new_FPGrowth r) =
      (Miner.mkFPGrowth (Miner.absolute_support r T) T, (JS.Ok l1, l1)) /\
    Shortcut.exec T (Miner.new_FPGrowth r) =
      (Miner.mkFPGrowth (Miner.absolute_support r T) T, (JS.Ok l2, l2)) /\
    NoDup (as_set <$> l1) /\ NoDup (as_set <$> l2) /\
    (∀ a, a ∈ as_set <$> l1 <-> frequent_set T r a) /\
    (∀ a, a ∈ as_set <$> l2 <-> frequent_set T r a).
Proof.
  intros HT.
  destruct (General_exec_mine T (Miner.new_FPGrowth r)) as (t & Ht & ->).
  destruct (Shortcut_exec_mine T (Miner.new_FPGrowth r)) as (t' & Ht' & ->).
  cbn [Miner._support Miner.new_FPGrowth] in *.
  rewrite Ht in Ht'. injection Ht' as <-.
  destruct (transactions_tree_represents T _ t HT Ht) as (Hb & Hr & Hsup).
  destruct (transactions_represents T _ t HT Ht) as [_ Hinv].
  assert (Hs := represents_shape _ _ Hr).
  assert (Hag : as_set <$> mine_shortcut (length (nodes t)) t (Z.of_nat (length T)) [] ≡ₚ
                as_set <$> mine (length (nodes t)) t (Z.of_nat (length T)) []).
  { apply (mine_shortcut_agrees _ (length (nodes t) - 1) t (as_database T)); [done|done| |].
    - by apply depth_le_nodes.
    - pose proof (root_valid t Hs). lia. }
  do 2 eexists. split_and!; [done|done|..].
  - by apply (mine_as_set_NoDup T).
  - rewrite Hag. by apply (mine_as_set_NoDup T).
  - by apply mine_characterised.
  - intros a. rewrite Hag. by apply mine_characterised.
Qed.

(** *** The order of the input does not matter *)

Lemma contains_Permutation J l l' : l ≡ₚ l' -> contains J l = contains J l'.
Proof. intros H. apply contains_ext. intros j _. by rewrite H. Qed.

Lemma exact_support_reorder T T' T'' J :
  T ≡ₚ T' -> Forall2 (≡ₚ) T' T'' -> exact_support T J = exact_support T'' J.
Proof.
  intros Hp Hf. unfold exact_support. f_equal.
  transitivity (length (List.filter (contains J) T')).
  - apply Permutation_length. clear Hf.
    induction Hp as [|x l l' Hp IH|x y l|l l' l'' H1 IH1 H2 IH2]; cbn [List.filter].
    + done.
    + destruct (contains J x); [by apply Permutation_skip|done].
    + destruct (contains J x), (contains J y); try done. apply Permutation_swap.
    + by etrans.
  - clear Hp. induction Hf as [|l l' T1 T2 Hl Hf IH]; [done|].
    cbn [List.filter]. rewrite (contains_Permutation J l l' Hl).
    destruct (contains J l'); cbn [length]; by rewrite IH.
Qed.

Lemma frequent_set_reorder T T' T'' r a :
  T ≡ₚ T' -> Forall2 (≡ₚ) T' T'' -> frequent_set T r a <-> frequent_set T'' r a.
Proof.
  intros Hp Hf.
  assert (Hlen : length T = length T'').
  { rewrite (Permutation_length Hp). by eapply Forall2_length. }
  assert (Habs : Miner.threshold r T = Miner.threshold r T'').
  { unfold Miner.threshold, Miner.absolute_support. by rewrite Hlen. }
  unfold frequent_set. split; intros (J & HJ & Hnd & H1 & Hm & ->); exists J.
  - rewrite <- Habs, <- !(exact_support_reorder T T' T'' J Hp Hf). by split_and!.
  - rewrite Habs, !(exact_support_reorder T T' T'' J Hp Hf). by split_and!.
Qed.

Lemma NoDup_reorder (T T' T'' : list (list N)) :
  T ≡ₚ T' -> Forall2 (≡ₚ) T' T'' -> Forall NoDup T -> Forall NoDup T''.
Proof.
  intros Hp Hf HT. rewrite Hp in HT. clear Hp.
  induction Hf as [|l l' T1 T2 Hl Hf IH]; [done|].
  apply Forall_cons in HT as [Hnd HT]. constructor; [by rewrite <- Hl|by apply IH].
Qed.

(** X14: when no transaction repeats an item and the relative threshold is at
    most 1, the itemsets that [exec] returns, with their supports, do not
    depend on the order of the transactions nor on the order of the items in
    a transaction: reordering the input gives the same itemsets, each as many
    times, itemsets taken as sets of items; with and without the single-path
    shortcut. *)
Theorem exec_order_independent (r : Number) (T T' T'' : list (list N)) :
  Forall NoDup T -> Number_le r (Number_of_Z 1) ->
  T ≡ₚ T' -> Forall2 (≡ₚ) T' T'' ->
  ∃ l1 l2 m1 m2,
    fst (snd (General.exec T (Miner.new_FPGrowth r))) = JS.Ok l1 /\
    fst (snd (General.exec T'' (Miner.new_FPGrowth r))) = JS.Ok m1 /\
    fst (snd (Shortcut.exec T (Miner.new_FPGrowth r))) = JS.Ok l2 /\
    fst (snd (Shortcut.exec T'' (Miner.new_FPGrowth r))) = JS.Ok m2 /\
    as_set <$> l1 ≡ₚ as_set <$> m1 /\
    as_set <$> l2 ≡ₚ as_set <$> m2.
Proof.
  intros HT Hr1 Hp Hf.
  assert (HT'' := NoDup_reorder T T' T'' Hp Hf HT).
  destruct (exec_characterised T r HT) as (l1 & l2 & -> & -> & N1 & N2 & C1 & C2).
  destruct (exec_characterised T'' r HT'') as (m1 & m2 & -> & -> & M1 & M2 & D1 & D2).
  exists l1, l2, m1, m2. split_and!; [done..| |].
  - apply NoDup_Permutation; [done..|]. intros a.
    by rewrite C1, D1, (frequent_set_reorder T T' T'' r a Hp Hf).
  - apply NoDup_Permutation; [done..|]. intros a.
    by rewrite C2, D2, (frequent_set_reorder T T' T'' r a Hp Hf).
Qed.

Lemma exec_order_independent_witness :
  ∃ l1 l2 m1 m2,
    fst (snd (General.exec [[1; 2]; [2; 3]]%N (Miner.new_FPGrowth Number_0_5))) = JS.Ok l1 /\
    fst (snd (General.exec [[3; 2]; [2; 1]]%N (Miner.new_FPGrowth Number_0_5))) = JS.Ok m1 /\
    fst (snd (Shortcut.exec [[1; 2]; [2; 3]]%N (Miner.new_FPGrowth Number_0_5))) = JS.Ok l2 /\
    fst (snd (Shortcut.exec [[3; 2]; [2; 1]]%N (Miner.new_FPGrowth Number_0_5))) = JS.Ok m2 /\
    as_set <$> l1 ≡ₚ as_set <$> m1 /\
    as_set <$> l2 ≡ₚ as_set <$> m2.
Proof.
  apply (exec_order_independent Number_0_5 [[1; 2]; [2; 3]]%N [[2; 3]; [1; 2]]%N
           [[3; 2]; [2; 1]]%N).
  - apply (bool_decide_unpack _). by vm_compute.
  - by vm_compute.
  - apply Permutation_swap.
  - repeat constructor; apply Permutation_swap.
Defined.
(** *** A higher threshold only removes itemsets *)

Lemma Number_multiply_bounded s n :
  Number_bounded (Number_multiply s (Number_of_Z n)).
Proof.
  destruct s as [u| | |]; unfold Number_multiply, Number_of_Z; [|..|done].
  - apply round_to_double_bounded.
  - by destruct (_ * _).
  - by destruct (_ * _).
Qed.

Lemma Number_multiply_PosInfinity n :
  0 < n -> Number_multiply PosInfinity (Number_of_Z n) = PosInfinity.
Proof.
  intros Hn. unfold Number_multiply, Number_of_Z, Number_sign.
  rewrite Z.sgn_pos; [done|].
  apply Z.mul_pos_pos; [done|by apply Z.pow_pos_nonneg].
Qed.

Lemma Number_multiply_NegInfinity n :
  0 < n -> Number_multiply NegInfinity (Number_of_Z n) = NegInfinity.
Proof.
  intros Hn. unfold Number_multiply, Number_of_Z, Number_sign.
  rewrite Z.sgn_pos; [done|].
  apply Z.mul_pos_pos; [done|by apply Z.pow_pos_nonneg].
Qed.

(** The conversion is monotone in the relative support: the product is
    rounded to the nearest double, and the nearest double of a greater
    number is not less. *)
Lemma threshold_mono r r' T :
  Number_le r r' -> T ≠ [] -> Miner.threshold r T <= Miner.threshold r' T.
Proof.
  intros Hle HT. rewrite !threshold_product.
  apply integer_bound_mono; [apply Number_multiply_bounded..|].
  assert (Hn : 0 < Z.of_nat (length T)) by (destruct T; [done|simpl length; lia]).
  assert (HP : 0 < 2 ^ 1074) by (by apply Z.pow_pos_nonneg).
  destruct r as [u| | |], r' as [v| | |]; try done;
    rewrite ?Number_multiply_PosInfinity, ?Number_multiply_NegInfinity by done;
    try done.
  - cbn [Number_multiply Number_of_Z]. apply round_to_double_mono.
    cbn [Number_le] in Hle. nia.
  - cbn [Number_multiply Number_of_Z].
    pose proof (round_to_double_not_NaN (u * (Z.of_nat (length T) * 2 ^ 1074))).
    by destruct (round_to_double _).
  - cbn [Number_multiply Number_of_Z].
    pose proof (round_to_double_not_NaN (v * (Z.of_nat (length T) * 2 ^ 1074))).
    by destruct (round_to_double _).
Qed.

Lemma frequent_set_mono T r r' a :
  Number_le r r' -> frequent_set T r' a -> frequent_set T r a.
Proof.
  intros H (J & HJ & Hnd & H1 & Hm & ->). exists J. split_and!; try done.
  assert (HT : T ≠ []).
  { intros ->. unfold exact_support in H1. simpl in H1. lia. }
  pose proof (threshold_mono r r' T H HT). lia.
Qed.

(** X15: when no transaction repeats an item, every itemset that [exec]
    returns for a relative threshold of at most 1 is also returned, with the
    same support, for every lower threshold, itemsets taken as sets of items;
    with and without the single-path shortcut. *)
Theorem exec_threshold_monotone (r r' : Number) (T : list (list N)) :
  Forall NoDup T -> Number_le r r' -> Number_le r' (Number_of_Z 1) ->
  ∃ l1 l2 m1 m2,
    fst (snd (General.exec T (Miner.new_FPGrowth r))) = JS.Ok l1 /\
    fst (snd (General.exec T (Miner.new_FPGrowth r'))) = JS.Ok m1 /\
    fst (snd (Shortcut.exec T (Miner.new_FPGrowth r))) = JS.Ok l2 /\
    fst (snd (Shortcut.exec T (Miner.new_FPGrowth r'))) = JS.Ok m2 /\
    (∀ a, a ∈ as_set <$> m1 -> a ∈ as_set <$> l1) /\
    (∀ a, a ∈ as_set <$> m2 -> a ∈ as_set <$> l2).
Proof.
  intros HT Hrr Hr1.
  destruct (exec_characterised T r HT) as (l1 & l2 & -> & -> & _ & _ & C1 & C2).
  destruct (exec_characterised T r' HT) as (m1 & m2 & -> & -> & _ & _ & D1 & D2).
  exists l1, l2, m1, m2. split_and!; [done..| |].
  - intros a Ha. apply C1, (frequent_set_mono T r r' a Hrr), D1, Ha.
  - intros a Ha. apply C2, (frequent_set_mono T r r' a Hrr), D2, Ha.
Qed.

Lemma exec_threshold_monotone_witness :
  ∃ l1 l2 m1 m2,
    fst (snd (General.exec example_transactions (Miner.new_FPGrowth Number_0_4))) = JS.Ok l1 /\
    fst (snd (General.exec example_transactions (Miner.new_FPGrowth Number_0_6))) = JS.Ok m1 /\
    fst (snd (Shortcut.exec example_transactions (Miner.new_FPGrowth Number_0_4))) = JS.Ok l2 /\
    fst (snd (Shortcut.exec example_transactions (Miner.new_FPGrowth Number_0_6))) = JS.Ok m2 /\
    (∀ a, a ∈ as_set <$> m1 -> a ∈ as_set <$> l1) /\
    (∀ a, a ∈ as_set <$> m2 -> a ∈ as_set <$> l2).
Proof.
  apply (exec_threshold_monotone Number_0_4 Number_0_6 example_transactions).
  - exact example_transactions_NoDup.
  - by vm_compute.
  - by vm_compute.
Defined.

(** *** No item to mine *)

Lemma insert_transactions_empty T : ∀ t,
  Forall (fun l => l = []) T -> insert_transactions T t = t.
Proof.
  induction T as [|l T IH]; intros t HT; [done|].
  apply Forall_cons in HT as [-> HT].
  unfold insert_transactions. cbn [fold_left].
  change (prune_and_sort (supports t) (_support t) []) with (@nil N).
  unfold _addItems at 2. cbn [fold_left fst]. by apply IH.
Qed.

Lemma _getDistinctItemsCount_empty T :
  Forall (fun l => l = []) T -> Miner._getDistinctItemsCount T = [].
Proof.
  intros HT. unfold Miner._getDistinctItemsCount.
  match goal with |- fold_left ?F T _ = _ =>
    enough (H : ∀ acc, fold_left F T acc = acc) by apply H end.
  induction T as [|l T IH]; intros acc; [done|].
  apply Forall_cons in HT as [-> HT]. cbn [fold_left]. by apply IH.
Qed.

(** X16: with no transaction, or transactions without items, [exec] resolves
    with no itemset and emits nothing, whatever the threshold; with and
    without the single-path shortcut. *)
Theorem exec_without_items (T : list (list N)) (self : Miner.FPGrowth) :
  Forall (fun l => l = []) T ->
  snd (General.exec T self) = (JS.Ok [], []) /\
  snd (Shortcut.exec T self) = (JS.Ok [], []).
Proof.
  intros HT. unfold General.exec, Shortcut.exec. cbn [snd].
  rewrite (_getDistinctItemsCount_empty T HT).
  rewrite fromTransactions_unfold. cbn [_isInit new_FPTree].
  rewrite (insert_transactions_empty T _ HT). done.
Qed.

Lemma exec_without_items_witness :
  snd (General.exec [[]; []] (Miner.new_FPGrowth Number_0_5)) = (JS.Ok [], []) /\
  snd (Shortcut.exec [[]; []] (Miner.new_FPGrowth Number_0_5)) = (JS.Ok [], []).
Proof.
  apply (exec_without_items [[]; []] (Miner.new_FPGrowth Number_0_5)).
  by repeat constructor.
Defined.
(** ** The order of the events *)

(** The itemset at place [k] of [l] extends the prefix; when it has more
    items than one more than the prefix, the itemset without its last item
    stands at an earlier place, with a support that is not smaller. *)
Definition after_parent (prefix : list N) (ps : Z) (l : list Itemset) (k : nat)
    (i : Itemset) : Prop :=
  ∃ K y, items i = prefix ++ K ++ [y] /\ is_support i <= ps /\
         (K ≠ [] -> ∃ k' i', (k' < k)%nat /\ l !! k' = Some i' /\
                             items i' = prefix ++ K /\ is_support i <= is_support i').

Lemma after_parent_app_l prefix ps l1 l2 k i :
  after_parent prefix ps l1 k i -> after_parent prefix ps (l1 ++ l2) k i.
Proof.
  intros (K & y & E & Hs & Hp). exists K, y. split_and!; [done..|].
  intros HK. destruct (Hp HK) as (k' & i' & Hlt & Hl & Hi' & Hle).
  exists k', i'. split_and!; [done| |done|done]. by apply lookup_app_l_Some.
Qed.

Lemma after_parent_app_r prefix ps l1 l2 k i :
  after_parent prefix ps l2 k i -> after_parent prefix ps (l1 ++ l2) (length l1 + k) i.
Proof.
  intros (K & y & E & Hs & Hp). exists K, y. split_and!; [done..|].
  intros HK. destruct (Hp HK) as (k' & i' & Hlt & Hl & Hi' & Hle).
  exists (length l1 + k')%nat, i'. split_and!; [lia| |done|done].
  by rewrite lookup_app_r, Nat.add_comm, Nat.add_sub by lia.
Qed.

Lemma flat_map_after_parent {A} (F : A -> list Itemset) prefix ps hs :
  (∀ x k i, x ∈ hs -> F x !! k = Some i -> after_parent prefix ps (F x) k i) ->
  ∀ k i, flat_map F hs !! k = Some i -> after_parent prefix ps (flat_map F hs) k i.
Proof.
  induction hs as [|x hs IH]; intros HF k i Hk; [done|].
  cbn [flat_map] in *. apply lookup_app_Some in Hk as [Hk|[Hge Hk]].
  - apply after_parent_app_l. apply (HF x); [left|done].
  - replace k with (length (F x) + (k - length (F x)))%nat by lia.
    apply after_parent_app_r. apply IH; [|done].
    intros y k' i' Hy. apply HF. by right.
Qed.

Lemma mine_after_parent b : ∀ t ps prefix k i,
  built t -> mine b t ps prefix !! k = Some i ->
  after_parent prefix ps (mine b t ps prefix) k i.
Proof.
  induction b as [|b IH]; intros t ps prefix k i Hb Hk; [done|].
  cbn [mine] in *. apply flat_map_after_parent; [|done].
  clear k i Hk. intros x k i _ Hk.
  set (s := Z.min (support_of (supports t) x) ps) in *.
  destruct k as [|k].
  - injection Hk as <-. exists [], x. cbn [items is_support]. split_and!; [done|lia|done].
  - cbn [lookup list_lookup] in Hk.
    destruct (root_is_leaf (cond_tree t x)); [done|].
    destruct (IH (cond_tree t x) s (prefix ++ [x]) k i (cond_tree_built t x) Hk)
      as (K & y & E & Hs & Hp).
    exists (x :: K), y. split_and!.
    + rewrite E, <- app_assoc. done.
    + lia.
    + intros _. destruct (decide (K = [])) as [->|HK].
      * eexists 0%nat, _. split_and!; [lia|done|done|].
        cbn [is_support]. fold s. lia.
      * destruct (Hp HK) as (k' & i' & Hlt & Hl & Hi' & Hle).
        exists (S k'), i'. split_and!; [lia|done| |done].
        rewrite Hi', <- app_assoc. done.
Qed.

(** X17: [exec] (general recursion) emits and returns an itemset of more than
    one item after the itemset of its items but the last, whose support is
    not smaller; so the supports do not grow as items are added.  This holds
    for every list of transactions and every threshold. *)
Theorem general_exec_emits_parents_first (T : list (list N)) (self : Miner.FPGrowth) :
  ∃ l, snd (General.exec T self) = (JS.Ok l, l) /\
       ∀ k i, l !! k = Some i ->
         ∃ K y, items i = K ++ [y] /\
                (K ≠ [] -> ∃ k' i', (k' < k)%nat /\ l !! k' = Some i' /\
                                    items i' = K /\ is_support i <= is_support i').
Proof.
  destruct (General_exec_mine T self) as (t & Ht & ->). cbn [snd].
  eexists. split; [done|]. intros k i Hk.
  assert (Hb : built t) by (by eapply built_fromTransactions).
  destruct (mine_after_parent _ t _ [] k i Hb Hk) as (K & y & E & _ & Hp).
  exists K, y. split; [done|]. intros HK.
  destruct (Hp HK) as (k' & i' & Hlt & Hl & Hi' & Hle). by exists k', i'.
Qed.
(** ** Insertion only adds *)

(** Every node of [h] is in [h'] at the same place, with the same item and
    parent, a support that is not smaller, and its children first among the
    children it has in [h']. *)
Definition extends (h h' : Heap) : Prop :=
  ∀ i n, h !! i = Some n ->
    ∃ n', h' !! i = Some n' /\ item n' = item n /\ parent n' = parent n /\
          support n <= support n' /\ children n `prefix_of` children n'.

Lemma extends_refl h : extends h h.
Proof. intros i n Hn. exists n. by split_and!. Qed.

Lemma extends_trans h1 h2 h3 : extends h1 h2 -> extends h2 h3 -> extends h1 h3.
Proof.
  intros H12 H23 i n Hn.
  destruct (H12 i n Hn) as (n2 & Hn2 & Hi2 & Hp2 & Hs2 & Hc2).
  destruct (H23 i n2 Hn2) as (n3 & Hn3 & Hi3 & Hp3 & Hs3 & Hc3).
  exists n3. split_and!; [done|congruence|congruence|lia|by etrans].
Qed.

Lemma _addItems_step_extends w t cur it :
  0 <= w -> (cur < length (nodes t))%nat ->
  extends (nodes t) (nodes (fst (_addItems_step w (t, cur) it))).
Proof.
  intros Hw Hcur.
  destruct (getChild (nodes t) cur it) as [c|] eqn:Hg.
  - rewrite (_addItems_step_found _ _ _ _ _ Hg). cbn [fst nodes set_nodes].
    intros i n Hn. rewrite list_lookup_alter.
    destruct (decide (c = i)) as [->|]; rewrite Hn.
    + eexists. split; [reflexivity|]. cbn [item parent support children set_support].
      split_and!; [done|done|lia|done].
    + exists n. by split_and!.
  - rewrite (_addItems_step_created _ _ _ _ Hg). cbn [fst nodes].
    intros i n Hn. rewrite heap_linked_lookup.
    destruct (heap_with_child_keep (nodes t) cur it w i n Hcur Hn)
      as (n1 & Hn1 & Hi1 & Hp1 & Hs1 & _ & Hc1).
    rewrite Hn1.
    assert (Hpre : children n `prefix_of` children n1).
    { rewrite Hc1. destruct (decide (i = cur)); [by apply prefix_app_r|done]. }
    clear Hc1. destruct (decide (JS.get _ _ = Some i)).
    + eexists. split; [reflexivity|].
      cbn [item parent support children set_nextSameItemNode].
      split_and!; [done|done|lia|done].
    + exists n1. split_and!; [done|done|done|lia|done].
Qed.

Lemma _addItems_extends items w t :
  0 <= w -> tree_inv t -> extends (nodes t) (nodes (_addItems items w t)).
Proof.
  intros Hw Hinv. unfold _addItems.
  apply (_addItems_loop_ind
           (fun t' cur => tree_inv t' /\ (cur < length (nodes t'))%nat /\
                          extends (nodes t) (nodes t'))
           w items t root).
  - intros t' cur it (Hinv' & Hcur & Hext).
    destruct (_addItems_step_inv w t' cur it Hinv' Hcur) as [? ?].
    split_and!; [done..|].
    eapply extends_trans; [exact Hext|]. by apply _addItems_step_extends.
  - split_and!; [done| |apply extends_refl]. apply root_valid, Hinv.
Qed.

(** X18: inserting a list of items with a weight of at least 0 into a tree
    under construction removes and moves no node: every node keeps its place,
    its item and its parent, its support does not decrease, and its children
    stay the first of its children.  So does the insertion of any number of
    prefix paths. *)
Theorem insertion_only_adds (t : FPTree) :
  under_construction t ->
  (∀ items w, 0 <= w -> extends (nodes t) (nodes (_addItems items w t))) /\
  (∀ P, (∀ pp, pp ∈ P -> 0 <= pp_support pp) ->
        extends (nodes t) (nodes (insert_prefixPaths P t))).
Proof.
  intros Huc. split.
  - intros items w Hw. apply _addItems_extends; [done|by apply under_construction_inv].
  - intros P. revert t Huc. induction P as [|pp P IH]; intros t Huc HP.
    + apply extends_refl.
    + unfold insert_prefixPaths. cbn [fold_left].
      eapply extends_trans.
      * apply (_addItems_extends
                 (prune_and_sort (supports t) (_support t) (path pp)) (pp_support pp) t);
          [apply HP; left|by apply under_construction_inv].
      * apply IH; [by constructor|]. intros pp' Hpp'. apply HP. by right.
Qed.

Lemma insertion_only_adds_witness :
  extends (nodes example_tree) (nodes (_addItems [3; 2; 1]%N 2 example_tree)).
Proof.
  apply (proj1 (insertion_only_adds example_tree example_tree_under_construction)
           [3; 2; 1]%N 2).
  lia.
Defined.
